(** * advanced-vector: a shallow embedding of [vector.h]

    [RawMemory<T>] owns one block of raw storage, [Vector<T>] owns a
    [RawMemory<T>] and a length.  The embedding keeps what the C++ text
    manipulates:

    - raw blocks live in a heap indexed by block identifiers; a cell of a
      block is either raw storage ([None]) or holds a constructed object
      ([Some v]);
    - a [T*] is a block (or null) and an offset, with pointer arithmetic on
      the offset;
    - [size_t] is a [Z] reduced modulo [2^64] after every arithmetic step,
      the byte count [n * sizeof(T)] that [Allocate] passes to
      [operator new] included;
    - [operator new] throws [std::bad_alloc] for a request of more than
      [PTRDIFF_MAX] bytes, and for any other request when it has no
      memory, which is fixed by a schedule as for the operations of the
      element type; the block it returns has room for as many objects as
      fit into the bytes asked for;
    - [Vector] objects live in a store indexed by their address, so that
      [this != &rhs] is a comparison of addresses;
    - the special member functions of the element type [T] may throw; which
      invocation throws is fixed by a schedule that belongs to the
      instantiation, and the world counts the invocations and the live
      instances;
    - [assert] is compiled in: a failing assertion ends the run as
      [AssertFail]; behaviour the language leaves undefined ends it as
      [Undef]. *)

From stdpp Require Import base option list gmap numbers.
From Stdlib Require Import ZArith Lia.

Local Open Scope Z_scope.

(** ** Machine integers and pointers *)

Definition size_max : Z := 2 ^ 64.

(** Arithmetic on [size_t] wraps around. *)
Definition wrap (z : Z) : Z := z mod size_max.

(** [PTRDIFF_MAX], the size in bytes of the largest block [operator new]
    hands out. *)
Definition ptrdiff_max : Z := 2 ^ 63 - 1.

(** A [T*]: the block it points into ([None] for a pointer derived from
    [nullptr]) and the element offset inside the block. *)
Inductive ptr := Ptr (base : option positive) (off : Z).

Global Instance ptr_eq_dec : EqDecision ptr.
Proof. solve_decision. Defined.

Definition nullptr : ptr := Ptr None 0.

Definition ptr_add (p : ptr) (n : Z) : ptr :=
  match p with Ptr b o => Ptr b (o + n) end.

Definition ptr_base (p : ptr) : option positive :=
  match p with Ptr b _ => b end.

Definition ptr_off (p : ptr) : Z :=
  match p with Ptr _ o => o end.

Infix "+ₚ" := ptr_add (at level 50, left associativity).

(** ** The element type *)

(** The operations that may throw: the special member functions of [T]
    the container invokes, and [operator new]. *)
Inductive op_kind :=
  | ValueInit   (* T()                      *)
  | CtorArgs    (* T(args...), another constructor *)
  | CopyCtor    (* T(const T&)              *)
  | MoveCtor    (* T(T&&)                   *)
  | CopyAssign  (* operator=(const T&)      *)
  | MoveAssign  (* operator=(T&&)           *)
  | New.        (* operator new(bytes)      *)

Global Instance op_kind_eq_dec : EqDecision op_kind.
Proof. solve_decision. Defined.

(** What the template needs to know about its instantiation with [T]:
    [sizeof(T)], which is a positive [size_t], the two type traits that
    [if constexpr] inspects, which invocation of which operation throws
    (for a special member function of [T] the invocations are counted
    from 0; for [operator new] they are numbered by the allocator's
    counter), the state a moved-from object is left in and the value of
    [T()]. *)
Record ElemType (A : Type) := {
  sizeof : positive;
  sizeof_size_t : Z.pos sizeof < size_max;
  nothrow_move_constructible : bool;
  copy_constructible : bool;
  throws : op_kind → nat → bool;
  moved_from : A → A;
  value_init : A;
}.
Arguments sizeof {A} _.
Arguments sizeof_size_t {A} _.
Arguments nothrow_move_constructible {A} _.
Arguments copy_constructible {A} _.
Arguments throws {A} _ _ _.
Arguments moved_from {A} _ _.
Arguments value_init {A} _.

(** A type declared [noexcept]-movable never throws from its move
    constructor. *)
Definition traits_sound {A} (T : ElemType A) : Prop :=
  nothrow_move_constructible T = true → ∀ n, throws T MoveCtor n = false.

(** No special member function of [T] ever throws, and [operator new]
    has the memory for every request of at most [PTRDIFF_MAX] bytes. *)
Definition never_throws {A} (T : ElemType A) : Prop :=
  ∀ k n, throws T k n = false.

(** ** The objects *)

Record RawMemory := {
  buffer_ : ptr;
  capacity_ : Z;
}.

Record Vector := {
  data_ : RawMemory;
  size_ : Z;
}.

Definition RawMemory_default : RawMemory :=
  {| buffer_ := nullptr; capacity_ := 0 |}.

Section Model.

Context {A : Type} (T : ElemType A).

(** The world: the raw blocks, the allocator's counter (the number of
    its next request, which names the block when the request is
    granted), the [Vector] objects, the number of invocations of each
    special member function so far, and the instance counter
    (constructions minus destructions). *)
Record World := {
  heap : gmap positive (list (option A));
  next_block : positive;
  vecs : gmap positive Vector;
  calls : op_kind → nat;
  live : Z;
}.

Definition with_heap (h : gmap positive (list (option A))) (w : World) : World :=
  {| heap := h; next_block := next_block w; vecs := vecs w;
     calls := calls w; live := live w |}.

Definition with_vecs (vs : gmap positive Vector) (w : World) : World :=
  {| heap := heap w; next_block := next_block w; vecs := vs;
     calls := calls w; live := live w |}.

Definition with_live (n : Z) (w : World) : World :=
  {| heap := heap w; next_block := next_block w; vecs := vecs w;
     calls := calls w; live := n |}.

Definition bump (k : op_kind) (c : op_kind → nat) : op_kind → nat :=
  λ k', if decide (k' = k) then S (c k') else c k'.

Definition with_call (k : op_kind) (w : World) : World :=
  {| heap := heap w; next_block := next_block w; vecs := vecs w;
     calls := bump k (calls w); live := live w |}.

(** ** Outcomes and the monad of the embedding *)

Inductive Res (R : Type) :=
  | Ok (r : R) (w : World)   (* normal return *)
  | Throw (w : World)        (* an exception propagates *)
  | AssertFail               (* [assert] failed: the program is aborted *)
  | Undef.                   (* undefined behaviour *)
Arguments Ok {R} _ _.
Arguments Throw {R} _.
Arguments AssertFail {R}.
Arguments Undef {R}.

Definition M (R : Type) : Type := World → Res R.

Definition ret {R} (r : R) : M R := λ w, Ok r w.

Definition bind {R S} (m : M R) (f : R → M S) : M S :=
  λ w, match m w with
       | Ok r w' => f r w'
       | Throw w' => Throw w'
       | AssertFail => AssertFail
       | Undef => Undef
       end.

Definition throw {R} : M R := λ w, Throw w.
Definition undef {R} : M R := λ _, Undef.

(** [assert(b)] *)
Definition assert (b : bool) : M unit :=
  λ w, if b then Ok tt w else AssertFail.

(** [try { m } catch (...) { h }] *)
Definition try_catch {R} (m : M R) (h : M R) : M R :=
  λ w, match m w with
       | Throw w' => h w'
       | r => r
       end.

Notation "x ← m ; k" := (bind m (λ x, k))
  (at level 20, m at level 100, k at level 200, only parsing).
Notation "m ;; k" := (bind m (λ _, k))
  (at level 100, k at level 200, right associativity, only parsing).

(** ** Cells *)

(** The cell a pointer designates: [None] when there is no storage there,
    [Some None] for raw storage, [Some (Some v)] for a live object. *)
Definition cell_at (w : World) (p : ptr) : option (option A) :=
  match p with
  | Ptr (Some b) o =>
      if 0 <=? o then
        match heap w !! b with
        | Some cs => cs !! Z.to_nat o
        | None => None
        end
      else None
  | Ptr None _ => None
  end.

(** Overwrite the cell [p] designates; there must be storage there. *)
Definition put (p : ptr) (c : option A) : M unit :=
  λ w, match p with
       | Ptr (Some b) o =>
           match cell_at w p, heap w !! b with
           | Some _, Some cs =>
               Ok tt (with_heap (<[b := <[Z.to_nat o := c]> cs]> (heap w)) w)
           | _, _ => Undef
           end
       | Ptr None _ => Undef
       end.

(** Read the live object at [p]. *)
Definition load (p : ptr) : M A :=
  λ w, match cell_at w p with
       | Some (Some v) => Ok v w
       | _ => Undef
       end.

Definition add_live (d : Z) : M unit :=
  λ w, Ok tt (with_live (live w + d) w).

(** One invocation of the special member function [k]: it is counted, and
    it throws when the schedule of [T] says so. *)
Definition tick (k : op_kind) : M unit :=
  λ w, if throws T k (calls w k) then Throw (with_call k w)
       else Ok tt (with_call k w).

(** The end of a constructor that did not throw: the object is live at
    [p].  Placement [new] does not look at what the storage held. *)
Definition construct_at (p : ptr) (v : A) : M unit :=
  put p (Some v);; add_live 1.

(** [std::destroy_at(p)]: the destructor of the live object at [p]. *)
Definition destroy_at (p : ptr) : M unit :=
  _ ← load p; put p None;; add_live (-1).

(** Where a constructor argument of type [T] lives: outside every block of
    the model, or in a cell. *)
Inductive src := Ext (v : A) | Cell (p : ptr).

(** The argument pack of [Emplace]/[EmplaceBack]: [const T&], [T&&], or
    arguments for another constructor of [T] that build the value [v]. *)
Inductive Arg := ConstRef (s : src) | RvalueRef (s : src) | InPlace (v : A).

Definition read_src (s : src) : M A :=
  match s with Ext v => ret v | Cell p => load p end.

Definition leave_moved (s : src) (v : A) : M unit :=
  match s with Ext _ => ret tt | Cell p => put p (Some (moved_from T v)) end.

(** The value a constructor builds from an argument pack, with the
    constructor's invocation counted. *)
Definition make (arg : Arg) : M A :=
  match arg with
  | ConstRef s => v ← read_src s; tick CopyCtor;; ret v
  | RvalueRef s => v ← read_src s; tick MoveCtor;; leave_moved s v;; ret v
  | InPlace v => tick CtorArgs;; ret v
  end.

(** [new (p) T(std::forward<Args>(args)...)] *)
Definition construct_from (p : ptr) (arg : Arg) : M unit :=
  v ← make arg; construct_at p v.

(** Copy assignment and move assignment between two live objects, the
    target at [d] and the source at [s]. *)
Definition copy_assign (d s : ptr) : M unit :=
  v ← load s; _ ← load d; tick CopyAssign;; put d (Some v).

Definition move_assign (d s : ptr) : M unit :=
  v ← load s; _ ← load d; tick MoveAssign;;
  put s (Some (moved_from T v));; put d (Some v).

(** ** The algorithms of [<memory>] and [<algorithm>] the container calls *)

(** [last - first] for a valid range: both pointers in the same block (or
    both derived from null) and [first] not after [last]. *)
Definition distance (first last : ptr) : M nat :=
  if decide (ptr_base first = ptr_base last) then
    if ptr_off first <=? ptr_off last
    then ret (Z.to_nat (ptr_off last - ptr_off first))
    else undef
  else undef.

(** [std::uninitialized_copy_n(first, n, d)]: when a constructor throws,
    the objects already built are destroyed and the exception goes on. *)
Fixpoint uninitialized_copy_n (first : ptr) (n : nat) (d : ptr) : M unit :=
  match n with
  | O => ret tt
  | S n' =>
      construct_from d (ConstRef (Cell first));;
      try_catch (uninitialized_copy_n (first +ₚ 1) n' (d +ₚ 1))
                (destroy_at d;; throw)
  end.

(** [std::uninitialized_move_n(first, n, d)] *)
Fixpoint uninitialized_move_n (first : ptr) (n : nat) (d : ptr) : M unit :=
  match n with
  | O => ret tt
  | S n' =>
      construct_from d (RvalueRef (Cell first));;
      try_catch (uninitialized_move_n (first +ₚ 1) n' (d +ₚ 1))
                (destroy_at d;; throw)
  end.

(** [std::uninitialized_value_construct_n(d, n)] *)
Fixpoint uninitialized_value_construct_n (d : ptr) (n : nat) : M unit :=
  match n with
  | O => ret tt
  | S n' =>
      (tick ValueInit;; construct_at d (value_init T));;
      try_catch (uninitialized_value_construct_n (d +ₚ 1) n')
                (destroy_at d;; throw)
  end.

(** [std::destroy_n(p, n)] *)
Fixpoint destroy_n (p : ptr) (n : nat) : M unit :=
  match n with
  | O => ret tt
  | S n' => destroy_at p;; destroy_n (p +ₚ 1) n'
  end.

Fixpoint copy_loop (n : nat) (first d : ptr) : M unit :=
  match n with
  | O => ret tt
  | S n' => copy_assign d first;; copy_loop n' (first +ₚ 1) (d +ₚ 1)
  end.

(** [std::copy(first, last, d)] *)
Definition std_copy (first last d : ptr) : M unit :=
  n ← distance first last; copy_loop n first d.

Fixpoint move_loop (n : nat) (first d : ptr) : M unit :=
  match n with
  | O => ret tt
  | S n' => move_assign d first;; move_loop n' (first +ₚ 1) (d +ₚ 1)
  end.

(** [std::move(first, last, d)] *)
Definition std_move (first last d : ptr) : M unit :=
  n ← distance first last; move_loop n first d.

Fixpoint move_backward_loop (n : nat) (last d_last : ptr) : M unit :=
  match n with
  | O => ret tt
  | S n' =>
      move_assign (d_last +ₚ -1) (last +ₚ -1);;
      move_backward_loop n' (last +ₚ -1) (d_last +ₚ -1)
  end.

(** [std::move_backward(first, last, d_last)] *)
Definition std_move_backward (first last d_last : ptr) : M unit :=
  n ← distance first last; move_backward_loop n last d_last.

(** ** [RawMemory<T>] *)

(** [operator new(bytes)]: [std::bad_alloc] for a request of more than
    [PTRDIFF_MAX] bytes and for a request the schedule lets fail;
    otherwise a new block of [bytes] bytes, which is room for
    [bytes / sizeof(T)] objects, all of it raw.  A request of 0 bytes
    gives a block without room for any object. *)
Definition operator_new (bytes : Z) : M ptr :=
  λ w, if ptrdiff_max <? bytes then Throw w
       else if throws T New (Pos.to_nat (next_block w)) then
         Throw {| heap := heap w;
                  next_block := Pos.succ (next_block w);
                  vecs := vecs w; calls := calls w; live := live w |}
       else
         Ok (Ptr (Some (next_block w)) 0)
            {| heap := <[next_block w :=
                           replicate (Z.to_nat (bytes / Z.pos (sizeof T))) None]>
                         (heap w);
               next_block := Pos.succ (next_block w);
               vecs := vecs w; calls := calls w; live := live w |}.

(** [static T* Allocate(size_t n)]:
    [n != 0 ? static_cast<T*>(operator new(n * sizeof(T))) : nullptr];
    the product is computed in [size_t]. *)
Definition Allocate (n : Z) : M ptr :=
  if negb (n =? 0) then operator_new (wrap (n * Z.pos (sizeof T)))
  else ret nullptr.

(** [operator delete(buf)]: nothing for a null pointer; otherwise [buf]
    must be the start of a block that is still allocated.  The cells go
    with the block, whatever they hold. *)
Definition Deallocate (buf : ptr) : M unit :=
  match buf with
  | Ptr None o => if o =? 0 then ret tt else undef
  | Ptr (Some b) o =>
      λ w, match heap w !! b with
           | Some _ =>
               if o =? 0 then Ok tt (with_heap (delete b (heap w)) w) else Undef
           | None => Undef
           end
  end.

(** [explicit RawMemory(size_t capacity)] *)
Definition RawMemory_ctor (capacity : Z) : M RawMemory :=
  buf ← Allocate capacity;
  ret {| buffer_ := buf; capacity_ := capacity |}.

(** [~RawMemory()] *)
Definition RawMemory_dtor (rm : RawMemory) : M unit :=
  Deallocate (buffer_ rm).

(** [RawMemory(RawMemory&& other)]: the new object and what is left of
    [other]. *)
Definition RawMemory_move_ctor (other : RawMemory) : RawMemory * RawMemory :=
  ({| buffer_ := buffer_ other; capacity_ := capacity_ other |},
   {| buffer_ := nullptr; capacity_ := 0 |}).

(** [void Swap(RawMemory& other)]: the two objects after the call. *)
Definition RawMemory_Swap (this other : RawMemory) : RawMemory * RawMemory :=
  ({| buffer_ := buffer_ other; capacity_ := capacity_ other |},
   {| buffer_ := buffer_ this; capacity_ := capacity_ this |}).

(** [RawMemory& operator=(RawMemory&& rhs)] on two distinct objects. *)
Definition RawMemory_move_assign (this rhs : RawMemory)
  : M (RawMemory * RawMemory) :=
  Deallocate (buffer_ this);;
  ret (RawMemory_Swap {| buffer_ := buffer_ this; capacity_ := 0 |} rhs).

(** [T* operator+(size_t offset)] *)
Definition RawMemory_plus (rm : RawMemory) (offset : Z) : M ptr :=
  assert (offset <=? capacity_ rm);;
  ret (buffer_ rm +ₚ offset).

(** [T& operator[](size_t index)]: the reference is the address of the
    cell. *)
Definition RawMemory_at (rm : RawMemory) (index : Z) : M ptr :=
  assert (index <? capacity_ rm);;
  ret (buffer_ rm +ₚ index).

Definition GetAddress (rm : RawMemory) : ptr := buffer_ rm.

Definition RawMemory_Capacity (rm : RawMemory) : Z := capacity_ rm.

(** A local [RawMemory<T> new_data(n)]: its destructor runs when the scope
    is left, by the end of the body or by an exception.  The body returns
    the local as it is at the end of the scope; the methods below change it
    only by [Swap], after which nothing throws, so the destructor of the
    exceptional exit sees the local as constructed. *)
Definition with_new_data {R} (n : Z) (body : RawMemory → M (RawMemory * R))
  : M R :=
  nd ← RawMemory_ctor n;
  res ← try_catch (body nd) (RawMemory_dtor nd;; throw);
  RawMemory_dtor (fst res);; ret (snd res).

(** A local [T tmp(args...)]: one more live instance until the scope is
    left. *)
Definition with_tmp {R} (arg : Arg) (body : A → M R) : M R :=
  v ← make arg;
  add_live 1;;
  r ← try_catch (body v) (add_live (-1);; throw);
  add_live (-1);; ret r.

(** ** [Vector<T>] *)

Definition get_vec (this : positive) : M Vector :=
  λ w, match vecs w !! this with
       | Some v => Ok v w
       | None => Undef
       end.

Definition set_vec (this : positive) (v : Vector) : M unit :=
  λ w, Ok tt (with_vecs (<[this := v]> (vecs w)) w).

Definition del_vec (this : positive) : M unit :=
  λ w, Ok tt (with_vecs (delete this (vecs w)) w).

Definition set_data (this : positive) (d : RawMemory) : M unit :=
  v ← get_vec this; set_vec this {| data_ := d; size_ := size_ v |}.

Definition set_size (this : positive) (s : Z) : M unit :=
  v ← get_vec this; set_vec this {| data_ := data_ v; size_ := s |}.

(** [std::is_nothrow_move_constructible_v<T> || !std::is_copy_constructible_v<T>] *)
Definition use_move : bool :=
  nothrow_move_constructible T || negb (copy_constructible T).

(** [Vector() = default] for the object at address [this]. *)
Definition Vector_default (this : positive) : M unit :=
  set_vec this {| data_ := RawMemory_default; size_ := 0 |}.

(** [explicit Vector(size_t size)]: when an element constructor throws, the
    member [data_] is destroyed and there is no object. *)
Definition Vector_sized (this : positive) (size : Z) : M unit :=
  d ← RawMemory_ctor size;
  set_vec this {| data_ := d; size_ := size |};;
  try_catch (uninitialized_value_construct_n (GetAddress d) (Z.to_nat size))
            (del_vec this;; RawMemory_dtor d;; throw).

(** [Vector(const Vector& other)] *)
Definition Vector_copy (this other : positive) : M unit :=
  o ← get_vec other;
  d ← RawMemory_ctor (size_ o);
  set_vec this {| data_ := d; size_ := size_ o |};;
  try_catch (uninitialized_copy_n (GetAddress (data_ o)) (Z.to_nat (size_ o))
                                  (GetAddress d))
            (del_vec this;; RawMemory_dtor d;; throw).

(** [~Vector()], followed by the destructor of the member [data_]. *)
Definition Vector_dtor (this : positive) : M unit :=
  v ← get_vec this;
  destroy_n (GetAddress (data_ v)) (Z.to_nat (size_ v));;
  del_vec this;;
  RawMemory_dtor (data_ v).

(** [std::swap(data_, other.data_)]: a temporary built by the move
    constructor, then two move assignments.  The first one assigns
    [other.data_] to [data_]; it sees [this == &rhs] when the two vectors
    are the same object. *)
Definition swap_data (this other : positive) : M unit :=
  a ← get_vec this;
  let tmp := fst (RawMemory_move_ctor (data_ a)) in
  set_data this (snd (RawMemory_move_ctor (data_ a)));;
  (if decide (this = other) then ret tt
   else
     a ← get_vec this;
     b ← get_vec other;
     ab ← RawMemory_move_assign (data_ a) (data_ b);
     set_data this (fst ab);;
     set_data other (snd ab));;
  b ← get_vec other;
  bt ← RawMemory_move_assign (data_ b) tmp;
  set_data other (fst bt);;
  RawMemory_dtor (snd bt).

(** [void Swap(Vector& other) noexcept] *)
Definition Swap (this other : positive) : M unit :=
  swap_data this other;;
  a ← get_vec this;
  b ← get_vec other;
  set_size this (size_ b);;
  set_size other (size_ a).

(** [Vector(Vector&& rhs) noexcept]: the members get their default
    initialisers, then the body swaps. *)
Definition Vector_move (this rhs : positive) : M unit :=
  Vector_default this;;
  Swap this rhs.

(** [Vector& operator=(Vector&& rhs) noexcept] *)
Definition move_assign_vec (this rhs : positive) : M unit :=
  if decide (this ≠ rhs) then Swap this rhs else ret tt.

(** [size_t Size() const] and [size_t Capacity() const] *)
Definition Size (this : positive) : M Z :=
  v ← get_vec this; ret (size_ v).

Definition Capacity (this : positive) : M Z :=
  v ← get_vec this; ret (RawMemory_Capacity (data_ v)).

(** [begin()] and [end()] *)
Definition begin_ (this : positive) : M ptr :=
  v ← get_vec this; ret (GetAddress (data_ v)).

Definition end_ (this : positive) : M ptr :=
  v ← get_vec this; ret (GetAddress (data_ v) +ₚ size_ v).

(** [T& operator[](size_t index)] *)
Definition Vector_at (this : positive) (index : Z) : M ptr :=
  v ← get_vec this;
  assert (index <? size_ v);;
  RawMemory_at (data_ v) index.

(** [void Reserve(size_t new_capacity)] *)
Definition Reserve (this : positive) (new_capacity : Z) : M unit :=
  v ← get_vec this;
  if new_capacity <=? RawMemory_Capacity (data_ v) then ret tt
  else
    with_new_data new_capacity (λ new_data,
      (if use_move then
         uninitialized_move_n (GetAddress (data_ v)) (Z.to_nat (size_ v))
                              (GetAddress new_data)
       else
         uninitialized_copy_n (GetAddress (data_ v)) (Z.to_nat (size_ v))
                              (GetAddress new_data));;
      destroy_n (GetAddress (data_ v)) (Z.to_nat (size_ v));;
      set_data this (fst (RawMemory_Swap (data_ v) new_data));;
      ret (snd (RawMemory_Swap (data_ v) new_data), tt)).

(** [Vector& operator=(const Vector& rhs)]; the local [crhs] lives at an
    address no other vector has. *)
Definition copy_assign_vec (this rhs : positive) : M unit :=
  if decide (this ≠ rhs) then
    a ← get_vec this;
    r ← get_vec rhs;
    if RawMemory_Capacity (data_ a) <? size_ r then
      crhs ← (λ w, Ok (fresh (dom (vecs w))) w);
      Vector_copy crhs rhs;;
      Swap this crhs;;
      Vector_dtor crhs
    else
      let new_size := Z.min (size_ a) (size_ r) in
      std_copy (GetAddress (data_ r)) (GetAddress (data_ r) +ₚ new_size)
               (GetAddress (data_ a));;
      (if size_ r <? size_ a then
         destroy_n (GetAddress (data_ a) +ₚ new_size)
                   (Z.to_nat (wrap (size_ a - new_size)))
       else if size_ a <? size_ r then
         uninitialized_copy_n (GetAddress (data_ r) +ₚ size_ a)
                              (Z.to_nat (wrap (size_ r - size_ a)))
                              (GetAddress (data_ a) +ₚ size_ a)
       else ret tt);;
      set_size this (size_ r)
  else ret tt.

(** [void Resize(size_t new_size)] *)
Definition Resize (this : positive) (new_size : Z) : M unit :=
  v ← get_vec this;
  if new_size <? size_ v then
    destroy_n (GetAddress (data_ v) +ₚ new_size)
              (Z.to_nat (wrap (size_ v - new_size)));;
    set_size this new_size
  else
    Reserve this new_size;;
    v ← get_vec this;
    uninitialized_value_construct_n (GetAddress (data_ v) +ₚ size_ v)
                                    (Z.to_nat (wrap (new_size - size_ v)));;
    set_size this new_size.

(** [T& EmplaceBack(Args&&... args)]; the reference returned is the
    address of the new element. *)
Definition EmplaceBack (this : positive) (arg : Arg) : M ptr :=
  v ← get_vec this;
  if size_ v <? RawMemory_Capacity (data_ v) then
    res ← RawMemory_plus (data_ v) (size_ v);
    construct_from res arg;;
    set_size this (wrap (size_ v + 1));;
    ret res
  else
    with_new_data (if size_ v =? 0 then 1 else wrap (size_ v * 2)) (λ new_data,
      res ← RawMemory_plus new_data (size_ v);
      construct_from res arg;;
      (if use_move then
         uninitialized_move_n (GetAddress (data_ v)) (Z.to_nat (size_ v))
                              (GetAddress new_data)
       else
         try_catch
           (uninitialized_copy_n (GetAddress (data_ v)) (Z.to_nat (size_ v))
                                 (GetAddress new_data))
           (destroy_n (GetAddress new_data +ₚ size_ v) 1;; throw));;
      destroy_n (GetAddress (data_ v)) (Z.to_nat (size_ v));;
      set_data this (fst (RawMemory_Swap (data_ v) new_data));;
      set_size this (wrap (size_ v + 1));;
      ret (snd (RawMemory_Swap (data_ v) new_data), res)).

(** [void PushBack(Total&& value)] *)
Definition PushBack (this : positive) (value : Arg) : M unit :=
  EmplaceBack this value;; ret tt.

(** [void PopBack()] *)
Definition PopBack (this : positive) : M unit :=
  v ← get_vec this;
  destroy_at (GetAddress (data_ v) +ₚ size_ v +ₚ -1);;
  set_size this (wrap (size_ v - 1)).

(** [void ReallocateWithCopy(size_t index, Args&&... args)] *)
Definition ReallocateWithCopy (this : positive) (index : Z) (arg : Arg)
  : M unit :=
  v ← get_vec this;
  with_new_data (if size_ v =? 0 then 1 else wrap (size_ v * 2)) (λ new_data,
    p ← RawMemory_plus new_data index;
    construct_from p arg;;
    try_catch
      (uninitialized_copy_n (GetAddress (data_ v)) (Z.to_nat index)
                            (GetAddress new_data);;
       uninitialized_copy_n (GetAddress (data_ v) +ₚ index)
                            (Z.to_nat (wrap (size_ v - index)))
                            (GetAddress new_data +ₚ index +ₚ 1))
      (destroy_n (GetAddress new_data +ₚ index) 1;; throw);;
    destroy_n (GetAddress (data_ v)) (Z.to_nat (size_ v));;
    set_data this (fst (RawMemory_Swap (data_ v) new_data));;
    ret (snd (RawMemory_Swap (data_ v) new_data), tt)).

(** [void ReallocateWithMove(size_t index, Args&&... args)] *)
Definition ReallocateWithMove (this : positive) (index : Z) (arg : Arg)
  : M unit :=
  v ← get_vec this;
  with_new_data (if size_ v =? 0 then 1 else wrap (size_ v * 2)) (λ new_data,
    p ← RawMemory_plus new_data index;
    construct_from p arg;;
    uninitialized_move_n (GetAddress (data_ v)) (Z.to_nat index)
                         (GetAddress new_data);;
    uninitialized_move_n (GetAddress (data_ v) +ₚ index)
                         (Z.to_nat (wrap (size_ v - index)))
                         (GetAddress new_data +ₚ index +ₚ 1);;
    destroy_n (GetAddress (data_ v)) (Z.to_nat (size_ v));;
    set_data this (fst (RawMemory_Swap (data_ v) new_data));;
    ret (snd (RawMemory_Swap (data_ v) new_data), tt)).

(** [iterator Emplace(const_iterator pos, Args&&... args)] *)
Definition Emplace (this : positive) (pos : ptr) (arg : Arg) : M ptr :=
  e ← end_ this;
  if decide (pos = e) then EmplaceBack this arg
  else
    b ← begin_ this;
    if decide (ptr_base pos = ptr_base b) then
      let index := wrap (ptr_off pos - ptr_off b) in
      v ← get_vec this;
      (if size_ v <? RawMemory_Capacity (data_ v) then
         with_tmp arg (λ tmp,
           construct_from e (RvalueRef (Cell (e +ₚ -1)));;
           try_catch (std_move_backward (b +ₚ index) (e +ₚ -1) e)
                     (destroy_n e 1;; throw);;
           p ← RawMemory_at (data_ v) index;
           _ ← load p;
           tick MoveAssign;;
           put p (Some tmp))
       else if use_move then ReallocateWithMove this index arg
       else ReallocateWithCopy this index arg);;
      v ← get_vec this;
      set_size this (wrap (size_ v + 1));;
      b ← begin_ this;
      ret (b +ₚ index)
    else undef.

(** [iterator Erase(const_iterator pos)] *)
Definition Erase (this : positive) (pos : ptr) : M ptr :=
  e ← end_ this;
  std_move (pos +ₚ 1) e pos;;
  v ← get_vec this;
  destroy_at (GetAddress (data_ v) +ₚ size_ v +ₚ -1);;
  set_size this (wrap (size_ v - 1));;
  ret pos.

(** [iterator Insert(const_iterator pos, const T& value)] and
    [iterator Insert(const_iterator pos, T&& value)] *)
Definition Insert (this : positive) (pos : ptr) (value : src) : M ptr :=
  Emplace this pos (ConstRef value).

Definition Insert_rvalue (this : positive) (pos : ptr) (value : src) : M ptr :=
  Emplace this pos (RvalueRef value).

(** ** Reading a vector's state *)

(** The values of the live objects in the first [n] cells of a block. *)
Definition cells_values (cs : list (option A)) (n : nat) : option (list A) :=
  mapM id (take n cs).

End Model.

Arguments Ok {A R} _ _.
Arguments Throw {A R} _.
Arguments AssertFail {A R}.
Arguments Undef {A R}.
Arguments Ext {A} _.
Arguments Cell {A} _.
Arguments ConstRef {A} _.
Arguments RvalueRef {A} _.
Arguments InPlace {A} _.

(** * Observations, invariants and test fixtures *)

(** [n] further invocations of the member function [k]. *)
Definition bumps (k : op_kind) (n : nat) (c : op_kind → nat) : op_kind → nat :=
  Nat.iter n (bump k) c.

Section Observations.

Context {A : Type}.

Implicit Types (w : World (A:=A)) (xs : list A).

(** A block of capacity [cap] whose first cells hold [xs] and whose other
    cells are raw. *)
Definition cells (xs : list A) (cap : Z) : list (option A) :=
  (Some <$> xs) ++ replicate (Z.to_nat cap - length xs) None.

(** The cells behind a buffer pointer: a null pointer has none, any other
    has to be the start of an allocated block. *)
Definition storage w (buf : ptr) (cs : list (option A)) : Prop :=
  match buf with
  | Ptr None 0 => cs = []
  | Ptr (Some b) 0 => heap w !! b = Some cs
  | _ => False
  end.

(** The number of objects of type [T] in the largest block [operator new]
    hands out, [PTRDIFF_MAX / sizeof(T)]. *)
Definition max_size (T : ElemType A) : Z := ptrdiff_max / Z.pos (sizeof T).

(** The invariant of the data model: the vector at [this] has length
    [length xs <= cap], its storage has [cap] cells, the cells
    [[0, length)] hold the live objects [xs] and the cells
    [[length, cap)] are raw.  The storage is a block the allocator handed
    out, so [cap] objects take at most [PTRDIFF_MAX] bytes. *)
Definition repr (T : ElemType A) w (this : positive) (xs : list A) (cap : Z)
  : Prop :=
  ∃ buf,
    vecs w !! this
    = Some {| data_ := {| buffer_ := buf; capacity_ := cap |};
              size_ := Z.of_nat (length xs) |}
    ∧ storage w buf (cells xs cap)
    ∧ Z.of_nat (length xs) ≤ cap ≤ max_size T.

(** Every allocated block was handed out by the allocator. *)
Definition heap_wf w : Prop :=
  ∀ b, is_Some (heap w !! b) → (b < next_block w)%positive.

(** The length, the capacity and the elements a caller observes. *)
Definition length_of w (this : positive) : option Z :=
  size_ <$> vecs w !! this.

Definition capacity_of w (this : positive) : option Z :=
  (λ v, capacity_ (data_ v)) <$> vecs w !! this.

(** [a[i]], read through [operator[]]. *)
Definition element w (this : positive) (i : Z) : option A :=
  match bind (Vector_at this i) load w with
  | Ok x _ => Some x
  | _ => None
  end.

(** The elements [a[0]], ..., [a[Size() - 1]]; [None] stands for a
    position that cannot be read. *)
Definition elements w (this : positive) : option (list (option A)) :=
  (λ v, element w this <$> seqZ 0 (size_ v)) <$> vecs w !! this.

(** The world after the allocator handed out a block of [n] raw cells. *)
Definition allocated (n : Z) w : World (A:=A) :=
  {| heap := <[next_block w := replicate (Z.to_nat n) None]> (heap w);
     next_block := Pos.succ (next_block w);
     vecs := vecs w; calls := calls w; live := live w |}.

(** The heap after [operator delete] was given a buffer pointer. *)
Definition released (buf : ptr) (h : gmap positive (list (option A)))
  : gmap positive (list (option A)) :=
  match buf with
  | Ptr (Some b) _ => delete b h
  | Ptr None _ => h
  end.

(** The capacity a growth cycle asks for: [size_ == 0 ? 1 : size_ * 2]. *)
Definition grown (size : Z) : Z :=
  if size =? 0 then 1 else wrap (size * 2).

(** The member function a constructor call with this argument pack
    invokes. *)
Definition arg_kind (arg : Arg (A:=A)) : op_kind :=
  match arg with
  | ConstRef _ => CopyCtor
  | RvalueRef _ => MoveCtor
  | InPlace _ => CtorArgs
  end.

(** The value an argument pack denotes when building it leaves every cell
    as it is: a value of the caller's, or a [const T&] to a live object in
    a block. *)
Definition arg_value w (arg : Arg (A:=A)) : option A :=
  match arg with
  | InPlace x => Some x
  | ConstRef (Ext x) => Some x
  | RvalueRef (Ext x) => Some x
  | ConstRef (Cell p) => mjoin (cell_at w p)
  | RvalueRef (Cell _) => None
  end.

(** The object an argument pack hands to the constructor of the new
    element: as [arg_value], and for a [T&&] to a cell the live object in
    that cell. *)
Definition arg_object w (arg : Arg (A:=A)) : option A :=
  match arg with
  | RvalueRef (Cell p) => mjoin (cell_at w p)
  | _ => arg_value w arg
  end.

(** The world after the live object [x] at [p] was moved from: the cell
    holds the moved-from object. *)
Definition moved_cell (T : ElemType A) (p : ptr) (x : A) w : World (A:=A) :=
  match put p (Some (moved_from T x)) w with
  | Ok _ w' => w'
  | Throw _ | AssertFail | Undef => w
  end.

(** The world in which the constructor of the new element runs after it
    read its argument. *)
Definition arg_world (T : ElemType A) w (arg : Arg (A:=A)) (x : A)
  : World (A:=A) :=
  match arg with
  | RvalueRef (Cell p) => moved_cell T p x w
  | _ => w
  end.

(** What the first cell of a range holds after [std::move_backward]
    shifted the range [ys] one cell up over a cell that held [z]. *)
Definition vacated (T : ElemType A) (ys : list A) (z : A) : A :=
  match ys with
  | [] => z
  | y :: _ => moved_from T y
  end.

(** What the last cell of a range holds after [std::move] shifted the
    range [ys] one cell down onto a cell that held [z]: the moved-from
    last element, or [z] itself when there was nothing to shift. *)
Fixpoint shifted_out (T : ElemType A) (z : A) (ys : list A) : A :=
  match ys with
  | [] => z
  | y :: ys' => shifted_out T (moved_from T y) ys'
  end.

(** The least power of two that is at least [n], and 0 for [n = 0]. *)
Definition least_pow2 (n : Z) : Z :=
  if n =? 0 then 0 else 2 ^ Z.log2_up n.

(** The constructor a reallocation transfers the elements with. *)
Definition transfer_kind (T : ElemType A) : op_kind :=
  if use_move T then MoveCtor else CopyCtor.

(** The transfers of one reallocation of a vector of [n] elements: [n]
    move constructions when the type is nothrow-move-constructible or not
    copy-constructible, [n] copy constructions otherwise. *)
Definition transfers (T : ElemType A) (n : nat) (c c' : op_kind → nat)
  : Prop :=
  c' MoveCtor
  = (c MoveCtor
     + if nothrow_move_constructible T || negb (copy_constructible T)
       then n else 0)%nat
  ∧ c' CopyCtor
    = (c CopyCtor
       + if nothrow_move_constructible T || negb (copy_constructible T)
         then 0 else n)%nat.

(** [PushBack] each value of [xs], by [const T&], and report the capacity
    after each call. *)
Fixpoint appends (T : ElemType A) (this : positive) (xs : list A)
  : M (list Z) :=
  match xs with
  | [] => ret []
  | x :: xs' =>
      bind (PushBack T this (ConstRef (Ext x))) (λ _,
      bind (Capacity this) (λ c,
      bind (appends T this xs') (λ cs,
      ret (c :: cs))))
  end.

(** What the callers of [Insert], [PushBack] and the like pass for the
    value: an object of their own, or the element [a[i]] of the vector
    they call the method on. *)
Inductive operand := Value (x : A) | Element (i : Z).

(** The mutating calls on one vector; positions are given as
    [begin() + p]. *)
Inductive mutation :=
  | MPushBack (x : operand)          (* PushBack(const T&)            *)
  | MPushBackMove (x : operand)      (* PushBack(T&&)                 *)
  | MEmplaceBack (x : A)             (* EmplaceBack(args...)          *)
  | MPopBack                         (* PopBack()                     *)
  | MInsert (p : Z) (x : operand)    (* Insert(begin() + p, const T&) *)
  | MInsertMove (p : Z) (x : operand) (* Insert(begin() + p, T&&)     *)
  | MEmplace (p : Z) (x : A)         (* Emplace(begin() + p, args...) *)
  | MErase (p : Z)                   (* Erase(begin() + p)            *)
  | MReserve (n : Z)                 (* Reserve(n)                    *)
  | MResize (n : Z)                  (* Resize(n)                     *)
  | MAssign (i : Z) (x : A).         (* a[i] = x                      *)

Definition operand_src (this : positive) (x : operand)
  : M (A:=A) (src (A:=A)) :=
  match x with
  | Value v => ret (Ext v)
  | Element i => bind (Vector_at this i) (λ p, ret (Cell p))
  end.

Definition mutate (T : ElemType A) (this : positive) (m : mutation)
  : M (A:=A) unit :=
  match m with
  | MPushBack x =>
      bind (operand_src this x) (λ s, PushBack T this (ConstRef s))
  | MPushBackMove x =>
      bind (operand_src this x) (λ s, PushBack T this (RvalueRef s))
  | MEmplaceBack x =>
      bind (EmplaceBack T this (InPlace x)) (λ _, ret tt)
  | MPopBack => PopBack this
  | MInsert p x =>
      bind (begin_ this) (λ first,
      bind (operand_src this x) (λ s,
      bind (Insert T this (first +ₚ p) s) (λ _, ret tt)))
  | MInsertMove p x =>
      bind (begin_ this) (λ first,
      bind (operand_src this x) (λ s,
      bind (Insert_rvalue T this (first +ₚ p) s) (λ _, ret tt)))
  | MEmplace p x =>
      bind (begin_ this) (λ first,
      bind (Emplace T this (first +ₚ p) (InPlace x)) (λ _, ret tt))
  | MErase p =>
      bind (begin_ this) (λ first,
      bind (Erase T this (first +ₚ p)) (λ _, ret tt))
  | MReserve n => Reserve T this n
  | MResize n => Resize T this n
  | MAssign i x =>
      bind (Vector_at this i) (λ p,
      bind (load p) (λ _,
      bind (tick T CopyAssign) (λ _,
      put p (Some x))))
  end.

(** A caller that performs the mutations one after the other and catches
    whatever one of them throws. *)
Fixpoint mutate_all (T : ElemType A) (this : positive) (ms : list mutation)
  : M (A:=A) unit :=
  match ms with
  | [] => ret tt
  | m :: ms' =>
      bind (try_catch (mutate T this m) (ret tt)) (λ _,
      mutate_all T this ms')
  end.

(** A caller that works on two vectors [a] and [b]: each mutation names
    its target, [true] for [a] and [false] for [b]. *)
Definition pick (a b : positive) (side : bool) : positive :=
  if side then a else b.

Fixpoint mutate_either (T : ElemType A) (a b : positive)
    (ops : list (bool * mutation)) : M (A:=A) unit :=
  match ops with
  | [] => ret tt
  | (side, m) :: ops' =>
      bind (try_catch (mutate T (pick a b side) m) (ret tt)) (λ _,
      mutate_either T a b ops')
  end.

(** ** The vector as a sequence *)

(** The value an operand denotes for a vector that holds [xs]. *)
Definition operand_value (xs : list A) (x : operand) : option A :=
  match x with
  | Value v => Some v
  | Element i => if 0 <=? i then xs !! Z.to_nat i else None
  end.

(** The sequence [xs] after the operand was moved from: an element of the
    vector is left in its moved-from state. *)
Definition moved_operand (T : ElemType A) (xs : list A) (x : operand)
  : list A :=
  match x with
  | Value _ => xs
  | Element i => alter (moved_from T) (Z.to_nat i) xs
  end.

(** What a mutating call makes of the sequence [xs], by the meaning of
    the operation on sequences.  [None] where the call is outside its
    contract (a position or an index out of range, [PopBack] on an empty
    vector) and where the storage the call may ask for, [max(1, 2 * length)]
    objects for an insertion and [n] objects for [Reserve(n)] and
    [Resize(n)], is more than the allocator provides. *)
Definition list_mutate (T : ElemType A) (xs : list A) (m : mutation)
  : option (list A) :=
  let len := Z.of_nat (length xs) in
  let room := Z.max 1 (len * 2) <=? max_size T in
  let inserted (ys : list A) (p : Z) (v : A) :=
    take (Z.to_nat p) ys ++ v :: drop (Z.to_nat p) ys in
  match m with
  | MPushBack x =>
      if room then (λ v, xs ++ [v]) <$> operand_value xs x else None
  | MPushBackMove x =>
      if room
      then (λ v, moved_operand T xs x ++ [v]) <$> operand_value xs x
      else None
  | MEmplaceBack v =>
      if room then Some (xs ++ [v]) else None
  | MPopBack =>
      if 0 <? len then Some (take (length xs - 1) xs) else None
  | MInsert p x =>
      if room && (0 <=? p) && (p <=? len)
      then inserted xs p <$> operand_value xs x else None
  | MInsertMove p x =>
      if room && (0 <=? p) && (p <=? len)
      then inserted (moved_operand T xs x) p <$> operand_value xs x
      else None
  | MEmplace p v =>
      if room && (0 <=? p) && (p <=? len) then Some (inserted xs p v)
      else None
  | MErase p =>
      if (0 <=? p) && (p <? len)
      then Some (take (Z.to_nat p) xs ++ drop (S (Z.to_nat p)) xs) else None
  | MReserve n =>
      if (0 <=? n) && (n <=? max_size T) then Some xs else None
  | MResize n =>
      if (0 <=? n) && (n <=? max_size T)
      then Some (take (Z.to_nat n) xs
                 ++ replicate (Z.to_nat n - length xs) (value_init T))
      else None
  | MAssign i x =>
      if (0 <=? i) && (i <? len) then Some (<[Z.to_nat i := x]> xs) else None
  end.

Fixpoint list_mutate_all (T : ElemType A) (xs : list A) (ms : list mutation)
  : option (list A) :=
  match ms with
  | [] => Some xs
  | m :: ms' =>
      match list_mutate T xs m with
      | Some xs' => list_mutate_all T xs' ms'
      | None => None
      end
  end.

(** ** Framing: what a method call on one vector leaves alone *)

(** A pointer does not point into the protected block [pb]. *)
Definition safe (pb : option positive) (p : ptr) : Prop :=
  ∀ blk, pb = Some blk → ptr_base p ≠ Some blk.

(** A pointer is null-based or points into a block the allocator handed
    out before its counter reached [n]. *)
Definition below (n : positive) (p : ptr) : Prop :=
  ∀ blk, ptr_base p = Some blk → (blk < n)%positive.

Definition good (pb : option positive) (n : positive) (p : ptr) : Prop :=
  safe pb p ∧ below n p.

(** An argument whose construction writes to a cell (an rvalue reference
    to an object in a block) designates a [good] cell. *)
Definition arg_good (pb : option positive) (n : positive)
    (arg : Arg (A:=A)) : Prop :=
  match arg with
  | RvalueRef (Cell p) => good pb n p
  | _ => True
  end.

(** The record at [o] is [ovo], the block [pb] (if any) is as [ocs] says
    and below the allocator's counter, and the buffer of the vector at
    [this] is outside that block and below the counter. *)
Definition kept (this o : positive) (ovo : option Vector)
    (pb : option positive) (ocs : option (list (option A))) w : Prop :=
  vecs w !! o = ovo
  ∧ (∀ blk, pb = Some blk →
       heap w !! blk = ocs ∧ (blk < next_block w)%positive)
  ∧ (∀ v, vecs w !! this = Some v →
       good pb (next_block w) (buffer_ (data_ v))).

(** Started in a world that satisfies [I] and whose allocator counter is
    at least [n], every run of [m] that ends with a world, by returning or
    by throwing, ends in a world that satisfies [I] again and whose
    counter is not smaller; the value returned satisfies [Q] at the new
    counter. *)
Definition preserves (I : World (A:=A) → Prop) {R} (n : positive) (m : M R)
    (Q : R → positive → Prop) : Prop :=
  ∀ w, I w → (n ≤ next_block w)%positive →
    match m w with
    | Ok r w' => I w' ∧ (next_block w ≤ next_block w')%positive
                 ∧ Q r (next_block w')
    | Throw w' => I w' ∧ (next_block w ≤ next_block w')%positive
    | AssertFail | Undef => True
    end.

(** The block a vector record points into. *)
Definition block_of (ov : option Vector) : option positive :=
  ov ≫= λ v, ptr_base (buffer_ (data_ v)).

(** Two vectors at distinct addresses whose buffers are in distinct
    blocks, both below the allocator's counter. *)
Definition independent (a b : positive) w : Prop :=
  a ≠ b
  ∧ (∀ v, vecs w !! a = Some v → below (next_block w) (buffer_ (data_ v)))
  ∧ (∀ v, vecs w !! b = Some v → below (next_block w) (buffer_ (data_ v)))
  ∧ (∀ blk, block_of (vecs w !! a) = Some blk →
            block_of (vecs w !! b) ≠ Some blk).

(** ** Runs that may end in an exception *)

(** The run of [m] from [w] returns a value and a world that satisfy
    [Q], or throws in a world that satisfies [E]; it neither fails an
    assertion nor has undefined behaviour. *)
Definition outcome {R} (m : M (A:=A) R) w (Q : R → World (A:=A) → Prop)
    (E : World (A:=A) → Prop) : Prop :=
  match m w with
  | Ok r w' => Q r w'
  | Throw w' => E w'
  | AssertFail | Undef => False
  end.

(** [w'] has the blocks, the vectors and the live instances of [w]; the
    allocator's counter and the invocation counts may differ. *)
Definition rolled_back w w' : Prop :=
  heap w' = heap w ∧ vecs w' = vecs w ∧ live w' = live w.

(** As [rolled_back], and the allocator's counter is the same. *)
Definition same_store w w' : Prop :=
  heap w' = heap w ∧ next_block w' = next_block w
  ∧ vecs w' = vecs w ∧ live w' = live w.

(** Two worlds show the same vector at [this]: the same length, the same
    capacity and the same elements. *)
Definition same_view w w' (this : positive) : Prop :=
  length_of w' this = length_of w this
  ∧ capacity_of w' this = capacity_of w this
  ∧ ∀ i, element w' this i = element w this i.

End Observations.

(** ** Element types and worlds used in examples *)

(** An [int]-like type: nothing throws. *)
Definition plain : ElemType Z :=
  {| sizeof := 4; sizeof_size_t := eq_refl;
     nothrow_move_constructible := true; copy_constructible := true;
     throws := λ _ _, false; moved_from := λ x, x; value_init := 0 |}.

(** A [std::string]-like type: nothing throws, and a moved-from object
    is left empty. *)
Definition string_like : ElemType Z :=
  {| sizeof := 32; sizeof_size_t := eq_refl;
     nothrow_move_constructible := true; copy_constructible := true;
     throws := λ _ _, false; moved_from := λ _, 0; value_init := 0 |}.

(** A type whose copy constructor throws on its invocation number [k]
    (counted from 0) and whose move constructor is not [noexcept]. *)
Definition throwing_copy (k : nat) : ElemType Z :=
  {| sizeof := 4; sizeof_size_t := eq_refl;
     nothrow_move_constructible := false; copy_constructible := true;
     throws := λ o n, match o with CopyCtor => Nat.eqb n k | _ => false end;
     moved_from := λ x, x; value_init := 0 |}.

(** A move-only type whose move constructor is not [noexcept]. *)
Definition move_only : ElemType Z :=
  {| sizeof := 4; sizeof_size_t := eq_refl;
     nothrow_move_constructible := false; copy_constructible := false;
     throws := λ _ _, false; moved_from := λ _, 0; value_init := 0 |}.

(** A type whose move assignment throws, with a [noexcept] move
    constructor. *)
Definition throwing_move_assign : ElemType Z :=
  {| sizeof := 4; sizeof_size_t := eq_refl;
     nothrow_move_constructible := true; copy_constructible := true;
     throws := λ o _, match o with MoveAssign => true | _ => false end;
     moved_from := λ x, x; value_init := 0 |}.

(** A type whose default constructor throws on its invocation number
    [k] (counted from 0). *)
Definition throwing_value_init (k : nat) : ElemType Z :=
  {| sizeof := 4; sizeof_size_t := eq_refl;
     nothrow_move_constructible := true; copy_constructible := true;
     throws := λ o n, match o with ValueInit => Nat.eqb n k | _ => false end;
     moved_from := λ x, x; value_init := 0 |}.

(** A type for which [operator new] has no memory left: every request
    ends in [std::bad_alloc]. *)
Definition out_of_memory : ElemType Z :=
  {| sizeof := 4; sizeof_size_t := eq_refl;
     nothrow_move_constructible := true; copy_constructible := true;
     throws := λ o _, match o with New => true | _ => false end;
     moved_from := λ x, x; value_init := 0 |}.

(** A world without vectors and without blocks. *)
Definition no_vectors : World (A:=Z) :=
  {| heap := ∅; next_block := 1%positive; vecs := ∅;
     calls := λ _, 0%nat; live := 0 |}.

(** A world with one vector, at address 1, that owns block 1. *)
Definition one_vector (cs : list (option Z)) (size cap : Z) : World :=
  {| heap := {[ 1%positive := cs ]};
     next_block := 2%positive;
     vecs := {[ 1%positive :=
                {| data_ := {| buffer_ := Ptr (Some 1%positive) 0;
                                capacity_ := cap |};
                   size_ := size |} ]};
     calls := λ _, 0%nat;
     live := size |}.

(** A world with one default-constructed vector, at address 1. *)
Definition one_empty_vector : World (A:=Z) :=
  {| heap := ∅; next_block := 1%positive;
     vecs := {[ 1%positive := {| data_ := RawMemory_default; size_ := 0 |} ]};
     calls := λ _, 0%nat; live := 0 |}.

(** A world with the vector [[1; 2]] at address 1 and the vector [[7]] at
    address 2. *)
Definition two_vectors : World (A:=Z) :=
  {| heap := {[ 1%positive := [Some 1; Some 2]; 2%positive := [Some 7] ]};
     next_block := 3%positive;
     vecs := {[ 1%positive :=
                {| data_ := {| buffer_ := Ptr (Some 1%positive) 0;
                                capacity_ := 2 |};
                   size_ := 2 |};
                2%positive :=
                {| data_ := {| buffer_ := Ptr (Some 2%positive) 0;
                                capacity_ := 1 |};
                   size_ := 1 |} ]};
     calls := λ _, 0%nat;
     live := 3 |}.

(** * Reasoning about runs *)

Section Laws.

Context {A : Type}.

Implicit Types (w : World (A:=A)).

Lemma World_eq w1 w2 :
  heap w1 = heap w2 → next_block w1 = next_block w2 → vecs w1 = vecs w2 →
  calls w1 = calls w2 → live w1 = live w2 → w1 = w2.
Proof. destruct w1, w2; simpl; congruence. Qed.

Lemma Ok_World_eq {R} (r : R) w1 w2 :
  heap w1 = heap w2 → next_block w1 = next_block w2 → vecs w1 = vecs w2 →
  calls w1 = calls w2 → live w1 = live w2 → Ok r w1 = Ok r w2.
Proof. intros. f_equal. by apply World_eq. Qed.

Lemma bind_Ok {R S} (m : M R) (f : R → M S) w r w' :
  m w = Ok r w' → bind m f w = f r w'.
Proof. unfold bind. by intros ->. Qed.

Lemma bind_assoc {R S U} (m : M R) (f : R → M S) (g : S → M U) w :
  bind (bind m f) g w = bind m (λ x, bind (f x) g) w.
Proof. unfold bind. by destruct (m w). Qed.

Lemma bind_ret {R S} (x : R) (f : R → M S) w : bind (ret x) f w = f x w.
Proof. done. Qed.

Lemma try_catch_Ok {R} (m h : M R) w r w' :
  m w = Ok r w' → try_catch m h w = Ok r w'.
Proof. unfold try_catch. by intros ->. Qed.

Lemma try_catch_Throw {R} (m h : M R) w w' :
  m w = Throw w' → try_catch m h w = h w'.
Proof. unfold try_catch. by intros ->. Qed.

End Laws.

(** ** What the allocator provides *)

Section Sizes.

Context {A : Type} (T : ElemType A).

Lemma max_size_range : 0 ≤ max_size T ≤ ptrdiff_max.
Proof.
  unfold max_size. split.
  - apply Z.div_pos; [by unfold ptrdiff_max|lia].
  - apply Z.div_le_upper_bound; [lia|]. unfold ptrdiff_max. nia.
Qed.

(** [n] objects are at most [max_size] when they take at most
    [PTRDIFF_MAX] bytes. *)
Lemma max_size_bytes (n : Z) :
  n ≤ max_size T ↔ n * Z.pos (sizeof T) ≤ ptrdiff_max.
Proof.
  unfold max_size. split; intros Hn.
  - pose proof (Z.mul_div_le ptrdiff_max (Z.pos (sizeof T)) ltac:(lia)). nia.
  - apply Z.div_le_lower_bound; lia.
Qed.

(** Within [max_size] the byte count does not wrap around. *)
Lemma bytes_small (n : Z) :
  0 ≤ n ≤ max_size T →
  n * Z.pos (sizeof T) mod size_max = n * Z.pos (sizeof T)
  ∧ n * Z.pos (sizeof T) ≤ ptrdiff_max
  ∧ n * Z.pos (sizeof T) / Z.pos (sizeof T) = n.
Proof.
  intros [H0 Hn]. apply max_size_bytes in Hn.
  split; [|split; [done|]].
  - apply Z.mod_small. unfold ptrdiff_max, size_max in *. nia.
  - apply Z.div_mul. lia.
Qed.

End Sizes.

(** Arithmetic goals that mention the range of [size_t] or what the
    allocator provides. *)
Ltac size_facts :=
  repeat match goal with
  | |- context [max_size ?T] =>
      lazymatch goal with
      | _ : 0 ≤ max_size T ≤ ptrdiff_max |- _ => fail
      | _ => pose proof (max_size_range T)
      end
  | _ : context [max_size ?T] |- _ =>
      lazymatch goal with
      | _ : 0 ≤ max_size T ≤ ptrdiff_max |- _ => fail
      | _ => pose proof (max_size_range T)
      end
  end.

Ltac size_lia :=
  size_facts; try unfold size_max in *; try unfold ptrdiff_max in *; lia.

(** Reduce the projections of an updated world. *)
Ltac wsimpl :=
  cbn [heap next_block vecs calls live with_heap with_vecs with_live with_call
       data_ size_ buffer_ capacity_ fst snd GetAddress RawMemory_Capacity
       RawMemory_Swap allocated ptr_add Z.add].

Ltac wsimpl_in H :=
  cbn [heap next_block vecs calls live with_heap with_vecs with_live with_call
       data_ size_ buffer_ capacity_ fst snd GetAddress RawMemory_Capacity
       RawMemory_Swap allocated ptr_add Z.add] in H.

(** Run the first computation of a sequence with the equation [tac]
    proves for it. *)
Ltac mstep tac :=
  rewrite ?bind_assoc;
  etrans; [eapply bind_Ok; tac|]; cbv beta; wsimpl.

(** Look a block up in a heap that was updated at known blocks. *)
Ltac lookup_tac :=
  wsimpl;
  repeat first [ rewrite lookup_insert_eq
               | rewrite lookup_insert_ne by congruence
               | rewrite lookup_delete_ne by congruence ];
  first [reflexivity | eassumption | done].

(** Two heaps that were updated at the blocks [b1] and [b2] are equal when
    they agree at every block. *)
Ltac heap_eq b1 b2 :=
  apply map_eq; intros ?k; cbn [released];
  match goal with
  | k : positive |- _ =>
      destruct (decide (k = b1)) as [->|];
      [|destruct (decide (k = b2)) as [->|]]
  end;
  repeat first [ rewrite lookup_insert_eq
               | rewrite lookup_delete_eq
               | rewrite lookup_insert_ne by congruence
               | rewrite lookup_delete_ne by congruence ];
  try done.

(** Unfold the monad and the field accessors, so that a run is a nest of
    matches on the outcomes of the primitives. *)
Ltac munfold :=
  repeat progress
    unfold begin_, end_, Size, Capacity, set_size, set_data,
           GetAddress, RawMemory_Capacity, RawMemory_plus, RawMemory_at,
           RawMemory_dtor, RawMemory_ctor,
           get_vec, set_vec, del_vec, add_live,
           bind, ret, throw, undef, assert, try_catch.

Ltac munfold_in H :=
  repeat progress
    unfold begin_, end_, Size, Capacity, set_size, set_data,
           GetAddress, RawMemory_Capacity, RawMemory_plus, RawMemory_at,
           RawMemory_dtor, RawMemory_ctor,
           get_vec, set_vec, del_vec, add_live,
           bind, ret, throw, undef, assert, try_catch in H.

Section Exec.

Context {A : Type} (T : ElemType A).

Implicit Types (w : World (A:=A)) (cs : list (option A)) (xs : list A).
Implicit Types (v : Vector) (p : ptr) (b : positive) (i n : nat).

Lemma bumps_S k n c : bumps k n (bump k c) = bumps k (S n) c.
Proof. unfold bumps. by rewrite Nat.iter_succ_r. Qed.

Lemma bumps_at k n c k' :
  bumps k n c k' = if decide (k' = k) then (n + c k')%nat else c k'.
Proof.
  induction n as [|n IH]; simpl.
  - by case_decide.
  - unfold bump at 1. rewrite IH. case_decide; lia.
Qed.

(** ** Cells of a block *)

Lemma cell_at_block w b i cs :
  heap w !! b = Some cs → cell_at w (Ptr (Some b) (Z.of_nat i)) = cs !! i.
Proof.
  intros Hb. unfold cell_at. rewrite Hb, Nat2Z.id.
  by destruct (Z.leb_spec 0 (Z.of_nat i)); [|lia].
Qed.

Lemma load_block w b i cs x :
  heap w !! b = Some cs → cs !! i = Some (Some x) →
  load (Ptr (Some b) (Z.of_nat i)) w = Ok x w.
Proof. intros Hb Hi. unfold load. by rewrite (cell_at_block _ _ _ _ Hb), Hi. Qed.

Lemma put_block w b i cs c :
  heap w !! b = Some cs → (i < length cs)%nat →
  put (Ptr (Some b) (Z.of_nat i)) c w
  = Ok tt (with_heap (<[b := <[i := c]> cs]> (heap w)) w).
Proof.
  intros Hb Hi. unfold put. rewrite (cell_at_block _ _ _ _ Hb), Hb, Nat2Z.id.
  by destruct (lookup_lt_is_Some_2 cs i Hi) as [c' ->].
Qed.

Lemma construct_at_block w b i cs x :
  heap w !! b = Some cs → (i < length cs)%nat →
  construct_at (Ptr (Some b) (Z.of_nat i)) x w
  = Ok tt (with_live (live w + 1)
             (with_heap (<[b := <[i := Some x]> cs]> (heap w)) w)).
Proof.
  intros Hb Hi. unfold construct_at.
  by rewrite (bind_Ok _ _ _ _ _ (put_block _ _ _ _ _ Hb Hi)).
Qed.

Lemma destroy_at_block w b i cs x :
  heap w !! b = Some cs → cs !! i = Some (Some x) →
  destroy_at (Ptr (Some b) (Z.of_nat i)) w
  = Ok tt (with_live (live w + -1)
             (with_heap (<[b := <[i := None]> cs]> (heap w)) w)).
Proof.
  intros Hb Hi. unfold destroy_at.
  rewrite (bind_Ok _ _ _ _ _ (load_block _ _ _ _ _ Hb Hi)).
  by rewrite (bind_Ok _ _ _ _ _
    (put_block _ _ _ _ _ Hb (lookup_lt_Some _ _ _ Hi))).
Qed.

(** A pointer below the start of its block, or derived from null,
    designates no cell. *)
Lemma cell_at_negative w bo o : o < 0 → cell_at w (Ptr bo o) = None.
Proof.
  intros Ho. unfold cell_at. destruct bo; [|done].
  by destruct (Z.leb_spec 0 o); [lia|].
Qed.

Lemma cell_at_null w o : cell_at w (Ptr None o) = None.
Proof. done. Qed.

Lemma get_vec_Some w this v :
  vecs w !! this = Some v → get_vec this w = Ok v w.
Proof. unfold get_vec. by intros ->. Qed.

Lemma begin_Some w this v :
  vecs w !! this = Some v → begin_ this w = Ok (buffer_ (data_ v)) w.
Proof.
  intros Hv. unfold begin_.
  by rewrite (bind_Ok _ _ _ _ _ (get_vec_Some _ _ _ Hv)).
Qed.

Lemma end_Some w this v :
  vecs w !! this = Some v →
  end_ this w = Ok (buffer_ (data_ v) +ₚ size_ v) w.
Proof.
  intros Hv. unfold end_.
  by rewrite (bind_Ok _ _ _ _ _ (get_vec_Some _ _ _ Hv)).
Qed.

Lemma distance_add p n :
  distance (A:=A) p (p +ₚ Z.of_nat n) = ret n.
Proof.
  unfold distance. destruct p as [bo o]. cbn [ptr_add ptr_base ptr_off].
  rewrite decide_True by done.
  destruct (Z.leb_spec o (o + Z.of_nat n)); [|lia].
  f_equal. lia.
Qed.

Lemma distance_refl p : distance (A:=A) p p = ret 0%nat.
Proof.
  unfold distance. rewrite decide_True by done.
  destruct (Z.leb_spec (ptr_off p) (ptr_off p)); [|lia].
  f_equal. lia.
Qed.

Lemma ptr_add_add p (y z : Z) : p +ₚ y +ₚ z = p +ₚ (y + z).
Proof. destruct p. simpl. f_equal. lia. Qed.

Lemma ptr_add_0 p : p +ₚ 0 = p.
Proof. destruct p. simpl. f_equal. lia. Qed.

Lemma set_vec_eq this v w :
  set_vec this v w = Ok tt (with_vecs (<[this := v]> (vecs w)) w).
Proof. done. Qed.

Lemma set_size_Some w this v s :
  vecs w !! this = Some v →
  set_size this s w
  = Ok tt (with_vecs (<[this := {| data_ := data_ v; size_ := s |}]> (vecs w)) w).
Proof.
  intros Hv. unfold set_size.
  by rewrite (bind_Ok _ _ _ _ _ (get_vec_Some _ _ _ Hv)).
Qed.

Lemma set_data_Some w this v d :
  vecs w !! this = Some v →
  set_data this d w
  = Ok tt (with_vecs (<[this := {| data_ := d; size_ := size_ v |}]> (vecs w)) w).
Proof.
  intros Hv. unfold set_data.
  by rewrite (bind_Ok _ _ _ _ _ (get_vec_Some _ _ _ Hv)).
Qed.

(** ** The shape of a well-formed block *)

Lemma wrap_small z : 0 ≤ z < size_max → wrap z = z.
Proof. intros. unfold wrap. by apply Z.mod_small. Qed.

Lemma length_cells xs cap :
  Z.of_nat (length xs) ≤ cap → length (cells xs cap) = Z.to_nat cap.
Proof.
  intros. unfold cells. rewrite length_app, length_fmap, length_replicate. lia.
Qed.

Lemma cells_lookup_live xs cap i x :
  xs !! i = Some x → cells xs cap !! i = Some (Some x).
Proof.
  intros Hi. unfold cells. rewrite lookup_app_l.
  - by rewrite list_lookup_fmap, Hi.
  - rewrite length_fmap. by eapply lookup_lt_Some.
Qed.

Lemma cells_lookup_raw xs cap i :
  (length xs ≤ i < Z.to_nat cap)%nat → cells xs cap !! i = Some None.
Proof.
  intros Hi. unfold cells. rewrite lookup_app_r; rewrite length_fmap; [|lia].
  apply lookup_replicate_2. lia.
Qed.

Lemma cells_snoc xs x cap :
  Z.of_nat (length xs) < cap →
  <[length xs := Some x]> (cells xs cap) = cells (xs ++ [x]) cap.
Proof.
  intros Hc. unfold cells.
  replace (length xs) with (length (Some <$> xs) + 0)%nat at 1
    by (rewrite length_fmap; lia).
  rewrite insert_app_r, fmap_app, length_app. simpl.
  replace (Z.to_nat cap - length xs)%nat
    with (S (Z.to_nat cap - (length xs + 1)))%nat by lia.
  simpl. by rewrite <- app_assoc.
Qed.

Lemma cells_unsnoc xs x cap :
  Z.of_nat (length xs) < cap →
  <[length xs := None]> (cells (xs ++ [x]) cap) = cells xs cap.
Proof.
  intros Hc. unfold cells. rewrite fmap_app, <- app_assoc, length_app. simpl.
  replace (length xs) with (length (Some <$> xs) + 0)%nat at 1
    by (rewrite length_fmap; lia).
  rewrite insert_app_r. simpl.
  replace (Z.to_nat cap - length xs)%nat
    with (S (Z.to_nat cap - (length xs + 1)))%nat by lia.
  done.
Qed.

Lemma storage_cases w buf cs :
  storage w buf cs →
  (buf = nullptr ∧ cs = []) ∨ (∃ b, buf = Ptr (Some b) 0 ∧ heap w !! b = Some cs).
Proof.
  destruct buf as [[b|] [| |]]; simpl; try done; eauto.
Qed.

Lemma storage_block w buf cs :
  storage w buf cs → cs ≠ [] →
  ∃ b, buf = Ptr (Some b) 0 ∧ heap w !! b = Some cs.
Proof. intros [[_ ->]|?]%storage_cases ?; done. Qed.

End Exec.

(** * Runs in which no special member function throws *)

Section NoThrow.

Context {A : Type} (T : ElemType A).

Hypothesis NT : never_throws T.

Implicit Types (w : World (A:=A)) (cs : list (option A)) (xs ys : list A).
Implicit Types (v : Vector) (p : ptr) (b : positive) (i j n : nat).

Lemma tick_ok k w : tick T k w = Ok tt (with_call k w).
Proof. unfold tick. by rewrite NT. Qed.

Lemma Z_of_nat_succ i : Z.of_nat i + 1 = Z.of_nat (S i).
Proof. lia. Qed.

Lemma Z_of_nat_pred i : Z.of_nat (S i) + -1 = Z.of_nat i.
Proof. lia. Qed.

Lemma ptr_succ bo i : Ptr bo (Z.of_nat i) +ₚ 1 = Ptr bo (Z.of_nat (S i)).
Proof. simpl. f_equal. lia. Qed.

Lemma ptr_pred bo i : Ptr bo (Z.of_nat (S i)) +ₚ -1 = Ptr bo (Z.of_nat i).
Proof. simpl. f_equal. lia. Qed.

Lemma make_value w arg x :
  arg_value w arg = Some x →
  make T arg w = Ok x (with_call (arg_kind arg) w).
Proof.
  unfold make, read_src, leave_moved, bind, ret, load.
  destruct arg as [[y|p]|[y|p]|y]; simpl; intros Hx; try done.
  - injection Hx as ->. by rewrite tick_ok.
  - destruct (cell_at w p) as [[z|]|]; try done.
    injection Hx as ->. by rewrite tick_ok.
  - injection Hx as ->. by rewrite tick_ok.
  - injection Hx as ->. by rewrite tick_ok.
Qed.

Lemma construct_from_value w arg x b i cs :
  arg_value w arg = Some x →
  heap w !! b = Some cs → (i < length cs)%nat →
  construct_from T (Ptr (Some b) (Z.of_nat i)) arg w
  = Ok tt {| heap := <[b := <[i := Some x]> cs]> (heap w);
             next_block := next_block w;
             vecs := vecs w;
             calls := bump (arg_kind arg) (calls w);
             live := live w + 1 |}.
Proof.
  intros Hx Hb Hi. unfold construct_from.
  mstep ltac:(by apply make_value).
  by erewrite construct_at_block.
Qed.

(** ** Lists of cells *)

Lemma take_drop_cons {B} (l : list B) i n x r :
  take (S n) (drop i l) = x :: r →
  l !! i = Some x ∧ take n (drop (S i) l) = r.
Proof.
  intros H. destruct (drop i l) as [|y l'] eqn:Hd; [done|].
  simpl in H. injection H as -> <-.
  split.
  - rewrite <- (Nat.add_0_r i), <- lookup_drop. by rewrite Hd.
  - replace (S i) with (i + 1)%nat by lia. by rewrite <- drop_drop, Hd.
Qed.

Lemma splice_nil {B} (l : list B) j :
  take j l ++ [] ++ drop (j + 0) l = l.
Proof. rewrite Nat.add_0_r. simpl. apply take_drop. Qed.

Lemma splice_cons {B} (l : list B) j x r n :
  (j < length l)%nat →
  take (S j) (<[j := x]> l) ++ r ++ drop (S j + n) (<[j := x]> l)
  = take j l ++ (x :: r) ++ drop (j + S n) l.
Proof.
  intros Hj.
  rewrite drop_insert_lt by lia.
  erewrite take_S_r by (by apply list_lookup_insert_eq).
  rewrite take_insert_ge by lia.
  rewrite <- app_assoc. simpl. do 3 f_equal. f_equal. lia.
Qed.

Lemma insert2_absorb {B} (h : gmap positive B) b1 b2 x1 x2 y1 y2 :
  <[b2 := y2]> (<[b1 := y1]> (<[b2 := x2]> (<[b1 := x1]> h)))
  = <[b2 := y2]> (<[b1 := y1]> h).
Proof.
  apply map_eq. intros k.
  destruct (decide (k = b2)) as [->|]; [by rewrite !lookup_insert_eq|].
  rewrite !(lookup_insert_ne _ b2) by congruence.
  destruct (decide (k = b1)) as [->|]; [by rewrite !lookup_insert_eq|].
  by rewrite !lookup_insert_ne by congruence.
Qed.

Lemma insert_other_id {B} (h : gmap positive B) b1 b2 x1 y2 :
  h !! b1 = Some x1 →
  <[b2 := y2]> (<[b1 := x1]> h) = <[b2 := y2]> h.
Proof. intros H. by rewrite (insert_id h b1 x1 H). Qed.

(** ** The loops *)

Lemma uninitialized_copy_n_spec ys : ∀ w bs bd i j cs ds,
  bs ≠ bd →
  heap w !! bs = Some cs → heap w !! bd = Some ds →
  take (length ys) (drop i cs) = Some <$> ys →
  (j + length ys ≤ length ds)%nat →
  uninitialized_copy_n T (Ptr (Some bs) (Z.of_nat i)) (length ys)
                         (Ptr (Some bd) (Z.of_nat j)) w
  = Ok tt {| heap := <[bd := take j ds ++ (Some <$> ys)
                               ++ drop (j + length ys) ds]> (heap w);
             next_block := next_block w;
             vecs := vecs w;
             calls := bumps CopyCtor (length ys) (calls w);
             live := live w + Z.of_nat (length ys) |}.
Proof.
  induction ys as [|y ys IH]; intros w bs bd i j cs ds Hne Hcs Hds Hys Hj.
  - simpl length. cbn [uninitialized_copy_n fmap list_fmap ret].
    apply Ok_World_eq; wsimpl; try done; [|lia].
    by rewrite splice_nil, insert_id.
  - cbn [length] in *. cbn [uninitialized_copy_n].
    destruct (take_drop_cons _ _ _ _ _ Hys) as [Hy Hys'].
    mstep ltac:(eapply (construct_from_value _ (ConstRef (Cell _)) y);
                [cbn [arg_value]; by rewrite (cell_at_block _ _ _ _ Hcs), Hy
                |exact Hds|lia]).
    apply try_catch_Ok. rewrite ?ptr_succ, ?Z_of_nat_succ.
    rewrite (IH _ bs bd (S i) (S j) cs (<[j := Some y]> ds)); wsimpl;
      [|done|by rewrite lookup_insert_ne|by rewrite lookup_insert_eq|done
       |rewrite length_insert; lia].
    apply Ok_World_eq; wsimpl; try done; [| |lia].
    + rewrite insert_insert_eq. f_equal.
      rewrite fmap_cons. apply splice_cons. lia.
    + by rewrite bumps_S.
Qed.

Lemma uninitialized_move_n_spec ys : ∀ w bs bd i j cs ds,
  bs ≠ bd →
  heap w !! bs = Some cs → heap w !! bd = Some ds →
  take (length ys) (drop i cs) = Some <$> ys →
  (j + length ys ≤ length ds)%nat →
  uninitialized_move_n T (Ptr (Some bs) (Z.of_nat i)) (length ys)
                         (Ptr (Some bd) (Z.of_nat j)) w
  = Ok tt {| heap := <[bd := take j ds ++ (Some <$> ys)
                               ++ drop (j + length ys) ds]>
                       (<[bs := take i cs ++ (Some <$> (moved_from T <$> ys))
                                  ++ drop (i + length ys) cs]> (heap w));
             next_block := next_block w;
             vecs := vecs w;
             calls := bumps MoveCtor (length ys) (calls w);
             live := live w + Z.of_nat (length ys) |}.
Proof.
  induction ys as [|y ys IH]; intros w bs bd i j cs ds Hne Hcs Hds Hys Hj.
  - simpl length. cbn [uninitialized_move_n fmap list_fmap ret].
    apply Ok_World_eq; wsimpl; try done; [|lia].
    rewrite !splice_nil. rewrite (insert_id _ bs) by done. by rewrite insert_id.
  - cbn [length] in *. cbn [uninitialized_move_n].
    destruct (take_drop_cons _ _ _ _ _ Hys) as [Hy Hys'].
    assert (i < length cs)%nat as Hi by (by eapply lookup_lt_Some).
    unfold construct_from, make, read_src, leave_moved.
    mstep ltac:(by eapply load_block).
    mstep ltac:(apply tick_ok).
    mstep ltac:(by eapply put_block).
    rewrite bind_ret.
    mstep ltac:(eapply construct_at_block;
                [wsimpl; by rewrite lookup_insert_ne|lia]).
    apply try_catch_Ok. rewrite ?ptr_succ, ?Z_of_nat_succ. wsimpl.
    rewrite (IH _ bs bd (S i) (S j) (<[i := Some (moved_from T y)]> cs)
                (<[j := Some y]> ds)); wsimpl;
      [|done|by rewrite lookup_insert_ne, lookup_insert_eq
       |by rewrite lookup_insert_eq|by rewrite drop_insert_lt by lia
       |rewrite length_insert; lia].
    apply Ok_World_eq; wsimpl; try done; [| |lia].
    + rewrite insert2_absorb. rewrite !fmap_cons.
      by rewrite !splice_cons by lia.
    + by rewrite bumps_S.
Qed.

Lemma destroy_n_spec ys : ∀ w b i cs,
  heap w !! b = Some cs →
  take (length ys) (drop i cs) = Some <$> ys →
  destroy_n (Ptr (Some b) (Z.of_nat i)) (length ys) w
  = Ok tt {| heap := <[b := take i cs ++ replicate (length ys) None
                              ++ drop (i + length ys) cs]> (heap w);
             next_block := next_block w;
             vecs := vecs w;
             calls := calls w;
             live := live w - Z.of_nat (length ys) |}.
Proof.
  induction ys as [|y ys IH]; intros w b i cs Hb Hys.
  - simpl length. cbn [destroy_n replicate ret].
    apply Ok_World_eq; wsimpl; try done; [|lia].
    by rewrite splice_nil, insert_id.
  - cbn [length] in *. cbn [destroy_n].
    destruct (take_drop_cons _ _ _ _ _ Hys) as [Hy Hys'].
    assert (i < length cs)%nat as Hi by (by eapply lookup_lt_Some).
    mstep ltac:(by eapply destroy_at_block).
    rewrite ?ptr_succ, ?Z_of_nat_succ.
    rewrite (IH _ b (S i) (<[i := None]> cs)); wsimpl;
      [|by rewrite lookup_insert_eq|by rewrite drop_insert_lt by lia].
    apply Ok_World_eq; wsimpl; try done; [|lia].
    rewrite insert_insert_eq. f_equal.
    rewrite replicate_S. by apply splice_cons.
Qed.

Lemma destroy_n_live w b i n cs ys :
  heap w !! b = Some cs →
  take n (drop i cs) = Some <$> ys → length ys = n →
  destroy_n (Ptr (Some b) (Z.of_nat i)) n w
  = Ok tt {| heap := <[b := take i cs ++ replicate n None
                              ++ drop (i + n) cs]> (heap w);
             next_block := next_block w;
             vecs := vecs w;
             calls := calls w;
             live := live w - Z.of_nat n |}.
Proof. intros Hb Hys <-. by apply destroy_n_spec. Qed.

Lemma drop_insert_eq {B} (l : list B) k x :
  (k < length l)%nat → drop k (<[k := x]> l) = x :: drop (S k) l.
Proof.
  intros Hk. rewrite insert_take_drop by done.
  rewrite drop_app_length'; [done|]. rewrite length_take. lia.
Qed.

Lemma take_drop_insert_ge {B} (l : list B) i n k x :
  (i + n ≤ k)%nat → take n (drop i (<[k := x]> l)) = take n (drop i l).
Proof.
  intros Hk. rewrite drop_insert_ge by lia. apply take_insert_ge. lia.
Qed.

Lemma take_drop_snoc {B} (l : list B) i n r x :
  take (S n) (drop i l) = r ++ [x] → length r = n →
  take n (drop i l) = r ∧ l !! (i + n)%nat = Some x.
Proof.
  intros H Hr. split.
  - replace n with (min n (S n)) at 1 by lia.
    rewrite <- take_take, H. by rewrite take_app_length'.
  - rewrite <- lookup_drop, <- (lookup_take_lt _ (S n)) by lia.
    rewrite H. rewrite lookup_app_r by lia.
    by replace (n - length r)%nat with 0%nat by lia.
Qed.

Lemma vacated_snoc ys y z :
  vacated T ys (moved_from T y) = vacated T (ys ++ [y]) z.
Proof. by destruct ys. Qed.

Lemma move_backward_loop_spec ys : ∀ w b i cs z,
  heap w !! b = Some cs →
  take (length ys) (drop i cs) = Some <$> ys →
  cs !! (i + length ys)%nat = Some (Some z) →
  move_backward_loop T (length ys)
    (Ptr (Some b) (Z.of_nat (i + length ys)))
    (Ptr (Some b) (Z.of_nat (S (i + length ys)))) w
  = Ok tt {| heap := <[b := take i cs ++ Some (vacated T ys z)
                              :: (Some <$> ys)
                              ++ drop (S (i + length ys)) cs]> (heap w);
             next_block := next_block w;
             vecs := vecs w;
             calls := bumps MoveAssign (length ys) (calls w);
             live := live w |}.
Proof.
  induction ys as [|y ys IH] using rev_ind; intros w b i cs z Hb Hys Hz.
  - cbn [length move_backward_loop fmap list_fmap ret app vacated].
    cbn [length] in Hz. rewrite Nat.add_0_r in *.
    apply Ok_World_eq; wsimpl; try done.
    by rewrite take_drop_middle, insert_id.
  - rewrite length_app in *. cbn [length] in *.
    rewrite Nat.add_1_r in *. rewrite fmap_app in Hys. cbn [fmap list_fmap] in Hys.
    destruct (take_drop_snoc _ _ _ _ _ Hys) as [Hys' Hy];
      [by rewrite length_fmap|].
    assert (i + S (length ys) < length cs)%nat as Hlen
        by (by eapply lookup_lt_Some).
    replace (i + S (length ys))%nat with (S (i + length ys)) in * by lia.
    set (cs1 := <[S (i + length ys) := Some y]>
                  (<[(i + length ys)%nat := Some (moved_from T y)]> cs)).
    cbn [move_backward_loop]. rewrite ?ptr_pred, ?Z_of_nat_pred.
    unfold move_assign.
    mstep ltac:(by eapply load_block).
    mstep ltac:(by eapply load_block).
    mstep ltac:(apply tick_ok).
    mstep ltac:(eapply put_block; [wsimpl; done|lia]).
    mstep ltac:(eapply put_block;
                [wsimpl; by rewrite lookup_insert_eq|rewrite length_insert; lia]).
    rewrite insert_insert_eq. fold cs1.
    rewrite (IH _ b i cs1 (moved_from T y)); wsimpl.
    + apply Ok_World_eq; wsimpl; try done.
      * rewrite insert_insert_eq. f_equal. unfold cs1.
        rewrite !take_insert_ge by lia.
        rewrite drop_insert_eq by (rewrite length_insert; lia).
        rewrite drop_insert_lt by lia.
        rewrite fmap_app, <- app_assoc. by rewrite (vacated_snoc _ _ z).
      * by rewrite bumps_S.
    + by rewrite lookup_insert_eq.
    + unfold cs1. by rewrite !take_drop_insert_ge by lia.
    + unfold cs1. rewrite list_lookup_insert_ne by lia.
      apply list_lookup_insert_eq. lia.
Qed.

End NoThrow.

(** * The methods on a vector that satisfies the invariant *)

Section Methods.

Context {A : Type} (T : ElemType A).

Hypothesis NT : never_throws T.

Local Notation "x ← m ; k" := (bind m (λ x, k))
  (at level 20, m at level 100, k at level 200, only parsing).
Local Notation "m ;; k" := (bind m (λ _, k))
  (at level 100, k at level 200, right associativity, only parsing).

Implicit Types (w : World (A:=A)) (cs : list (option A)).
Implicit Types (xs ys pre suf : list A) (x : A).
Implicit Types (v : Vector) (p : ptr) (b : positive) (i j n : nat).

Lemma Allocate_granted (n : Z) w :
  0 < n ≤ max_size T →
  throws T New (Pos.to_nat (next_block w)) = false →
  Allocate T n w = Ok (Ptr (Some (next_block w)) 0) (allocated n w).
Proof.
  intros Hn Hq. unfold Allocate, operator_new, wrap.
  destruct (Z.eqb_spec n 0); [lia|]. cbn [negb].
  destruct (bytes_small T n) as (-> & Hb & Hd); [lia|].
  destruct (Z.ltb_spec ptrdiff_max (n * Z.pos (sizeof T))); [lia|].
  by rewrite Hq, Hd.
Qed.

Lemma Allocate_nonzero (n : Z) w :
  0 < n ≤ max_size T →
  Allocate T n w = Ok (Ptr (Some (next_block w)) 0) (allocated n w).
Proof. intros Hn. by apply Allocate_granted. Qed.

(** A request for which there is no memory: only the allocator's counter
    changes. *)
Lemma Allocate_exhausted (n : Z) w :
  0 < n ≤ max_size T →
  throws T New (Pos.to_nat (next_block w)) = true →
  Allocate T n w
  = Throw {| heap := heap w; next_block := Pos.succ (next_block w);
             vecs := vecs w; calls := calls w; live := live w |}.
Proof.
  intros Hn Hq. unfold Allocate, operator_new, wrap.
  destruct (Z.eqb_spec n 0); [lia|]. cbn [negb].
  destruct (bytes_small T n) as (-> & Hb & Hd); [lia|].
  destruct (Z.ltb_spec ptrdiff_max (n * Z.pos (sizeof T))); [lia|].
  by rewrite Hq.
Qed.

(** A request of more bytes than the allocator ever provides: nothing
    changes. *)
Lemma Allocate_refused (n : Z) w :
  max_size T < n → n * Z.pos (sizeof T) < size_max →
  Allocate T n w = Throw w.
Proof.
  intros Hn Hw. pose proof (max_size_range T).
  unfold Allocate, operator_new, wrap.
  destruct (Z.eqb_spec n 0); [lia|]. cbn [negb].
  rewrite Z.mod_small by nia.
  destruct (Z.ltb_spec ptrdiff_max (n * Z.pos (sizeof T))); [done|].
  apply max_size_bytes in H0. lia.
Qed.

Lemma Deallocate_block w b cs :
  heap w !! b = Some cs →
  Deallocate (Ptr (Some b) 0) w = Ok tt (with_heap (delete b (heap w)) w).
Proof. intros Hb. unfold Deallocate. by rewrite Hb. Qed.

Lemma Deallocate_storage w buf cs :
  storage w buf cs →
  Deallocate buf w = Ok tt (with_heap (released buf (heap w)) w).
Proof.
  intros [[-> _]|(b & -> & Hb)]%storage_cases.
  - by destruct w.
  - by eapply Deallocate_block.
Qed.

Lemma RawMemory_plus_ok (rm : RawMemory) (offset : Z) w :
  offset ≤ capacity_ rm →
  RawMemory_plus rm offset w = Ok (buffer_ rm +ₚ offset) w.
Proof.
  intros H. unfold RawMemory_plus, bind, assert.
  by destruct (Z.leb_spec offset (capacity_ rm)); [|lia].
Qed.

Lemma RawMemory_at_ok (rm : RawMemory) (index : Z) w :
  index < capacity_ rm →
  RawMemory_at rm index w = Ok (buffer_ rm +ₚ index) w.
Proof.
  intros H. unfold RawMemory_at, bind, assert.
  by destruct (Z.ltb_spec index (capacity_ rm)); [|lia].
Qed.

Lemma with_new_data_Ok {R} (n : Z) (body : RawMemory → M (RawMemory * R))
    w nd (r : R) w2 w3 :
  0 < n ≤ max_size T →
  body {| buffer_ := Ptr (Some (next_block w)) 0; capacity_ := n |}
       (allocated n w) = Ok (nd, r) w2 →
  Deallocate (buffer_ nd) w2 = Ok tt w3 →
  with_new_data T n body w = Ok r w3.
Proof.
  intros Hn Hbody Hd. unfold with_new_data, RawMemory_ctor.
  mstep ltac:(by apply Allocate_nonzero).
  rewrite bind_ret.
  mstep ltac:(apply try_catch_Ok, Hbody).
  cbn [fst snd]. unfold RawMemory_dtor.
  by mstep ltac:(exact Hd).
Qed.

Lemma arg_value_frame w w' (arg : Arg) x :
  arg_value w arg = Some x →
  (∀ b cs, heap w !! b = Some cs → heap w' !! b = Some cs) →
  arg_value w' arg = Some x.
Proof.
  destruct arg as [[y|p]|[y|p]|y]; simpl; try done.
  intros Hx Hh. destruct p as [[b|] o]; simpl in *; [|done].
  destruct (0 <=? o); [|done].
  destruct (heap w !! b) as [cs|] eqn:Hb; [|done].
  by rewrite (Hh _ _ Hb).
Qed.

Lemma arg_value_allocated w (n : Z) (arg : Arg) x :
  heap_wf w → arg_value w arg = Some x →
  arg_value (allocated n w) arg = Some x.
Proof.
  intros Hwf Hx. eapply arg_value_frame; [done|].
  intros b cs Hb. simpl. rewrite lookup_insert_ne; [done|].
  intros <-. specialize (Hwf (next_block w) (mk_is_Some _ _ Hb)). lia.
Qed.

Lemma grown_pos (s : Z) : 0 ≤ s → s * 2 < size_max →
  grown s = Z.max 1 (2 * s) ∧ s < grown s.
Proof.
  intros. unfold grown. destruct (Z.eqb_spec s 0); [lia|].
  rewrite wrap_small by lia. lia.
Qed.

Lemma cells_take_drop xs (cap : Z) :
  take (length xs) (drop 0 (cells xs cap)) = Some <$> xs.
Proof.
  unfold cells. rewrite drop_0, take_app_length'; [done|by rewrite length_fmap].
Qed.

Lemma cells_raw_after xs ys (cap : Z) :
  length ys = length xs →
  replicate (length ys) None ++ drop (length ys) (cells xs cap)
  = replicate (Z.to_nat cap - length xs + length xs) None.
Proof.
  intros ->. unfold cells.
  rewrite drop_app_length' by (by rewrite length_fmap).
  by rewrite Nat.add_comm, replicate_add.
Qed.

(** ** [EmplaceBack] *)

Lemma EmplaceBack_spare w this xs b (cap : Z) arg x :
  vecs w !! this
  = Some {| data_ := {| buffer_ := Ptr (Some b) 0; capacity_ := cap |};
            size_ := Z.of_nat (length xs) |} →
  heap w !! b = Some (cells xs cap) →
  Z.of_nat (length xs) < cap < size_max →
  arg_value w arg = Some x →
  EmplaceBack T this arg w
  = Ok (Ptr (Some b) (Z.of_nat (length xs)))
       {| heap := <[b := cells (xs ++ [x]) cap]> (heap w);
          next_block := next_block w;
          vecs := <[this := {| data_ := {| buffer_ := Ptr (Some b) 0;
                                          capacity_ := cap |};
                               size_ := Z.of_nat (length xs) + 1 |}]> (vecs w);
          calls := bump (arg_kind arg) (calls w);
          live := live w + 1 |}.
Proof.
  intros Hv Hb Hlen Hx. unfold EmplaceBack.
  mstep ltac:(by apply get_vec_Some). wsimpl.
  destruct (Z.ltb_spec (Z.of_nat (length xs)) cap); [|lia].
  mstep ltac:(apply RawMemory_plus_ok; wsimpl; lia).
  wsimpl. cbn [ptr_add Z.add].
  mstep ltac:(eapply (construct_from_value T NT); [done|done|]).
  { rewrite length_cells by lia. lia. }
  mstep ltac:(by apply set_size_Some).
  unfold ret. apply Ok_World_eq; wsimpl; try done.
  - by rewrite cells_snoc by lia.
  - rewrite wrap_small by size_lia. done.
Qed.

Lemma cells_grown_raw xs (c : Z) x :
  Z.of_nat (length xs) < c →
  (Some <$> xs) ++ drop (length xs) (<[length xs := Some x]>
                                       (replicate (Z.to_nat c) None))
  = cells (xs ++ [x]) c.
Proof.
  intros Hc. rewrite drop_insert_eq by (rewrite length_replicate; lia).
  rewrite drop_replicate. unfold cells.
  rewrite fmap_app, <- app_assoc, length_app. simpl.
  do 3 f_equal. lia.
Qed.

Lemma EmplaceBack_full w this xs buf arg x :
  heap_wf w →
  vecs w !! this
  = Some {| data_ := {| buffer_ := buf;
                        capacity_ := Z.of_nat (length xs) |};
            size_ := Z.of_nat (length xs) |} →
  storage w buf (cells xs (Z.of_nat (length xs))) →
  Z.max 1 (Z.of_nat (length xs) * 2) ≤ max_size T →
  arg_value w arg = Some x →
  EmplaceBack T this arg w
  = Ok (Ptr (Some (next_block w)) (Z.of_nat (length xs)))
       {| heap := <[next_block w
                    := cells (xs ++ [x]) (grown (Z.of_nat (length xs)))]>
                    (released buf (heap w));
          next_block := Pos.succ (next_block w);
          vecs := <[this := {| data_ :=
                                 {| buffer_ := Ptr (Some (next_block w)) 0;
                                    capacity_ := grown (Z.of_nat (length xs)) |};
                               size_ := Z.of_nat (length xs) + 1 |}]> (vecs w);
          calls := bumps (transfer_kind T) (length xs)
                         (bump (arg_kind arg) (calls w));
          live := live w + 1 |}.
Proof.
  intros Hwf Hv Hst Hlen Hx. unfold EmplaceBack.
  destruct (grown_pos (Z.of_nat (length xs))) as [Hg Hgt];
    [lia|size_lia|].
  mstep ltac:(by apply get_vec_Some). wsimpl.
  rewrite Z.ltb_irrefl. fold (grown (Z.of_nat (length xs))).
  rewrite Nat2Z.id.
  set (c := grown (Z.of_nat (length xs))) in *.
  assert (arg_value (allocated c w) arg = Some x) as Hx'
      by (by apply arg_value_allocated).
  assert (heap (allocated c w) !! next_block w
          = Some (replicate (Z.to_nat c) None))
      as Hnb by (simpl; by rewrite lookup_insert_eq).
  destruct (storage_cases _ _ _ Hst) as [[-> Hnil]|(b & -> & Hb)].
  - (* a default-constructed or moved-from vector *)
    assert (xs = []) as -> by (by destruct xs).
    eapply with_new_data_Ok; [lia| |].
    + mstep ltac:(apply RawMemory_plus_ok; wsimpl; lia).
      wsimpl. cbn [ptr_add Z.add length].
      mstep ltac:(eapply (construct_from_value T NT _ _ _ _ 0);
                  [done|done|rewrite length_replicate; lia]).
      replace (if use_move T then _ else _) with (ret (A:=A) tt)
        by (by destruct (use_move T)).
      rewrite bind_ret. cbn [destroy_n]. rewrite bind_ret.
      mstep ltac:(by apply set_data_Some).
      mstep ltac:(apply set_size_Some; lookup_tac).
      reflexivity.
    + wsimpl. cbn [Deallocate nullptr Z.eqb]. unfold ret.
      apply Ok_World_eq; wsimpl; try done.
      * rewrite insert_insert_eq. by f_equal.
      * by rewrite insert_insert_eq.
  - (* a vector that owns block [b] *)
    assert (b ≠ next_block w) as Hne.
    { intros ->. specialize (Hwf _ (mk_is_Some _ _ Hb)). lia. }
    assert (heap (allocated c w) !! b
            = Some (cells xs (Z.of_nat (length xs)))) as Hb'
        by (simpl; by rewrite lookup_insert_ne).
    unfold transfer_kind.
    destruct (use_move T);
      (eapply with_new_data_Ok; [lia| |]).
    + mstep ltac:(apply RawMemory_plus_ok; wsimpl; lia).
      cbn [ptr_add Z.add].
      mstep ltac:(eapply (construct_from_value T NT);
                  [done|done|rewrite length_replicate; lia]).
      mstep ltac:(eapply (uninitialized_move_n_spec T NT xs _ b
                            (next_block w) 0 0);
                  [done|lookup_tac|lookup_tac|apply cells_take_drop
                  |rewrite length_insert, length_replicate; lia]).
      mstep ltac:(eapply (destroy_n_live _ b 0 _ _ (moved_from T <$> xs));
                  [lookup_tac| |by rewrite length_fmap]).
      { rewrite take_0, drop_0, app_nil_l.
        rewrite take_app_length'; [done|by rewrite !length_fmap]. }
      mstep ltac:(by apply set_data_Some).
      mstep ltac:(apply set_size_Some; lookup_tac).
      reflexivity.
    + wsimpl. erewrite Deallocate_block; [|lookup_tac].
      apply Ok_World_eq; wsimpl; try done; [| |lia].
      * heap_eq (next_block w) b. f_equal.
        rewrite take_0, app_nil_l, Nat.add_0_l. by apply cells_grown_raw.
      * rewrite insert_insert_eq, wrap_small by size_lia. done.
    + mstep ltac:(apply RawMemory_plus_ok; wsimpl; lia).
      cbn [ptr_add Z.add].
      mstep ltac:(eapply (construct_from_value T NT);
                  [done|done|rewrite length_replicate; lia]).
      mstep ltac:(apply try_catch_Ok;
                  eapply (uninitialized_copy_n_spec T NT xs _ b
                            (next_block w) 0 0);
                  [done|lookup_tac|lookup_tac|apply cells_take_drop
                  |rewrite length_insert, length_replicate; lia]).
      mstep ltac:(eapply (destroy_n_live _ b 0 _ _ xs);
                  [lookup_tac|apply cells_take_drop|done]).
      mstep ltac:(by apply set_data_Some).
      mstep ltac:(apply set_size_Some; lookup_tac).
      reflexivity.
    + wsimpl. erewrite Deallocate_block; [|lookup_tac].
      apply Ok_World_eq; wsimpl; try done; [| |lia].
      * heap_eq (next_block w) b. f_equal.
        rewrite take_0, app_nil_l, Nat.add_0_l. by apply cells_grown_raw.
      * rewrite insert_insert_eq, wrap_small by size_lia. done.
Qed.

(** ** [Reserve] *)

Lemma cells_moved_raw xs (c : Z) :
  Z.of_nat (length xs) ≤ c →
  (Some <$> xs) ++ drop (length xs) (replicate (Z.to_nat c) None)
  = cells xs c.
Proof. intros Hc. by rewrite drop_replicate. Qed.

Lemma Reserve_noop w this v (new_capacity : Z) :
  vecs w !! this = Some v → new_capacity ≤ capacity_ (data_ v) →
  Reserve T this new_capacity w = Ok tt w.
Proof.
  intros Hv Hc. unfold Reserve.
  mstep ltac:(by apply get_vec_Some). unfold RawMemory_Capacity.
  by destruct (Z.leb_spec new_capacity (capacity_ (data_ v))); [|lia].
Qed.

Lemma Reserve_grow w this xs buf (cap new_capacity : Z) :
  heap_wf w →
  vecs w !! this
  = Some {| data_ := {| buffer_ := buf; capacity_ := cap |};
            size_ := Z.of_nat (length xs) |} →
  storage w buf (cells xs cap) →
  Z.of_nat (length xs) ≤ cap →
  cap < new_capacity ≤ max_size T →
  Reserve T this new_capacity w
  = Ok tt
       {| heap := <[next_block w := cells xs new_capacity]>
                    (released buf (heap w));
          next_block := Pos.succ (next_block w);
          vecs := <[this := {| data_ :=
                                 {| buffer_ := Ptr (Some (next_block w)) 0;
                                    capacity_ := new_capacity |};
                               size_ := Z.of_nat (length xs) |}]> (vecs w);
          calls := bumps (transfer_kind T) (length xs) (calls w);
          live := live w |}.
Proof.
  intros Hwf Hv Hst Hlen Hc. unfold Reserve.
  mstep ltac:(by apply get_vec_Some).
  destruct (Z.leb_spec new_capacity cap); [lia|].
  rewrite Nat2Z.id.
  assert (heap (allocated new_capacity w) !! next_block w
          = Some (replicate (Z.to_nat new_capacity) None))
      as Hnb by (simpl; by rewrite lookup_insert_eq).
  destruct (storage_cases _ _ _ Hst) as [[-> Hnil]|(b & -> & Hb)].
  - assert (xs = []) as -> by (by destruct xs).
    eapply with_new_data_Ok; [lia| |].
    + cbn [length].
      replace (if use_move T then _ else _) with (ret (A:=A) tt)
        by (by destruct (use_move T)).
      rewrite bind_ret. cbn [destroy_n]. rewrite bind_ret.
      mstep ltac:(by apply set_data_Some).
      reflexivity.
    + wsimpl. cbn [Deallocate nullptr Z.eqb]. unfold ret.
      apply Ok_World_eq; wsimpl; try done.
      unfold cells. cbn [length fmap list_fmap app released].
      by rewrite Nat.sub_0_r.
  - assert (b ≠ next_block w) as Hne.
    { intros ->. specialize (Hwf _ (mk_is_Some _ _ Hb)). lia. }
    assert (heap (allocated new_capacity w) !! b = Some (cells xs cap)) as Hb'
        by (simpl; by rewrite lookup_insert_ne).
    unfold transfer_kind.
    destruct (use_move T);
      (eapply with_new_data_Ok; [lia| |]).
    + mstep ltac:(eapply (uninitialized_move_n_spec T NT xs _ b
                            (next_block w) 0 0);
                  [done|lookup_tac|lookup_tac|apply cells_take_drop
                  |rewrite length_replicate; lia]).
      mstep ltac:(eapply (destroy_n_live _ b 0 _ _ (moved_from T <$> xs));
                  [lookup_tac| |by rewrite length_fmap]).
      { rewrite take_0, drop_0, app_nil_l.
        rewrite take_app_length'; [done|by rewrite !length_fmap]. }
      mstep ltac:(by apply set_data_Some).
      reflexivity.
    + wsimpl. erewrite Deallocate_block; [|lookup_tac].
      apply Ok_World_eq; wsimpl; try done; [|lia].
      heap_eq (next_block w) b. f_equal.
      rewrite take_0, app_nil_l, Nat.add_0_l. apply cells_moved_raw. lia.
    + mstep ltac:(eapply (uninitialized_copy_n_spec T NT xs _ b
                            (next_block w) 0 0);
                  [done|lookup_tac|lookup_tac|apply cells_take_drop
                  |rewrite length_replicate; lia]).
      mstep ltac:(eapply (destroy_n_live _ b 0 _ _ xs);
                  [lookup_tac|apply cells_take_drop|done]).
      mstep ltac:(by apply set_data_Some).
      reflexivity.
    + wsimpl. erewrite Deallocate_block; [|lookup_tac].
      apply Ok_World_eq; wsimpl; try done; [|lia].
      heap_eq (next_block w) b. f_equal.
      rewrite take_0, app_nil_l, Nat.add_0_l. apply cells_moved_raw. lia.
Qed.

(** ** [Emplace] before the end *)

Lemma cells_app pre suf (cap : Z) :
  cells (pre ++ suf) cap
  = (Some <$> pre) ++ (Some <$> suf)
    ++ replicate (Z.to_nat cap - (length pre + length suf)) None.
Proof. unfold cells. by rewrite fmap_app, length_app, <- app_assoc. Qed.

Lemma cells_insert_at pre suf x (cap : Z) :
  cells (pre ++ x :: suf) cap
  = (Some <$> pre) ++ Some x :: (Some <$> suf)
    ++ replicate (Z.to_nat cap - S (length pre + length suf)) None.
Proof.
  rewrite cells_app. cbn [fmap list_fmap length app].
  do 4 f_equal. lia.
Qed.

Lemma cells_suffix pre suf (cap : Z) :
  take (length suf) (drop (length pre) (cells (pre ++ suf) cap))
  = Some <$> suf.
Proof.
  rewrite cells_app.
  rewrite drop_app_length' by (by rewrite length_fmap).
  by rewrite take_app_length' by (by rewrite length_fmap).
Qed.

Lemma cells_prefix pre suf (cap : Z) :
  take (length pre) (drop 0 (cells (pre ++ suf) cap)) = Some <$> pre.
Proof.
  rewrite cells_app, drop_0.
  by rewrite take_app_length' by (by rewrite length_fmap).
Qed.

(** The new block of a reallocating [Emplace]: the new element at
    [length pre], then the prefix in front of it and the suffix behind
    it. *)
Lemma realloc_layout pre suf x (c : Z) :
  Z.of_nat (length pre + length suf) < c →
  let d0 := <[length pre := Some x]> (replicate (Z.to_nat c) None) in
  let d1 := take 0 d0 ++ (Some <$> pre) ++ drop (0 + length pre) d0 in
  take (S (length pre)) d1 ++ (Some <$> suf)
    ++ drop (S (length pre) + length suf) d1
  = cells (pre ++ x :: suf) c.
Proof.
  intros Hc d0 d1.
  assert (d1 = (Some <$> pre) ++ Some x
                 :: replicate (Z.to_nat c - S (length pre)) None) as ->.
  { unfold d1, d0. rewrite insert_replicate_lt by lia.
    rewrite take_0, app_nil_l, Nat.add_0_l.
    by rewrite drop_app_length' by (by rewrite length_replicate). }
  rewrite cells_insert_at.
  replace (S (length pre)) with (length pre + 1)%nat by lia.
  rewrite take_app_add' by (by rewrite length_fmap).
  rewrite <- Nat.add_assoc.
  rewrite drop_app_add' by (by rewrite length_fmap).
  cbn [take drop Nat.add]. rewrite take_0, drop_replicate.
  rewrite <- app_assoc. cbn [app]. do 4 f_equal. lia.
Qed.

Lemma ReallocateWithCopy_spec w this pre suf b (cap : Z) arg x :
  heap_wf w →
  vecs w !! this
  = Some {| data_ := {| buffer_ := Ptr (Some b) 0; capacity_ := cap |};
            size_ := Z.of_nat (length (pre ++ suf)) |} →
  heap w !! b = Some (cells (pre ++ suf) cap) →
  Z.max 1 (Z.of_nat (length (pre ++ suf)) * 2) ≤ max_size T →
  arg_value w arg = Some x →
  ReallocateWithCopy T this (Z.of_nat (length pre)) arg w
  = Ok tt
       {| heap := <[next_block w
                    := cells (pre ++ x :: suf)
                             (grown (Z.of_nat (length (pre ++ suf))))]>
                    (delete b (heap w));
          next_block := Pos.succ (next_block w);
          vecs := <[this := {| data_ :=
                                 {| buffer_ := Ptr (Some (next_block w)) 0;
                                    capacity_ :=
                                      grown (Z.of_nat (length (pre ++ suf))) |};
                               size_ := Z.of_nat (length (pre ++ suf)) |}]>
                    (vecs w);
          calls := bumps CopyCtor (length suf)
                     (bumps CopyCtor (length pre)
                        (bump (arg_kind arg) (calls w)));
          live := live w + 1 |}.
Proof.
  intros Hwf Hv Hb Hlen Hx. unfold ReallocateWithCopy.
  destruct (grown_pos (Z.of_nat (length (pre ++ suf)))) as [Hg Hgt];
    [lia|size_lia|].
  mstep ltac:(by apply get_vec_Some).
  fold (grown (Z.of_nat (length (pre ++ suf)))).
  set (c := grown (Z.of_nat (length (pre ++ suf)))) in *.
  rewrite !Nat2Z.id.
  replace (Z.to_nat (wrap (Z.of_nat (length (pre ++ suf))
                           - Z.of_nat (length pre))))
    with (length suf)
    by (rewrite wrap_small; rewrite length_app in *; size_lia).
  rewrite length_app in Hgt.
  assert (b ≠ next_block w) as Hne.
  { intros ->. specialize (Hwf _ (mk_is_Some _ _ Hb)). lia. }
  eapply with_new_data_Ok; [lia| |].
  - mstep ltac:(apply RawMemory_plus_ok; wsimpl; lia).
    mstep ltac:(eapply (construct_from_value T NT);
                [by apply arg_value_allocated|lookup_tac
                |rewrite length_replicate; lia]).
    rewrite ?Z.add_0_l, ?Z_of_nat_succ.
    mstep ltac:(apply try_catch_Ok;
                etrans; [eapply bind_Ok;
                  eapply (uninitialized_copy_n_spec T NT pre _ b
                            (next_block w) 0 0);
                  [done|lookup_tac|lookup_tac|apply cells_prefix
                  |rewrite length_insert, length_replicate; lia]|];
                wsimpl;
                eapply (uninitialized_copy_n_spec T NT suf _ b
                          (next_block w) (length pre) (S (length pre)));
                [done|lookup_tac|lookup_tac|apply cells_suffix|]).
    { rewrite !length_app, length_take, length_drop, length_fmap,
        length_insert, length_replicate. lia. }
    mstep ltac:(eapply (destroy_n_live _ b 0 _ _ (pre ++ suf));
                [lookup_tac|apply cells_take_drop|done]).
    mstep ltac:(by apply set_data_Some).
    reflexivity.
  - wsimpl. erewrite Deallocate_block; [|lookup_tac].
    apply Ok_World_eq; wsimpl; try done; [|rewrite length_app; lia].
    heap_eq (next_block w) b. f_equal.
    apply realloc_layout. lia.
Qed.

(** The old block while [ReallocateWithMove] runs: after the prefix was
    moved out, and after the suffix was moved out too. *)
Lemma moved_prefix_layout pre suf (cap : Z) (f : A → A) :
  take 0 (cells (pre ++ suf) cap) ++ (Some <$> (f <$> pre))
    ++ drop (0 + length pre) (cells (pre ++ suf) cap)
  = (Some <$> (f <$> pre)) ++ (Some <$> suf)
    ++ replicate (Z.to_nat cap - (length pre + length suf)) None.
Proof.
  rewrite take_0, app_nil_l, Nat.add_0_l, cells_app.
  by rewrite drop_app_length' by (by rewrite length_fmap).
Qed.

Lemma moved_suffix_layout pre suf (cap : Z) (f : A → A) :
  let s1 := take 0 (cells (pre ++ suf) cap) ++ (Some <$> (f <$> pre))
              ++ drop (0 + length pre) (cells (pre ++ suf) cap) in
  take (length pre) s1 ++ (Some <$> (f <$> suf))
    ++ drop (length pre + length suf) s1
  = (Some <$> (f <$> (pre ++ suf)))
    ++ replicate (Z.to_nat cap - (length pre + length suf)) None.
Proof.
  intros s1. unfold s1. rewrite moved_prefix_layout.
  rewrite take_app_length' by (by rewrite !length_fmap).
  rewrite drop_app_add' by (by rewrite !length_fmap).
  rewrite drop_app_length' by (by rewrite !length_fmap).
  by rewrite !fmap_app, <- app_assoc.
Qed.

Lemma ReallocateWithMove_spec w this pre suf b (cap : Z) arg x :
  heap_wf w →
  vecs w !! this
  = Some {| data_ := {| buffer_ := Ptr (Some b) 0; capacity_ := cap |};
            size_ := Z.of_nat (length (pre ++ suf)) |} →
  heap w !! b = Some (cells (pre ++ suf) cap) →
  Z.max 1 (Z.of_nat (length (pre ++ suf)) * 2) ≤ max_size T →
  arg_value w arg = Some x →
  ReallocateWithMove T this (Z.of_nat (length pre)) arg w
  = Ok tt
       {| heap := <[next_block w
                    := cells (pre ++ x :: suf)
                             (grown (Z.of_nat (length (pre ++ suf))))]>
                    (delete b (heap w));
          next_block := Pos.succ (next_block w);
          vecs := <[this := {| data_ :=
                                 {| buffer_ := Ptr (Some (next_block w)) 0;
                                    capacity_ :=
                                      grown (Z.of_nat (length (pre ++ suf))) |};
                               size_ := Z.of_nat (length (pre ++ suf)) |}]>
                    (vecs w);
          calls := bumps MoveCtor (length suf)
                     (bumps MoveCtor (length pre)
                        (bump (arg_kind arg) (calls w)));
          live := live w + 1 |}.
Proof.
  intros Hwf Hv Hb Hlen Hx. unfold ReallocateWithMove.
  destruct (grown_pos (Z.of_nat (length (pre ++ suf)))) as [Hg Hgt];
    [lia|size_lia|].
  mstep ltac:(by apply get_vec_Some).
  fold (grown (Z.of_nat (length (pre ++ suf)))).
  set (c := grown (Z.of_nat (length (pre ++ suf)))) in *.
  rewrite !Nat2Z.id.
  replace (Z.to_nat (wrap (Z.of_nat (length (pre ++ suf))
                           - Z.of_nat (length pre))))
    with (length suf)
    by (rewrite wrap_small; rewrite length_app in *; size_lia).
  rewrite length_app in Hgt.
  assert (b ≠ next_block w) as Hne.
  { intros ->. specialize (Hwf _ (mk_is_Some _ _ Hb)). lia. }
  eapply with_new_data_Ok; [lia| |].
  - mstep ltac:(apply RawMemory_plus_ok; wsimpl; lia).
    mstep ltac:(eapply (construct_from_value T NT);
                [by apply arg_value_allocated|lookup_tac
                |rewrite length_replicate; lia]).
    rewrite ?Z.add_0_l, ?Z_of_nat_succ.
    mstep ltac:(eapply (uninitialized_move_n_spec T NT pre _ b
                          (next_block w) 0 0);
                [done|lookup_tac|lookup_tac|apply cells_prefix
                |rewrite length_insert, length_replicate; lia]).
    mstep ltac:(eapply (uninitialized_move_n_spec T NT suf _ b
                          (next_block w) (length pre) (S (length pre)));
                [done|lookup_tac|lookup_tac| |]).
    { rewrite moved_prefix_layout.
      rewrite drop_app_length' by (by rewrite !length_fmap).
      by rewrite take_app_length' by (by rewrite length_fmap). }
    { rewrite !length_app, length_take, length_drop, length_fmap,
        length_insert, length_replicate. lia. }
    mstep ltac:(eapply (destroy_n_live _ b 0 _ _
                          (moved_from T <$> (pre ++ suf)));
                [lookup_tac| |by rewrite length_fmap]).
    { rewrite moved_suffix_layout, drop_0.
      by rewrite take_app_length' by (by rewrite !length_fmap). }
    mstep ltac:(by apply set_data_Some).
    reflexivity.
  - wsimpl. erewrite Deallocate_block; [|lookup_tac].
    apply Ok_World_eq; wsimpl; try done; [|rewrite length_app; lia].
    heap_eq (next_block w) b. f_equal.
    apply realloc_layout. lia.
Qed.

(** ** [Emplace] before the end of a vector with spare capacity *)

Section shift_layout.

Context {B : Type} (P Y R : list B) (p k : nat).
Hypothesis HP : length P = p.
Hypothesis HY : length Y = k.

Lemma layout_lookup u t : (P ++ Y ++ u :: t :: R) !! (p + k)%nat = Some u.
Proof.
  rewrite lookup_app_r by lia. rewrite lookup_app_r by lia.
  by replace (p + k - length P - length Y)%nat with 0%nat by lia.
Qed.

Lemma layout_insert2 u t u' t' :
  <[S (p + k) := t']> (<[(p + k)%nat := u']> (P ++ Y ++ u :: t :: R))
  = P ++ Y ++ u' :: t' :: R.
Proof.
  rewrite !app_assoc.
  rewrite (insert_app_r_alt (P ++ Y) _ (p + k))
    by (rewrite length_app; lia).
  rewrite (insert_app_r_alt (P ++ Y) _ (S (p + k)))
    by (rewrite length_app; lia).
  rewrite length_app.
  replace (p + k - (length P + length Y))%nat with 0%nat by lia.
  by replace (S (p + k) - (length P + length Y))%nat with 1%nat by lia.
Qed.

Lemma layout_range u t : take k (drop p (P ++ Y ++ u :: t :: R)) = Y.
Proof. by rewrite drop_app_length', take_app_length'. Qed.

Lemma layout_fill u t (hole new : B) :
  <[p := new]> (take p (P ++ Y ++ u :: t :: R) ++ hole :: Y
                ++ drop (S (p + k)) (P ++ Y ++ u :: t :: R))
  = P ++ new :: Y ++ t :: R.
Proof.
  rewrite take_app_length' by done.
  rewrite (insert_app_r_alt P _ p) by lia.
  replace (p - length P)%nat with 0%nat by lia. cbn [insert list_insert].
  do 3 f_equal.
  replace (S (p + k)) with (p + (k + 1))%nat by lia.
  rewrite drop_app_add' by done. by rewrite drop_app_add' by done.
Qed.

End shift_layout.

Lemma cells_spare pre ys xl (cap : Z) :
  Z.of_nat (length pre + length ys + 1) < cap →
  cells (pre ++ ys ++ [xl]) cap
  = (Some <$> pre) ++ (Some <$> ys) ++ Some xl :: None
    :: replicate (Z.to_nat cap - (length pre + length ys + 2)) None.
Proof.
  intros Hc. unfold cells. rewrite !fmap_app, !length_app, <- !app_assoc.
  cbn [fmap list_fmap length app]. do 3 f_equal.
  rewrite <- replicate_S. f_equal. lia.
Qed.

Lemma cells_spare_filled pre ys xl x (cap : Z) :
  Z.of_nat (length pre + length ys + 1) < cap →
  cells (pre ++ x :: ys ++ [xl]) cap
  = (Some <$> pre) ++ Some x :: (Some <$> ys) ++ Some xl
    :: replicate (Z.to_nat cap - (length pre + length ys + 2)) None.
Proof.
  intros Hc. unfold cells. rewrite !fmap_app, !length_app, <- !app_assoc.
  cbn [fmap list_fmap length app]. rewrite fmap_app, length_app, <- app_assoc.
  cbn [fmap list_fmap length app]. do 5 f_equal. lia.
Qed.

Lemma distance_nat bo i j :
  (i ≤ j)%nat →
  distance (A:=A) (Ptr bo (Z.of_nat i)) (Ptr bo (Z.of_nat j)) = ret (j - i)%nat.
Proof.
  intros Hij. unfold distance. cbn [ptr_base ptr_off].
  rewrite decide_True by done.
  destruct (Z.leb_spec (Z.of_nat i) (Z.of_nat j)); [|lia].
  f_equal. lia.
Qed.

Lemma with_tmp_Ok {R} arg (body : A → M R) w x r w2 :
  arg_value w arg = Some x →
  body x (with_live (live w + 1) (with_call (arg_kind arg) w)) = Ok r w2 →
  with_tmp T arg body w = Ok r (with_live (live w2 + -1) w2).
Proof.
  intros Hx Hbody. unfold with_tmp.
  mstep ltac:(by apply (make_value T NT)).
  mstep ltac:(reflexivity).
  mstep ltac:(apply try_catch_Ok, Hbody).
  by mstep ltac:(reflexivity).
Qed.

(** The body of the spare-capacity branch of [Emplace]: the last element
    is move-constructed into the first raw cell, the range behind the
    position is shifted by move assignment, and the temporary is
    move-assigned into the position. *)
Lemma shift_in_place w pre ys xl b (cap : Z) x :
  heap w !! b = Some (cells (pre ++ ys ++ [xl]) cap) →
  Z.of_nat (length pre + length ys + 1) < cap →
  let e := Ptr (Some b) (Z.of_nat (length pre + length ys + 1)) in
  (construct_from T e (RvalueRef (Cell (e +ₚ -1)));;
   try_catch (std_move_backward T (Ptr (Some b) (Z.of_nat (length pre)))
                                (e +ₚ -1) e)
             (destroy_n e 1;; throw);;
   p ← RawMemory_at {| buffer_ := Ptr (Some b) 0; capacity_ := cap |}
                    (Z.of_nat (length pre));
   _ ← load p;
   tick T MoveAssign;;
   put p (Some x)) w
  = Ok tt {| heap := <[b := cells (pre ++ x :: ys ++ [xl]) cap]> (heap w);
             next_block := next_block w;
             vecs := vecs w;
             calls := bump MoveAssign
                        (bumps MoveAssign (length ys)
                           (bump MoveCtor (calls w)));
             live := live w + 1 |}.
Proof.
  intros Hb Hc e. unfold e. cbn [ptr_add].
  replace (Z.of_nat (length pre + length ys + 1) + -1)
    with (Z.of_nat (length pre + length ys)) by lia.
  replace (length pre + length ys + 1)%nat
    with (S (length pre + length ys)) by lia.
  set (P := Some <$> pre). set (Y := Some <$> ys).
  set (R := replicate (Z.to_nat cap - (length pre + length ys + 2))
                      (@None A)).
  assert (length P = length pre) as HP by apply length_fmap.
  assert (length Y = length ys) as HY by apply length_fmap.
  rewrite cells_spare in Hb by lia. fold P Y R in Hb.
  assert (length (P ++ Y ++ Some xl :: None :: R) = Z.to_nat cap) as Hlen.
  { rewrite !length_app. cbn [length]. unfold R.
    rewrite length_replicate. lia. }
  unfold construct_from, make, read_src, leave_moved.
  mstep ltac:(eapply load_block; [done|by apply layout_lookup]).
  mstep ltac:(apply (tick_ok T NT)).
  mstep ltac:(eapply put_block; [lookup_tac|lia]).
  rewrite bind_ret.
  mstep ltac:(eapply construct_at_block;
              [lookup_tac|rewrite length_insert; lia]).
  rewrite insert_insert_eq.
  rewrite (layout_insert2 P Y R _ _ HP HY).
  unfold std_move_backward.
  mstep ltac:(apply try_catch_Ok;
              rewrite distance_nat by lia; rewrite bind_ret;
              replace (length pre + length ys - length pre)%nat
                with (length ys) by lia;
              eapply (move_backward_loop_spec T NT ys _ b (length pre));
              [lookup_tac|by apply layout_range|by apply layout_lookup]).
  mstep ltac:(apply RawMemory_at_ok; wsimpl; lia).
  rewrite ?Z.add_0_l.
  mstep ltac:(eapply load_block; [lookup_tac|]).
  { rewrite (take_app_length' P _ (length pre)) by done.
    by apply list_lookup_middle. }
  mstep ltac:(apply (tick_ok T NT)).
  erewrite put_block; [|lookup_tac|].
  - apply Ok_World_eq; wsimpl; try done.
    rewrite !insert_insert_eq. f_equal.
    rewrite (layout_fill P Y R _ _ HP HY).
    rewrite cells_spare_filled by lia. done.
  - rewrite (take_app_length' P _ (length pre)) by done.
    rewrite !length_app. cbn [length]. lia.
Qed.

Lemma Emplace_spare w this pre ys xl b (cap : Z) arg x :
  vecs w !! this
  = Some {| data_ := {| buffer_ := Ptr (Some b) 0; capacity_ := cap |};
            size_ := Z.of_nat (length pre + length ys + 1) |} →
  heap w !! b = Some (cells (pre ++ ys ++ [xl]) cap) →
  Z.of_nat (length pre + length ys + 1) < cap < size_max →
  arg_value w arg = Some x →
  Emplace T this (Ptr (Some b) (Z.of_nat (length pre))) arg w
  = Ok (Ptr (Some b) (Z.of_nat (length pre)))
       {| heap := <[b := cells (pre ++ x :: ys ++ [xl]) cap]> (heap w);
          next_block := next_block w;
          vecs := <[this := {| data_ := {| buffer_ := Ptr (Some b) 0;
                                          capacity_ := cap |};
                               size_ := Z.of_nat (length pre + length ys + 1)
                                        + 1 |}]> (vecs w);
          calls := bump MoveAssign
                     (bumps MoveAssign (length ys)
                        (bump MoveCtor (bump (arg_kind arg) (calls w))));
          live := live w + 1 |}.
Proof.
  intros Hv Hb Hlen Hx. unfold Emplace.
  mstep ltac:(by apply end_Some).
  rewrite decide_False by (intros [=]; lia).
  mstep ltac:(by apply begin_Some).
  cbn [ptr_base ptr_off]. rewrite decide_True by done.
  replace (wrap (Z.of_nat (length pre) - 0)) with (Z.of_nat (length pre))
    by (rewrite wrap_small; size_lia).
  mstep ltac:(by apply get_vec_Some).
  destruct (Z.ltb_spec (Z.of_nat (length pre + length ys + 1)) cap); [|lia].
  mstep ltac:(eapply with_tmp_Ok; [exact Hx|];
              apply (shift_in_place _ pre ys xl b cap x); [lookup_tac|lia]).
  mstep ltac:(by apply get_vec_Some).
  mstep ltac:(by apply set_size_Some).
  mstep ltac:(apply begin_Some; lookup_tac).
  unfold ret. rewrite Z.add_0_l.
  apply Ok_World_eq; wsimpl; try done; [|lia].
  rewrite wrap_small by size_lia. done.
Qed.

Lemma Emplace_realloc w this pre suf b arg x :
  heap_wf w →
  suf ≠ [] →
  vecs w !! this
  = Some {| data_ := {| buffer_ := Ptr (Some b) 0;
                        capacity_ := Z.of_nat (length (pre ++ suf)) |};
            size_ := Z.of_nat (length (pre ++ suf)) |} →
  heap w !! b = Some (cells (pre ++ suf) (Z.of_nat (length (pre ++ suf)))) →
  Z.max 1 (Z.of_nat (length (pre ++ suf)) * 2) ≤ max_size T →
  arg_value w arg = Some x →
  Emplace T this (Ptr (Some b) (Z.of_nat (length pre))) arg w
  = Ok (Ptr (Some (next_block w)) (Z.of_nat (length pre)))
       {| heap := <[next_block w
                    := cells (pre ++ x :: suf)
                             (grown (Z.of_nat (length (pre ++ suf))))]>
                    (delete b (heap w));
          next_block := Pos.succ (next_block w);
          vecs := <[this := {| data_ :=
                                 {| buffer_ := Ptr (Some (next_block w)) 0;
                                    capacity_ :=
                                      grown (Z.of_nat (length (pre ++ suf))) |};
                               size_ := Z.of_nat (length (pre ++ suf)) + 1 |}]>
                    (vecs w);
          calls := bumps (transfer_kind T) (length suf)
                     (bumps (transfer_kind T) (length pre)
                        (bump (arg_kind arg) (calls w)));
          live := live w + 1 |}.
Proof.
  intros Hwf Hsuf Hv Hb Hlen Hx. unfold Emplace.
  assert (0 < length suf)%nat by (destruct suf; [done|simpl; lia]).
  mstep ltac:(by apply end_Some).
  rewrite decide_False by (intros [=]; rewrite length_app in *; lia).
  mstep ltac:(by apply begin_Some).
  cbn [ptr_base ptr_off]. rewrite decide_True by done.
  replace (wrap (Z.of_nat (length pre) - 0)) with (Z.of_nat (length pre))
    by (rewrite wrap_small; rewrite length_app in *; size_lia).
  mstep ltac:(by apply get_vec_Some).
  rewrite Z.ltb_irrefl. unfold transfer_kind.
  destruct (use_move T).
  - mstep ltac:(by eapply ReallocateWithMove_spec).
    mstep ltac:(apply get_vec_Some; lookup_tac).
    mstep ltac:(apply set_size_Some; lookup_tac).
    mstep ltac:(apply begin_Some; lookup_tac).
    unfold ret. rewrite Z.add_0_l.
    apply Ok_World_eq; wsimpl; try done.
    rewrite insert_insert_eq, wrap_small; [done|].
    rewrite length_app in *. size_lia.
  - mstep ltac:(by eapply ReallocateWithCopy_spec).
    mstep ltac:(apply get_vec_Some; lookup_tac).
    mstep ltac:(apply set_size_Some; lookup_tac).
    mstep ltac:(apply begin_Some; lookup_tac).
    unfold ret. rewrite Z.add_0_l.
    apply Ok_World_eq; wsimpl; try done.
    rewrite insert_insert_eq, wrap_small; [done|].
    rewrite length_app in *. size_lia.
Qed.

Lemma Emplace_at_end w this v arg :
  vecs w !! this = Some v →
  Emplace T this (buffer_ (data_ v) +ₚ size_ v) arg w
  = EmplaceBack T this arg w.
Proof.
  intros Hv. unfold Emplace.
  mstep ltac:(by apply end_Some).
  by rewrite decide_True.
Qed.

(** ** The invariant across the methods *)

Lemma heap_wf_update w w' b cs :
  heap_wf w → is_Some (heap w !! b) →
  heap w' = <[b := cs]> (heap w) → next_block w' = next_block w →
  heap_wf w'.
Proof.
  intros Hwf Hb Hh Hn b' Hb'. rewrite Hh in Hb'. rewrite Hn.
  destruct (decide (b' = b)) as [->|]; [by apply Hwf|].
  rewrite lookup_insert_ne in Hb' by done. by apply Hwf.
Qed.

Lemma heap_wf_fresh w w' buf cs :
  heap_wf w →
  heap w' = <[next_block w := cs]> (released buf (heap w)) →
  next_block w' = Pos.succ (next_block w) →
  heap_wf w'.
Proof.
  intros Hwf Hh Hn b' Hb'. rewrite Hh in Hb'. rewrite Hn.
  destruct (decide (b' = next_block w)) as [->|]; [lia|].
  rewrite lookup_insert_ne in Hb' by done.
  assert (is_Some (heap w !! b')) as Hb''.
  { destruct buf as [[b|] o]; simpl in Hb'; [|done].
    destruct (decide (b = b')) as [->|].
    - rewrite lookup_delete_eq in Hb'. by destruct Hb'.
    - by rewrite lookup_delete_ne in Hb' by done. }
  specialize (Hwf _ Hb''). lia.
Qed.

Lemma repr_intro w this xs (cap : Z) buf (s : Z) :
  vecs w !! this = Some {| data_ := {| buffer_ := buf; capacity_ := cap |};
                           size_ := s |} →
  s = Z.of_nat (length xs) →
  storage w buf (cells xs cap) →
  Z.of_nat (length xs) ≤ cap ≤ max_size T →
  repr T w this xs cap.
Proof. intros Hv -> Hst Hlen. by exists buf. Qed.

Lemma EmplaceBack_repr w this xs (cap : Z) arg x :
  heap_wf w → repr T w this xs cap →
  (Z.of_nat (length xs) = cap → Z.max 1 (2 * cap) ≤ max_size T) →
  arg_value w arg = Some x →
  ∃ pos w',
    EmplaceBack T this arg w = Ok pos w'
    ∧ repr T w' this (xs ++ [x])
        (if Z.of_nat (length xs) <? cap then cap
         else grown (Z.of_nat (length xs)))
    ∧ heap_wf w'
    ∧ load pos w' = Ok x w'
    ∧ live w' = live w + 1
    ∧ ∃ first, begin_ this w' = Ok first w'
               ∧ pos = first +ₚ Z.of_nat (length xs).
Proof.
  intros Hwf (buf & Hv & Hst & Hlen) H2 Hx.
  destruct (Z.ltb_spec (Z.of_nat (length xs)) cap) as [Hlt|Hge].
  - destruct (storage_block _ _ _ Hst) as (b & -> & Hb).
    { intros Hnil. apply (f_equal length) in Hnil.
      rewrite length_cells in Hnil by lia. simpl in Hnil. lia. }
    eexists _, _. split; [apply EmplaceBack_spare; [done|done|size_lia|done]|].
    split; [|split; [|split; [|split]]].
    + eapply repr_intro; wsimpl.
      * by rewrite lookup_insert_eq.
      * rewrite length_app. simpl. lia.
      * simpl. by rewrite lookup_insert_eq.
      * rewrite length_app. simpl. lia.
    + eapply heap_wf_update; [done|by rewrite Hb|done..].
    + eapply load_block; [lookup_tac|].
      apply cells_lookup_live, list_lookup_middle. done.
    + done.
    + eexists. split; [apply begin_Some; lookup_tac|]. done.
  - assert (cap = Z.of_nat (length xs)) as -> by lia.
    specialize (H2 eq_refl).
    destruct (grown_pos (Z.of_nat (length xs))) as [Hg Hgt];
      [lia|size_lia|].
    eexists _, _.
    split; [apply EmplaceBack_full; [done|done|done|lia|done]|].
    split; [|split; [|split; [|split]]].
    + eapply repr_intro; wsimpl.
      * by rewrite lookup_insert_eq.
      * rewrite length_app. simpl. lia.
      * simpl. by rewrite lookup_insert_eq.
      * rewrite length_app. simpl. split; [lia|].
        rewrite Hg. lia.
    + eapply heap_wf_fresh; [done|done..].
    + eapply load_block; [lookup_tac|].
      apply cells_lookup_live, list_lookup_middle. done.
    + done.
    + eexists. split; [apply begin_Some; lookup_tac|]. done.
Qed.

Lemma Emplace_repr w this xs (cap : Z) (p : nat) arg x :
  heap_wf w → repr T w this xs cap →
  (p ≤ length xs)%nat →
  (Z.of_nat (length xs) = cap → Z.max 1 (2 * cap) ≤ max_size T) →
  arg_value w arg = Some x →
  ∃ first pos w' cap',
    begin_ this w = Ok first w
    ∧ Emplace T this (first +ₚ Z.of_nat p) arg w = Ok pos w'
    ∧ repr T w' this (take p xs ++ x :: drop p xs) cap'
    ∧ heap_wf w'
    ∧ load pos w' = Ok x w'
    ∧ live w' = live w + 1
    ∧ ∃ first', begin_ this w' = Ok first' w'
                ∧ pos = first' +ₚ Z.of_nat p.
Proof.
  intros Hwf Hr Hp H2 Hx.
  destruct (decide (p = length xs)) as [->|Hne].
  - destruct (EmplaceBack_repr _ _ _ _ _ _ Hwf Hr H2 Hx)
      as (pos & w' & Hrun & Hr' & Hwf' & Hload & Hlive & Hfirst).
    destruct Hr as (buf & Hv & _).
    exists buf, pos, w'. eexists.
    split; [exact (begin_Some _ _ _ Hv)|].
    split; [by rewrite <- Hrun, <- (Emplace_at_end _ _ _ _ Hv)|].
    rewrite take_ge, drop_ge by lia. done.
  - destruct Hr as (buf & Hv & Hst & Hlen).
    destruct (storage_block _ _ _ Hst) as (b & -> & Hb).
    { intros Hnil. apply (f_equal length) in Hnil.
      rewrite length_cells in Hnil by lia.
      destruct xs; simpl in *; lia. }
    assert (length (take p xs) = p) as Hpre by (rewrite length_take; lia).
    assert (drop p xs ≠ []) as Hsuf.
    { intros Hnil. apply (f_equal length) in Hnil.
      rewrite length_drop in Hnil. simpl in Hnil. lia. }
    pose proof (take_drop p xs) as Hxs.
    revert Hpre Hsuf Hxs.
    generalize (take p xs) (drop p xs). intros pre suf <- Hsuf <-.
    clear Hp Hne.
    exists (Ptr (Some b) 0). cbn [ptr_add]. rewrite Z.add_0_l.
    destruct (Z.ltb_spec (Z.of_nat (length (pre ++ suf))) cap) as [Hlt|Hge].
    + destruct suf as [|y ys _] using rev_ind; [done|].
      clear H2.
      rewrite !length_app in Hv, Hlt, Hlen. cbn [length] in *.
      rewrite Nat.add_assoc in Hv, Hlt, Hlen.
      eexists _, _, _. split; [exact (begin_Some _ _ _ Hv)|].
      split; [apply Emplace_spare; [done|done|size_lia|done]|].
      split; [|split; [|split; [|split]]].
      * eapply repr_intro; wsimpl.
        -- by rewrite lookup_insert_eq.
        -- rewrite !length_app. cbn [length]. rewrite length_app. simpl. lia.
        -- simpl. by rewrite lookup_insert_eq.
        -- rewrite !length_app. cbn [length]. rewrite length_app. simpl. lia.
      * eapply heap_wf_update; [done|by rewrite Hb|done..].
      * eapply load_block; [lookup_tac|].
        apply cells_lookup_live, list_lookup_middle. done.
      * done.
      * eexists. split; [apply begin_Some; lookup_tac|].
        simpl. by rewrite Z.add_0_l.
    + assert (cap = Z.of_nat (length (pre ++ suf))) as -> by lia.
      specialize (H2 eq_refl).
      destruct (grown_pos (Z.of_nat (length (pre ++ suf))))
        as [Hg Hgt]; [lia|size_lia|].
      eexists _, _, _. split; [exact (begin_Some _ _ _ Hv)|].
      split; [apply Emplace_realloc; [done|done|done|done|lia|done]|].
      split; [|split; [|split; [|split]]].
      * eapply repr_intro; wsimpl.
        -- by rewrite lookup_insert_eq.
        -- rewrite !length_app. simpl. lia.
        -- simpl. by rewrite lookup_insert_eq.
        -- rewrite !length_app in *. simpl. split; [lia|].
           rewrite Hg. lia.
      * eapply (heap_wf_fresh _ _ (Ptr (Some b) 0)); [done|done..].
      * eapply load_block; [lookup_tac|].
        apply cells_lookup_live, list_lookup_middle. done.
      * done.
      * eexists. split; [apply begin_Some; lookup_tac|].
        simpl. by rewrite Z.add_0_l.
Qed.

End Methods.

(** * Growth by doubling *)

Section Growth.

Context {A : Type} (T : ElemType A).

Hypothesis NT : never_throws T.

Implicit Types (w : World (A:=A)) (xs ys : list A).

Lemma least_pow2_bounds (n : Z) :
  0 ≤ n ≤ 2 ^ 63 → n ≤ least_pow2 n ≤ 2 ^ 63.
Proof.
  intros Hn. unfold least_pow2. destruct (Z.eqb_spec n 0); [lia|].
  split.
  - destruct (Z.eq_dec n 1) as [->|]; [by vm_compute|].
    apply Z.log2_up_spec. lia.
  - apply Z.pow_le_mono_r; [lia|].
    rewrite <- (Z.log2_up_pow2 63) by lia.
    apply Z.log2_up_le_mono. lia.
Qed.

Lemma least_pow2_ge (n : Z) : 0 ≤ n → n ≤ least_pow2 n.
Proof.
  intros Hn. unfold least_pow2. destruct (Z.eqb_spec n 0); [lia|].
  destruct (Z.eq_dec n 1) as [->|]; [by vm_compute|].
  apply Z.log2_up_spec. lia.
Qed.

Lemma least_pow2_mono (n m : Z) :
  0 ≤ n ≤ m → least_pow2 n ≤ least_pow2 m.
Proof.
  intros Hn. unfold least_pow2.
  destruct (Z.eqb_spec n 0), (Z.eqb_spec m 0); try lia.
  apply Z.pow_le_mono_r; [lia|]. apply Z.log2_up_le_mono. lia.
Qed.

(** One append takes the least power of two above the length to the least
    power of two above the next length. *)
Lemma least_pow2_step (n : Z) :
  0 ≤ n < 2 ^ 63 →
  (if n <? least_pow2 n then least_pow2 n else grown n) = least_pow2 (n + 1).
Proof.
  intros Hn. unfold least_pow2 at 1 2 3.
  destruct (Z.eqb_spec n 0) as [->|Hn0]; [reflexivity|].
  unfold least_pow2. destruct (Z.eqb_spec (n + 1) 0); [lia|].
  destruct (Z.eq_dec n 1) as [->|Hn1]; [reflexivity|].
  pose proof (Z.log2_up_spec n ltac:(lia)) as [Hlo Hhi].
  assert (0 < Z.log2_up n) as Hk by (apply Z.log2_up_pos; lia).
  destruct (Z.ltb_spec n (2 ^ Z.log2_up n)).
  - f_equal. symmetry. apply Z.log2_up_unique; lia.
  - assert (n = 2 ^ Z.log2_up n) as Heq by lia.
    unfold grown. destruct (Z.eqb_spec n 0); [lia|].
    unfold wrap, size_max. rewrite Z.mod_small by lia.
    assert (Z.log2_up (n + 1) = Z.succ (Z.log2_up n)) as ->.
    { apply Z.log2_up_unique; [lia|].
      rewrite Z.pred_succ, Z.pow_succ_r by lia. lia. }
    rewrite Z.pow_succ_r by lia. lia.
Qed.

Lemma Capacity_repr w this xs (cap : Z) :
  repr T w this xs cap → Capacity this w = Ok cap w.
Proof.
  intros (buf & Hv & _). unfold Capacity.
  by rewrite (bind_Ok _ _ _ _ _ (get_vec_Some _ _ _ Hv)).
Qed.

Lemma appends_from this xs : ∀ w ys,
  heap_wf w →
  repr T w this ys (least_pow2 (Z.of_nat (length ys))) →
  least_pow2 (Z.of_nat (length ys + length xs)) ≤ max_size T →
  ∃ w',
    appends T this xs w
    = Ok ((λ k : nat, least_pow2 (Z.of_nat (length ys + k)))
            <$> seq 1 (length xs)) w'
    ∧ repr T w' this (ys ++ xs) (least_pow2 (Z.of_nat (length (ys ++ xs))))
    ∧ heap_wf w'.
Proof.
  induction xs as [|x xs IH]; intros w ys Hwf Hr Hlen.
  - exists w. rewrite app_nil_r. by repeat split.
  - cbn [length] in Hlen.
    pose proof (least_pow2_ge (Z.of_nat (length ys + S (length xs)))
                  ltac:(lia)) as Hge.
    pose proof (least_pow2_mono (Z.of_nat (length ys) + 1)
                  (Z.of_nat (length ys + S (length xs))) ltac:(lia)) as Hmono.
    pose proof (least_pow2_step (Z.of_nat (length ys)) ltac:(size_lia))
      as Hstep.
    destruct (EmplaceBack_repr T NT w this ys _ (ConstRef (Ext x)) x Hwf Hr)
      as (pos & w1 & Hpush & Hr1 & Hwf1 & _); [|done|].
    { intros Hfull. rewrite <- Hfull in Hstep at 1.
      rewrite Z.ltb_irrefl in Hstep.
      destruct (grown_pos (Z.of_nat (length ys))) as [Hg _];
        [lia|size_lia|].
      rewrite <- Hfull. lia. }
    rewrite Hstep in Hr1.
    replace (Z.of_nat (length ys) + 1) with (Z.of_nat (length (ys ++ [x])))
      in Hr1 by (rewrite length_app; simpl; lia).
    destruct (IH w1 (ys ++ [x]) Hwf1 Hr1) as (w2 & Happ & Hr2 & Hwf2).
    { rewrite length_app. simpl.
      by replace (length ys + 1 + length xs)%nat
        with (length ys + S (length xs))%nat by lia. }
    exists w2. split; [|split; [|done]].
    + cbn [appends length seq fmap list_fmap]. unfold PushBack.
      mstep ltac:(exact Hpush). rewrite bind_ret.
      mstep ltac:(by eapply Capacity_repr).
      mstep ltac:(exact Happ).
      unfold ret. do 2 f_equal.
      * do 2 f_equal. rewrite length_app. simpl. lia.
      * rewrite <- (fmap_S_seq 1), <- list_fmap_compose.
        apply list_fmap_ext. intros _ k _. simpl.
        do 2 f_equal. rewrite length_app. simpl. lia.
    + by rewrite <- app_assoc in Hr2.
Qed.

End Growth.

(** * Framing *)

Section PreservesLaws.

Context {A : Type} (I : World (A:=A) → Prop).

Lemma pres_ret {R} n (x : R) (Q : R → positive → Prop) :
  (∀ n', (n ≤ n')%positive → Q x n') → preserves I n (ret x) Q.
Proof. intros HQ w Hw Hn. unfold ret. split; [done|]. split; [lia|auto]. Qed.

Lemma pres_ret_True {R} n (x : R) : preserves I n (ret x) (λ _ _, True).
Proof. by apply pres_ret. Qed.

Lemma pres_bind {R S} n (m : M R) (f : R → M S) P (Q : S → positive → Prop) :
  preserves I n m P →
  (∀ r n', (n ≤ n')%positive → P r n' → preserves I n' (f r) Q) →
  preserves I n (bind m f) Q.
Proof.
  intros Hm Hf w Hw Hn. unfold bind. specialize (Hm w Hw Hn).
  destruct (m w) as [r w'| | |]; try done.
  destruct Hm as (Hw' & Hle & Hr).
  assert (n ≤ next_block w')%positive as Hn' by lia.
  specialize (Hf r _ Hn' Hr w' Hw' (Pos.le_refl _)).
  destruct (f r w') as [s w''|w''| |]; try done.
  - destruct Hf as (? & ? & ?). split; [done|]. split; [lia|done].
  - destruct Hf as (? & ?). split; [done|lia].
Qed.

Lemma pres_weaken {R} n (m : M R) (P Q : R → positive → Prop) :
  preserves I n m P → (∀ r n', (n ≤ n')%positive → P r n' → Q r n') →
  preserves I n m Q.
Proof.
  intros Hm HPQ w Hw Hn. specialize (Hm w Hw Hn).
  destruct (m w); try done. destruct Hm as (? & ? & ?).
  split; [done|]. split; [done|]. apply HPQ; [lia|done].
Qed.

Lemma pres_try {R} n (m h : M R) (Q : R → positive → Prop) :
  preserves I n m Q → (∀ n', (n ≤ n')%positive → preserves I n' h Q) →
  preserves I n (try_catch m h) Q.
Proof.
  intros Hm Hh w Hw Hn. unfold try_catch. specialize (Hm w Hw Hn).
  destruct (m w) as [r w'|w'| |]; try done.
  destruct Hm as (Hw' & Hle).
  assert (n ≤ next_block w')%positive as Hn' by lia.
  specialize (Hh _ Hn' w' Hw' (Pos.le_refl _)).
  destruct (h w') as [s w''|w''| |]; try done.
  - destruct Hh as (? & ? & ?). split; [done|]. split; [lia|done].
  - destruct Hh as (? & ?). split; [done|lia].
Qed.

Lemma pres_throw {R} n (Q : R → positive → Prop) : preserves I n throw Q.
Proof. intros w Hw Hn. unfold throw. split; [done|lia]. Qed.

Lemma pres_undef {R} n (Q : R → positive → Prop) : preserves I n undef Q.
Proof. by intros w Hw Hn. Qed.

Lemma pres_assert n b : preserves I n (assert b) (λ _ _, b = true).
Proof.
  intros w Hw Hn. unfold assert. destruct b; [|done].
  split; [done|]. split; [lia|done].
Qed.

End PreservesLaws.

Section Pointers.

Context {A : Type}.

Implicit Types (pb : option positive) (p : ptr) (n : positive).

Lemma good_add pb n p (z : Z) : good pb n p → good pb n (p +ₚ z).
Proof. by destruct p. Qed.

Lemma good_null pb n : good pb n nullptr.
Proof. by split; intros blk ?. Qed.

Lemma good_mono pb n n' p : (n ≤ n')%positive → good pb n p → good pb n' p.
Proof.
  intros Hle [Hs Hb]. split; [done|].
  intros blk Hblk. specialize (Hb blk Hblk). lia.
Qed.

Lemma arg_good_mono pb n n' (arg : Arg (A:=A)) :
  (n ≤ n')%positive → arg_good pb n arg → arg_good pb n' arg.
Proof.
  intros Hle. destruct arg as [s|[x|p]|x]; try done.
  by apply good_mono.
Qed.

End Pointers.

(** One step of a sequence: the first computation by [tac], then the
    continuation with its result, the new counter and what is known of
    them. *)
Ltac pres_seq tac :=
  eapply pres_bind; [tac|intros ? ? ? ?; cbv beta in *].

Ltac good_tac :=
  unfold GetAddress in *;
  cbn [fst snd RawMemory_Swap RawMemory_move_ctor buffer_ data_ capacity_
       size_] in *;
  repeat match goal with |- good _ _ (_ +ₚ _) => apply good_add end;
  first
    [ apply good_null
    | match goal with
      | H : good _ ?n ?p |- good _ ?m ?p =>
          apply (good_mono _ n m p); [lia|exact H]
      end ].

Ltac arg_tac :=
  first
    [ exact Logic.I
    | match goal with
      | H : arg_good _ ?n ?a |- arg_good _ ?m ?a =>
          apply (arg_good_mono _ n m a); [lia|exact H]
      end
    | cbn [arg_good]; good_tac ].

Section Frame.

Context {A : Type} (T : ElemType A).

Variables (this o : positive) (ovo : option Vector) (pb : option positive).
Variable ocs : option (list (option A)).
Hypothesis Hne : this ≠ o.

Local Abbreviation I := (kept this o ovo pb ocs).
Local Abbreviation pres := (preserves (kept this o ovo pb ocs)).
Local Abbreviation good := (good pb).
Local Abbreviation any := (λ _ _, True).

Implicit Types (w : World (A:=A)) (p d first last : ptr) (n : positive).
Implicit Types (k : nat).

(** ** The primitives *)

Lemma pres_tick n op : pres n (tick T op) any.
Proof.
  intros w Hw Hn. unfold tick.
  destruct (throws T op (calls w op));
    (split; [done|simpl; first [lia|split; [lia|done]]]).
Qed.

Lemma pres_add_live n z : pres n (add_live z) any.
Proof.
  intros w Hw Hn. unfold add_live. split; [done|]. simpl. split; [lia|done].
Qed.

Lemma pres_load n p : pres n (load p) any.
Proof.
  intros w Hw Hn. unfold load. by destruct (cell_at w p) as [[x|]|].
Qed.

Lemma pres_distance n first last : pres n (distance first last) any.
Proof.
  unfold distance.
  destruct (decide _); [|apply pres_undef].
  destruct (_ <=? _); [apply pres_ret_True|apply pres_undef].
Qed.

Lemma pres_put n p c : good n p → pres n (put p c) any.
Proof.
  intros [Hp _] w (Ho & Hb & Ht) Hn. unfold put.
  destruct p as [[b|] off]; [|done].
  destruct (cell_at w (Ptr (Some b) off)); [|done].
  destruct (heap w !! b) as [cs'|] eqn:Hcs'; [|done].
  split; [|simpl; split; [lia|done]].
  split; [done|]. split; [|done].
  intros blk ->. destruct (Hb blk eq_refl) as [Hcs Hlt].
  split; [|done]. simpl. rewrite lookup_insert_ne; [done|].
  intros ->. by apply (Hp blk).
Qed.

Lemma pres_construct_at n p x : good n p → pres n (construct_at p x) any.
Proof.
  intros Hp. unfold construct_at.
  pres_seq ltac:(by apply pres_put). apply pres_add_live.
Qed.

Lemma pres_destroy_at n p : good n p → pres n (destroy_at p) any.
Proof.
  intros Hp. unfold destroy_at.
  pres_seq ltac:(apply pres_load).
  pres_seq ltac:(apply pres_put; good_tac).
  apply pres_add_live.
Qed.

Lemma pres_make n arg : arg_good pb n arg → pres n (make T arg) any.
Proof.
  intros Harg. unfold make.
  destruct arg as [[y|p]|[y|p]|y]; cbn [arg_good read_src leave_moved] in *.
  - pres_seq ltac:(apply pres_ret_True).
    pres_seq ltac:(apply pres_tick). apply pres_ret_True.
  - pres_seq ltac:(apply pres_load).
    pres_seq ltac:(apply pres_tick). apply pres_ret_True.
  - pres_seq ltac:(apply pres_ret_True).
    pres_seq ltac:(apply pres_tick).
    pres_seq ltac:(apply pres_ret_True). apply pres_ret_True.
  - pres_seq ltac:(apply pres_load).
    pres_seq ltac:(apply pres_tick).
    pres_seq ltac:(apply pres_put; good_tac). apply pres_ret_True.
  - pres_seq ltac:(apply pres_tick). apply pres_ret_True.
Qed.

Lemma pres_construct_from n p arg :
  good n p → arg_good pb n arg → pres n (construct_from T p arg) any.
Proof.
  intros Hp Harg. unfold construct_from.
  pres_seq ltac:(by apply pres_make).
  apply pres_construct_at; good_tac.
Qed.

Lemma pres_move_assign n d s :
  good n d → good n s → pres n (move_assign T d s) any.
Proof.
  intros Hd Hs. unfold move_assign.
  pres_seq ltac:(apply pres_load).
  pres_seq ltac:(apply pres_load).
  pres_seq ltac:(apply pres_tick).
  pres_seq ltac:(apply pres_put; good_tac).
  apply pres_put; good_tac.
Qed.

(** ** The loops *)

Lemma pres_uninitialized_copy_n k : ∀ n first d,
  good n d → pres n (uninitialized_copy_n T first k d) any.
Proof.
  induction k as [|k IH]; intros n first d Hd; cbn [uninitialized_copy_n].
  - apply pres_ret_True.
  - pres_seq ltac:(by apply pres_construct_from).
    apply pres_try; [apply IH; good_tac|].
    intros n'' Hle. pres_seq ltac:(apply pres_destroy_at; good_tac).
    apply pres_throw.
Qed.

Lemma pres_uninitialized_move_n k : ∀ n first d,
  good n first → good n d → pres n (uninitialized_move_n T first k d) any.
Proof.
  induction k as [|k IH]; intros n first d Hf Hd; cbn [uninitialized_move_n].
  - apply pres_ret_True.
  - pres_seq ltac:(apply pres_construct_from; [done|cbn [arg_good]; done]).
    apply pres_try; [apply IH; good_tac|].
    intros n'' Hle. pres_seq ltac:(apply pres_destroy_at; good_tac).
    apply pres_throw.
Qed.

Lemma pres_uninitialized_value_construct_n k : ∀ n d,
  good n d → pres n (uninitialized_value_construct_n T d k) any.
Proof.
  induction k as [|k IH]; intros n d Hd;
    cbn [uninitialized_value_construct_n].
  - apply pres_ret_True.
  - pres_seq ltac:(pres_seq ltac:(apply pres_tick);
                   apply pres_construct_at; good_tac).
    apply pres_try; [apply IH; good_tac|].
    intros n'' Hle. pres_seq ltac:(apply pres_destroy_at; good_tac).
    apply pres_throw.
Qed.

Lemma pres_destroy_n k : ∀ n p, good n p → pres n (destroy_n p k) any.
Proof.
  induction k as [|k IH]; intros n p Hp; cbn [destroy_n].
  - apply pres_ret_True.
  - pres_seq ltac:(by apply pres_destroy_at). apply IH; good_tac.
Qed.

Lemma pres_move_loop k : ∀ n first d,
  good n first → good n d → pres n (move_loop T k first d) any.
Proof.
  induction k as [|k IH]; intros n first d Hf Hd; cbn [move_loop].
  - apply pres_ret_True.
  - pres_seq ltac:(by apply pres_move_assign). apply IH; good_tac.
Qed.

Lemma pres_std_move n first last d :
  good n first → good n d → pres n (std_move T first last d) any.
Proof.
  intros Hf Hd. unfold std_move.
  pres_seq ltac:(apply pres_distance). apply pres_move_loop; good_tac.
Qed.

Lemma pres_move_backward_loop k : ∀ n last d_last,
  good n last → good n d_last →
  pres n (move_backward_loop T k last d_last) any.
Proof.
  induction k as [|k IH]; intros n last d_last Hl Hd;
    cbn [move_backward_loop].
  - apply pres_ret_True.
  - pres_seq ltac:(apply pres_move_assign; good_tac). apply IH; good_tac.
Qed.

Lemma pres_std_move_backward n first last d_last :
  good n last → good n d_last →
  pres n (std_move_backward T first last d_last) any.
Proof.
  intros Hl Hd. unfold std_move_backward.
  pres_seq ltac:(apply pres_distance). apply pres_move_backward_loop; good_tac.
Qed.

(** ** [RawMemory] *)

Lemma pres_Allocate n (z : Z) : pres n (Allocate T z) (λ p n', good n' p).
Proof.
  unfold Allocate, operator_new. destruct (negb (z =? 0)).
  - intros w (Ho & Hb & Ht) Hn.
    destruct (ptrdiff_max <? wrap (z * Z.pos (sizeof T)));
      [by split; [|lia]|].
    destruct (throws T New (Pos.to_nat (next_block w))).
    { cbn [next_block]. split; [|lia].
      split; [done|]. split.
      - intros blk Hblk. destruct (Hb blk Hblk) as [Hcs Hlt].
        cbn [heap next_block]. split; [done|lia].
      - intros v Hv. cbn [next_block].
        apply (good_mono _ (next_block w)); [lia|by apply Ht]. }
    cbn [next_block].
    split; [|split; [lia|]].
    + split; [done|]. split.
      * intros blk Hblk. destruct (Hb blk Hblk) as [Hcs Hlt].
        cbn [heap next_block]. split; [|lia].
        rewrite lookup_insert_ne; [done|lia].
      * intros v Hv. cbn [next_block].
        apply (good_mono _ (next_block w)); [lia|by apply Ht].
    + split.
      * intros blk Hblk. destruct (Hb blk Hblk) as [_ Hlt].
        cbn [ptr_base]. intros [= Heq]. lia.
      * intros blk [= <-]. lia.
  - apply pres_ret. intros. apply good_null.
Qed.

Lemma pres_Deallocate n p : good n p → pres n (Deallocate p) any.
Proof.
  intros [Hp _]. unfold Deallocate. destruct p as [[b|] off].
  - intros w (Ho & Hb & Ht) Hn.
    destruct (heap w !! b) as [cs'|]; [|done].
    destruct (off =? 0); [|done].
    split; [|simpl; split; [lia|done]].
    split; [done|]. split; [|done].
    intros blk Hblk. destruct (Hb blk Hblk) as [Hcs Hlt].
    split; [|done]. cbn [heap with_heap].
    rewrite lookup_delete_ne; [done|].
    intros ->. by apply (Hp blk).
  - destruct (off =? 0); [apply pres_ret_True|apply pres_undef].
Qed.

Lemma pres_RawMemory_ctor n (z : Z) :
  pres n (RawMemory_ctor T z) (λ rm n', good n' (buffer_ rm)).
Proof.
  unfold RawMemory_ctor.
  pres_seq ltac:(apply pres_Allocate).
  apply pres_ret. intros. good_tac.
Qed.

Lemma pres_RawMemory_dtor n rm :
  good n (buffer_ rm) → pres n (RawMemory_dtor rm) any.
Proof. intros Hrm. by apply pres_Deallocate. Qed.

Lemma pres_RawMemory_plus n rm (z : Z) :
  good n (buffer_ rm) → pres n (RawMemory_plus rm z) (λ p n', good n' p).
Proof.
  intros Hrm. unfold RawMemory_plus.
  pres_seq ltac:(apply pres_assert).
  apply pres_ret. intros. good_tac.
Qed.

Lemma pres_RawMemory_at n rm (z : Z) :
  good n (buffer_ rm) → pres n (RawMemory_at rm z) (λ p n', good n' p).
Proof.
  intros Hrm. unfold RawMemory_at.
  pres_seq ltac:(apply pres_assert).
  apply pres_ret. intros. good_tac.
Qed.

Lemma pres_with_new_data {R} n (z : Z) (body : RawMemory → M (RawMemory * R))
    (Q : R → positive → Prop) :
  (∀ nd n', (n ≤ n')%positive → good n' (buffer_ nd) →
     pres n' (body nd) (λ r n'', good n'' (buffer_ (fst r)) ∧ Q (snd r) n'')) →
  (∀ r n' n'', (n' ≤ n'')%positive → Q r n' → Q r n'') →
  pres n (with_new_data T z body) Q.
Proof.
  intros Hbody HQ. unfold with_new_data.
  pres_seq ltac:(apply pres_RawMemory_ctor).
  pres_seq ltac:(apply pres_try; [by apply Hbody|]).
  { intros n'' Hle.
    pres_seq ltac:(apply pres_RawMemory_dtor; good_tac). apply pres_throw. }
  match goal with H : _ ∧ _ |- _ => destruct H as [Hr HQr] end.
  pres_seq ltac:(apply pres_RawMemory_dtor; good_tac).
  apply pres_ret. intros. eapply HQ; [|exact HQr]. lia.
Qed.

Lemma pres_with_tmp {R} n arg (body : A → M R) (Q : R → positive → Prop) :
  arg_good pb n arg →
  (∀ x n', (n ≤ n')%positive → pres n' (body x) Q) →
  (∀ r n' n'', (n' ≤ n'')%positive → Q r n' → Q r n'') →
  pres n (with_tmp T arg body) Q.
Proof.
  intros Harg Hbody HQ. unfold with_tmp.
  pres_seq ltac:(by apply pres_make).
  pres_seq ltac:(apply pres_add_live).
  pres_seq ltac:(apply pres_try; [apply Hbody; lia|]).
  { intros n'' Hle. pres_seq ltac:(apply pres_add_live). apply pres_throw. }
  pres_seq ltac:(apply pres_add_live).
  apply pres_ret. intros. eapply HQ; [|eassumption]. lia.
Qed.

(** ** The vector at [this] *)

Lemma pres_get_vec n :
  pres n (get_vec this) (λ v n', good n' (buffer_ (data_ v))).
Proof.
  intros w Hw Hn. unfold get_vec.
  destruct (vecs w !! this) as [v|] eqn:Hv; [|done].
  split; [done|]. split; [lia|].
  destruct Hw as (_ & _ & Ht). by apply Ht.
Qed.

Lemma pres_get_vec_other n :
  pres n (get_vec o) (λ v _, ovo = Some v).
Proof.
  intros w Hw Hn. unfold get_vec.
  destruct (vecs w !! o) as [v|] eqn:Hv; [|done].
  split; [done|]. split; [lia|].
  destruct Hw as (Ho & _ & _). congruence.
Qed.

Lemma pres_set_vec n v :
  good n (buffer_ (data_ v)) → pres n (set_vec this v) any.
Proof.
  intros Hv w (Ho & Hb & Ht) Hn. unfold set_vec.
  split; [|simpl; split; [lia|done]].
  split; [|split; [done|]]; cbn [vecs with_vecs next_block].
  - by rewrite lookup_insert_ne.
  - intros v'. rewrite lookup_insert_eq. intros [= <-].
    by apply (good_mono _ n).
Qed.

Lemma pres_del_vec n : pres n (del_vec this) any.
Proof.
  intros w (Ho & Hb & Ht) Hn. unfold del_vec.
  split; [|simpl; split; [lia|done]].
  split; [|split; [done|]]; cbn [vecs with_vecs next_block].
  - by rewrite lookup_delete_ne.
  - intros v'. by rewrite lookup_delete_eq.
Qed.

Lemma pres_set_data n rm :
  good n (buffer_ rm) → pres n (set_data this rm) any.
Proof.
  intros Hrm. unfold set_data.
  pres_seq ltac:(apply pres_get_vec).
  apply pres_set_vec; good_tac.
Qed.

Lemma pres_set_size n (z : Z) : pres n (set_size this z) any.
Proof.
  unfold set_size.
  pres_seq ltac:(apply pres_get_vec).
  apply pres_set_vec; good_tac.
Qed.

Lemma pres_begin n : pres n (begin_ this) (λ p n', good n' p).
Proof.
  unfold begin_.
  pres_seq ltac:(apply pres_get_vec).
  apply pres_ret. intros. good_tac.
Qed.

Lemma pres_end n : pres n (end_ this) (λ p n', good n' p).
Proof.
  unfold end_.
  pres_seq ltac:(apply pres_get_vec).
  apply pres_ret. intros. good_tac.
Qed.

Lemma pres_Vector_at n (i : Z) :
  pres n (Vector_at this i) (λ p n', good n' p).
Proof.
  unfold Vector_at.
  pres_seq ltac:(apply pres_get_vec).
  pres_seq ltac:(apply pres_assert).
  apply pres_RawMemory_at; good_tac.
Qed.

(** ** The methods *)

Lemma pres_transfer n (b : bool) first d k :
  good n first → good n d →
  pres n (if b then uninitialized_move_n T first k d
          else uninitialized_copy_n T first k d) any.
Proof.
  intros Hf Hd. destruct b.
  - by apply pres_uninitialized_move_n.
  - by apply pres_uninitialized_copy_n.
Qed.

Lemma pres_Reserve n (new_capacity : Z) :
  pres n (Reserve T this new_capacity) any.
Proof.
  unfold Reserve.
  pres_seq ltac:(apply pres_get_vec).
  destruct (_ <=? _); [apply pres_ret_True|].
  apply pres_with_new_data; [|done].
  intros nd n1 Hle1 Hnd.
  pres_seq ltac:(apply pres_transfer; good_tac).
  pres_seq ltac:(apply pres_destroy_n; good_tac).
  pres_seq ltac:(apply pres_set_data; good_tac).
  apply pres_ret. intros. split; [good_tac|done].
Qed.

Lemma pres_Resize n (new_size : Z) : pres n (Resize T this new_size) any.
Proof.
  unfold Resize.
  pres_seq ltac:(apply pres_get_vec).
  destruct (_ <? _).
  - pres_seq ltac:(apply pres_destroy_n; good_tac).
    apply pres_set_size.
  - pres_seq ltac:(apply pres_Reserve).
    pres_seq ltac:(apply pres_get_vec).
    pres_seq ltac:(apply pres_uninitialized_value_construct_n; good_tac).
    apply pres_set_size.
Qed.

Lemma pres_EmplaceBack n arg :
  arg_good pb n arg → pres n (EmplaceBack T this arg) any.
Proof.
  intros Harg. unfold EmplaceBack.
  pres_seq ltac:(apply pres_get_vec).
  destruct (_ <? _).
  - pres_seq ltac:(apply pres_RawMemory_plus; good_tac).
    pres_seq ltac:(apply pres_construct_from; [good_tac|arg_tac]).
    pres_seq ltac:(apply pres_set_size).
    apply pres_ret_True.
  - apply pres_with_new_data; [|done].
    intros nd n1 Hle1 Hnd.
    pres_seq ltac:(apply pres_RawMemory_plus; good_tac).
    pres_seq ltac:(apply pres_construct_from; [good_tac|arg_tac]).
    pres_seq ltac:(destruct (use_move T);
                   [apply pres_uninitialized_move_n; good_tac
                   |apply pres_try;
                    [apply pres_uninitialized_copy_n; good_tac|]]).
    { intros n'' Hle.
      pres_seq ltac:(apply pres_destroy_n; good_tac). apply pres_throw. }
    pres_seq ltac:(apply pres_destroy_n; good_tac).
    pres_seq ltac:(apply pres_set_data; good_tac).
    pres_seq ltac:(apply pres_set_size).
    apply pres_ret. intros. split; [good_tac|done].
Qed.

Lemma pres_PushBack n arg :
  arg_good pb n arg → pres n (PushBack T this arg) any.
Proof.
  intros Harg. unfold PushBack.
  pres_seq ltac:(by apply pres_EmplaceBack). apply pres_ret_True.
Qed.

Lemma pres_PopBack n : pres n (PopBack this) any.
Proof.
  unfold PopBack.
  pres_seq ltac:(apply pres_get_vec).
  pres_seq ltac:(apply pres_destroy_at; good_tac).
  apply pres_set_size.
Qed.

Lemma pres_ReallocateWithCopy n (index : Z) arg :
  arg_good pb n arg → pres n (ReallocateWithCopy T this index arg) any.
Proof.
  intros Harg. unfold ReallocateWithCopy.
  pres_seq ltac:(apply pres_get_vec).
  apply pres_with_new_data; [|done].
  intros nd n1 Hle1 Hnd.
  pres_seq ltac:(apply pres_RawMemory_plus; good_tac).
  pres_seq ltac:(apply pres_construct_from; [good_tac|arg_tac]).
  pres_seq ltac:(apply pres_try).
  { pres_seq ltac:(apply pres_uninitialized_copy_n; good_tac).
    apply pres_uninitialized_copy_n; good_tac. }
  { intros n'' Hle.
    pres_seq ltac:(apply pres_destroy_n; good_tac). apply pres_throw. }
  pres_seq ltac:(apply pres_destroy_n; good_tac).
  pres_seq ltac:(apply pres_set_data; good_tac).
  apply pres_ret. intros. split; [good_tac|done].
Qed.

Lemma pres_ReallocateWithMove n (index : Z) arg :
  arg_good pb n arg → pres n (ReallocateWithMove T this index arg) any.
Proof.
  intros Harg. unfold ReallocateWithMove.
  pres_seq ltac:(apply pres_get_vec).
  apply pres_with_new_data; [|done].
  intros nd n1 Hle1 Hnd.
  pres_seq ltac:(apply pres_RawMemory_plus; good_tac).
  pres_seq ltac:(apply pres_construct_from; [good_tac|arg_tac]).
  pres_seq ltac:(apply pres_uninitialized_move_n; good_tac).
  pres_seq ltac:(apply pres_uninitialized_move_n; good_tac).
  pres_seq ltac:(apply pres_destroy_n; good_tac).
  pres_seq ltac:(apply pres_set_data; good_tac).
  apply pres_ret. intros. split; [good_tac|done].
Qed.

Lemma pres_Emplace n pos arg :
  arg_good pb n arg → pres n (Emplace T this pos arg) any.
Proof.
  intros Harg. unfold Emplace.
  pres_seq ltac:(apply pres_end).
  destruct (decide _); [apply pres_EmplaceBack; arg_tac|].
  pres_seq ltac:(apply pres_begin).
  destruct (decide _); [|apply pres_undef].
  pres_seq ltac:(apply pres_get_vec).
  pres_seq ltac:(destruct (_ <? _);
                 [|destruct (use_move T);
                   [apply pres_ReallocateWithMove; arg_tac
                   |apply pres_ReallocateWithCopy; arg_tac]]).
  { apply pres_with_tmp; [arg_tac| |done].
    intros tmp n1 Hle1.
    pres_seq ltac:(apply pres_construct_from;
                   [good_tac|cbn [arg_good]; good_tac]).
    pres_seq ltac:(apply pres_try;
                   [apply pres_std_move_backward; good_tac|]).
    { intros n'' Hle.
      pres_seq ltac:(apply pres_destroy_n; good_tac). apply pres_throw. }
    pres_seq ltac:(apply pres_RawMemory_at; good_tac).
    pres_seq ltac:(apply pres_load).
    pres_seq ltac:(apply pres_tick).
    apply pres_put; good_tac. }
  pres_seq ltac:(apply pres_get_vec).
  pres_seq ltac:(apply pres_set_size).
  pres_seq ltac:(apply pres_begin).
  apply pres_ret_True.
Qed.

Lemma pres_Erase n pos : good n pos → pres n (Erase T this pos) any.
Proof.
  intros Hpos. unfold Erase.
  pres_seq ltac:(apply pres_end).
  pres_seq ltac:(apply pres_std_move; good_tac).
  pres_seq ltac:(apply pres_get_vec).
  pres_seq ltac:(apply pres_destroy_at; good_tac).
  pres_seq ltac:(apply pres_set_size).
  apply pres_ret_True.
Qed.

Lemma pres_operand_src n x :
  pres n (operand_src this x)
       (λ s n', arg_good pb n' (RvalueRef s)).
Proof.
  destruct x as [x|i]; cbn [operand_src].
  - by apply pres_ret.
  - pres_seq ltac:(apply pres_Vector_at).
    apply pres_ret. intros. cbn [arg_good]. good_tac.
Qed.

Lemma pres_mutate n m : pres n (mutate T this m) any.
Proof.
  destruct m; cbn [mutate].
  - pres_seq ltac:(apply pres_operand_src). by apply pres_PushBack.
  - pres_seq ltac:(apply pres_operand_src). by apply pres_PushBack.
  - pres_seq ltac:(by apply pres_EmplaceBack). apply pres_ret_True.
  - apply pres_PopBack.
  - pres_seq ltac:(apply pres_begin).
    pres_seq ltac:(apply pres_operand_src).
    pres_seq ltac:(by apply pres_Emplace). apply pres_ret_True.
  - pres_seq ltac:(apply pres_begin).
    pres_seq ltac:(apply pres_operand_src).
    pres_seq ltac:(by apply pres_Emplace). apply pres_ret_True.
  - pres_seq ltac:(apply pres_begin).
    pres_seq ltac:(by apply pres_Emplace). apply pres_ret_True.
  - pres_seq ltac:(apply pres_begin).
    pres_seq ltac:(apply pres_Erase; good_tac). apply pres_ret_True.
  - apply pres_Reserve.
  - apply pres_Resize.
  - pres_seq ltac:(apply pres_Vector_at).
    pres_seq ltac:(apply pres_load).
    pres_seq ltac:(apply pres_tick).
    apply pres_put; good_tac.
Qed.

(** ** The copy constructor, building [this] from [o] *)

Lemma pres_Vector_copy n : pres n (Vector_copy T this o) any.
Proof.
  unfold Vector_copy.
  pres_seq ltac:(apply pres_get_vec_other).
  pres_seq ltac:(apply pres_RawMemory_ctor).
  pres_seq ltac:(apply pres_set_vec; good_tac).
  apply pres_try; [apply pres_uninitialized_copy_n; good_tac|].
  intros n'' Hle.
  pres_seq ltac:(apply pres_del_vec).
  pres_seq ltac:(apply pres_RawMemory_dtor; good_tac).
  apply pres_throw.
Qed.

End Frame.

(** ** Two vectors side by side *)

Section Independence.

Context {A : Type} (T : ElemType A).

Implicit Types (w : World (A:=A)) (a b this o : positive).

Lemma element_frame w w' o v :
  vecs w !! o = Some v → vecs w' !! o = Some v →
  (∀ blk, ptr_base (buffer_ (data_ v)) = Some blk →
          heap w' !! blk = heap w !! blk) →
  ∀ i, element w' o i = element w o i.
Proof.
  intros Hv Hv' Hblk i. unfold element, Vector_at, bind, get_vec.
  rewrite Hv, Hv'. unfold assert.
  destruct (i <? size_ v); [|done].
  unfold RawMemory_at, bind, assert.
  destruct (i <? capacity_ (data_ v)); [|done].
  unfold ret, load, cell_at.
  destruct (buffer_ (data_ v)) as [[blk|] off]; cbn [ptr_add]; [|done].
  rewrite (Hblk blk eq_refl).
  destruct (0 <=? off + i); [|done].
  destruct (heap w !! blk) as [cs|]; [|done].
  by destruct (cs !! Z.to_nat (off + i)) as [[x|]|].
Qed.

Lemma element_None w o i : vecs w !! o = None → element w o i = None.
Proof.
  intros Hv. unfold element, Vector_at, bind, get_vec. by rewrite Hv.
Qed.

Lemma kept_same_view this o w w' :
  kept this o (vecs w !! o) (block_of (vecs w !! o))
       (block_of (vecs w !! o) ≫= λ blk, heap w !! blk) w' →
  same_view w w' o.
Proof.
  intros (Ho & Hb & _). unfold same_view, length_of, capacity_of.
  rewrite Ho. split; [done|]. split; [done|].
  intros i. destruct (vecs w !! o) as [v|] eqn:Hv.
  - apply (element_frame w w' o v Hv Ho).
    intros blk Hblk. cbn [block_of mbind option_bind] in Hb.
    destruct (Hb blk Hblk) as [Hcs _]. rewrite Hcs.
    by rewrite Hblk.
  - by rewrite !element_None.
Qed.

Lemma independent_kept this o w :
  independent this o w →
  kept this o (vecs w !! o) (block_of (vecs w !! o))
       (block_of (vecs w !! o) ≫= λ blk, heap w !! blk) w.
Proof.
  intros (Hne & Ht & Ho & Hsep). split; [done|]. split.
  - intros blk Hblk. rewrite Hblk. split; [done|].
    destruct (vecs w !! o) as [v|] eqn:Hv; [|done].
    by apply (Ho v).
  - intros v Hv. split; [|by apply Ht].
    intros blk Hblk Hbase. apply (Hsep blk); [|done].
    by rewrite Hv.
Qed.

Lemma kept_independent this o ovo ocs w :
  this ≠ o → kept this o ovo (block_of ovo) ocs w → independent this o w.
Proof.
  intros Hne (Ho & Hb & Ht). split; [done|]. split; [|split].
  - intros v Hv. by apply Ht.
  - intros v Hv blk Hblk. apply Hb. rewrite <- Ho, Hv. done.
  - intros blk Hblk. rewrite Ho. intros Hpb.
    destruct (vecs w !! this) as [v|] eqn:Hv; [|done].
    destruct (Ht v eq_refl) as [Hs _]. by apply (Hs blk).
Qed.

Lemma independent_sym a b w : independent a b w → independent b a w.
Proof.
  intros (Hne & Ha & Hb & Hsep). split; [done|]. split; [done|].
  split; [done|]. intros blk Hblk Hblk'. by apply (Hsep blk).
Qed.

(** A call on one vector leaves the other as it was, however the call
    ends. *)
Lemma mutate_frame this o w m :
  independent this o w →
  match mutate T this m w with
  | Ok _ w' | Throw w' => independent this o w' ∧ same_view w w' o
  | AssertFail | Undef => True
  end.
Proof.
  intros Hind. pose proof Hind as (Hne & _).
  pose proof (pres_mutate T this o _ _ _ Hne (next_block w) m w
                (independent_kept _ _ _ Hind) (Pos.le_refl _)) as Hm.
  destruct (mutate T this m w) as [r w'|w'| |]; try done.
  - destruct Hm as (Hk & _). split.
    + by apply (kept_independent _ _ _ _ _ Hne Hk).
    + by apply (kept_same_view this).
  - destruct Hm as (Hk & _). split.
    + by apply (kept_independent _ _ _ _ _ Hne Hk).
    + by apply (kept_same_view this).
Qed.

Lemma mutate_either_independent a b ops : ∀ w,
  independent a b w →
  match mutate_either T a b ops w with
  | Ok _ w' | Throw w' => independent a b w'
  | AssertFail | Undef => True
  end.
Proof.
  induction ops as [|[side m] ops IH]; intros w Hind; [done|].
  cbn [mutate_either]. unfold bind, try_catch.
  assert (match mutate T (pick a b side) m w with
          | Ok _ w' | Throw w' => independent a b w'
          | AssertFail | Undef => True
          end) as Hm.
  { destruct side; cbn [pick].
    - pose proof (mutate_frame a b w m Hind) as Hm.
      destruct (mutate T a m w); try done; by destruct Hm.
    - pose proof (mutate_frame b a w m (independent_sym _ _ _ Hind)) as Hm.
      destruct (mutate T b m w); try done; destruct Hm;
        by apply independent_sym. }
  destruct (mutate T (pick a b side) m w) as [r w'|w'| |]; try done.
  - by apply IH.
  - unfold ret. by apply IH.
Qed.

(** The copy constructor builds a vector that shares no storage with its
    source, and leaves the source as it was. *)
Lemma Vector_copy_frame w a b :
  a ≠ b →
  (∀ v, vecs w !! a = Some v → below (next_block w) (buffer_ (data_ v))) →
  vecs w !! b = None →
  match Vector_copy T b a w with
  | Ok _ w' | Throw w' => independent a b w' ∧ same_view w w' a
  | AssertFail | Undef => True
  end.
Proof.
  intros Hne Ha Hb.
  assert (independent b a w) as Hind.
  { split; [done|]. split; [by rewrite Hb|]. split; [done|].
    by rewrite Hb. }
  assert (b ≠ a) as Hne' by done.
  pose proof (pres_Vector_copy T b a _ _ _ Hne' (next_block w) w
                (independent_kept _ _ _ Hind) (Pos.le_refl _)) as Hm.
  destruct (Vector_copy T b a w) as [r w'|w'| |]; try done.
  - destruct Hm as (Hk & _). split.
    + apply independent_sym. by apply (kept_independent _ _ _ _ _ Hne' Hk).
    + by apply (kept_same_view b).
  - destruct Hm as (Hk & _). split.
    + apply independent_sym. by apply (kept_independent _ _ _ _ _ Hne' Hk).
    + by apply (kept_same_view b).
Qed.

End Independence.

(** ** What the copy constructor builds *)

Section CopyConstructor.

Context {A : Type} (T : ElemType A).
Hypothesis NT : never_throws T.

Implicit Types (w : World (A:=A)) (xs : list A).

Lemma cells_exact xs : cells xs (Z.of_nat (length xs)) = Some <$> xs.
Proof.
  unfold cells. rewrite Nat2Z.id, Nat.sub_diag. cbn [replicate].
  by rewrite app_nil_r.
Qed.

Lemma Allocate_zero w : Allocate T 0 w = Ok nullptr w.
Proof. done. Qed.

(** Copying a vector that holds [xs] gives a vector that holds [xs] in
    storage of exactly [length xs] cells. *)
Lemma Vector_copy_repr w a b xs (cap : Z) :
  heap_wf w → repr T w a xs cap → a ≠ b →
  ∃ w1, Vector_copy T b a w = Ok tt w1
        ∧ repr T w1 b xs (Z.of_nat (length xs))
        ∧ repr T w1 a xs cap.
Proof.
  intros Hwf (buf & Hv & Hst & Hlen) Hne. unfold Vector_copy, RawMemory_ctor.
  destruct xs as [|x xs].
  - eexists. split; [|split].
    + mstep ltac:(by apply get_vec_Some).
      change (Z.of_nat (length (@nil A))) with 0.
      mstep ltac:(apply Allocate_zero).
      rewrite bind_ret.
      mstep ltac:(apply set_vec_eq).
      apply try_catch_Ok. reflexivity.
    + eexists. split; [wsimpl; by rewrite lookup_insert_eq|].
      split; [done|]. change (Z.of_nat (length (@nil A))) with 0. size_lia.
    + exists buf. split; [wsimpl; by rewrite lookup_insert_ne|].
      split; [|done]. by destruct buf as [[blk|] [| |]].
  - destruct (storage_block _ _ _ Hst) as (blk & -> & Hblk);
      [by unfold cells|].
    assert (blk ≠ next_block w) as Hfresh.
    { intros ->. specialize (Hwf _ (mk_is_Some _ _ Hblk)). lia. }
    eexists. split; [|split].
    + mstep ltac:(by apply get_vec_Some).
      mstep ltac:(apply (Allocate_nonzero T NT); cbn [length] in *; lia).
      rewrite bind_ret.
      mstep ltac:(apply set_vec_eq).
      apply try_catch_Ok. rewrite Nat2Z.id.
      eapply (uninitialized_copy_n_spec T NT (x :: xs) _ blk
                (next_block w) 0 0).
      * done.
      * wsimpl. by rewrite lookup_insert_ne.
      * wsimpl. by rewrite lookup_insert_eq.
      * apply cells_take_drop.
      * rewrite length_replicate, Nat2Z.id. lia.
    + eexists. split; [wsimpl; by rewrite lookup_insert_eq|].
      split; [|size_lia].
      cbn [storage heap]. rewrite lookup_insert_eq. f_equal.
      rewrite take_0, app_nil_l, Nat.add_0_l.
      rewrite drop_ge by (rewrite length_replicate, Nat2Z.id; lia).
      by rewrite app_nil_r, cells_exact.
    + exists (Ptr (Some blk) 0). split; [wsimpl; by rewrite lookup_insert_ne|].
      split; [|done].
      cbn [storage]. lookup_tac.
Qed.

End CopyConstructor.

(** * Runs in which constructors may throw *)

Section OutcomeLaws.

Context {A : Type}.

Implicit Types (w : World (A:=A)).

Lemma outcome_Ok {R} (m : M R) w r w' (Q : R → World → Prop) E :
  m w = Ok r w' → Q r w' → outcome m w Q E.
Proof. unfold outcome. by intros ->. Qed.

Lemma outcome_ret {R} (x : R) w (Q : R → World → Prop) E :
  Q x w → outcome (ret x) w Q E.
Proof. done. Qed.

Lemma outcome_throw {R} w (Q : R → World (A:=A) → Prop) (E : World → Prop) :
  E w → outcome throw w Q E.
Proof. done. Qed.

Lemma outcome_bind {R S} (m : M R) (f : R → M S) w P
    (Q : S → World → Prop) E' E :
  outcome m w P E' → (∀ r w', P r w' → outcome (f r) w' Q E) →
  (∀ w', E' w' → E w') →
  outcome (bind m f) w Q E.
Proof.
  unfold outcome, bind. intros Hm Hf HE.
  destruct (m w) as [r w'|w'| |]; try done.
  - by apply Hf.
  - by apply HE.
Qed.

Lemma outcome_bind_Ok {R S} (m : M R) (f : R → M S) w r w'
    (Q : S → World → Prop) E :
  m w = Ok r w' → outcome (f r) w' Q E → outcome (bind m f) w Q E.
Proof. unfold outcome, bind. by intros ->. Qed.

Lemma outcome_assoc {R S U} (m : M R) (f : R → M S) (g : S → M U) w
    (Q : U → World → Prop) E :
  outcome (bind m (λ x, bind (f x) g)) w Q E →
  outcome (bind (bind m f) g) w Q E.
Proof. unfold outcome. by rewrite bind_assoc. Qed.

Lemma outcome_try {R} (m h : M R) w (Q : R → World → Prop) E' E :
  outcome m w Q E' → (∀ w', E' w' → outcome h w' Q E) →
  outcome (try_catch m h) w Q E.
Proof.
  unfold outcome, try_catch. intros Hm Hh.
  destruct (m w) as [r w'|w'| |]; try done. by apply Hh.
Qed.

Lemma outcome_weaken {R} (m : M R) w (P Q : R → World → Prop) E' E :
  outcome m w P E' → (∀ r w', P r w' → Q r w') → (∀ w', E' w' → E w') →
  outcome m w Q E.
Proof.
  unfold outcome. intros Hm HQ HE.
  destruct (m w) as [r w'|w'| |]; try done; auto.
Qed.

Lemma outcome_returns {R} (m : M R) w (Q : R → World → Prop) E :
  outcome m w Q E → (∀ w', E w' → False) →
  ∃ r w', m w = Ok r w' ∧ Q r w'.
Proof.
  unfold outcome. intros Hm HE.
  destruct (m w) as [r w'|w'| |]; try done; [eauto|by destruct (HE w')].
Qed.

End OutcomeLaws.

(** One step of a run: the first computation by [tac], then the
    continuation with what is known of the value and the world. *)
Ltac ostep tac :=
  eapply outcome_bind;
    [tac|cbv beta; intros ? ? ?
    |cbv beta; try (let H := fresh in intros ? H; exact H)].

(** A step whose result is known by an equation. *)
Ltac oeq tac := eapply outcome_bind_Ok; [tac|]; cbv beta; wsimpl.

Section Outcomes.

Context {A : Type} (T : ElemType A).

Implicit Types (w : World (A:=A)) (cs ds : list (option A)) (xs ys : list A).
Implicit Types (b : positive) (i j n : nat).

(** One invocation: counted, and nothing else changes, whether it throws
    or not. *)
Lemma tick_outcome k w :
  outcome (tick T k) w
    (λ _ w', w' = with_call k w ∧ throws T k (calls w k) = false)
    (λ w', w' = with_call k w ∧ throws T k (calls w k) = true).
Proof. unfold outcome, tick. by destruct (throws T k (calls w k)). Qed.

Lemma insert_raw_back cs j (c : option A) :
  cs !! j = Some None → <[j := None]> (<[j := c]> cs) = cs.
Proof.
  intros Hj. rewrite list_insert_insert_eq. by apply list_insert_id.
Qed.

Lemma raw_head n j ds :
  take (S n) (drop j ds) = replicate (S n) None →
  ds !! j = Some None ∧ take n (drop (S j) ds) = replicate n None.
Proof. intros H. by apply take_drop_cons in H. Qed.

(** [std::uninitialized_value_construct_n] into raw cells: all the
    objects are built, or the constructor threw and the cells are raw
    again. *)
Lemma uninitialized_value_construct_n_outcome n : ∀ w b j ds,
  heap w !! b = Some ds →
  take n (drop j ds) = replicate n None →
  (j + n ≤ length ds)%nat →
  outcome (uninitialized_value_construct_n T (Ptr (Some b) (Z.of_nat j)) n) w
    (λ _ w',
       w' = {| heap := <[b := take j ds ++ replicate n (Some (value_init T))
                                ++ drop (j + n) ds]> (heap w);
               next_block := next_block w;
               vecs := vecs w;
               calls := bumps ValueInit n (calls w);
               live := live w + Z.of_nat n |})
    (λ w', same_store w w' ∧ ∃ c, throws T ValueInit c = true).
Proof.
  induction n as [|n IH]; intros w b j ds Hb Hraw Hlen.
  - cbn [uninitialized_value_construct_n]. apply outcome_ret.
    apply World_eq; wsimpl; try done; [|lia].
    cbn [replicate]. by rewrite splice_nil, insert_id.
  - cbn [uninitialized_value_construct_n].
    destruct (raw_head _ _ _ Hraw) as [Hj Hraw'].
    apply outcome_assoc.
    ostep ltac:(apply tick_outcome); [|intros w' [-> ?]; split; [done|eauto]].
    match goal with H : _ ∧ _ |- _ => destruct H as [-> Hno] end.
    oeq ltac:(eapply construct_at_block; [exact Hb|lia]).
    rewrite ?ptr_succ, ?Z_of_nat_succ.
    eapply outcome_try.
    + eapply outcome_weaken;
        [apply (IH _ b (S j) (<[j := Some (value_init T)]> ds))| |].
      * wsimpl. by rewrite lookup_insert_eq.
      * rewrite drop_insert_lt by lia. done.
      * rewrite length_insert. lia.
      * intros _ w' ->. apply World_eq; wsimpl; try done; [| |lia].
        -- rewrite insert_insert_eq. f_equal.
           rewrite replicate_S. apply splice_cons. lia.
        -- by rewrite bumps_S.
      * intros w' H. exact H.
    + intros w' [(Hh & Hn & Hv & Hl) Hc].
      cbn [heap next_block vecs live with_heap with_live with_call] in *.
      oeq ltac:(eapply (destroy_at_block _ b j);
                [rewrite Hh; by rewrite lookup_insert_eq
                |apply list_lookup_insert_eq; lia]).
      apply outcome_throw. split; [|done].
      split; [|split; [done|split; [done|]]]; wsimpl.
      * rewrite Hh, insert_insert_eq, insert_raw_back by done.
        by apply insert_id.
      * rewrite Hl. lia.
Qed.

(** [std::uninitialized_copy_n] from live cells of one block into raw
    cells of another: all the copies are built, or a copy constructor
    threw and the target cells are raw again.  The source is not
    changed. *)
Lemma uninitialized_copy_n_outcome ys : ∀ w bs bd i j cs ds,
  bs ≠ bd →
  heap w !! bs = Some cs → heap w !! bd = Some ds →
  take (length ys) (drop i cs) = Some <$> ys →
  take (length ys) (drop j ds) = replicate (length ys) None →
  (j + length ys ≤ length ds)%nat →
  outcome (uninitialized_copy_n T (Ptr (Some bs) (Z.of_nat i)) (length ys)
                                  (Ptr (Some bd) (Z.of_nat j))) w
    (λ _ w',
       w' = {| heap := <[bd := take j ds ++ (Some <$> ys)
                                 ++ drop (j + length ys) ds]> (heap w);
               next_block := next_block w;
               vecs := vecs w;
               calls := bumps CopyCtor (length ys) (calls w);
               live := live w + Z.of_nat (length ys) |})
    (λ w', same_store w w' ∧ ∃ c, throws T CopyCtor c = true).
Proof.
  induction ys as [|y ys IH]; intros w bs bd i j cs ds Hne Hcs Hds Hys Hraw Hj.
  - cbn [length uninitialized_copy_n]. apply outcome_ret.
    apply World_eq; wsimpl; try done; [|lia].
    cbn [fmap list_fmap]. by rewrite splice_nil, insert_id.
  - cbn [length] in *. cbn [uninitialized_copy_n].
    destruct (take_drop_cons _ _ _ _ _ Hys) as [Hy Hys'].
    destruct (raw_head _ _ _ Hraw) as [Hjraw Hraw'].
    unfold construct_from, make, read_src.
    apply outcome_assoc, outcome_assoc.
    oeq ltac:(by eapply load_block).
    apply outcome_assoc.
    ostep ltac:(apply tick_outcome); [|intros w' [-> ?]; split; [done|eauto]].
    match goal with H : _ ∧ _ |- _ => destruct H as [-> Hno] end.
    oeq ltac:(reflexivity).
    oeq ltac:(eapply construct_at_block; [exact Hds|lia]).
    rewrite ?ptr_succ, ?Z_of_nat_succ.
    eapply outcome_try.
    + eapply outcome_weaken;
        [apply (IH _ bs bd (S i) (S j) cs (<[j := Some y]> ds))| |].
      * done.
      * wsimpl. by rewrite lookup_insert_ne.
      * wsimpl. by rewrite lookup_insert_eq.
      * done.
      * rewrite drop_insert_lt by lia. done.
      * rewrite length_insert. lia.
      * intros _ w' ->. apply World_eq; wsimpl; try done; [| |lia].
        -- rewrite insert_insert_eq. f_equal.
           rewrite fmap_cons. apply splice_cons. lia.
        -- by rewrite bumps_S.
      * intros w' H. exact H.
    + intros w' [(Hh & Hn & Hv & Hl) Hc].
      cbn [heap next_block vecs live with_heap with_live with_call] in *.
      oeq ltac:(eapply (destroy_at_block _ bd j);
                [rewrite Hh; by rewrite lookup_insert_eq
                |apply list_lookup_insert_eq; lia]).
      apply outcome_throw. split; [|done].
      split; [|split; [done|split; [done|]]]; wsimpl.
      * rewrite Hh, insert_insert_eq, insert_raw_back by done.
        by apply insert_id.
      * rewrite Hl. lia.
Qed.

End Outcomes.

(** * Construction and destruction *)

Section Lifecycle.

Context {A : Type} (T : ElemType A).

Implicit Types (w : World (A:=A)) (cs ds : list (option A)) (xs ys : list A).
Implicit Types (b : positive) (i j n : nat).

Lemma heap_wf_next w : heap_wf w → heap w !! next_block w = None.
Proof.
  intros Hwf. destruct (heap w !! next_block w) as [cs|] eqn:Hcs; [|done].
  specialize (Hwf _ (mk_is_Some _ _ Hcs)). lia.
Qed.

Lemma cells_filled xs (cap : Z) :
  cap = Z.of_nat (length xs) →
  take 0 (replicate (Z.to_nat cap) (@None A)) ++ (Some <$> xs)
    ++ drop (0 + length xs) (replicate (Z.to_nat cap) None)
  = cells xs cap.
Proof.
  intros ->. rewrite take_0, app_nil_l, Nat.add_0_l, drop_replicate.
  unfold cells. by rewrite Nat2Z.id.
Qed.

(** [Vector(size_t size)]: the vector holds [size] value-initialised
    elements in a block of [size] cells, or [operator new] or a
    constructor threw and nothing is left of the attempt. *)
Lemma Vector_sized_outcome w this (size : Z) :
  heap_wf w → 0 ≤ size ≤ max_size T →
  outcome (Vector_sized T this size) w
    (λ _ w',
       repr T w' this (replicate (Z.to_nat size) (value_init T)) size
       ∧ heap_wf w'
       ∧ live w' = live w + size
       ∧ calls w' = bumps ValueInit (Z.to_nat size) (calls w)
       ∧ (∀ o, o ≠ this → vecs w' !! o = vecs w !! o)
       ∧ (∀ blk cs, heap w !! blk = Some cs → heap w' !! blk = Some cs)
       ∧ (∀ v, vecs w' !! this = Some v →
            released (buffer_ (data_ v)) (heap w') = heap w))
    (λ w', heap w' = heap w
           ∧ (vecs w' = vecs w ∨ vecs w' = delete this (vecs w))
           ∧ live w' = live w
           ∧ ∃ k c, throws T k c = true ∧ (k = ValueInit ∨ k = New)).
Proof.
  intros Hwf Hsize. unfold Vector_sized, RawMemory_ctor.
  apply outcome_assoc.
  destruct (Z.eqb_spec size 0) as [->|Hnz].
  - oeq ltac:(apply Allocate_zero). oeq ltac:(reflexivity).
    oeq ltac:(apply set_vec_eq).
    change (Z.to_nat 0) with 0%nat.
    cbn [uninitialized_value_construct_n replicate].
    apply outcome_ret.
    split; [|split; [done|split; [wsimpl; lia|split; [done|split; [|split]]]]].
    + eexists. split; [wsimpl; by rewrite lookup_insert_eq|].
      split; [done|]. cbn [length]. size_lia.
    + intros o Ho. wsimpl. by rewrite lookup_insert_ne.
    + done.
    + intros v. wsimpl. rewrite lookup_insert_eq. by intros [= <-].
  - pose proof (heap_wf_next _ Hwf) as Hnone.
    destruct (throws T New (Pos.to_nat (next_block w))) eqn:Hnew.
    { unfold outcome, bind.
      rewrite (Allocate_exhausted T size w ltac:(lia) Hnew).
      repeat split; eauto. }
    oeq ltac:(apply Allocate_granted; [lia|done]). oeq ltac:(reflexivity).
    oeq ltac:(apply set_vec_eq).
    eapply outcome_try.
    + eapply outcome_weaken;
        [apply (uninitialized_value_construct_n_outcome T (Z.to_nat size) _
                  (next_block w) 0 (replicate (Z.to_nat size) None))| |].
      * wsimpl. by rewrite lookup_insert_eq.
      * by rewrite drop_0, take_replicate, Nat.min_id.
      * rewrite length_replicate. lia.
      * intros _ w' ->.
        assert (length (replicate (Z.to_nat size) (value_init T))
                = Z.to_nat size) as Hlen by apply length_replicate.
        split; [|split; [|split; [wsimpl; lia|split; [done|split; [|split]]]]].
        -- wsimpl.
           eapply repr_intro;
             [wsimpl; by rewrite lookup_insert_eq|rewrite Hlen; lia|
             |rewrite Hlen; lia].
           cbn [storage heap]. rewrite lookup_insert_eq. f_equal.
           rewrite <- (cells_filled _ size) by (rewrite Hlen; lia).
           by rewrite Hlen, fmap_replicate.
        -- eapply (heap_wf_fresh w _ nullptr); [done| |done].
           wsimpl. cbn [released]. by rewrite insert_insert_eq.
        -- intros o Ho. wsimpl. by rewrite lookup_insert_ne.
        -- intros blk cs Hblk. wsimpl.
           rewrite !lookup_insert_ne; [done|congruence..].
        -- intros v. wsimpl. rewrite lookup_insert_eq. intros [= <-].
           cbn [released data_ buffer_].
           rewrite insert_insert_eq, delete_insert_eq. by apply delete_id.
      * intros w' H. exact H.
    + intros w' [(Hh & Hn & Hv & Hl) Hc].
      cbn [heap next_block vecs live with_vecs allocated] in *.
      oeq ltac:(reflexivity).
      oeq ltac:(unfold RawMemory_dtor; cbn [buffer_];
                eapply Deallocate_block; cbn [heap with_vecs];
                rewrite Hh; apply lookup_insert_eq).
      apply outcome_throw. wsimpl.
      split; [|split; [right|split; [done|]]].
      * rewrite Hh, delete_insert_eq. by apply delete_id.
      * by rewrite Hv, delete_insert_eq.
      * destruct Hc as [c Hc]. exists ValueInit, c. auto.
Qed.

(** [Vector(size_t size)] for a size the allocator refuses: the
    constructor throws [std::bad_alloc] before anything is done. *)
Lemma Vector_sized_refused w this (size : Z) :
  max_size T < size → size * Z.pos (sizeof T) < size_max →
  Vector_sized T this size w = Throw w.
Proof.
  intros Hsize Hbytes. unfold Vector_sized, RawMemory_ctor.
  unfold bind at 1 2. by rewrite Allocate_refused.
Qed.

(** [Vector(const Vector&)]: the copy holds the elements of the source
    in a block of exactly as many cells, or [operator new] or a copy
    constructor threw and nothing is left of the attempt.  The source is
    not changed. *)
Lemma Vector_copy_outcome w a b ys (cap : Z) :
  heap_wf w → repr T w a ys cap → a ≠ b →
  outcome (Vector_copy T b a) w
    (λ _ w',
       repr T w' b ys (Z.of_nat (length ys))
       ∧ repr T w' a ys cap
       ∧ heap_wf w'
       ∧ live w' = live w + Z.of_nat (length ys)
       ∧ calls w' = bumps CopyCtor (length ys) (calls w)
       ∧ (∀ o, o ≠ b → vecs w' !! o = vecs w !! o)
       ∧ (∀ blk cs, heap w !! blk = Some cs → heap w' !! blk = Some cs)
       ∧ (∀ v, vecs w' !! b = Some v →
            released (buffer_ (data_ v)) (heap w') = heap w))
    (λ w', heap w' = heap w
           ∧ (vecs w' = vecs w ∨ vecs w' = delete b (vecs w))
           ∧ live w' = live w
           ∧ ∃ k c, throws T k c = true ∧ (k = CopyCtor ∨ k = New)).
Proof.
  intros Hwf (buf & Hv & Hst & Hlen) Hne. unfold Vector_copy, RawMemory_ctor.
  oeq ltac:(by apply get_vec_Some).
  apply outcome_assoc.
  destruct ys as [|y ys].
  - change (Z.of_nat (length (@nil A))) with 0.
    oeq ltac:(apply Allocate_zero). oeq ltac:(reflexivity).
    oeq ltac:(apply set_vec_eq).
    change (Z.to_nat 0) with 0%nat. cbn [uninitialized_copy_n].
    apply outcome_ret.
    split; [|split; [|split; [done|split; [wsimpl; lia|split; [done|split; [|split]]]]]].
    + eexists. split; [wsimpl; by rewrite lookup_insert_eq|].
      split; [done|]. cbn [length]. size_lia.
    + exists buf. split; [wsimpl; by rewrite lookup_insert_ne|].
      split; [|done]. by destruct buf as [[blk|] [| |]].
    + intros o Ho. wsimpl. by rewrite lookup_insert_ne.
    + done.
    + intros v. wsimpl. rewrite lookup_insert_eq. by intros [= <-].
  - destruct (storage_block _ _ _ Hst) as (blk & -> & Hblk);
      [by unfold cells|].
    pose proof (heap_wf_next _ Hwf) as Hnone.
    assert (blk ≠ next_block w) as Hfresh by congruence.
    destruct (throws T New (Pos.to_nat (next_block w))) eqn:Hnew.
    { unfold outcome, bind.
      rewrite (Allocate_exhausted T (Z.of_nat (length (y :: ys))) w
                 ltac:(cbn [length] in *; lia) Hnew).
      repeat split; eauto. }
    oeq ltac:(apply Allocate_granted; [cbn [length] in *; lia|done]).
    oeq ltac:(reflexivity).
    oeq ltac:(apply set_vec_eq).
    rewrite Nat2Z.id.
    eapply outcome_try.
    + eapply outcome_weaken;
        [apply (uninitialized_copy_n_outcome T (y :: ys) _ blk
                  (next_block w) 0 0 (cells (y :: ys) cap)
                  (replicate (length (y :: ys)) None))| |].
      * done.
      * wsimpl. by rewrite lookup_insert_ne.
      * wsimpl. by rewrite Nat2Z.id, lookup_insert_eq.
      * apply cells_take_drop.
      * by rewrite drop_0, take_replicate, Nat.min_id.
      * rewrite length_replicate. lia.
      * intros _ w' ->. wsimpl.
        split; [|split; [|split; [|split; [lia|split; [done|split; [|split]]]]]].
        -- eapply repr_intro; [wsimpl; by rewrite lookup_insert_eq|done|
                              |size_lia].
           cbn [storage heap]. rewrite lookup_insert_eq. f_equal.
           rewrite <- (Nat2Z.id (length (y :: ys))) at 1 3.
           by rewrite cells_filled.
        -- exists (Ptr (Some blk) 0).
           split; [wsimpl; by rewrite lookup_insert_ne|]. split; [|done].
           cbn [storage heap]. by rewrite !lookup_insert_ne.
        -- eapply (heap_wf_fresh w _ nullptr); [done| |done].
           wsimpl. cbn [released]. by rewrite insert_insert_eq.
        -- intros o Ho. by rewrite lookup_insert_ne.
        -- intros blk' cs Hblk'.
           rewrite !lookup_insert_ne; [done|congruence..].
        -- intros v. rewrite lookup_insert_eq. intros [= <-].
           cbn [released data_ buffer_].
           rewrite insert_insert_eq, delete_insert_eq. by apply delete_id.
      * intros w' H. exact H.
    + intros w' [(Hh & Hn & Hv' & Hl) Hc].
      cbn [heap next_block vecs live with_vecs allocated] in *.
      oeq ltac:(reflexivity).
      oeq ltac:(unfold RawMemory_dtor; cbn [buffer_];
                eapply Deallocate_block; cbn [heap with_vecs];
                rewrite Hh; apply lookup_insert_eq).
      apply outcome_throw. wsimpl.
      split; [|split; [right|split; [done|]]].
      * rewrite Hh, delete_insert_eq. by apply delete_id.
      * by rewrite Hv', delete_insert_eq.
      * destruct Hc as [c Hc]. exists CopyCtor, c. auto.
Qed.

(** [~Vector()] and the destructor of its member: the elements are
    destroyed, the block is released and the object is gone. *)
Lemma Vector_dtor_spec w this v xs (cap : Z) :
  vecs w !! this = Some v → repr T w this xs cap →
  Vector_dtor this w
  = Ok tt {| heap := released (buffer_ (data_ v)) (heap w);
             next_block := next_block w;
             vecs := delete this (vecs w);
             calls := calls w;
             live := live w - Z.of_nat (length xs) |}.
Proof.
  intros Hv' (buf & Hv & Hst & Hlen). rewrite Hv in Hv'. injection Hv' as <-.
  unfold Vector_dtor.
  mstep ltac:(by apply get_vec_Some).
  rewrite Nat2Z.id.
  destruct (storage_cases _ _ _ Hst) as [[-> Hnil]|(blk & -> & Hblk)].
  - assert (xs = []) as -> by (by destruct xs).
    cbn [length destroy_n]. rewrite bind_ret.
    apply Ok_World_eq; wsimpl; try done. lia.
  - mstep ltac:(eapply (destroy_n_live _ blk 0 _ _ xs);
                [exact Hblk|apply cells_take_drop|done]).
    mstep ltac:(reflexivity).
    unfold RawMemory_dtor. cbn [buffer_].
    erewrite Deallocate_block; [|wsimpl; apply lookup_insert_eq].
    apply Ok_World_eq; wsimpl; try done.
    cbn [released]. by rewrite delete_insert_eq.
Qed.

End Lifecycle.

(** * More on the methods *)

Section MoreMethods.

Context {A : Type} (T : ElemType A).

Hypothesis NT : never_throws T.

Implicit Types (w : World (A:=A)) (cs ds : list (option A)) (xs ys : list A).
Implicit Types (b : positive) (i j n : nat).
Implicit Types (pre suf : list A) (z : A).

(** [Reserve] keeps the elements; the capacity becomes the larger of the
    old capacity and the one asked for. *)
Lemma Reserve_repr w this xs (cap new_capacity : Z) :
  heap_wf w → repr T w this xs cap → new_capacity ≤ max_size T →
  ∃ w', Reserve T this new_capacity w = Ok tt w'
        ∧ repr T w' this xs (Z.max cap new_capacity)
        ∧ heap_wf w'
        ∧ live w' = live w
        ∧ (new_capacity ≤ cap → w' = w)
        ∧ (cap < new_capacity →
             calls w' = bumps (transfer_kind T) (length xs) (calls w))
        ∧ (∀ o, o ≠ this → vecs w' !! o = vecs w !! o).
Proof.
  intros Hwf (buf & Hv & Hst & Hlen) Hn.
  destruct (Z.le_gt_cases new_capacity cap) as [Hle|Hgt].
  - exists w. split; [by eapply Reserve_noop|].
    rewrite Z.max_l by lia.
    split; [by exists buf|]. repeat split; try done. lia.
  - eexists. split; [eapply Reserve_grow; [done..|lia|lia]|].
    rewrite Z.max_r by lia.
    split; [|split; [|split; [done|split; [lia|split; [done|]]]]].
    + eapply repr_intro; [wsimpl; by rewrite lookup_insert_eq|done| |lia].
      cbn [storage heap]. by rewrite lookup_insert_eq.
    + by eapply (heap_wf_fresh w _ buf).
    + intros o Ho. wsimpl. by rewrite lookup_insert_ne.
Qed.

(** ** [Resize] *)

Lemma uninitialized_value_construct_n_spec n w b j ds :
  heap w !! b = Some ds →
  take n (drop j ds) = replicate n None →
  (j + n ≤ length ds)%nat →
  uninitialized_value_construct_n T (Ptr (Some b) (Z.of_nat j)) n w
  = Ok tt {| heap := <[b := take j ds ++ replicate n (Some (value_init T))
                              ++ drop (j + n) ds]> (heap w);
             next_block := next_block w;
             vecs := vecs w;
             calls := bumps ValueInit n (calls w);
             live := live w + Z.of_nat n |}.
Proof.
  intros Hb Hraw Hlen.
  destruct (outcome_returns _ _ _ _
              (uninitialized_value_construct_n_outcome T n w b j ds
                 Hb Hraw Hlen)) as ([] & w' & Hrun & ->); [|done].
  intros w' [_ [c Hc]]. by rewrite NT in Hc.
Qed.

Lemma cells_truncate xs (cap : Z) k :
  (k ≤ length xs)%nat → Z.of_nat (length xs) ≤ cap →
  take k (cells xs cap) ++ replicate (length xs - k) None
    ++ drop (k + (length xs - k)) (cells xs cap)
  = cells (take k xs) cap.
Proof.
  intros Hk Hcap. unfold cells.
  rewrite take_app_le by (rewrite length_fmap; lia).
  replace (k + (length xs - k))%nat with (length (Some <$> xs))
    by (rewrite length_fmap; lia).
  rewrite drop_app_length, <- fmap_take, length_take.
  rewrite <- replicate_add. do 2 f_equal. lia.
Qed.

Lemma cells_raw_range xs (cap : Z) m :
  Z.of_nat (length xs + m) ≤ cap →
  take m (drop (length xs) (cells xs cap)) = replicate m None.
Proof.
  intros Hcap. unfold cells.
  rewrite drop_app_length' by (by rewrite length_fmap).
  rewrite take_replicate. f_equal. lia.
Qed.

Lemma cells_extend xs (cap : Z) m (x : A) :
  Z.of_nat (length xs + m) ≤ cap →
  take (length xs) (cells xs cap) ++ replicate m (Some x)
    ++ drop (length xs + m) (cells xs cap)
  = cells (xs ++ replicate m x) cap.
Proof.
  intros Hcap. unfold cells.
  rewrite take_app_length' by (by rewrite length_fmap).
  rewrite drop_app_ge by (rewrite length_fmap; lia).
  rewrite drop_replicate, length_fmap, fmap_app, fmap_replicate.
  rewrite <- app_assoc, length_app, length_replicate.
  do 3 f_equal. lia.
Qed.

(** [Resize] to a smaller length destroys the elements from the new
    length on; to a larger one it reserves and appends value-initialised
    elements. *)
Lemma Resize_spec w this xs (cap : Z) k :
  heap_wf w → repr T w this xs cap → Z.of_nat k ≤ max_size T →
  ∃ w', Resize T this (Z.of_nat k) w = Ok tt w'
        ∧ repr T w' this (take k xs ++ replicate (k - length xs) (value_init T))
               (Z.max cap (Z.of_nat k))
        ∧ heap_wf w'
        ∧ live w' = live w + Z.of_nat k - Z.of_nat (length xs).
Proof.
  intros Hwf Hr Hk. pose proof Hr as (buf & Hv & Hst & Hlen).
  unfold Resize.
  destruct (Z.ltb_spec (Z.of_nat k) (Z.of_nat (length xs))) as [Hlt|Hge].
  - destruct (storage_block _ _ _ Hst) as (blk & -> & Hblk).
    { unfold cells. destruct xs; [simpl in Hlt; lia|done]. }
    eexists. split; [|split; [|split]].
    + mstep ltac:(by apply get_vec_Some).
      destruct (Z.ltb_spec (Z.of_nat k) (Z.of_nat (length xs))); [|lia].
      rewrite wrap_small by size_lia. cbn [ptr_add]. rewrite Z.add_0_l.
      mstep ltac:(eapply (destroy_n_live _ blk k _ _ (drop k xs));
                  [exact Hblk| |rewrite length_drop; lia]).
      { unfold cells. rewrite drop_app_le by (rewrite length_fmap; lia).
        rewrite take_app_le by (rewrite length_drop, length_fmap; lia).
        rewrite <- fmap_drop. apply take_ge. rewrite !length_fmap, length_drop.
        lia. }
      by apply set_size_Some.
    + replace (k - length xs)%nat with 0%nat by lia.
      cbn [replicate]. rewrite app_nil_r, Z.max_l by lia.
      eapply repr_intro; [wsimpl; by rewrite lookup_insert_eq
                         |rewrite length_take; lia|
                         |rewrite length_take; lia].
      cbn [storage]. wsimpl. rewrite lookup_insert_eq. f_equal.
      replace (Z.to_nat (Z.of_nat (length xs) - Z.of_nat k))
        with (length xs - k)%nat by lia.
      apply cells_truncate; lia.
    + eapply heap_wf_update; [done|by eexists|done|done].
    + wsimpl. lia.
  - destruct (Reserve_repr w this xs cap (Z.of_nat k) Hwf Hr Hk)
      as (w1 & Hrun & Hr1 & Hwf1 & Hlive1 & _).
    destruct Hr1 as (buf1 & Hv1 & Hst1 & Hlen1).
    rewrite take_ge by lia.
    destruct (storage_cases _ _ _ Hst1) as [[-> Hnil]|(blk & -> & Hblk)].
    + assert (xs = []) as -> by (by destruct xs).
      assert (k = 0)%nat as ->.
      { destruct (Z.max_spec cap (Z.of_nat k)) as [[_ Hm]|[_ Hm]];
          rewrite Hm in Hnil; unfold cells in Hnil;
          apply (f_equal length) in Hnil;
          rewrite length_app, length_replicate in Hnil;
          cbn [length fmap list_fmap] in *; lia. }
      eexists. split; [|split; [|split]].
      * mstep ltac:(by apply get_vec_Some).
        destruct (Z.ltb_spec (Z.of_nat 0) (Z.of_nat (length (@nil A))));
          [cbn [length] in *; lia|].
        mstep ltac:(exact Hrun).
        mstep ltac:(by apply get_vec_Some).
        cbn [length]. change (Z.to_nat (wrap (Z.of_nat 0 - Z.of_nat 0)))
          with 0%nat.
        cbn [uninitialized_value_construct_n]. rewrite bind_ret.
        by apply set_size_Some.
      * cbn [replicate app length Nat.sub].
        eapply repr_intro; [wsimpl; by rewrite lookup_insert_eq|done| |].
        -- done.
        -- cbn [length] in *. lia.
      * done.
      * wsimpl. cbn [length]. lia.
    + eexists. split; [|split; [|split]].
      * mstep ltac:(by apply get_vec_Some).
        destruct (Z.ltb_spec (Z.of_nat k) (Z.of_nat (length xs))); [lia|].
        mstep ltac:(exact Hrun).
        mstep ltac:(by apply get_vec_Some).
        rewrite wrap_small by size_lia. cbn [ptr_add]. rewrite Z.add_0_l.
        mstep ltac:(eapply (uninitialized_value_construct_n_spec _ _ blk
                              (length xs));
                    [exact Hblk|apply cells_raw_range; lia
                    |rewrite length_cells by lia; lia]).
        apply set_size_Some; wsimpl; exact Hv1.
      * replace (Z.to_nat (Z.of_nat k - Z.of_nat (length xs)))
          with (k - length xs)%nat by lia.
        eapply repr_intro; [wsimpl; by rewrite lookup_insert_eq
                           |rewrite length_app, length_replicate; lia|
                           |rewrite length_app, length_replicate; lia].
        cbn [storage]. wsimpl. rewrite lookup_insert_eq. f_equal.
        apply cells_extend. lia.
      * eapply heap_wf_update; [exact Hwf1|by eexists|done|done].
      * wsimpl. lia.
Qed.

(** ** [Erase] *)

Lemma shifted_out_cons z y ys :
  shifted_out T z (y :: ys) = shifted_out T (moved_from T y) ys.
Proof. done. Qed.

(** [std::move(first, last, first - 1)] inside one block: the range moves
    one cell down; the last cell of the range is left moved-from. *)
Lemma move_loop_spec ys : ∀ w b i cs z,
  heap w !! b = Some cs →
  cs !! i = Some (Some z) →
  take (length ys) (drop (S i) cs) = Some <$> ys →
  move_loop T (length ys) (Ptr (Some b) (Z.of_nat (S i)))
                          (Ptr (Some b) (Z.of_nat i)) w
  = Ok tt {| heap := <[b := take i cs ++ (Some <$> ys)
                              ++ Some (shifted_out T z ys)
                              :: drop (S (i + length ys)) cs]> (heap w);
             next_block := next_block w;
             vecs := vecs w;
             calls := bumps MoveAssign (length ys) (calls w);
             live := live w |}.
Proof.
  induction ys as [|y ys IH]; intros w b i cs z Hb Hz Hys.
  - cbn [length move_loop fmap list_fmap app]. rewrite Nat.add_0_r.
    apply Ok_World_eq; wsimpl; try done.
    cbn [shifted_out].
    by rewrite take_drop_middle, insert_id.
  - cbn [length] in *. cbn [move_loop].
    destruct (take_drop_cons _ _ _ _ _ Hys) as [Hy Hys'].
    assert (S i < length cs)%nat as Hlen by (by eapply lookup_lt_Some).
    set (cs1 := <[i := Some y]> (<[S i := Some (moved_from T y)]> cs)).
    unfold move_assign.
    mstep ltac:(by eapply load_block).
    mstep ltac:(by eapply load_block).
    mstep ltac:(apply (tick_ok T NT)).
    mstep ltac:(eapply put_block; [wsimpl; done|lia]).
    mstep ltac:(eapply put_block;
                [wsimpl; by rewrite lookup_insert_eq
                |rewrite length_insert; lia]).
    rewrite insert_insert_eq. fold cs1.
    rewrite ?ptr_succ, ?Z_of_nat_succ.
    rewrite (IH _ b (S i) cs1 (moved_from T y)); wsimpl.
    + apply Ok_World_eq; wsimpl; try done.
      * rewrite insert_insert_eq. f_equal. unfold cs1.
        rewrite shifted_out_cons.
        erewrite take_S_r
          by (apply list_lookup_insert_eq; rewrite length_insert; lia).
        rewrite take_insert_ge, take_insert_ge by lia.
        rewrite !drop_insert_lt by lia.
        rewrite <- app_assoc. cbn [app fmap list_fmap].
        do 5 f_equal. lia.
      * by rewrite bumps_S.
    + by rewrite lookup_insert_eq.
    + unfold cs1. rewrite list_lookup_insert_ne by lia.
      apply list_lookup_insert_eq. lia.
    + unfold cs1. by rewrite !drop_insert_lt by lia.
Qed.

Lemma cells_middle pre z suf (cap : Z) :
  cells (pre ++ z :: suf) cap !! length pre = Some (Some z).
Proof. apply cells_lookup_live. by apply list_lookup_middle. Qed.

Lemma cells_after_middle pre z suf (cap : Z) :
  take (length suf) (drop (S (length pre)) (cells (pre ++ z :: suf) cap))
  = Some <$> suf.
Proof.
  replace (pre ++ z :: suf) with ((pre ++ [z]) ++ suf)
    by (by rewrite <- app_assoc).
  replace (S (length pre)) with (length (pre ++ [z]))
    by (rewrite length_app; simpl; lia).
  apply cells_suffix.
Qed.

Lemma cells_erased pre z suf (cap : Z) (c : A) :
  Z.of_nat (length (pre ++ z :: suf)) ≤ cap →
  <[(length pre + length suf)%nat := None]>
    (take (length pre) (cells (pre ++ z :: suf) cap) ++ (Some <$> suf)
       ++ Some c :: drop (S (length pre + length suf))
                         (cells (pre ++ z :: suf) cap))
  = cells (pre ++ suf) cap.
Proof.
  rewrite length_app. cbn [length].
  rewrite cells_insert_at, cells_app.
  rewrite take_app_length' by (by rewrite length_fmap).
  rewrite <- (length_fmap Some pre), <- (length_fmap Some suf).
  generalize (Some <$> pre) (Some <$> suf). intros l1 l2 Hcap.
  rewrite drop_app_ge by lia.
  replace (S (length l1 + length l2) - length l1)%nat
    with (S (length l2)) by lia.
  cbn [drop]. rewrite drop_app_length.
  rewrite insert_app_r. f_equal.
  replace (length l2) with (length l2 + 0)%nat at 1 by lia.
  rewrite insert_app_r. cbn [insert list_insert]. f_equal.
  rewrite <- replicate_S. f_equal. lia.
Qed.

(** [Erase] at a position that holds an element. *)
Lemma Erase_spec w this pre z suf (cap : Z) :
  repr T w this (pre ++ z :: suf) cap →
  ∃ first w',
    begin_ this w = Ok first w
    ∧ Erase T this (first +ₚ Z.of_nat (length pre)) w
      = Ok (first +ₚ Z.of_nat (length pre)) w'
    ∧ repr T w' this (pre ++ suf) cap
    ∧ begin_ this w' = Ok first w'
    ∧ live w' = live w - 1
    ∧ calls w' = bumps MoveAssign (length suf) (calls w)
    ∧ (heap_wf w → heap_wf w').
Proof.
  intros (buf & Hv & Hst & Hlen).
  destruct (storage_block _ _ _ Hst) as (blk & -> & Hblk).
  { unfold cells. by destruct pre. }
  rewrite length_app in Hv, Hlen. cbn [length] in Hv, Hlen.
  exists (Ptr (Some blk) 0). eexists.
  split; [exact (begin_Some _ _ _ Hv)|].
  split; [|split; [|split; [|split; [|split]]]].
  - unfold Erase. cbn [ptr_add]. rewrite Z.add_0_l.
    mstep ltac:(by apply end_Some).
    cbn [ptr_add]. rewrite Z.add_0_l, Z_of_nat_succ.
    unfold std_move.
    rewrite distance_nat by lia. rewrite bind_assoc, bind_ret.
    replace (length pre + S (length suf) - S (length pre))%nat
      with (length suf) by lia.
    mstep ltac:(eapply (move_loop_spec suf _ blk (length pre) _ z);
                [exact Hblk|apply cells_middle|apply cells_after_middle]).
    mstep ltac:(by apply get_vec_Some).
    cbn [ptr_add]. rewrite Z.add_0_l.
    replace (Z.of_nat (length pre + S (length suf)) + -1)
      with (Z.of_nat (length pre + length suf)) by lia.
    mstep ltac:(eapply (destroy_at_block _ blk);
                [wsimpl; apply lookup_insert_eq|]).
    { rewrite lookup_app_r; rewrite length_take, length_cells by
        (rewrite length_app; cbn [length]; lia); [|lia].
      replace (length pre + length suf
               - length pre `min` Z.to_nat cap)%nat
        with (length (Some <$> suf) + 0)%nat
        by (rewrite length_fmap; lia).
      by rewrite lookup_app_r, Nat.add_comm, Nat.add_sub by lia. }
    mstep ltac:(apply set_size_Some; wsimpl; exact Hv).
    reflexivity.
  - eapply repr_intro; [wsimpl; by rewrite lookup_insert_eq
                       |rewrite wrap_small by size_lia;
                        rewrite length_app; lia|
                       |rewrite length_app; lia].
    cbn [storage]. wsimpl. rewrite lookup_insert_eq. f_equal.
    apply cells_erased. rewrite length_app. cbn [length]. lia.
  - unfold begin_. mstep ltac:(apply get_vec_Some; wsimpl;
                               by rewrite lookup_insert_eq).
    reflexivity.
  - wsimpl. lia.
  - done.
  - intros Hwf. eapply (heap_wf_update w _ blk); [done|by eexists| |done].
    wsimpl. by rewrite !insert_insert_eq.
Qed.

End MoreMethods.

(** * The strong exception guarantee of appending and reserving *)

Section Guarantee.

Context {A : Type} (T : ElemType A).

(** When the elements are transferred by move, the move constructor does
    not throw: true of every type that is nothrow-move-constructible, and
    false only of a move-only type whose move constructor may throw. *)
Hypothesis HM : use_move T = true → ∀ c, throws T MoveCtor c = false.

Implicit Types (w : World (A:=A)) (cs ds : list (option A)) (xs ys : list A).
Implicit Types (b : positive) (i j n : nat).

Lemma tick_quiet k w :
  (∀ c, throws T k c = false) → tick T k w = Ok tt (with_call k w).
Proof. intros Hk. unfold tick. by rewrite Hk. Qed.


(** A scope with a local [RawMemory] of [c] objects, where the byte
    count fits into [size_t]: when the allocator refuses the request,
    nothing was done; when the body throws and leaves the store as it
    found it, the block of the local is released and nothing is left of
    the attempt. *)
Lemma with_new_data_outcome {R} (c : Z) (body : RawMemory → M (RawMemory * R))
    w (Q : R → World → Prop) :
  heap_wf w → 0 < c → c * Z.pos (sizeof T) < size_max →
  (c ≤ max_size T →
   outcome (body {| buffer_ := Ptr (Some (next_block w)) 0; capacity_ := c |})
     (allocated c w)
     (λ r w2, ∃ w3, Deallocate (buffer_ (fst r)) w2 = Ok tt w3 ∧ Q (snd r) w3)
     (λ w2, same_store (allocated c w) w2)) →
  outcome (with_new_data T c body) w Q (λ w', rolled_back w w').
Proof.
  intros Hwf Hc Hbytes Hbody. unfold with_new_data, RawMemory_ctor.
  apply outcome_assoc.
  destruct (Z.le_gt_cases c (max_size T)) as [Hfit|Hbig]; last first.
  { unfold outcome, bind. by rewrite Allocate_refused by lia. }
  specialize (Hbody Hfit).
  destruct (throws T New (Pos.to_nat (next_block w))) eqn:Hnew.
  { unfold outcome, bind.
    by rewrite (Allocate_exhausted T c w ltac:(lia) Hnew). }
  oeq ltac:(apply Allocate_granted; [lia|done]). oeq ltac:(reflexivity).
  eapply outcome_bind with (E' := λ w', rolled_back w w').
  - eapply outcome_try; [exact Hbody|].
    intros w2 Hs. unfold same_store in Hs. destruct Hs as (Hh & Hn & Hv & Hl).
    cbn [heap next_block vecs live allocated] in *.
    oeq ltac:(unfold RawMemory_dtor; cbn [buffer_];
              eapply Deallocate_block; rewrite Hh; apply lookup_insert_eq).
    apply outcome_throw. split; [|done]. wsimpl.
    rewrite Hh, delete_insert_eq. by apply delete_id, heap_wf_next.
  - cbv beta. intros r w2 (w3 & Hd & HQ). unfold RawMemory_dtor.
    oeq ltac:(exact Hd). by apply outcome_ret.
  - cbv beta. intros w' H. exact H.
Qed.

Lemma uninitialized_move_n_quiet ys : ∀ w bs bd i j cs ds,
  (∀ c, throws T MoveCtor c = false) →
  bs ≠ bd →
  heap w !! bs = Some cs → heap w !! bd = Some ds →
  take (length ys) (drop i cs) = Some <$> ys →
  (j + length ys ≤ length ds)%nat →
  uninitialized_move_n T (Ptr (Some bs) (Z.of_nat i)) (length ys)
                         (Ptr (Some bd) (Z.of_nat j)) w
  = Ok tt {| heap := <[bd := take j ds ++ (Some <$> ys)
                               ++ drop (j + length ys) ds]>
                       (<[bs := take i cs ++ (Some <$> (moved_from T <$> ys))
                                  ++ drop (i + length ys) cs]> (heap w));
             next_block := next_block w;
             vecs := vecs w;
             calls := bumps MoveCtor (length ys) (calls w);
             live := live w + Z.of_nat (length ys) |}.
Proof.
  induction ys as [|y ys IH]; intros w bs bd i j cs ds Hq Hne Hcs Hds Hys Hj.
  - simpl length. cbn [uninitialized_move_n fmap list_fmap ret].
    apply Ok_World_eq; wsimpl; try done; [|lia].
    rewrite !splice_nil. rewrite (insert_id _ bs) by done. by rewrite insert_id.
  - cbn [length] in *. cbn [uninitialized_move_n].
    destruct (take_drop_cons _ _ _ _ _ Hys) as [Hy Hys'].
    assert (i < length cs)%nat as Hi by (by eapply lookup_lt_Some).
    unfold construct_from, make, read_src, leave_moved.
    mstep ltac:(by eapply load_block).
    mstep ltac:(by apply tick_quiet).
    mstep ltac:(by eapply put_block).
    rewrite bind_ret.
    mstep ltac:(eapply construct_at_block;
                [wsimpl; by rewrite lookup_insert_ne|lia]).
    apply try_catch_Ok. rewrite ?ptr_succ, ?Z_of_nat_succ. wsimpl.
    rewrite (IH _ bs bd (S i) (S j) (<[i := Some (moved_from T y)]> cs)
                (<[j := Some y]> ds)); wsimpl;
      [|done|done|by rewrite lookup_insert_ne, lookup_insert_eq
       |by rewrite lookup_insert_eq|by rewrite drop_insert_lt by lia
       |rewrite length_insert; lia].
    apply Ok_World_eq; wsimpl; try done; [| |lia].
    + rewrite insert2_absorb. rewrite !fmap_cons.
      by rewrite !splice_cons by lia.
    + by rewrite bumps_S.
Qed.

(** The transfer of the elements [xs] of block [b] into raw cells of
    the block [bd], as [Reserve] does it: by move, which does not throw,
    or by copy, which may. *)
Lemma transfer_outcome w b bd xs (cap : Z) ds :
  b ≠ bd →
  heap w !! b = Some (cells xs cap) →
  heap w !! bd = Some ds →
  take (length xs) (drop 0 ds) = replicate (length xs) None →
  (length xs ≤ length ds)%nat →
  outcome (if use_move T
           then uninitialized_move_n T (Ptr (Some b) 0) (length xs)
                                       (Ptr (Some bd) 0)
           else uninitialized_copy_n T (Ptr (Some b) 0) (length xs)
                                       (Ptr (Some bd) 0)) w
    (λ _ w',
       ∃ zs, length zs = length xs
       ∧ w' = {| heap := <[bd := (Some <$> xs) ++ drop (length xs) ds]>
                           (<[b := cells zs cap]> (heap w));
                 next_block := next_block w;
                 vecs := vecs w;
                 calls := bumps (transfer_kind T) (length xs) (calls w);
                 live := live w + Z.of_nat (length xs) |})
    (λ w', same_store w w').
Proof.
  intros Hne Hb Hnb Hraw Hlen. unfold transfer_kind.
  destruct (use_move T) eqn:Hmove.
  - eapply outcome_Ok.
    + eapply (uninitialized_move_n_quiet xs _ b bd 0 0);
        [by apply HM|done|exact Hb|exact Hnb|apply cells_take_drop|lia].
    + exists (moved_from T <$> xs). split; [by rewrite length_fmap|].
      apply World_eq; wsimpl; try done.
      rewrite take_0, app_nil_l, Nat.add_0_l. do 2 f_equal.
      rewrite take_0, app_nil_l.
      unfold cells. rewrite drop_app_length' by (by rewrite length_fmap).
      by rewrite !length_fmap.
  - eapply outcome_weaken;
      [apply (uninitialized_copy_n_outcome T xs w b bd 0 0
                (cells xs cap) ds);
       [done|exact Hb|exact Hnb|apply cells_take_drop|exact Hraw|lia]| |].
    + intros _ w' ->. exists xs. split; [done|].
      apply World_eq; wsimpl; try done.
      rewrite take_0, app_nil_l, Nat.add_0_l. f_equal.
      by rewrite insert_id.
    + by intros w' [H _].
Qed.

Lemma heap_wf_grown w w' :
  heap_wf w → next_block w' = Pos.succ (next_block w) →
  (∀ blk, is_Some (heap w' !! blk) →
          blk = next_block w ∨ is_Some (heap w !! blk)) →
  heap_wf w'.
Proof.
  intros Hwf Hn Hh blk Hblk. rewrite Hn.
  destruct (Hh blk Hblk) as [->|H]; [lia|].
  specialize (Hwf blk H). lia.
Qed.

(** [Reserve] beyond the capacity, for a capacity whose byte count fits
    into [size_t]: the elements are in a new block of the capacity asked
    for, or the allocator refused or a copy constructor threw and nothing
    changed. *)
Lemma Reserve_outcome w this xs (cap new_capacity : Z) :
  heap_wf w → repr T w this xs cap →
  cap < new_capacity → new_capacity * Z.pos (sizeof T) < size_max →
  outcome (Reserve T this new_capacity) w
    (λ _ w', repr T w' this xs new_capacity ∧ live w' = live w ∧ heap_wf w')
    (λ w', rolled_back w w').
Proof.
  intros Hwf (buf & Hv & Hst & Hlen) Hc Hbytes. unfold Reserve.
  oeq ltac:(by apply get_vec_Some).
  destruct (Z.leb_spec new_capacity cap); [lia|].
  rewrite Nat2Z.id.
  pose proof (heap_wf_next _ Hwf) as Hnone.
  assert (heap (allocated new_capacity w) !! next_block w
          = Some (replicate (Z.to_nat new_capacity) None))
      as Hnb by (simpl; by rewrite lookup_insert_eq).
  apply with_new_data_outcome; [done|lia|done|intros Hfit].
  destruct (storage_cases _ _ _ Hst) as [[-> Hnil]|(b & -> & Hb)].
  - assert (xs = []) as -> by (by destruct xs).
    cbn [length].
    replace (if use_move T then _ else _) with (ret (A:=A) tt)
      by (by destruct (use_move T)).
    oeq ltac:(reflexivity). cbn [destroy_n]. oeq ltac:(reflexivity).
    oeq ltac:(apply set_data_Some; wsimpl; exact Hv).
    apply outcome_ret. eexists. split; [reflexivity|].
    split; [|split; [done|]].
    + eapply repr_intro; [wsimpl; by rewrite lookup_insert_eq|done|
                         |cbn [length]; lia].
      cbn [storage]. wsimpl. rewrite lookup_insert_eq.
      unfold cells. cbn [fmap list_fmap app length]. by rewrite Nat.sub_0_r.
    + eapply (heap_wf_fresh w _ nullptr); [done|reflexivity|done].
  - assert (b ≠ next_block w) as Hne by congruence.
    assert (heap (allocated new_capacity w) !! b = Some (cells xs cap)) as Hb'
        by (simpl; by rewrite lookup_insert_ne).
    ostep ltac:(eapply (transfer_outcome _ b (next_block w) xs cap);
                [done|exact Hb'|exact Hnb
                |by rewrite drop_0, take_replicate, Nat.min_l by lia
                |rewrite length_replicate; lia]).
    match goal with H : ∃ _, _ |- _ => destruct H as (zs & Hzs & ->) end.
    oeq ltac:(eapply (destroy_n_live _ b 0 _ _ zs);
              [wsimpl; rewrite lookup_insert_ne by done;
               apply lookup_insert_eq
              |rewrite <- Hzs; apply cells_take_drop|done]).
    oeq ltac:(apply set_data_Some; wsimpl; exact Hv).
    apply outcome_ret. eexists.
    split; [eapply Deallocate_block; wsimpl; by rewrite lookup_insert_eq|].
    wsimpl. split; [|split; [lia|]].
    + eapply repr_intro; [wsimpl; by rewrite lookup_insert_eq|done| |lia].
      cbn [storage]. wsimpl.
      rewrite lookup_delete_ne, lookup_insert_ne, lookup_insert_eq by done.
      f_equal. apply cells_moved_raw. lia.
    + eapply heap_wf_grown; [exact Hwf|reflexivity|].
      intros blk. wsimpl.
      destruct (decide (blk = b)) as [->|];
        [rewrite lookup_delete_eq; by intros []|].
      rewrite lookup_delete_ne, lookup_insert_ne by done.
      destruct (decide (blk = next_block w)) as [->|]; [by left|].
      rewrite lookup_insert_ne by done.
      rewrite lookup_insert_ne by done.
      rewrite lookup_insert_ne by done. by right.
Qed.



End Guarantee.

(** * Arguments that are moved out of a cell *)

Section RvalueCell.

Context {A : Type} (T : ElemType A).

Hypothesis NT : never_throws T.

Implicit Types (w : World (A:=A)) (cs ds : list (option A)) (xs ys : list A).
Implicit Types (v : Vector) (p q : ptr) (b : positive) (i j n : nat).

Lemma bind_run {R S} (m m' : M R) (k : R → M S) w w' :
  m w = m' w' → bind m k w = bind m' k w'.
Proof. unfold bind. by intros ->. Qed.

Lemma try_catch_run {R} (m m' h : M R) w w' :
  m w = m' w' → try_catch m h w = try_catch m' h w'.
Proof. unfold try_catch. by intros ->. Qed.

Lemma bind_get_vec {R} this (f : Vector → M R) w :
  bind (get_vec this) f w
  = match vecs w !! this with Some v => f v w | None => Undef end.
Proof. unfold bind, get_vec. by destruct (vecs w !! this). Qed.

Lemma bind_RawMemory_plus {R} (rm : RawMemory) (off : Z) (f : ptr → M R) w :
  bind (RawMemory_plus rm off) f w
  = if off <=? capacity_ rm then f (buffer_ rm +ₚ off) w else AssertFail.
Proof.
  unfold RawMemory_plus, bind, assert, ret.
  by destruct (off <=? capacity_ rm).
Qed.

Lemma live_cell_block w p x :
  cell_at w p = Some (Some x) →
  ∃ b i cs, p = Ptr (Some b) (Z.of_nat i)
            ∧ heap w !! b = Some cs ∧ cs !! i = Some (Some x).
Proof.
  destruct p as [[b|] o]; [|done]. unfold cell_at.
  destruct (Z.leb_spec 0 o); [|done].
  destruct (heap w !! b) as [cs|] eqn:Hb; [|done]. intros Hc.
  exists b, (Z.to_nat o), cs. by rewrite Z2Nat.id.
Qed.

Lemma moved_cell_block w b i cs x :
  heap w !! b = Some cs → cs !! i = Some (Some x) →
  moved_cell T (Ptr (Some b) (Z.of_nat i)) x w
  = with_heap (<[b := <[i := Some (moved_from T x)]> cs]> (heap w)) w.
Proof.
  intros Hb Hi. unfold moved_cell.
  by rewrite (put_block _ _ _ _ _ Hb (lookup_lt_Some _ _ _ Hi)).
Qed.

(** Reading the argument and leaving it moved-from is the same as
    leaving it moved-from first and passing its old value. *)
Lemma make_moved w p x :
  cell_at w p = Some (Some x) →
  make T (RvalueRef (Cell p)) w
  = make T (RvalueRef (Ext x)) (moved_cell T p x w).
Proof.
  intros Hc. destruct (live_cell_block _ _ _ Hc) as (b & i & cs & -> & Hb & Hi).
  rewrite (moved_cell_block _ _ _ _ _ Hb Hi).
  unfold make, read_src, leave_moved.
  mstep ltac:(by eapply load_block).
  mstep ltac:(by apply tick_ok).
  mstep ltac:(by eapply put_block; [exact Hb|eapply lookup_lt_Some]).
  rewrite bind_ret. symmetry.
  mstep ltac:(by apply tick_ok).
  reflexivity.
Qed.

Lemma construct_from_moved w p q x :
  cell_at w p = Some (Some x) →
  construct_from T q (RvalueRef (Cell p)) w
  = construct_from T q (RvalueRef (Ext x)) (moved_cell T p x w).
Proof. intros Hc. unfold construct_from. by apply bind_run, make_moved. Qed.

Lemma moved_cell_allocated w p x (c : Z) :
  heap_wf w → cell_at w p = Some (Some x) →
  cell_at (allocated c w) p = Some (Some x)
  ∧ moved_cell T p x (allocated c w) = allocated c (moved_cell T p x w).
Proof.
  intros Hwf Hc.
  destruct (live_cell_block _ _ _ Hc) as (b & i & cs & -> & Hb & Hi).
  assert (b ≠ next_block w) as Hne.
  { intros ->. specialize (Hwf _ (mk_is_Some _ _ Hb)). lia. }
  assert (heap (allocated c w) !! b = Some cs) as Hb'
      by (simpl; by rewrite lookup_insert_ne).
  split; [by rewrite (cell_at_block _ _ _ _ Hb')|].
  rewrite (moved_cell_block _ _ _ _ _ Hb' Hi),
    (moved_cell_block _ _ _ _ _ Hb Hi).
  apply World_eq; wsimpl; try done.
  by apply insert_insert_ne.
Qed.

(** A scope with a local [RawMemory] that starts by building the new
    element from an rvalue reference to a cell. *)
Lemma with_new_data_moved {R} (c idx : Z)
    (rest : RawMemory → ptr → M (RawMemory * R)) w p x :
  heap_wf w → cell_at w p = Some (Some x) → 0 < c ≤ max_size T →
  with_new_data T c
    (λ nd, bind (RawMemory_plus nd idx) (λ q,
           bind (construct_from T q (RvalueRef (Cell p))) (λ _, rest nd q))) w
  = with_new_data T c
      (λ nd, bind (RawMemory_plus nd idx) (λ q,
             bind (construct_from T q (RvalueRef (Ext x))) (λ _, rest nd q)))
      (moved_cell T p x w).
Proof.
  intros Hwf Hc Hfit.
  destruct (moved_cell_allocated w p x c Hwf Hc) as [Hc' Hw'].
  assert (next_block (moved_cell T p x w) = next_block w) as Hnb.
  { destruct (live_cell_block _ _ _ Hc) as (b & i & cs & -> & Hb & Hi).
    by rewrite (moved_cell_block _ _ _ _ _ Hb Hi). }
  unfold with_new_data, RawMemory_ctor.
  rewrite !bind_assoc.
  rewrite (bind_Ok _ _ _ _ _ (Allocate_nonzero T NT c w Hfit)).
  rewrite (bind_Ok _ _ _ _ _
             (Allocate_nonzero T NT c (moved_cell T p x w) Hfit)).
  rewrite !bind_ret, Hnb.
  apply bind_run, try_catch_run.
  rewrite !bind_RawMemory_plus.
  destruct (idx <=? _); [|done].
  apply bind_run. rewrite <- Hw'. by apply construct_from_moved.
Qed.

(** [EmplaceBack] of an rvalue reference to a live object in a cell. *)
Lemma EmplaceBack_moved w this v p x :
  heap_wf w → cell_at w p = Some (Some x) →
  vecs w !! this = Some v →
  (capacity_ (data_ v) ≤ size_ v → 0 < grown (size_ v) ≤ max_size T) →
  EmplaceBack T this (RvalueRef (Cell p)) w
  = EmplaceBack T this (RvalueRef (Ext x)) (moved_cell T p x w).
Proof.
  intros Hwf Hc Hv Hfit.
  assert (vecs (moved_cell T p x w) = vecs w) as Hvecs.
  { destruct (live_cell_block _ _ _ Hc) as (b & i & cs & -> & Hb & Hi).
    by rewrite (moved_cell_block _ _ _ _ _ Hb Hi). }
  unfold EmplaceBack. rewrite !bind_get_vec, Hvecs, Hv.
  unfold RawMemory_Capacity.
  destruct (Z.ltb_spec (size_ v) (capacity_ (data_ v))).
  - rewrite !bind_RawMemory_plus. destruct (_ <=? _); [|done].
    by apply bind_run, construct_from_moved.
  - apply (with_new_data_moved _ (size_ v)); [done|done|].
    apply Hfit. lia.
Qed.

(** [Emplace] of an rvalue reference to a live object in a cell. *)
Lemma Emplace_moved w this v pos p x :
  heap_wf w → cell_at w p = Some (Some x) →
  vecs w !! this = Some v →
  (capacity_ (data_ v) ≤ size_ v → 0 < grown (size_ v) ≤ max_size T) →
  Emplace T this pos (RvalueRef (Cell p)) w
  = Emplace T this pos (RvalueRef (Ext x)) (moved_cell T p x w).
Proof.
  intros Hwf Hc Hv Hfit.
  assert (vecs (moved_cell T p x w) = vecs w) as Hvecs.
  { destruct (live_cell_block _ _ _ Hc) as (b & i & cs & -> & Hb & Hi).
    by rewrite (moved_cell_block _ _ _ _ _ Hb Hi). }
  unfold Emplace, end_, begin_.
  rewrite !bind_assoc, !bind_get_vec, Hvecs, Hv, !bind_ret.
  destruct (decide (pos = _)); [by eapply EmplaceBack_moved|].
  rewrite !bind_assoc, !bind_get_vec, Hvecs, Hv, !bind_ret.
  destruct (decide (ptr_base pos = _)); [|done].
  rewrite !bind_get_vec, Hvecs, Hv.
  apply bind_run. unfold RawMemory_Capacity.
  destruct (Z.ltb_spec (size_ v) (capacity_ (data_ v))).
  - unfold with_tmp. by apply bind_run, make_moved.
  - destruct (use_move T).
    + unfold ReallocateWithMove. rewrite !bind_get_vec, Hvecs, Hv.
      apply (with_new_data_moved _ _
               (λ nd q, bind _ (λ _, bind _ (λ _, bind _ (λ _, bind _ (λ _,
                          ret _))))));
        [done|done|]. apply Hfit. lia.
    + unfold ReallocateWithCopy. rewrite !bind_get_vec, Hvecs, Hv.
      apply (with_new_data_moved _ _
               (λ nd q, bind _ (λ _, bind _ (λ _, bind _ (λ _, ret _)))));
        [done|done|]. apply Hfit. lia.
Qed.

(** ** The invariant after the argument was moved from *)

Lemma cells_insert_live xs (cap : Z) (i : nat) x :
  (i < length xs)%nat →
  <[i := Some x]> (cells xs cap) = cells (<[i := x]> xs) cap.
Proof.
  intros Hi. unfold cells.
  rewrite insert_app_l by (by rewrite length_fmap).
  by rewrite list_fmap_insert, length_insert.
Qed.

Lemma moved_cell_store w p x :
  cell_at w p = Some (Some x) →
  vecs (moved_cell T p x w) = vecs w
  ∧ next_block (moved_cell T p x w) = next_block w
  ∧ calls (moved_cell T p x w) = calls w
  ∧ live (moved_cell T p x w) = live w
  ∧ (heap_wf w → heap_wf (moved_cell T p x w)).
Proof.
  intros Hc. destruct (live_cell_block _ _ _ Hc) as (b & i & cs & -> & Hb & Hi).
  rewrite (moved_cell_block _ _ _ _ _ Hb Hi). repeat split.
  intros Hwf. eapply (heap_wf_update w _ b); [done|by eexists|done|done].
Qed.

(** Moving from any live object leaves the vector with as many elements
    as it had, in the same storage. *)
Lemma repr_moved_cell w this xs (cap : Z) p x :
  repr T w this xs cap → cell_at w p = Some (Some x) →
  ∃ xs0, repr T (moved_cell T p x w) this xs0 cap
         ∧ length xs0 = length xs.
Proof.
  intros (buf & Hv & Hst & Hlen) Hc.
  destruct (live_cell_block _ _ _ Hc) as (b & i & cs & -> & Hb & Hi).
  rewrite (moved_cell_block _ _ _ _ _ Hb Hi).
  destruct (storage_cases _ _ _ Hst) as [[-> Hnil]|(b0 & -> & Hb0)].
  - exists xs. split; [|done]. exists nullptr.
    split; [exact Hv|]. split; [|done]. cbn [storage nullptr]. exact Hnil.
  - destruct (decide (b0 = b)) as [->|Hne].
    + rewrite Hb in Hb0. injection Hb0 as ->.
      destruct (decide (i < length xs)%nat) as [Hlt|Hge].
      * exists (<[i := moved_from T x]> xs).
        split; [|by rewrite length_insert].
        eapply repr_intro; [exact Hv|by rewrite length_insert|
                           |by rewrite length_insert].
        cbn [storage]. wsimpl. rewrite lookup_insert_eq. f_equal.
        by apply cells_insert_live.
      * unfold cells in Hi.
        rewrite lookup_app_r in Hi by (rewrite length_fmap; lia).
        apply lookup_replicate in Hi as [[=] _].
    + exists xs. split; [|done]. exists (Ptr (Some b0) 0).
      split; [done|]. split; [|done].
      cbn [storage]. wsimpl. by rewrite lookup_insert_ne.
Qed.

(** Moving from the element [a[i]] of the vector itself leaves the
    moved-from object at position [i]. *)
Lemma repr_moved_element w this xs (cap : Z) i x b :
  repr T w this xs cap →
  heap w !! b = Some (cells xs cap) →
  vecs w !! this
  = Some {| data_ := {| buffer_ := Ptr (Some b) 0; capacity_ := cap |};
            size_ := Z.of_nat (length xs) |} →
  xs !! i = Some x →
  cell_at w (Ptr (Some b) (Z.of_nat i)) = Some (Some x)
  ∧ repr T (moved_cell T (Ptr (Some b) (Z.of_nat i)) x w) this
      (<[i := moved_from T x]> xs) cap.
Proof.
  intros (buf & _ & _ & Hlen) Hb Hv Hi.
  pose proof (cells_lookup_live _ cap _ _ Hi) as Hci.
  split; [by rewrite (cell_at_block _ _ _ _ Hb)|].
  rewrite (moved_cell_block _ _ _ _ _ Hb Hci).
  eapply repr_intro; [exact Hv|by rewrite length_insert|
                     |by rewrite length_insert].
  cbn [storage]. wsimpl. rewrite lookup_insert_eq. f_equal.
  apply cells_insert_live. by eapply lookup_lt_Some.
Qed.

(** Every argument pack that hands a live object or a value of the
    caller's to the constructor behaves as an argument pack that leaves
    every cell alone, in the world in which the argument has been read. *)
Lemma arg_normal w this xs (cap : Z) arg x :
  heap_wf w → repr T w this xs cap → arg_object w arg = Some x →
  (Z.of_nat (length xs) = cap → Z.max 1 (2 * cap) ≤ max_size T) →
  ∃ arg0 xs0,
    EmplaceBack T this arg w = EmplaceBack T this arg0 (arg_world T w arg x)
    ∧ (∀ pos, Emplace T this pos arg w
              = Emplace T this pos arg0 (arg_world T w arg x))
    ∧ arg_value (arg_world T w arg x) arg0 = Some x
    ∧ arg_kind arg0 = arg_kind arg
    ∧ heap_wf (arg_world T w arg x)
    ∧ repr T (arg_world T w arg x) this xs0 cap
    ∧ length xs0 = length xs
    ∧ vecs (arg_world T w arg x) = vecs w
    ∧ next_block (arg_world T w arg x) = next_block w
    ∧ calls (arg_world T w arg x) = calls w
    ∧ live (arg_world T w arg x) = live w.
Proof.
  intros Hwf Hr Hx H2.
  assert (∀ arg', arg_value w arg' = Some x → arg_world T w arg' x = w →
            ∃ arg0 xs0,
              EmplaceBack T this arg' w
              = EmplaceBack T this arg0 (arg_world T w arg' x)
              ∧ (∀ pos, Emplace T this pos arg' w
                        = Emplace T this pos arg0 (arg_world T w arg' x))
              ∧ arg_value (arg_world T w arg' x) arg0 = Some x
              ∧ arg_kind arg0 = arg_kind arg'
              ∧ heap_wf (arg_world T w arg' x)
              ∧ repr T (arg_world T w arg' x) this xs0 cap
              ∧ length xs0 = length xs
              ∧ vecs (arg_world T w arg' x) = vecs w
              ∧ next_block (arg_world T w arg' x) = next_block w
              ∧ calls (arg_world T w arg' x) = calls w
              ∧ live (arg_world T w arg' x) = live w) as Hsame.
  { intros arg' Hv ->. exists arg', xs. by repeat split. }
  destruct arg as [s|[y|p]|y]; try (by apply Hsame).
  cbn [arg_object arg_world] in *.
  assert (cell_at w p = Some (Some x)) as Hc.
  { destruct (cell_at w p) as [[z|]|]; try done.
    cbn [mjoin option_join] in Hx. by injection Hx as ->. }
  destruct (moved_cell_store _ _ _ Hc) as (Hvecs & Hnb & Hcalls & Hlive & Hwf').
  destruct (repr_moved_cell _ _ _ _ _ _ Hr Hc) as (xs0 & Hr0 & Hlen0).
  pose proof Hr as (buf & Hv & _ & Hlen).
  assert (capacity_ (data_ {| data_ := {| buffer_ := buf; capacity_ := cap |};
                               size_ := Z.of_nat (length xs) |})
          ≤ size_ {| data_ := {| buffer_ := buf; capacity_ := cap |};
                     size_ := Z.of_nat (length xs) |} →
          0 < grown (Z.of_nat (length xs)) ≤ max_size T) as Hfit.
  { cbn [data_ capacity_ size_]. intros Hfull.
    assert (Z.of_nat (length xs) = cap) as Heq by lia.
    specialize (H2 Heq).
    destruct (grown_pos (Z.of_nat (length xs))) as [-> _];
      [lia|size_lia|]. lia. }
  exists (RvalueRef (Ext x)), xs0.
  split; [by eapply EmplaceBack_moved|].
  split; [intros pos; by eapply Emplace_moved|].
  repeat split; try done. by apply Hwf'.
Qed.

End RvalueCell.

(** * Sizes whose byte count does not fit into [size_t] *)

Section Overflow.

Context {A : Type} (T : ElemType A).

Implicit Types (w : World (A:=A)) (cs ds : list (option A)) (xs ys : list A).
Implicit Types (b : positive) (i j n : nat).

Lemma put_past_end w b j ds (c : option A) :
  heap w !! b = Some ds → (length ds ≤ j)%nat →
  put (Ptr (Some b) (Z.of_nat j)) c w = Undef.
Proof.
  intros Hb Hj. unfold put.
  by rewrite (cell_at_block _ _ _ _ Hb), lookup_ge_None_2.
Qed.

Lemma construct_at_past_end w b j ds (x : A) :
  heap w !! b = Some ds → (length ds ≤ j)%nat →
  construct_at (Ptr (Some b) (Z.of_nat j)) x w = Undef.
Proof.
  intros Hb Hj. unfold construct_at, bind.
  by rewrite (put_past_end _ _ _ _ _ Hb Hj).
Qed.

(** A block with fewer cells than objects to build: the loop writes past
    the end of the block. *)
Lemma uninitialized_value_construct_n_overrun n : ∀ w b j ds,
  (∀ c, throws T ValueInit c = false) →
  heap w !! b = Some ds → (j ≤ length ds < j + n)%nat →
  uninitialized_value_construct_n T (Ptr (Some b) (Z.of_nat j)) n w = Undef.
Proof.
  induction n as [|n IH]; intros w b j ds Hq Hb Hj; [lia|].
  cbn [uninitialized_value_construct_n].
  rewrite bind_assoc, (bind_Ok _ _ _ _ _ (tick_quiet T _ _ Hq)).
  destruct (decide (j < length ds)%nat) as [Hlt|Hge].
  - erewrite bind_Ok; [|eapply construct_at_block; [exact Hb|done]].
    unfold try_catch. rewrite ptr_succ.
    erewrite (IH _ b (S j)); [done|done|wsimpl; apply lookup_insert_eq|].
    rewrite length_insert. lia.
  - unfold bind.
    by erewrite construct_at_past_end; [|exact Hb|lia].
Qed.

Lemma uninitialized_copy_n_overrun ys : ∀ w bs bd i j cs ds,
  (∀ c, throws T CopyCtor c = false) →
  bs ≠ bd →
  heap w !! bs = Some cs → heap w !! bd = Some ds →
  take (length ys) (drop i cs) = Some <$> ys →
  (j ≤ length ds < j + length ys)%nat →
  uninitialized_copy_n T (Ptr (Some bs) (Z.of_nat i)) (length ys)
                         (Ptr (Some bd) (Z.of_nat j)) w
  = Undef.
Proof.
  induction ys as [|y ys IH]; intros w bs bd i j cs ds Hq Hne Hcs Hds Hys Hj;
    [simpl in Hj; lia|].
  cbn [length] in *. cbn [uninitialized_copy_n].
  destruct (take_drop_cons _ _ _ _ _ Hys) as [Hy Hys'].
  unfold construct_from, make, read_src.
  rewrite !bind_assoc.
  erewrite bind_Ok; [|by eapply load_block].
  rewrite bind_assoc, (bind_Ok _ _ _ _ _ (tick_quiet T _ _ Hq)), bind_ret.
  destruct (decide (j < length ds)%nat) as [Hlt|Hge].
  - erewrite bind_Ok; [|eapply construct_at_block; [exact Hds|done]].
    unfold try_catch. rewrite !ptr_succ.
    erewrite (IH _ bs bd (S i) (S j) cs); [done|done|done| | |done|].
    + wsimpl. by rewrite lookup_insert_ne.
    + wsimpl. apply lookup_insert_eq.
    + rewrite length_insert. lia.
  - unfold bind.
    by erewrite construct_at_past_end; [|exact Hds|lia].
Qed.

Lemma uninitialized_move_n_overrun ys : ∀ w bs bd i j cs ds,
  (∀ c, throws T MoveCtor c = false) →
  bs ≠ bd →
  heap w !! bs = Some cs → heap w !! bd = Some ds →
  take (length ys) (drop i cs) = Some <$> ys →
  (j ≤ length ds < j + length ys)%nat →
  uninitialized_move_n T (Ptr (Some bs) (Z.of_nat i)) (length ys)
                         (Ptr (Some bd) (Z.of_nat j)) w
  = Undef.
Proof.
  induction ys as [|y ys IH]; intros w bs bd i j cs ds Hq Hne Hcs Hds Hys Hj;
    [simpl in Hj; lia|].
  cbn [length] in *. cbn [uninitialized_move_n].
  destruct (take_drop_cons _ _ _ _ _ Hys) as [Hy Hys'].
  assert (i < length cs)%nat as Hi by (by eapply lookup_lt_Some).
  unfold construct_from, make, read_src, leave_moved.
  rewrite !bind_assoc.
  erewrite bind_Ok; [|by eapply load_block].
  rewrite bind_assoc, (bind_Ok _ _ _ _ _ (tick_quiet T _ _ Hq)).
  rewrite bind_assoc.
  erewrite bind_Ok; [|by eapply put_block].
  rewrite bind_ret.
  destruct (decide (j < length ds)%nat) as [Hlt|Hge].
  - erewrite bind_Ok;
      [|eapply construct_at_block;
        [wsimpl; by rewrite lookup_insert_ne|done]].
    unfold try_catch. rewrite !ptr_succ.
    erewrite (IH _ bs bd (S i) (S j) (<[i := Some (moved_from T y)]> cs));
      [done|done|done| | | |].
    + wsimpl. by rewrite lookup_insert_ne, lookup_insert_eq.
    + wsimpl. apply lookup_insert_eq.
    + by rewrite drop_insert_lt by lia.
    + rewrite length_insert. lia.
  - unfold bind.
    by erewrite construct_at_past_end;
      [|wsimpl; by rewrite lookup_insert_ne|lia].
Qed.

(** The block [operator new] returns for a byte count that wrapped
    around has fewer cells than were asked for. *)
Lemma Allocate_wrapped (n : Z) w :
  0 < n < size_max → size_max ≤ n * Z.pos (sizeof T) →
  wrap (n * Z.pos (sizeof T)) ≤ ptrdiff_max →
  throws T New (Pos.to_nat (next_block w)) = false →
  ∃ k : nat,
    Z.of_nat k < n
    ∧ Allocate T n w = Ok (Ptr (Some (next_block w)) 0)
                          (allocated (Z.of_nat k) w).
Proof.
  intros Hn Hbig Hsmall Hq.
  exists (Z.to_nat (wrap (n * Z.pos (sizeof T)) / Z.pos (sizeof T))).
  assert (0 ≤ wrap (n * Z.pos (sizeof T)) < size_max) as Hw
      by (apply Z.mod_pos_bound; by unfold size_max).
  assert (0 ≤ wrap (n * Z.pos (sizeof T)) / Z.pos (sizeof T) < n) as Hk.
  { split; [apply Z.div_pos; lia|].
    apply Z.div_lt_upper_bound; lia. }
  split; [lia|].
  unfold Allocate, operator_new.
  destruct (Z.eqb_spec n 0); [lia|]. cbn [negb].
  destruct (Z.ltb_spec ptrdiff_max (wrap (n * Z.pos (sizeof T)))); [lia|].
  rewrite Hq. unfold allocated. by rewrite Nat2Z.id.
Qed.

End Overflow.

(** * The properties the specification states *)

(** Evaluate a conjunction of closed equations; the first one fixes the
    world the others speak about. *)
Ltac conj_compute :=
  repeat match goal with |- _ ∧ _ => split end; vm_compute; reflexivity.

(** ** The fixtures satisfy the hypotheses of the theorems *)

Lemma plain_never_throws : never_throws plain.
Proof. by intros k n. Qed.

Lemma string_like_never_throws : never_throws string_like.
Proof. by intros k n. Qed.

Lemma one_vector_wf cs size cap : heap_wf (one_vector cs size cap).
Proof.
  intros b [cs' Hb]. simpl in *.
  apply lookup_singleton_Some in Hb as [<- _]. lia.
Qed.

Lemma one_vector_repr {T : ElemType Z} (xs : list Z) (cap : Z) :
  Z.of_nat (length xs) ≤ cap ≤ max_size T →
  repr T (one_vector (cells xs cap) (Z.of_nat (length xs)) cap) 1 xs cap.
Proof. intros Hc. by exists (Ptr (Some 1%positive) 0). Qed.

Lemma one_empty_vector_wf : heap_wf one_empty_vector.
Proof. intros b [cs Hb]. by simpl in Hb. Qed.

Lemma one_empty_vector_repr : repr plain one_empty_vector 1 [] 0.
Proof. exists nullptr. repeat split; done. Qed.



Section Properties.

Context {A : Type} (T : ElemType A).

Implicit Types (w : World (A:=A)) (v : Vector).

(** ** Moving *)

(** [Swap] exchanges the two records and touches nothing else. *)
Lemma Swap_distinct w this other va vb :
  this ≠ other →
  vecs w !! this = Some va → vecs w !! other = Some vb →
  Swap this other w
  = Ok tt (with_vecs (<[other := va]> (<[this := vb]> (vecs w))) w).
Proof.
  intros Hne Ha Hb.
  destruct va as [[bufa capa] sa], vb as [[bufb capb] sb].
  unfold Swap, swap_data, RawMemory_move_assign, RawMemory_move_ctor,
    RawMemory_Swap.
  munfold. rewrite Ha. wsimpl.
  rewrite decide_False by done. wsimpl.
  repeat first [ rewrite lookup_insert_eq
               | rewrite lookup_insert_ne by congruence
               | rewrite Ha | rewrite Hb
               | progress cbn [Deallocate nullptr Z.eqb]
               | progress munfold
               | progress wsimpl ].
  apply Ok_World_eq; wsimpl; try done.
  apply map_eq. intros k.
  destruct (decide (k = other)) as [->|];
    [|destruct (decide (k = this)) as [->|]];
  repeat first [ rewrite lookup_insert_eq
               | rewrite lookup_insert_ne by congruence ]; done.
Qed.

Lemma Vector_move_spec w this rhs vr :
  this ≠ rhs → vecs w !! rhs = Some vr →
  Vector_move this rhs w
  = Ok tt (with_vecs (<[rhs := {| data_ := RawMemory_default; size_ := 0 |}]>
                        (<[this := vr]> (vecs w))) w).
Proof.
  intros Hne Hr. unfold Vector_move, Vector_default.
  mstep ltac:(apply set_vec_eq).
  erewrite Swap_distinct; [|done|lookup_tac|lookup_tac].
  apply Ok_World_eq; wsimpl; try done.
  apply map_eq. intros k.
  destruct (decide (k = rhs)) as [->|];
    [|destruct (decide (k = this)) as [->|]];
  repeat first [ rewrite lookup_insert_eq
               | rewrite lookup_insert_ne by congruence ]; done.
Qed.

Lemma move_assign_vec_spec w this rhs vt vr :
  this ≠ rhs → vecs w !! this = Some vt → vecs w !! rhs = Some vr →
  move_assign_vec this rhs w
  = Ok tt (with_vecs (<[rhs := vt]> (<[this := vr]> (vecs w))) w).
Proof.
  intros Hne Ht Hr. unfold move_assign_vec.
  rewrite decide_True by done. by apply Swap_distinct.
Qed.

(** What a caller observes of a vector depends on its record and on the
    heap only. *)
Lemma observe_same w w' a b :
  vecs w' !! a = vecs w !! b → heap w' = heap w →
  length_of w' a = length_of w b
  ∧ capacity_of w' a = capacity_of w b
  ∧ ∀ i, element w' a i = element w b i.
Proof.
  intros Hv Hh. unfold length_of, capacity_of. rewrite Hv.
  repeat split. intros i. unfold element, Vector_at, load. munfold.
  rewrite Hv. destruct (vecs w !! b) as [v|]; [|done].
  destruct (i <? size_ v); [|done].
  destruct (i <? capacity_ (data_ v)); [|done].
  assert (cell_at w' (buffer_ (data_ v) +ₚ i)
          = cell_at w (buffer_ (data_ v) +ₚ i)) as ->
      by (unfold cell_at; by rewrite Hh).
  by destruct (cell_at w (buffer_ (data_ v) +ₚ i)) as [[x|]|].
Qed.

(** C1, as the code has it: both operations are a [Swap] and always
    return normally.  Move construction leaves the new vector observably
    equal to the source as it was, and the source with length 0 and
    capacity 0.  Move assignment from another vector leaves the
    destination observably equal to the source as it was, and the source
    observably equal to the destination as it was: the source is empty
    afterwards only when the destination was empty before.  Move
    assignment of a vector to itself changes nothing. *)
Theorem move_exchanges_state w this rhs vr :
  vecs w !! rhs = Some vr → this ≠ rhs →
  (∃ w', Vector_move this rhs w = Ok tt w'
         ∧ length_of w' this = length_of w rhs
         ∧ capacity_of w' this = capacity_of w rhs
         ∧ (∀ i, element w' this i = element w rhs i)
         ∧ length_of w' rhs = Some 0
         ∧ capacity_of w' rhs = Some 0)
  ∧ (∀ vt, vecs w !! this = Some vt →
       ∃ w', move_assign_vec this rhs w = Ok tt w'
             ∧ length_of w' this = length_of w rhs
             ∧ capacity_of w' this = capacity_of w rhs
             ∧ (∀ i, element w' this i = element w rhs i)
             ∧ length_of w' rhs = length_of w this
             ∧ capacity_of w' rhs = capacity_of w this
             ∧ (∀ i, element w' rhs i = element w this i))
  ∧ move_assign_vec rhs rhs w = Ok tt w.
Proof.
  intros Hr Hne. split; [|split].
  - eexists. split; [by apply Vector_move_spec|].
    destruct (observe_same w
                (with_vecs (<[rhs := {| data_ := RawMemory_default;
                                        size_ := 0 |}]>
                              (<[this := vr]> (vecs w))) w) this rhs)
      as (Hl & Hc & He); [lookup_tac|done|].
    repeat split; try done.
    + unfold length_of. wsimpl. by rewrite lookup_insert_eq.
    + unfold capacity_of. wsimpl. by rewrite lookup_insert_eq.
  - intros vt Ht. eexists. split; [by apply move_assign_vec_spec|].
    destruct (observe_same w
                (with_vecs (<[rhs := vt]> (<[this := vr]> (vecs w))) w)
                this rhs) as (Hl & Hc & He); [lookup_tac|done|].
    destruct (observe_same w
                (with_vecs (<[rhs := vt]> (<[this := vr]> (vecs w))) w)
                rhs this) as (Hl' & Hc' & He'); [lookup_tac|done|].
    repeat split; done.
  - unfold move_assign_vec. by rewrite decide_False by (by intros []).
Qed.

(** [operator[]] checks its index: at [index >= size_] the assertion
    fails. *)
Lemma Vector_at_out_of_range w this v index :
  vecs w !! this = Some v → size_ v ≤ index →
  Vector_at this index w = AssertFail.
Proof.
  intros Hv Hi. unfold Vector_at.
  rewrite (bind_Ok _ _ _ _ _ (get_vec_Some _ _ _ Hv)).
  unfold bind, assert. by destruct (Z.ltb_spec index (size_ v)); [lia|].
Qed.

(** C2: [PopBack] has no check.  On an empty vector the run is not ended
    by an assertion: the destructor is applied to the cell before the
    first one, which is undefined, and the length the method goes on to
    store is [0 - 1] wrapped around, [2^64 - 1]. *)
Theorem PopBack_empty_unchecked w this v :
  vecs w !! this = Some v → size_ v = 0 →
  ptr_off (buffer_ (data_ v)) = 0 →
  PopBack this w = Undef ∧ wrap (size_ v - 1) = 2 ^ 64 - 1.
Proof.
  intros Hv Hs Ho. split; [|by rewrite Hs].
  unfold PopBack. rewrite (bind_Ok _ _ _ _ _ (get_vec_Some _ _ _ Hv)).
  unfold GetAddress. destruct (buffer_ (data_ v)) as [bo o].
  simpl in Ho. subst o. rewrite Hs. simpl.
  unfold bind, destroy_at, bind, load.
  by rewrite cell_at_negative.
Qed.

(** [PopBack] on a non-empty vector that satisfies the invariant. *)
Lemma PopBack_spec w this xs x cap :
  repr T w this (xs ++ [x]) cap →
  ∃ b, vecs w !! this
       = Some {| data_ := {| buffer_ := Ptr (Some b) 0; capacity_ := cap |};
                 size_ := Z.of_nat (length (xs ++ [x])) |}
     ∧ PopBack this w
       = Ok tt {| heap := <[b := cells xs cap]> (heap w);
                  next_block := next_block w;
                  vecs := <[this := {| data_ := {| buffer_ := Ptr (Some b) 0;
                                                  capacity_ := cap |};
                                       size_ := Z.of_nat (length xs) |}]>
                            (vecs w);
                  calls := calls w;
                  live := live w + -1 |}.
Proof.
  intros (buf & Hv & Hst & Hlen).
  rewrite length_app in Hlen, Hv. simpl in Hlen, Hv.
  destruct (storage_block _ _ _ Hst) as (b & -> & Hb).
  { unfold cells. rewrite fmap_app. by destruct (Some <$> xs). }
  exists b. rewrite length_app. simpl. split; [done|].
  unfold PopBack. rewrite (bind_Ok _ _ _ _ _ (get_vec_Some _ _ _ Hv)).
  cbn [GetAddress data_ buffer_ size_ ptr_add].
  replace (0 + Z.of_nat (length xs + 1) + -1) with (Z.of_nat (length xs)) by lia.
  erewrite bind_Ok; last first.
  { eapply destroy_at_block; [done|].
    apply cells_lookup_live, list_lookup_middle. done. }
  erewrite set_size_Some; [|done].
  rewrite cells_unsnoc by lia.
  rewrite wrap_small by size_lia.
  apply Ok_World_eq; wsimpl; try done.
  do 3 f_equal. lia.
Qed.

(** [Erase] at the position just before [end()] moves nothing and goes on
    as [PopBack] does. *)
Lemma Erase_before_end w this v pos :
  vecs w !! this = Some v →
  pos +ₚ 1 = buffer_ (data_ v) +ₚ size_ v →
  Erase T this pos w = bind (PopBack this) (λ _, ret pos) w.
Proof.
  intros Hv Hpos. unfold Erase, PopBack.
  mstep ltac:(by apply end_Some).
  unfold std_move. rewrite <- Hpos, distance_refl.
  cbn [bind ret move_loop]. unfold bind.
  rewrite (get_vec_Some _ _ _ Hv).
  destruct (destroy_at _ w) as [[] w1| | |]; done.
Qed.

(** C10: on a non-empty vector [Erase] at the last live position,
    [begin() + (Size() - 1)], and [PopBack] end in the same world: the
    last element is destroyed (one live instance less), the other elements
    and the capacity are as before, and the length is one less.  [Erase]
    returns the position it was given. *)
Theorem Erase_last_is_PopBack w this xs x cap :
  repr T w this (xs ++ [x]) cap →
  ∃ first w',
    begin_ this w = Ok first w
    ∧ PopBack this w = Ok tt w'
    ∧ Erase T this (first +ₚ Z.of_nat (length xs)) w
      = Ok (first +ₚ Z.of_nat (length xs)) w'
    ∧ repr T w' this xs cap
    ∧ live w' = live w - 1.
Proof.
  intros Hr. destruct (PopBack_spec _ _ _ _ _ Hr) as (b & Hv & Hpop).
  eexists _, _. split; [|split; [exact Hpop|split; [|split]]].
  - unfold begin_. by rewrite (bind_Ok _ _ _ _ _ (get_vec_Some _ _ _ Hv)).
  - rewrite (Erase_before_end _ _ _ _ Hv).
    + by rewrite (bind_Ok _ _ _ _ _ Hpop).
    + cbn [data_ buffer_ size_ ptr_add]. rewrite length_app. simpl.
      f_equal. lia.
  - destruct Hr as (buf & Hv' & _ & Hlen).
    rewrite length_app in Hlen. simpl in Hlen.
    exists (Ptr (Some b) 0). cbn [vecs heap storage].
    rewrite !lookup_insert_eq. repeat split; try done; lia.
  - simpl. lia.
Qed.

Lemma transfers_bumps0 (n : nat) c :
  transfers T n c (bumps (transfer_kind T) n c).
Proof.
  unfold transfers, transfer_kind, use_move. rewrite !bumps_at.
  destruct (nothrow_move_constructible T || negb (copy_constructible T));
    split; repeat case_decide; try done; lia.
Qed.

Lemma transfers_bumps2 (n m : nat) c :
  transfers T (n + m) c
    (bumps (transfer_kind T) m (bumps (transfer_kind T) n c)).
Proof.
  unfold transfers, transfer_kind, use_move. rewrite !bumps_at.
  destruct (nothrow_move_constructible T || negb (copy_constructible T));
    split; repeat case_decide; try done; lia.
Qed.

(** The transfers when a full vector grows by one element. *)
Lemma growth_transfers w this xs cap arg x :
  never_throws T → heap_wf w → repr T w this xs cap →
  cap = Z.of_nat (length xs) → Z.max 1 (2 * cap) ≤ max_size T →
  arg_object w arg = Some x →
  (∃ pos w', EmplaceBack T this arg w = Ok pos w'
             ∧ transfers T (length xs) (bump (arg_kind arg) (calls w))
                 (calls w'))
  ∧ (∀ p : nat, (p ≤ length xs)%nat →
       ∃ first pos w',
         begin_ this w = Ok first w
         ∧ Emplace T this (first +ₚ Z.of_nat p) arg w = Ok pos w'
         ∧ transfers T (length xs) (bump (arg_kind arg) (calls w))
             (calls w')).
Proof.
  intros NT Hwf Hr Hcap Hfit Hx.
  destruct (arg_normal T NT w this xs cap arg x Hwf Hr Hx (λ _, Hfit))
    as (arg0 & xs0 & HEB & HE & Hx0 & Hk & Hwf0 & Hr0 & Hl0 & Hvecs & _
        & Hcalls & _).
  destruct Hr as (buf & Hv & _ & _).
  destruct Hr0 as (buf0 & Hv0 & Hst0 & Hlen0).
  rewrite Hcap, <- Hl0 in Hv0, Hst0, Hfit. rewrite <- Hl0, <- Hk, <- Hcalls.
  assert (∃ pos w', EmplaceBack T this arg w = Ok pos w'
                    ∧ transfers T (length xs0)
                        (bump (arg_kind arg0) (calls (arg_world T w arg x)))
                        (calls w')) as Hback.
  { rewrite HEB. eexists _, _.
    split; [apply (EmplaceBack_full T NT _ this xs0 buf0 arg0 x
                     Hwf0 Hv0 Hst0 ltac:(lia) Hx0)|].
    apply transfers_bumps0. }
  split; [exact Hback|]. intros p Hp.
  assert (begin_ this w = Ok buf0 w) as Hbegin.
  { rewrite <- Hvecs in Hv. rewrite Hv in Hv0. injection Hv0 as <-.
    rewrite Hvecs in Hv. exact (begin_Some _ _ _ Hv). }
  exists buf0. destruct (decide (p = length xs0)) as [->|Hne].
  - destruct Hback as (pos & w' & Hrun & Htr). exists pos, w'.
    split; [done|]. split; [|done].
    rewrite <- Hrun, HE, HEB. exact (Emplace_at_end T _ _ _ _ Hv0).
  - destruct (storage_block _ _ _ Hst0) as (b & -> & Hb).
    { intros Hnil. apply (f_equal length) in Hnil.
      rewrite length_cells in Hnil by lia. simpl in Hnil. lia. }
    assert (length (take p xs0) = p) as Hpre by (rewrite length_take; lia).
    assert (drop p xs0 ≠ []) as Hsuf.
    { intros Hnil. apply (f_equal length) in Hnil.
      rewrite length_drop in Hnil. simpl in Hnil. lia. }
    pose proof (take_drop p xs0) as Hxs.
    revert Hpre Hsuf Hxs.
    generalize (take p xs0) (drop p xs0). intros pre suf <- Hsuf <-.
    eexists _, _. split; [done|].
    cbn [ptr_add]. rewrite Z.add_0_l, HE. split.
    + apply (Emplace_realloc T NT _ this pre suf b arg0 x
               Hwf0 Hsuf Hv0 Hb ltac:(lia) Hx0).
    + rewrite length_app. apply transfers_bumps2.
Qed.

(** C4, as the code has it: in every reallocation the live elements are
    transferred by the move constructor when [T] is
    nothrow-move-constructible or is not copy-constructible, and by the
    copy constructor otherwise; the same compile-time condition decides
    in [Reserve] beyond the capacity and, on a full vector, in
    [EmplaceBack], [PushBack], [Emplace] and both overloads of [Insert].
    The vector holds [length xs] elements: beyond the one constructor
    call that builds the new element from its argument, the call makes
    exactly [length xs] calls of the transfer constructor and none of
    the other one.  The argument is a value of the caller's or a live
    object, an element of the vector itself included, and the storage
    asked for is within what the allocator provides. *)
Theorem reallocation_transfer_choice w this xs cap :
  never_throws T → heap_wf w → repr T w this xs cap →
  (∀ new_capacity, cap < new_capacity ≤ max_size T →
     ∃ w', Reserve T this new_capacity w = Ok tt w'
           ∧ transfers T (length xs) (calls w) (calls w'))
  ∧ (cap = Z.of_nat (length xs) → Z.max 1 (2 * cap) ≤ max_size T →
     ∀ arg x, arg_object w arg = Some x →
       (∃ pos w', EmplaceBack T this arg w = Ok pos w'
                  ∧ transfers T (length xs) (bump (arg_kind arg) (calls w))
                      (calls w'))
       ∧ (∃ w', PushBack T this arg w = Ok tt w'
                ∧ transfers T (length xs) (bump (arg_kind arg) (calls w))
                    (calls w'))
       ∧ (∀ p : nat, (p ≤ length xs)%nat →
            ∃ first pos w',
              begin_ this w = Ok first w
              ∧ Emplace T this (first +ₚ Z.of_nat p) arg w = Ok pos w'
              ∧ transfers T (length xs) (bump (arg_kind arg) (calls w))
                  (calls w')))
  ∧ (cap = Z.of_nat (length xs) → Z.max 1 (2 * cap) ≤ max_size T →
     ∀ s x (p : nat), (p ≤ length xs)%nat →
       (arg_object w (ConstRef s) = Some x →
        ∃ first pos w',
          begin_ this w = Ok first w
          ∧ Insert T this (first +ₚ Z.of_nat p) s w = Ok pos w'
          ∧ transfers T (length xs) (bump CopyCtor (calls w)) (calls w'))
       ∧ (arg_object w (RvalueRef s) = Some x →
          ∃ first pos w',
            begin_ this w = Ok first w
            ∧ Insert_rvalue T this (first +ₚ Z.of_nat p) s w = Ok pos w'
            ∧ transfers T (length xs) (bump MoveCtor (calls w)) (calls w'))).
Proof.
  intros NT Hwf Hr. split; [|split].
  - destruct Hr as (buf & Hv & Hst & Hlen).
    intros new_capacity Hc. eexists. split.
    + eapply Reserve_grow; [done..|lia|done].
    + apply transfers_bumps0.
  - intros Hcap Hfit arg x Hx.
    destruct (growth_transfers w this xs cap arg x NT Hwf Hr Hcap Hfit Hx)
      as [Hback Hins].
    split; [exact Hback|]. split; [|exact Hins].
    destruct Hback as (pos & w' & Hrun & Htr). exists w'. split; [|done].
    unfold PushBack. by rewrite (bind_Ok _ _ _ _ _ Hrun).
  - intros Hcap Hfit s x p Hp. split; intros Hx.
    + exact (proj2 (growth_transfers w this xs cap (ConstRef s) x
                      NT Hwf Hr Hcap Hfit Hx) p Hp).
    + exact (proj2 (growth_transfers w this xs cap (RvalueRef s) x
                      NT Hwf Hr Hcap Hfit Hx) p Hp).
Qed.

Lemma length_of_repr w this xs cap :
  repr T w this xs cap → length_of w this = Some (Z.of_nat (length xs)).
Proof. intros (buf & Hv & _). unfold length_of. by rewrite Hv. Qed.

(** C6: [Emplace] and both overloads of [Insert], the one that takes a
    [const T&] and the one that takes a [T&&], at position [begin() + p],
    [p <= Size()], of a value that comes from outside the vector: the
    vector then holds the old elements before [p], the new element at
    [p] and the old elements from [p] on one position later; its length
    is one more; the position returned is [begin() + p] of the vector as
    it is afterwards and refers to the new element.  A full vector asks
    for storage the allocator provides. *)
Theorem Emplace_inserts_at_position w this xs cap (p : nat) x :
  never_throws T → heap_wf w → repr T w this xs cap →
  (p ≤ length xs)%nat →
  (Z.of_nat (length xs) = cap → Z.max 1 (2 * cap) ≤ max_size T) →
  ∃ first,
    begin_ this w = Ok first w
    ∧ let inserted (call : M ptr) :=
        ∃ pos w' cap',
          call w = Ok pos w'
          ∧ repr T w' this (take p xs ++ x :: drop p xs) cap'
          ∧ length_of w' this = Some (Z.of_nat (length xs) + 1)
          ∧ load pos w' = Ok x w'
          ∧ ∃ first', begin_ this w' = Ok first' w'
                      ∧ pos = first' +ₚ Z.of_nat p in
      inserted (Emplace T this (first +ₚ Z.of_nat p) (InPlace x))
      ∧ inserted (Insert T this (first +ₚ Z.of_nat p) (Ext x))
      ∧ inserted (Insert_rvalue T this (first +ₚ Z.of_nat p) (Ext x)).
Proof.
  intros NT Hwf Hr Hp H2.
  assert (∃ first, begin_ this w = Ok first w) as [first Hfirst].
  { destruct Hr as (buf & Hv & _). eexists. exact (begin_Some _ _ _ Hv). }
  exists first. split; [done|].
  assert (∀ arg, arg_value w arg = Some x →
            ∃ pos w' cap',
              Emplace T this (first +ₚ Z.of_nat p) arg w = Ok pos w'
              ∧ repr T w' this (take p xs ++ x :: drop p xs) cap'
              ∧ length_of w' this = Some (Z.of_nat (length xs) + 1)
              ∧ load pos w' = Ok x w'
              ∧ ∃ first', begin_ this w' = Ok first' w'
                          ∧ pos = first' +ₚ Z.of_nat p) as Hgo.
  { intros arg Hx.
    destruct (Emplace_repr T NT w this xs cap p arg x Hwf Hr Hp H2 Hx)
      as (first0 & pos & w' & cap' & Hb & Hrun & Hr' & _ & Hload & _ & Hpos).
    rewrite Hfirst in Hb. injection Hb as <-.
    exists pos, w', cap'. repeat split; try done.
    rewrite (length_of_repr _ _ _ _ Hr'). f_equal.
    rewrite length_app, length_take. cbn [length]. rewrite length_drop. lia. }
  cbv zeta. unfold Insert, Insert_rvalue.
  split; [|split]; by apply Hgo.
Qed.

(** C7: inserting [a[i]], passed by [const T&] while it lives in the
    vector itself, at any position [p <= Size()]: whether the vector has
    spare capacity or has to reallocate, the element inserted is the value
    [a[i]] had before the call.  A full vector asks for storage the
    allocator provides: [max(1, 2 * capacity)] objects are at most
    [PTRDIFF_MAX / sizeof(T)]. *)
Theorem self_insert_reads_old_value w this xs cap (p i : nat) x :
  never_throws T → heap_wf w → repr T w this xs cap →
  (p ≤ length xs)%nat →
  xs !! i = Some x →
  (Z.of_nat (length xs) = cap → Z.max 1 (2 * cap) ≤ max_size T) →
  ∃ first pos w' cap',
    begin_ this w = Ok first w
    ∧ Insert T this (first +ₚ Z.of_nat p) (Cell (first +ₚ Z.of_nat i)) w
      = Ok pos w'
    ∧ repr T w' this (take p xs ++ x :: drop p xs) cap'
    ∧ load pos w' = Ok x w'.
Proof.
  intros NT Hwf Hr Hp Hi H2.
  assert (∃ b, begin_ this w = Ok (Ptr (Some b) 0) w
               ∧ heap w !! b = Some (cells xs cap)) as (b & Hb & Hcs).
  { destruct Hr as (buf & Hv & Hst & Hlen).
    destruct (storage_block _ _ _ Hst) as (b & -> & Hb).
    { unfold cells. by destruct xs. }
    exists b. split; [exact (begin_Some _ _ _ Hv)|done]. }
  assert (arg_value w (ConstRef (Cell (Ptr (Some b) 0 +ₚ Z.of_nat i)))
          = Some x) as Hx.
  { cbn [arg_value ptr_add]. rewrite Z.add_0_l.
    rewrite (cell_at_block _ _ _ _ Hcs).
    by rewrite (cells_lookup_live _ _ _ _ Hi). }
  destruct (Emplace_repr T NT w this xs cap p _ x Hwf Hr Hp H2 Hx)
    as (first & pos & w' & cap' & Hb' & Hrun & Hr' & _ & Hload & _).
  rewrite Hb in Hb'. injection Hb' as <-.
  by exists (Ptr (Some b) 0), pos, w', cap'.
Qed.

(** C5: starting from an empty vector of capacity 0, [N] consecutive
    [PushBack] calls succeed as long as the allocator provides the
    storage, that is, as long as the least power of two that is at least
    [N] is at most [PTRDIFF_MAX / sizeof(T)].  The capacity after the
    [k]-th call is [2 ^ ceil(log2 k)], the least power of two that is at
    least [k]: the capacities read 1, 2, 4, 4, 8, ...; from one call to
    the next the capacity stays or doubles. *)
Theorem appends_double_capacity w this xs :
  never_throws T → heap_wf w → repr T w this [] 0 →
  least_pow2 (Z.of_nat (length xs)) ≤ max_size T →
  ∃ caps w',
    appends T this xs w = Ok caps w'
    ∧ caps = (λ k : nat, 2 ^ Z.log2_up (Z.of_nat k)) <$> seq 1 (length xs)
    ∧ repr T w' this xs (least_pow2 (Z.of_nat (length xs)))
    ∧ (∀ (k : nat) c, caps !! k = Some c → Z.of_nat (S k) ≤ c)
    ∧ (∀ (k : nat) c c', caps !! k = Some c → caps !! S k = Some c' →
         c' = c ∨ c' = 2 * c).
Proof.
  intros NT Hwf Hr Hlen.
  assert (Z.of_nat (length xs) < 2 ^ 63) as HN.
  { pose proof (least_pow2_ge (Z.of_nat (length xs)) ltac:(lia)).
    size_lia. }
  destruct (appends_from T NT this xs w [] Hwf Hr) as (w' & Hrun & Hr' & _);
    [exact Hlen|].
  simpl in Hr'.
  assert (∀ k : nat, (1 ≤ k)%nat →
            least_pow2 (Z.of_nat k) = 2 ^ Z.log2_up (Z.of_nat k)) as Hpow.
  { intros k Hk. unfold least_pow2. by destruct (Z.eqb_spec (Z.of_nat k) 0); [lia|]. }
  assert (∀ (k : nat) c,
            ((λ k : nat, 2 ^ Z.log2_up (Z.of_nat k)) <$> seq 1 (length xs))
              !! k = Some c →
            c = least_pow2 (Z.of_nat (S k)) ∧ (k < length xs)%nat) as Hk.
  { intros k c. rewrite list_lookup_fmap.
    destruct (seq 1 (length xs) !! k) as [j|] eqn:Hj; [|done].
    apply lookup_seq in Hj as [-> ?]. simpl. intros [= <-].
    split; [|done]. by rewrite <- Hpow by lia. }
  assert ((λ k : nat, least_pow2 (Z.of_nat (length (@nil A) + k)))
            <$> seq 1 (length xs)
          = (λ k : nat, 2 ^ Z.log2_up (Z.of_nat k)) <$> seq 1 (length xs))
    as Heq.
  { apply list_fmap_ext. intros j k Hk'%lookup_seq. simpl.
    apply Hpow. lia. }
  rewrite Heq in Hrun.
  eexists _, w'. split; [exact Hrun|]. split; [done|split; [done|split]].
  - intros k c [-> Hlt]%Hk. apply least_pow2_ge. lia.
  - intros k c c' [-> Hlt]%Hk [-> Hlt']%Hk.
    replace (Z.of_nat (S (S k))) with (Z.of_nat (S k) + 1) by lia.
    rewrite <- least_pow2_step by lia.
    destruct (Z.ltb_spec (Z.of_nat (S k)) (least_pow2 (Z.of_nat (S k))));
      [by left|right].
    pose proof (least_pow2_bounds (Z.of_nat (S k)) ltac:(lia)).
    unfold grown. destruct (Z.eqb_spec (Z.of_nat (S k)) 0); [lia|].
    rewrite wrap_small by size_lia. lia.
Qed.

(** The invariant says that the cells from the length on are raw. *)
Lemma repr_raw_tail w this xs cap v b (i : nat) :
  repr T w this xs cap →
  vecs w !! this = Some v → buffer_ (data_ v) = Ptr (Some b) 0 →
  size_ v ≤ Z.of_nat i < capacity_ (data_ v) →
  cell_at w (Ptr (Some b) (Z.of_nat i)) = Some None.
Proof.
  intros (buf & Hv & Hst & Hlen) Hv' Hbuf Hi.
  rewrite Hv in Hv'. injection Hv' as <-.
  cbn [data_ buffer_ size_ capacity_] in *. subst buf.
  cbn [storage] in Hst. rewrite (cell_at_block _ _ _ _ Hst).
  apply cells_lookup_raw. lia.
Qed.

Lemma repr_below w this xs cap v :
  heap_wf w → repr T w this xs cap → vecs w !! this = Some v →
  below (next_block w) (buffer_ (data_ v)).
Proof.
  intros Hwf (buf & Hv & Hst & _) Hv' blk Hblk.
  rewrite Hv in Hv'. injection Hv' as <-. cbn [data_ buffer_] in Hblk.
  destruct (storage_cases _ _ _ Hst) as [[-> _]|(blk' & -> & Hcs)];
    [done|].
  injection Hblk as ->. by apply Hwf.
Qed.

(** C8: the copy constructor, building the vector at the fresh address
    [b] from the vector at [a] that holds [xs].  When no operation of [T]
    throws, the call returns, the copy holds [xs] in storage of exactly
    [length xs] cells and the source is as before.  And whenever the call
    returns, for an element type whose operations may throw as well, the
    two vectors are independent: after any sequence of [PushBack],
    [PopBack], [Insert], [Emplace], [Erase], [Reserve], [Resize] calls
    and element assignments, each on either vector and each run to its
    end or to an exception, a further such call on one vector leaves the
    length, the capacity and every element of the other as they were,
    whether the call returns or throws. *)
Theorem copy_is_deep_and_independent w a b xs cap :
  heap_wf w → repr T w a xs cap → vecs w !! b = None →
  (never_throws T →
     ∃ w1, Vector_copy T b a w = Ok tt w1
           ∧ repr T w1 b xs (Z.of_nat (length xs))
           ∧ repr T w1 a xs cap)
  ∧ (∀ w1, Vector_copy T b a w = Ok tt w1 →
       ∀ ops side m,
         match mutate_either T a b ops w1 with
         | Ok _ w2 =>
             match mutate T (pick a b side) m w2 with
             | Ok _ w3 | Throw w3 => same_view w2 w3 (pick a b (negb side))
             | AssertFail | Undef => True
             end
         | Throw _ | AssertFail | Undef => True
         end).
Proof.
  intros Hwf Hrepr Hb.
  assert (a ≠ b) as Hne.
  { destruct Hrepr as (buf & Hv & _). intros ->. congruence. }
  split.
  - intros NT. exact (Vector_copy_repr T NT w a b xs cap Hwf Hrepr Hne).
  - intros w1 Hcopy ops side m.
    pose proof (Vector_copy_frame T w a b Hne
                  (λ v, repr_below w a xs cap v Hwf Hrepr) Hb) as Hf.
    rewrite Hcopy in Hf. destruct Hf as [Hind _].
    pose proof (mutate_either_independent T a b ops w1 Hind) as Hops.
    destruct (mutate_either T a b ops w1) as [r w2|w2| |]; try done.
    destruct side; cbn [pick negb].
    + pose proof (mutate_frame T a b w2 m Hops) as Hm.
      destruct (mutate T a m w2); try done; by destruct Hm.
    + pose proof (mutate_frame T b a w2 m (independent_sym _ _ _ Hops))
        as Hm.
      destruct (mutate T b m w2); try done; by destruct Hm.
Qed.

End Properties.

Lemma PopBack_empty_unchecked_witness :
  PopBack 1 one_empty_vector = Undef ∧ wrap (0 - 1) = 2 ^ 64 - 1.
Proof.
  apply (PopBack_empty_unchecked one_empty_vector 1%positive
           {| data_ := RawMemory_default; size_ := 0 |});
    reflexivity.
Defined.

Lemma Erase_last_is_PopBack_witness :
  let w := one_vector [Some 1; Some 2; Some 3; None] 3 4 in
  ∃ first w',
    begin_ 1 w = Ok first w
    ∧ PopBack 1 w = Ok tt w'
    ∧ Erase plain 1 (first +ₚ 2) w = Ok (first +ₚ 2) w'
    ∧ repr plain w' 1 [1; 2] 4
    ∧ live w' = 3 - 1.
Proof.
  apply (Erase_last_is_PopBack plain
           (one_vector [Some 1; Some 2; Some 3; None] 3 4) 1%positive
           [1; 2] 3 4).
  exists (Ptr (Some 1%positive) 0). repeat split; vm_compute; congruence.
Defined.

Lemma reallocation_transfer_choice_witness :
  let w := one_vector (cells [1; 2] 2) 2 2 in
  let first := Ptr (Some 1%positive) 0 in
  (∃ w', Reserve plain 1 5 w = Ok tt w'
         ∧ transfers plain 2 (calls w) (calls w'))
  ∧ (∃ pos w', EmplaceBack plain 1 (InPlace 9) w = Ok pos w'
               ∧ transfers plain 2 (bump CtorArgs (calls w)) (calls w'))
  ∧ (∃ w', PushBack plain 1 (ConstRef (Ext 9)) w = Ok tt w'
           ∧ transfers plain 2 (bump CopyCtor (calls w)) (calls w'))
  ∧ (∃ w', PushBack plain 1 (RvalueRef (Cell first)) w = Ok tt w'
           ∧ transfers plain 2 (bump MoveCtor (calls w)) (calls w'))
  ∧ (∃ pos w', Emplace plain 1 (first +ₚ 1) (InPlace 9) w = Ok pos w'
               ∧ transfers plain 2 (bump CtorArgs (calls w)) (calls w'))
  ∧ (∃ pos w', Insert plain 1 (first +ₚ 1) (Cell (first +ₚ 1)) w = Ok pos w'
               ∧ transfers plain 2 (bump CopyCtor (calls w)) (calls w'))
  ∧ (∃ pos w', Insert_rvalue plain 1 (first +ₚ 2) (Ext 9) w = Ok pos w'
               ∧ transfers plain 2 (bump MoveCtor (calls w)) (calls w')).
Proof.
  intros w first.
  destruct (reallocation_transfer_choice plain w 1%positive [1; 2] 2
              plain_never_throws (one_vector_wf _ _ _)
              (one_vector_repr (T:=plain) [1; 2] 2
                 ltac:(vm_compute; split; congruence)))
    as (HR & HG & HI).
  assert (Z.max 1 (2 * 2) ≤ max_size plain) as Hfit
      by (vm_compute; congruence).
  specialize (HG eq_refl Hfit). specialize (HI eq_refl Hfit).
  split; [apply HR; vm_compute; split; congruence|].
  split; [exact (proj1 (HG (InPlace 9) 9 eq_refl))|].
  split; [exact (proj1 (proj2 (HG (ConstRef (Ext 9)) 9 eq_refl)))|].
  split;
    [exact (proj1 (proj2 (HG (RvalueRef (Cell first)) 1 eq_refl)))|].
  split.
  { destruct (proj2 (proj2 (HG (InPlace 9) 9 eq_refl)) 1%nat
                ltac:(simpl; lia))
      as (f & pos & w' & [= <-] & Hrun & Ht).
    by exists pos, w'. }
  split.
  - destruct (proj1 (HI (Cell (first +ₚ 1)) 2 1%nat ltac:(simpl; lia))
                eq_refl)
      as (f & pos & w' & [= <-] & Hrun & Ht).
    by exists pos, w'.
  - destruct (proj2 (HI (Ext 9) 9 2%nat ltac:(simpl; lia)) eq_refl)
      as (f & pos & w' & [= <-] & Hrun & Ht).
    by exists pos, w'.
Defined.

Lemma Emplace_inserts_at_position_witness :
  let w := one_vector [Some 1; Some 2; Some 3; Some 4] 4 4 in
  ∃ first,
    begin_ 1 w = Ok first w
    ∧ let inserted (call : M ptr) :=
        ∃ pos w' cap',
          call w = Ok pos w'
          ∧ repr plain w' 1 [1; 2; 99; 3; 4] cap'
          ∧ length_of w' 1 = Some 5
          ∧ load pos w' = Ok 99 w'
          ∧ ∃ first', begin_ 1 w' = Ok first' w' ∧ pos = first' +ₚ 2 in
      inserted (Emplace plain 1 (first +ₚ 2) (InPlace 99))
      ∧ inserted (Insert plain 1 (first +ₚ 2) (Ext 99))
      ∧ inserted (Insert_rvalue plain 1 (first +ₚ 2) (Ext 99)).
Proof.
  apply (Emplace_inserts_at_position plain
           (one_vector (cells [1; 2; 3; 4] 4) 4 4) 1%positive
           [1; 2; 3; 4] 4 2 99).
  - exact plain_never_throws.
  - apply one_vector_wf.
  - apply (one_vector_repr [1; 2; 3; 4] 4). vm_compute. split; congruence.
  - simpl. lia.
  - intros _. vm_compute. congruence.
Defined.

Lemma self_insert_reads_old_value_witness :
  let w := one_vector [Some 1; Some 2; Some 3; Some 4; Some 5; None; None; None]
             5 8 in
  ∃ first pos w' cap',
    begin_ 1 w = Ok first w
    ∧ Insert plain 1 (first +ₚ 2) (Cell (first +ₚ 0)) w = Ok pos w'
    ∧ repr plain w' 1 [1; 2; 1; 3; 4; 5] cap'
    ∧ load pos w' = Ok 1 w'.
Proof.
  apply (self_insert_reads_old_value plain
           (one_vector (cells [1; 2; 3; 4; 5] 8) 5 8) 1%positive
           [1; 2; 3; 4; 5] 8 2 0 1).
  - exact plain_never_throws.
  - apply one_vector_wf.
  - apply (one_vector_repr [1; 2; 3; 4; 5] 8). vm_compute. split; congruence.
  - simpl. lia.
  - reflexivity.
  - intros [=].
Defined.

Lemma appends_double_capacity_witness :
  ∃ caps w',
    appends plain 1 [10; 20; 30; 40; 50] one_empty_vector = Ok caps w'
    ∧ caps = [1; 2; 4; 4; 8]
    ∧ repr plain w' 1 [10; 20; 30; 40; 50] 8
    ∧ (∀ (k : nat) c, caps !! k = Some c → Z.of_nat (S k) ≤ c)
    ∧ (∀ (k : nat) c c', caps !! k = Some c → caps !! S k = Some c' →
         c' = c ∨ c' = 2 * c).
Proof.
  apply (appends_double_capacity plain one_empty_vector 1%positive
           [10; 20; 30; 40; 50]).
  - exact plain_never_throws.
  - exact one_empty_vector_wf.
  - exact one_empty_vector_repr.
  - vm_compute. congruence.
Defined.

Lemma move_exchanges_state_witness :
  let w := two_vectors in
  (∃ w', Vector_move 2 1 w = Ok tt w'
         ∧ length_of w' 2 = length_of w 1
         ∧ capacity_of w' 2 = capacity_of w 1
         ∧ (∀ i, element w' 2 i = element w 1 i)
         ∧ length_of w' 1 = Some 0
         ∧ capacity_of w' 1 = Some 0)
  ∧ (∀ vt, vecs w !! 2%positive = Some vt →
       ∃ w', move_assign_vec 2 1 w = Ok tt w'
             ∧ length_of w' 2 = length_of w 1
             ∧ capacity_of w' 2 = capacity_of w 1
             ∧ (∀ i, element w' 2 i = element w 1 i)
             ∧ length_of w' 1 = length_of w 2
             ∧ capacity_of w' 1 = capacity_of w 2
             ∧ (∀ i, element w' 1 i = element w 2 i))
  ∧ move_assign_vec 1 1 w = Ok tt w.
Proof.
  apply (move_exchanges_state two_vectors 2%positive 1%positive
           {| data_ := {| buffer_ := Ptr (Some 1%positive) 0; capacity_ := 2 |};
              size_ := 2 |}).
  - reflexivity.
  - discriminate.
Defined.

(** C1, counterexample: move assignment onto the non-empty vector [[7]]
    leaves the source [[1; 2]] with length 1 and capacity 1, holding 7. *)
Lemma move_assign_source_not_emptied :
  ∃ w', move_assign_vec 2 1 two_vectors = Ok tt w'
        ∧ length_of w' 1 = Some 1
        ∧ capacity_of w' 1 = Some 1
        ∧ element w' 1 0 = Some 7.
Proof. eexists. conj_compute. Qed.

(** C4, counterexample: a move-only type whose move constructor may throw
    is transferred by its move constructor all the same. *)
Lemma Reserve_moves_move_only :
  nothrow_move_constructible move_only = false
  ∧ ∃ w', Reserve move_only 1 4 (one_vector [Some 1; Some 2] 2 2) = Ok tt w'
          ∧ calls w' MoveCtor = 2%nat
          ∧ calls w' CopyCtor = 0%nat.
Proof. split; [done|]. eexists. conj_compute. Qed.

(** A copy constructor that throws while [EmplaceBack] reallocates: the
    vector is as before and so is the number of live instances. *)
Example EmplaceBack_copy_failure_rolls_back :
  let w := one_vector [Some 1; Some 2] 2 2 in
  ∃ w', PushBack (throwing_copy 2) 1 (ConstRef (Ext 99)) w = Throw w'
        ∧ vecs w' = vecs w ∧ heap w' = heap w ∧ live w' = live w.
Proof. eexists. conj_compute. Qed.

(** C3: the vector [[1; 2]] is full and the copy constructor throws on
    its third invocation.  [Insert] at position 1 copies the new value
    (first invocation), copies the prefix [[1]] into the new block
    (second) and throws while copying the suffix (third).  The handler of
    [ReallocateWithCopy] destroys the new element only: the vector and its
    block are as before, but the copy of the prefix was never destroyed,
    so one instance more is live than before the call. *)
Theorem ReallocateWithCopy_leaks_prefix :
  let w := one_vector [Some 1; Some 2] 2 2 in
  ∃ w', Insert (throwing_copy 2) 1 (Ptr (Some 1%positive) 1) (Ext 99) w
        = Throw w'
        ∧ vecs w' = vecs w
        ∧ heap w' = heap w
        ∧ live w = 2
        ∧ live w' = 3.
Proof. eexists. conj_compute. Qed.

(** C9: the vector [[1]] has capacity 2 and the move assignment of [T]
    throws.  [Emplace] at position 0 move-constructs the last element
    into cell 1, has nothing to shift, and throws in the assignment
    [data_[index] = std::move(tmp)], which no handler covers: the length
    is still 1, but cell 1, in [[length, capacity)], holds a live object
    that nothing will destroy.  The invariant does not hold for any
    content. *)
Theorem Emplace_failed_assignment_breaks_invariant :
  let w := one_vector [Some 1; None] 1 2 in
  ∃ w', Emplace throwing_move_assign 1 (Ptr (Some 1%positive) 0) (InPlace 9) w
        = Throw w'
        ∧ length_of w' 1 = Some 1
        ∧ capacity_of w' 1 = Some 2
        ∧ cell_at w' (Ptr (Some 1%positive) 1) = Some (Some 1)
        ∧ live w' = live w + 1
        ∧ ¬ ∃ xs cap, repr throwing_move_assign w' 1 xs cap.
Proof.
  eexists. do 5 (split; [vm_compute; reflexivity|]).
  intros (xs & cap & Hr).
  eapply (repr_raw_tail _ _ 1%positive xs cap _ 1%positive 1) in Hr;
    [|reflexivity|reflexivity|vm_compute; split; [discriminate|reflexivity]].
  vm_compute in Hr. discriminate.
Qed.

Lemma copy_is_deep_and_independent_witness :
  let w := one_vector [Some 1; Some 2; None] 2 3 in
  ∃ w1, Vector_copy plain 2 1 w = Ok tt w1
        ∧ repr plain w1 2 [1; 2] 2
        ∧ repr plain w1 1 [1; 2] 3
        ∧ ∀ ops side m,
            match mutate_either plain 1 2 ops w1 with
            | Ok _ w2 =>
                match mutate plain (pick 1 2 side) m w2 with
                | Ok _ w3 | Throw w3 =>
                    same_view w2 w3 (pick 1 2 (negb side))
                | AssertFail | Undef => True
                end
            | Throw _ | AssertFail | Undef => True
            end.
Proof.
  destruct (copy_is_deep_and_independent plain
              (one_vector (cells [1; 2] 3) 2 3) 1%positive 2%positive
              [1; 2] 3) as [Hcopy Hind].
  - apply one_vector_wf.
  - apply (one_vector_repr [1; 2] 3). vm_compute. split; congruence.
  - reflexivity.
  - destruct (Hcopy plain_never_throws) as (w1 & Hw1 & Hb & Ha).
    exists w1. split; [exact Hw1|]. split; [exact Hb|]. split; [exact Ha|].
    exact (Hind w1 Hw1).
Defined.

(** The copy of [[1; 2]] and its source, each mutated after the copy:
    every call returns, and each vector shows its own mutations only. *)
Example copy_then_mutate_both :
  match
    bind (Vector_copy plain 2 1) (λ _,
      mutate_either plain 1 2
        [(false, MInsert 1 (Value 9)); (true, MPushBack (Value 5));
         (false, MErase 0); (true, MAssign 0 8); (false, MResize 4)])
      (one_vector [Some 1; Some 2; None] 2 3)
  with
  | Ok _ w =>
      elements w 1 = Some [Some 8; Some 2; Some 5]
      ∧ elements w 2 = Some [Some 9; Some 2; Some 0; Some 0]
      ∧ capacity_of w 1 = Some 3
  | Throw _ | AssertFail | Undef => False
  end.
Proof. vm_compute. by repeat split. Qed.

(** * Copy assignment *)

Section CopyAssignment.

Context {A : Type} (T : ElemType A).

Hypothesis NT : never_throws T.

Implicit Types (w : World (A:=A)) (cs ds : list (option A)).
Implicit Types (xs ys zs olds : list A) (b : positive) (i j : nat).

(** [std::copy] between two blocks: the targets, live objects, are
    assigned the values of the sources. *)
Lemma copy_loop_spec zs : ∀ w bs bd i j cs ds olds,
  bs ≠ bd →
  heap w !! bs = Some cs → heap w !! bd = Some ds →
  take (length zs) (drop i cs) = Some <$> zs →
  take (length zs) (drop j ds) = Some <$> olds →
  length olds = length zs →
  copy_loop T (length zs) (Ptr (Some bs) (Z.of_nat i))
                          (Ptr (Some bd) (Z.of_nat j)) w
  = Ok tt {| heap := <[bd := take j ds ++ (Some <$> zs)
                               ++ drop (j + length zs) ds]> (heap w);
             next_block := next_block w;
             vecs := vecs w;
             calls := bumps CopyAssign (length zs) (calls w);
             live := live w |}.
Proof.
  induction zs as [|z zs IH];
    intros w bs bd i j cs ds olds Hne Hcs Hds Hzs Holds Hlen.
  - cbn [length copy_loop fmap list_fmap].
    apply Ok_World_eq; wsimpl; try done.
    by rewrite splice_nil, insert_id.
  - destruct olds as [|o olds]; [done|].
    cbn [length] in *. cbn [copy_loop].
    destruct (take_drop_cons _ _ _ _ _ Hzs) as [Hz Hzs'].
    rewrite fmap_cons in Holds.
    destruct (take_drop_cons _ _ _ _ _ Holds) as [Ho Holds'].
    assert (j < length ds)%nat as Hj by (by eapply lookup_lt_Some).
    unfold copy_assign.
    mstep ltac:(by eapply load_block).
    mstep ltac:(by eapply load_block).
    mstep ltac:(apply (tick_ok T NT)).
    mstep ltac:(eapply put_block; [wsimpl; exact Hds|lia]).
    rewrite ?ptr_succ, ?Z_of_nat_succ.
    rewrite (IH _ bs bd (S i) (S j) cs (<[j := Some z]> ds) olds); wsimpl.
    + apply Ok_World_eq; wsimpl; try done.
      * rewrite insert_insert_eq. f_equal.
        rewrite fmap_cons. apply splice_cons. lia.
      * by rewrite bumps_S.
    + done.
    + by rewrite lookup_insert_ne.
    + by rewrite lookup_insert_eq.
    + done.
    + by rewrite drop_insert_lt by lia.
    + lia.
Qed.

Lemma heap_wf_released w w' buf :
  heap_wf w → heap w' = released buf (heap w) →
  next_block w' = next_block w → heap_wf w'.
Proof.
  intros Hwf Hh Hn blk Hblk. rewrite Hh in Hblk. rewrite Hn. apply Hwf.
  destruct buf as [[b|] o]; cbn [released] in Hblk; [|done].
  destruct (decide (blk = b)) as [->|].
  - rewrite lookup_delete_eq in Hblk. by destruct Hblk.
  - by rewrite lookup_delete_ne in Hblk.
Qed.

Lemma storage_released w w' buf buf' cs :
  storage w buf cs → heap w' = released buf' (heap w) →
  (∀ blk, ptr_base buf = Some blk → ptr_base buf' ≠ Some blk) →
  storage w' buf cs.
Proof.
  intros Hst Hh Hne.
  destruct (storage_cases _ _ _ Hst) as [[-> ->]|(blk & -> & Hblk)]; [done|].
  cbn [storage]. rewrite Hh.
  destruct buf' as [[b|] o]; cbn [released]; [|done].
  rewrite lookup_delete_ne; [done|].
  intros ->. by apply (Hne blk).
Qed.

(** The right-hand side has more elements than the target has capacity:
    a copy is built, swapped in, and the old contents go with the
    copy. *)
Lemma copy_assign_vec_grow w this rhs xs ys (ca cb : Z) :
  heap_wf w → repr T w this xs ca → repr T w rhs ys cb →
  independent this rhs w →
  ca < Z.of_nat (length ys) →
  ∃ w', copy_assign_vec T this rhs w = Ok tt w'
        ∧ repr T w' this ys (Z.of_nat (length ys))
        ∧ repr T w' rhs ys cb
        ∧ heap_wf w'
        ∧ live w' = live w - Z.of_nat (length xs) + Z.of_nat (length ys)
        ∧ (∀ o, o ≠ this → vecs w' !! o = vecs w !! o).
Proof.
  intros Hwf Hra Hrr (Hne & _ & _ & Hsep) Hlt.
  pose proof Hra as (bufa & Hva & Hsta & Hlena).
  pose proof Hrr as (bufr & Hvr & Hstr & Hlenr).
  set (c := fresh (dom (vecs w))).
  assert (vecs w !! c = None) as Hc by (apply not_elem_of_dom, is_fresh).
  assert (c ≠ this) as Hct by (intros E; rewrite E in Hc; congruence).
  assert (c ≠ rhs) as Hcr by (intros E; rewrite E in Hc; congruence).
  destruct (outcome_returns _ _ _ _
              (Vector_copy_outcome T w rhs c ys cb Hwf Hrr
                 (not_eq_sym Hcr)))
    as ([] & w1 & Hrun1 & Hrc & Hrr1 & Hwf1 & Hlive1 & _ & Hvecs1 & Hheap1
        & Hrel1).
  { intros w' (_ & _ & _ & k & c0 & Hk & _). by rewrite NT in Hk. }
  pose proof Hrc as (bufc & Hvc & Hstc & Hlenc).
  pose proof (Hrel1 _ Hvc) as Hrel. cbn [data_ buffer_] in Hrel.
  assert (vecs w1 !! this
          = Some {| data_ := {| buffer_ := bufa; capacity_ := ca |};
                    size_ := Z.of_nat (length xs) |}) as Hva1
      by (by rewrite Hvecs1).
  assert (storage w1 bufa (cells xs ca)) as Hsta1.
  { destruct (storage_cases _ _ _ Hsta) as [[-> ->]|(blk & -> & Hblk)];
      [done|]. cbn [storage]. by apply Hheap1. }
  assert (∀ blk, ptr_base bufc = Some blk → ptr_base bufa ≠ Some blk)
    as Hca.
  { intros blk Hblk Hblk'.
    destruct bufc as [[bc|] oc]; cbn [ptr_base] in Hblk; [|done].
    injection Hblk as ->.
    destruct (storage_cases _ _ _ Hsta) as [[-> _]|(blk' & -> & Hb')];
      [done|].
    cbn [ptr_base] in Hblk'. injection Hblk' as ->.
    cbn [released] in Hrel. rewrite <- Hrel in Hb'.
    by rewrite lookup_delete_eq in Hb'. }
  eexists. split; [|split; [|split; [|split; [|split]]]].
  - unfold copy_assign_vec. rewrite decide_True by done.
    mstep ltac:(by apply get_vec_Some).
    mstep ltac:(by apply get_vec_Some).
    unfold RawMemory_Capacity. cbn [data_ capacity_ size_].
    destruct (Z.ltb_spec ca (Z.of_nat (length ys))); [|lia].
    mstep ltac:(reflexivity). fold c.
    mstep ltac:(exact Hrun1).
    mstep ltac:(by apply Swap_distinct).
    eapply (Vector_dtor_spec T _ c _ xs ca).
    + wsimpl. by rewrite lookup_insert_eq.
    + eexists. split; [wsimpl; by rewrite lookup_insert_eq|].
      split; [|done]. cbn [storage] in *. by destruct bufa as [[?|] [| |]].
  - eapply repr_intro.
    + wsimpl. rewrite lookup_delete_ne by done.
      rewrite lookup_insert_ne by done. by rewrite lookup_insert_eq.
    + done.
    + by eapply (storage_released w1 _ bufc bufa).
    + done.
  - destruct Hrr1 as (bufr1 & Hvr1 & Hstr1 & _).
    assert (bufr1 = bufr) as ->.
    { rewrite Hvecs1, Hvr in Hvr1 by done. by injection Hvr1. }
    eapply repr_intro.
    + wsimpl. rewrite lookup_delete_ne by done.
      rewrite !lookup_insert_ne by done. exact Hvr1.
    + done.
    + eapply (storage_released w1 _ bufr bufa); [done|done|].
      intros blk Hblk Hblk'. apply (Hsep blk).
      * by rewrite Hva.
      * by rewrite Hvr.
    + done.
  - by eapply (heap_wf_released w1 _ bufa).
  - wsimpl. lia.
  - intros o Ho. wsimpl.
    destruct (decide (o = c)) as [->|Hoc].
    + by rewrite lookup_delete_eq.
    + rewrite lookup_delete_ne, !lookup_insert_ne by done. by apply Hvecs1.
Qed.

Lemma copy_loop_live w bs bd i j n cs ds zs olds :
  bs ≠ bd →
  heap w !! bs = Some cs → heap w !! bd = Some ds →
  take n (drop i cs) = Some <$> zs →
  take n (drop j ds) = Some <$> olds →
  length zs = n → length olds = n →
  copy_loop T n (Ptr (Some bs) (Z.of_nat i)) (Ptr (Some bd) (Z.of_nat j)) w
  = Ok tt {| heap := <[bd := take j ds ++ (Some <$> zs)
                               ++ drop (j + n) ds]> (heap w);
             next_block := next_block w;
             vecs := vecs w;
             calls := bumps CopyAssign n (calls w);
             live := live w |}.
Proof. intros Hne Hcs Hds Hzs Holds <- Hlen. by eapply copy_loop_spec. Qed.

Lemma cells_take xs (cap : Z) m :
  (m ≤ length xs)%nat → take m (drop 0 (cells xs cap)) = Some <$> take m xs.
Proof.
  intros Hm. unfold cells. rewrite drop_0.
  rewrite take_app_le by (rewrite length_fmap; lia). by rewrite fmap_take.
Qed.

Lemma cells_drop_suffix xs (cap : Z) m :
  (m ≤ length xs)%nat →
  take (length (drop m xs)) (drop m (cells xs cap)) = Some <$> drop m xs.
Proof.
  intros Hm. unfold cells.
  rewrite drop_app_le by (rewrite length_fmap; lia).
  rewrite <- fmap_drop.
  by rewrite take_app_length' by (by rewrite length_fmap).
Qed.

Lemma cells_overwrite_prefix xs ys (cap : Z) m :
  (m ≤ length xs)%nat → (m ≤ length ys)%nat →
  take 0 (cells xs cap) ++ (Some <$> take m ys) ++ drop (0 + m) (cells xs cap)
  = cells (take m ys ++ drop m xs) cap.
Proof.
  intros Hx Hy. unfold cells.
  rewrite take_0, app_nil_l, Nat.add_0_l.
  rewrite drop_app_le by (rewrite length_fmap; lia).
  rewrite fmap_app, <- fmap_drop, <- app_assoc.
  rewrite length_app, length_take, length_drop.
  do 3 f_equal. lia.
Qed.

Lemma cells_append zs us (cap : Z) :
  Z.of_nat (length zs + length us) ≤ cap →
  take (length zs) (cells zs cap) ++ (Some <$> us)
    ++ drop (length zs + length us) (cells zs cap)
  = cells (zs ++ us) cap.
Proof.
  intros Hcap. unfold cells.
  rewrite take_app_length' by (by rewrite length_fmap).
  rewrite drop_app_ge by (rewrite length_fmap; lia).
  rewrite drop_replicate, length_fmap, fmap_app, <- app_assoc, length_app.
  do 3 f_equal. lia.
Qed.

(** The right-hand side fits into the capacity of the target: the
    elements both vectors have are assigned, the others are destroyed or
    copy-constructed, and nothing is allocated. *)
Lemma copy_assign_vec_reuse w this rhs xs ys (ca cb : Z) :
  heap_wf w → repr T w this xs ca → repr T w rhs ys cb →
  independent this rhs w →
  Z.of_nat (length ys) ≤ ca →
  ∃ w', copy_assign_vec T this rhs w = Ok tt w'
        ∧ repr T w' this ys ca
        ∧ repr T w' rhs ys cb
        ∧ heap_wf w'
        ∧ live w' = live w - Z.of_nat (length xs) + Z.of_nat (length ys)
        ∧ (∀ o, o ≠ this → vecs w' !! o = vecs w !! o)
        ∧ next_block w' = next_block w
        ∧ (∀ v v', vecs w !! this = Some v → vecs w' !! this = Some v' →
             data_ v' = data_ v).
Proof.
  intros Hwf Hra Hrr (Hne & _ & _ & Hsep) Hle.
  pose proof Hra as (bufa & Hva & Hsta & Hlena).
  pose proof Hrr as (bufr & Hvr & Hstr & Hlenr).
  assert (copy_assign_vec T this rhs w
          = bind (std_copy T bufr (bufr +ₚ Z.of_nat (length xs `min` length ys))
                           bufa)
              (λ _, bind
                 (if Z.of_nat (length ys) <? Z.of_nat (length xs)
                  then destroy_n
                         (bufa +ₚ Z.of_nat (length xs `min` length ys))
                         (Z.to_nat (wrap (Z.of_nat (length xs)
                            - Z.of_nat (length xs `min` length ys))))
                  else if Z.of_nat (length xs) <? Z.of_nat (length ys)
                  then uninitialized_copy_n T
                         (bufr +ₚ Z.of_nat (length xs))
                         (Z.to_nat (wrap (Z.of_nat (length ys)
                            - Z.of_nat (length xs))))
                         (bufa +ₚ Z.of_nat (length xs))
                  else ret tt)
                 (λ _, set_size this (Z.of_nat (length ys)))) w) as ->.
  { unfold copy_assign_vec. rewrite decide_True by done.
    mstep ltac:(by apply get_vec_Some).
    mstep ltac:(by apply get_vec_Some).
    unfold RawMemory_Capacity. cbn [data_ capacity_ size_ buffer_].
    destruct (Z.ltb_spec ca (Z.of_nat (length ys))); [lia|].
    by rewrite <- Nat2Z.inj_min. }
  assert (∀ w',
            vecs w' = <[this := {| data_ := {| buffer_ := bufa;
                                                capacity_ := ca |};
                                   size_ := Z.of_nat (length ys) |}]> (vecs w) →
            next_block w' = next_block w →
            storage w' bufa (cells ys ca) →
            storage w' bufr (cells ys cb) →
            heap_wf w' →
            live w' = live w - Z.of_nat (length xs) + Z.of_nat (length ys) →
            repr T w' this ys ca ∧ repr T w' rhs ys cb ∧ heap_wf w'
            ∧ live w' = live w - Z.of_nat (length xs) + Z.of_nat (length ys)
            ∧ (∀ o, o ≠ this → vecs w' !! o = vecs w !! o)
            ∧ next_block w' = next_block w
            ∧ (∀ v v', vecs w !! this = Some v → vecs w' !! this = Some v' →
                 data_ v' = data_ v)) as Hfinish.
  { intros w' Hv' Hn' Hsa' Hsr' Hwf' Hl'.
    split; [|split; [|split; [done|split; [done|split; [|split; [done|]]]]]].
    - eapply repr_intro; [rewrite Hv'; by rewrite lookup_insert_eq|done|done|].
      lia.
    - eapply repr_intro;
        [rewrite Hv'; rewrite lookup_insert_ne by done; exact Hvr
        |done|done|done].
    - intros o Ho. rewrite Hv'. by rewrite lookup_insert_ne.
    - intros v v'. rewrite Hv', Hva, lookup_insert_eq.
      by intros [= <-] [= <-]. }
  destruct ys as [|y ys].
  - (* the right-hand side is empty *)
    cbn [length] in *. rewrite Nat.min_0_r.
    unfold std_copy. rewrite (distance_add bufr 0). rewrite bind_assoc, bind_ret.
    cbn [copy_loop]. rewrite bind_ret.
    destruct xs as [|x xs].
    + cbn [length]. change (Z.of_nat 0 <? Z.of_nat 0) with false.
      cbv iota. rewrite bind_ret.
      eexists. split; [by apply set_size_Some|].
      apply Hfinish; wsimpl; try done.
      cbn [length]. lia.
    + destruct (storage_block _ _ _ Hsta) as (ba & -> & Hba); [done|].
      destruct (Z.ltb_spec (Z.of_nat 0) (Z.of_nat (length (x :: xs))));
        [|cbn [length] in *; lia].
      rewrite wrap_small by size_lia. rewrite Z.sub_0_r, Nat2Z.id.
      cbn [ptr_add]. rewrite Z.add_0_l.
      eexists. split.
      * mstep ltac:(eapply (destroy_n_live _ ba 0 _ _ (x :: xs));
                    [exact Hba|apply cells_take_drop|done]).
        apply set_size_Some. wsimpl. exact Hva.
      * apply Hfinish; wsimpl; try done.
        -- cbn [storage]. wsimpl. rewrite lookup_insert_eq. f_equal.
           change (cells [] ca) with (cells (take 0 (x :: xs)) ca).
           rewrite <- (cells_truncate (x :: xs) ca 0) by lia.
           by rewrite Nat.sub_0_r.
        -- destruct (storage_cases _ _ _ Hstr) as [[-> ->]|(br & -> & Hbr)];
             [done|].
           cbn [storage]. wsimpl. rewrite lookup_insert_ne; [done|].
           intros <-. apply (Hsep ba); [by rewrite Hva|by rewrite Hvr].
        -- eapply (heap_wf_update w _ ba); [done|by eexists|done|done].
        -- cbn [length]. lia.
  - (* the right-hand side has elements *)
    destruct (storage_block _ _ _ Hstr) as (br & -> & Hbr); [done|].
    destruct (storage_block _ _ _ Hsta) as (ba & -> & Hba).
    { intros Hnil. apply (f_equal length) in Hnil.
      rewrite length_cells in Hnil by lia. cbn [length] in *. lia. }
    assert (br ≠ ba) as Hrab.
    { intros ->. apply (Hsep ba); [by rewrite Hva|by rewrite Hvr]. }
    set (m := (length xs `min` length (y :: ys))%nat).
    assert (m ≤ length xs)%nat as Hmx by lia.
    assert (m ≤ length (y :: ys))%nat as Hmy by lia.
    unfold std_copy. rewrite (distance_add (Ptr (Some br) 0) m).
    rewrite bind_assoc, bind_ret. cbn [ptr_add]. rewrite !Z.add_0_l.
    erewrite bind_Ok; last first.
    { eapply (copy_loop_live _ br ba 0 0 m _ _ (take m (y :: ys)) (take m xs));
        [done|exact Hbr|exact Hba|by apply cells_take|by apply cells_take
        |rewrite length_take; lia|rewrite length_take; lia]. }
    rewrite cells_overwrite_prefix by done.
    set (w1 := {| heap := _ |}).
    assert (heap w1 !! ba
            = Some (cells (take m (y :: ys) ++ drop m xs) ca)) as Hba1
        by (unfold w1; wsimpl; by rewrite lookup_insert_eq).
    assert (heap w1 !! br = Some (cells (y :: ys) cb)) as Hbr1
        by (unfold w1; wsimpl; by rewrite lookup_insert_ne).
    destruct (Z.ltb_spec (Z.of_nat (length (y :: ys))) (Z.of_nat (length xs)))
      as [Hlt|Hge].
    + (* more elements in the target: the rest is destroyed *)
      assert (m = length (y :: ys)) as Hm by lia.
      rewrite wrap_small by size_lia.
      replace (Z.to_nat (Z.of_nat (length xs) - Z.of_nat m))
        with (length xs - m)%nat by lia.
      rewrite take_ge in Hba1 by lia.
      eexists. split.
      * mstep ltac:(eapply (destroy_n_live _ ba m _ _ (drop m xs));
                    [exact Hba1| |rewrite length_drop; lia]).
        { rewrite <- (length_drop xs m). generalize (drop m xs). intros l.
          rewrite Hm. apply cells_suffix. }
        apply set_size_Some. unfold w1. wsimpl. exact Hva.
      * apply Hfinish; unfold w1; wsimpl; try done.
        -- cbn [storage]. wsimpl. rewrite lookup_insert_eq. f_equal.
           pose proof (cells_truncate ((y :: ys) ++ drop m xs) ca m) as Ht.
           rewrite length_app, length_drop in Ht.
           replace (length (y :: ys) + (length xs - m) - m)%nat
             with (length xs - m)%nat in Ht by lia.
           rewrite Ht by lia.
           by rewrite Hm, take_app_length.
        -- cbn [storage]. wsimpl. by rewrite !lookup_insert_ne.
        -- eapply (heap_wf_update w _ ba); [done|by eexists| |done].
           wsimpl. by rewrite !insert_insert_eq.
        -- lia.
    + destruct (Z.ltb_spec (Z.of_nat (length xs)) (Z.of_nat (length (y :: ys))))
        as [Hlt|Hge'].
      * (* more elements in the right-hand side: the rest is copied *)
        assert (m = length xs) as Hm by lia.
        rewrite wrap_small by size_lia.
        replace (Z.to_nat (Z.of_nat (length (y :: ys)) - Z.of_nat (length xs)))
          with (length (drop m (y :: ys)))
          by (rewrite length_drop; lia).
        rewrite (drop_ge xs m), app_nil_r in Hba1 by lia.
        eexists. split.
        -- mstep ltac:(eapply (uninitialized_copy_n_spec T NT
                                 (drop m (y :: ys)) _ br ba (length xs)
                                 (length xs));
                       [done|exact Hbr1|exact Hba1| |]).
           { rewrite <- Hm. by apply cells_drop_suffix. }
           { rewrite length_drop, length_cells
               by (rewrite length_take; lia). lia. }
           apply set_size_Some. unfold w1. wsimpl. exact Hva.
        -- apply Hfinish; unfold w1; wsimpl; try done.
           ++ cbn [storage]. wsimpl. rewrite lookup_insert_eq. f_equal.
              replace (length xs) with (length (take m (y :: ys)))
                by (rewrite length_take; lia).
              rewrite cells_append
                by (rewrite length_take, length_drop; lia).
              by rewrite take_drop.
           ++ cbn [storage]. wsimpl. by rewrite !lookup_insert_ne.
           ++ eapply (heap_wf_update w _ ba); [done|by eexists| |done].
              wsimpl. by rewrite !insert_insert_eq.
           ++ rewrite length_drop. lia.
      * (* as many elements on both sides *)
        assert (m = length xs) as Hm by lia.
        rewrite bind_ret.
        rewrite (drop_ge xs m), app_nil_r, take_ge in Hba1 by lia.
        eexists. split; [apply set_size_Some; unfold w1; wsimpl; exact Hva|].
        apply Hfinish; unfold w1; wsimpl; try done.
        -- eapply (heap_wf_update w _ ba); [done|by eexists|done|done].
        -- lia.
Qed.

End CopyAssignment.

(** * The vector as a sequence *)

Section Refinement.

Context {A : Type} (T : ElemType A).

Hypothesis NT : never_throws T.

Implicit Types (w : World (A:=A)) (xs ys : list A) (m : mutation (A:=A)).

Lemma Vector_at_in_range w this xs (cap : Z) (i : nat) x :
  repr T w this xs cap → xs !! i = Some x →
  ∃ b, Vector_at this (Z.of_nat i) w = Ok (Ptr (Some b) (Z.of_nat i)) w
       ∧ heap w !! b = Some (cells xs cap).
Proof.
  intros (buf & Hv & Hst & Hlen) Hx.
  pose proof (lookup_lt_Some _ _ _ Hx) as Hlt.
  destruct (storage_block _ _ _ Hst) as (b & -> & Hb).
  { unfold cells. by destruct xs. }
  exists b. split; [|done].
  unfold Vector_at.
  rewrite (bind_Ok _ _ _ _ _ (get_vec_Some _ _ _ Hv)).
  cbn [size_ data_]. unfold bind at 1, assert.
  destruct (Z.ltb_spec (Z.of_nat i) (Z.of_nat (length xs))); [|lia].
  rewrite RawMemory_at_ok by (cbn [capacity_]; lia).
  by cbn [buffer_ ptr_add Z.add].
Qed.

Lemma operand_src_spec w this xs (cap : Z) x v :
  repr T w this xs cap → operand_value xs x = Some v →
  ∃ s, operand_src this x w = Ok s w
       ∧ arg_value w (ConstRef s) = Some v.
Proof.
  intros Hr Hv. destruct x as [y|i]; cbn [operand_value operand_src] in *.
  - injection Hv as ->. by exists (Ext v).
  - destruct (Z.leb_spec 0 i) as [Hi|]; [|done].
    destruct (Vector_at_in_range _ _ _ _ _ _ Hr Hv) as (b & Hat & Hb).
    rewrite Z2Nat.id in Hat by done.
    exists (Cell (Ptr (Some b) i)).
    split; [by rewrite (bind_Ok _ _ _ _ _ Hat)|].
    cbn [arg_value]. rewrite <- (Z2Nat.id i) by done.
    rewrite (cell_at_block _ _ _ _ Hb).
    by rewrite (cells_lookup_live _ _ _ _ Hv).
Qed.

Lemma unsnoc_take xs :
  xs ≠ [] → ∃ x, xs = take (length xs - 1) xs ++ [x].
Proof.
  induction xs as [|y xs _] using rev_ind; [done|]. intros _.
  exists y. rewrite length_app. cbn [length].
  by rewrite Nat.add_sub, take_app_length.
Qed.

Lemma alter_lookup xs (k : nat) x (f : A → A) :
  xs !! k = Some x → alter f k xs = <[k := f x]> xs.
Proof.
  intros Hk. rewrite list_insert_alter.
  apply list_alter_ext; [|done]. intros y Hy.
  rewrite Hk in Hy. by injection Hy as <-.
Qed.

(** Appending a value that is built without writing to a cell. *)
Lemma push_refines w this xs (cap : Z) arg v :
  heap_wf w → repr T w this xs cap →
  (Z.of_nat (length xs) = cap → Z.max 1 (2 * cap) ≤ max_size T) →
  arg_value w arg = Some v →
  ∃ w' cap',
    bind (EmplaceBack T this arg) (λ _, ret tt) w = Ok tt w'
    ∧ repr T w' this (xs ++ [v]) cap'
    ∧ heap_wf w'
    ∧ live w' - Z.of_nat (length (xs ++ [v])) = live w - Z.of_nat (length xs).
Proof.
  intros Hwf Hr H2 Hv.
  destruct (EmplaceBack_repr T NT w this xs cap arg v Hwf Hr H2 Hv)
    as (pos & w' & Hrun & Hr' & Hwf' & _ & Hlive & _).
  exists w'. eexists. split; [by rewrite (bind_Ok _ _ _ _ _ Hrun)|].
  split; [exact Hr'|]. split; [done|].
  rewrite length_app. cbn [length]. lia.
Qed.

(** Inserting a value that is built without writing to a cell. *)
Lemma insert_refines w this xs (cap p : Z) arg v first :
  heap_wf w → repr T w this xs cap →
  (Z.of_nat (length xs) = cap → Z.max 1 (2 * cap) ≤ max_size T) →
  0 ≤ p ≤ Z.of_nat (length xs) →
  arg_value w arg = Some v →
  begin_ this w = Ok first w →
  ∃ w' cap',
    bind (Emplace T this (first +ₚ p) arg) (λ _, ret tt) w = Ok tt w'
    ∧ repr T w' this
        (take (Z.to_nat p) xs ++ v :: drop (Z.to_nat p) xs) cap'
    ∧ heap_wf w'
    ∧ live w' - Z.of_nat (length (take (Z.to_nat p) xs
                                ++ v :: drop (Z.to_nat p) xs))
      = live w - Z.of_nat (length xs).
Proof.
  intros Hwf Hr H2 Hp Hv Hfirst.
  destruct (Emplace_repr T NT w this xs cap (Z.to_nat p) arg v
              Hwf Hr ltac:(lia) H2 Hv)
    as (first0 & pos & w' & cap' & Hb & Hrun & Hr' & Hwf' & _ & Hlive & _).
  rewrite Hfirst in Hb. injection Hb as <-.
  rewrite Z2Nat.id in Hrun by lia.
  exists w', cap'.
  split; [by rewrite (bind_Ok _ _ _ _ _ Hrun)|].
  split; [done|]. split; [done|].
  rewrite length_app, length_take. cbn [length]. rewrite length_drop. lia.
Qed.

(** An rvalue reference to the element [a[k]] of the vector itself: the
    call runs as with the old value of [a[k]], on the vector in which
    [a[k]] is moved-from. *)
Lemma own_element_moved w this xs (cap : Z) (k : nat) v :
  heap_wf w → repr T w this xs cap → xs !! k = Some v →
  (Z.of_nat (length xs) = cap → Z.max 1 (2 * cap) ≤ max_size T) →
  ∃ p w0,
    Vector_at this (Z.of_nat k) w = Ok p w
    ∧ EmplaceBack T this (RvalueRef (Cell p)) w
      = EmplaceBack T this (RvalueRef (Ext v)) w0
    ∧ (∀ pos, Emplace T this pos (RvalueRef (Cell p)) w
              = Emplace T this pos (RvalueRef (Ext v)) w0)
    ∧ heap_wf w0
    ∧ repr T w0 this (alter (moved_from T) k xs) cap
    ∧ live w0 = live w
    ∧ vecs w0 = vecs w.
Proof.
  intros Hwf Hr Hk H2.
  destruct (Vector_at_in_range _ _ _ _ _ _ Hr Hk) as (b & Hat & Hb).
  pose proof Hr as (buf & Hv & Hst & Hlen).
  assert (buf = Ptr (Some b) 0) as ->.
  { destruct (storage_block _ _ _ Hst) as (b' & -> & Hb');
      [unfold cells; by destruct xs|].
    revert Hat. unfold Vector_at.
    rewrite (bind_Ok _ _ _ _ _ (get_vec_Some _ _ _ Hv)).
    cbn [size_ data_]. unfold bind at 1, assert.
    pose proof (lookup_lt_Some _ _ _ Hk).
    destruct (Z.ltb_spec (Z.of_nat k) (Z.of_nat (length xs))); [|lia].
    rewrite RawMemory_at_ok by (cbn [capacity_]; lia).
    cbn [buffer_ ptr_add]. by intros [= ->]. }
  destruct (repr_moved_element T w this xs cap k v b Hr Hb Hv Hk)
    as [Hc Hr0].
  destruct (moved_cell_store T _ _ _ Hc) as (Hvecs & _ & _ & Hlive & Hwf0).
  assert (capacity_ (data_ {| data_ := {| buffer_ := Ptr (Some b) 0;
                                          capacity_ := cap |};
                               size_ := Z.of_nat (length xs) |})
          ≤ size_ {| data_ := {| buffer_ := Ptr (Some b) 0;
                                 capacity_ := cap |};
                     size_ := Z.of_nat (length xs) |} →
          0 < grown (Z.of_nat (length xs)) ≤ max_size T) as Hfit.
  { cbn [data_ capacity_ size_]. intros Hfull.
    assert (Z.of_nat (length xs) = cap) as Heq by lia.
    specialize (H2 Heq).
    destruct (grown_pos (Z.of_nat (length xs))) as [-> _];
      [lia|size_lia|]. lia. }
  exists (Ptr (Some b) (Z.of_nat k)),
    (moved_cell T (Ptr (Some b) (Z.of_nat k)) v w).
  split; [done|].
  split; [by eapply (EmplaceBack_moved T NT)|].
  split; [intros pos; by eapply (Emplace_moved T NT)|].
  split; [by apply Hwf0|].
  split; [by rewrite (alter_lookup _ _ _ _ Hk)|done].
Qed.

(** Every call inside its contract does to the vector what the
    operation does to the sequence, keeps the invariant and leaks
    nothing. *)
Lemma mutate_refines w this xs xs' (cap : Z) m :
  heap_wf w → repr T w this xs cap →
  list_mutate T xs m = Some xs' →
  ∃ w' cap',
    mutate T this m w = Ok tt w'
    ∧ repr T w' this xs' cap'
    ∧ heap_wf w'
    ∧ live w' - Z.of_nat (length xs') = live w - Z.of_nat (length xs).
Proof.
  intros Hwf Hr Hm.
  assert (∃ first, begin_ this w = Ok first w) as [first Hfirst].
  { destruct Hr as (buf & Hv & _). eexists. exact (begin_Some _ _ _ Hv). }
  assert (Z.max 1 (Z.of_nat (length xs) * 2) ≤ max_size T →
          Z.of_nat (length xs) = cap → Z.max 1 (2 * cap) ≤ max_size T)
    as Hroom by lia.
  destruct m as [x|x|v| |p x|p x|p v|p|n|n|i v];
    cbn [list_mutate mutate] in Hm |- *.
  - (* PushBack(const T&) *)
    destruct (Z.leb_spec (Z.max 1 (Z.of_nat (length xs) * 2)) (max_size T))
      as [H2|]; [|done].
    destruct (operand_value xs x) as [v|] eqn:Hv; [|done].
    injection Hm as <-.
    destruct (operand_src_spec _ _ _ _ _ _ Hr Hv) as (s & Hs & Hs').
    rewrite (bind_Ok _ _ _ _ _ Hs).
    exact (push_refines w this xs cap _ v Hwf Hr (Hroom H2) Hs').
  - (* PushBack(T&&) *)
    destruct (Z.leb_spec (Z.max 1 (Z.of_nat (length xs) * 2)) (max_size T))
      as [H2|]; [|done].
    destruct (operand_value xs x) as [v|] eqn:Hv; [|done].
    injection Hm as <-.
    destruct x as [y|i]; cbn [operand_value operand_src moved_operand] in *.
    + injection Hv as ->. rewrite bind_ret.
      exact (push_refines w this xs cap (RvalueRef (Ext v)) v Hwf Hr
               (Hroom H2) eq_refl).
    + destruct (Z.leb_spec 0 i) as [Hi|]; [|done].
      destruct (own_element_moved w this xs cap (Z.to_nat i) v Hwf Hr Hv
                  (Hroom H2))
        as (q & w0 & Hat & Hback & _ & Hwf0 & Hr0 & Hlive0 & _).
      rewrite Z2Nat.id in Hat by done.
      destruct (push_refines w0 this _ cap (RvalueRef (Ext v)) v Hwf0 Hr0)
        as (w' & cap' & Hrun & Hr' & Hwf' & Hlive'); [|done|].
      { rewrite length_alter. by apply Hroom. }
      exists w', cap'. split; [|split; [done|split; [done|]]].
      * rewrite bind_assoc, (bind_Ok _ _ _ _ _ Hat), bind_ret.
        unfold PushBack. by rewrite (bind_run _ _ _ _ _ Hback).
      * rewrite !length_app, length_alter in *. lia.
  - (* EmplaceBack *)
    destruct (Z.leb_spec (Z.max 1 (Z.of_nat (length xs) * 2)) (max_size T))
      as [H2|]; [|done].
    injection Hm as <-.
    exact (push_refines w this xs cap (InPlace v) v Hwf Hr (Hroom H2)
             eq_refl).
  - (* PopBack *)
    destruct (Z.ltb_spec 0 (Z.of_nat (length xs))) as [Hlen|]; [|done].
    injection Hm as <-.
    destruct (unsnoc_take xs) as [x Hxs]; [by destruct xs|].
    set (ys := take (length xs - 1) xs) in *.
    assert (length xs = S (length ys)) as Hlen'
        by (rewrite Hxs at 1; rewrite length_app; simpl; lia).
    rewrite Hxs in Hr.
    destruct (PopBack_spec T _ _ _ _ _ Hr) as (b & Hv & Hpop).
    destruct Hr as (buf & Hv' & Hst & Hcap).
    rewrite length_app in Hcap. cbn [length] in Hcap.
    eexists _, cap. split; [exact Hpop|]. split; [|split].
    + eapply repr_intro; [wsimpl; by rewrite lookup_insert_eq|done| |lia].
      cbn [storage]. wsimpl. by rewrite lookup_insert_eq.
    + rewrite Hv in Hv'. injection Hv' as <-.
      eapply (heap_wf_update w _ b); [done|by eexists|done|done].
    + wsimpl. lia.
  - (* Insert(pos, const T&) *)
    destruct (Z.leb_spec (Z.max 1 (Z.of_nat (length xs) * 2)) (max_size T))
      as [H2|]; [|done].
    destruct (Z.leb_spec 0 p); [|done].
    destruct (Z.leb_spec p (Z.of_nat (length xs))); [|done].
    cbn [andb] in Hm.
    destruct (operand_value xs x) as [v|] eqn:Hv; [|done].
    injection Hm as <-.
    destruct (operand_src_spec _ _ _ _ _ _ Hr Hv) as (s & Hs & Hs').
    rewrite (bind_Ok _ _ _ _ _ Hfirst), (bind_Ok _ _ _ _ _ Hs).
    exact (insert_refines w this xs cap p _ v first Hwf Hr (Hroom H2)
             ltac:(lia) Hs' Hfirst).
  - (* Insert(pos, T&&) *)
    destruct (Z.leb_spec (Z.max 1 (Z.of_nat (length xs) * 2)) (max_size T))
      as [H2|]; [|done].
    destruct (Z.leb_spec 0 p); [|done].
    destruct (Z.leb_spec p (Z.of_nat (length xs))); [|done].
    cbn [andb] in Hm.
    destruct (operand_value xs x) as [v|] eqn:Hv; [|done].
    injection Hm as <-.
    rewrite (bind_Ok _ _ _ _ _ Hfirst).
    destruct x as [y|i]; cbn [operand_value operand_src moved_operand] in *.
    + injection Hv as ->. rewrite bind_ret.
      exact (insert_refines w this xs cap p (RvalueRef (Ext v)) v first
               Hwf Hr (Hroom H2) ltac:(lia) eq_refl Hfirst).
    + destruct (Z.leb_spec 0 i) as [Hi|]; [|done].
      destruct (own_element_moved w this xs cap (Z.to_nat i) v Hwf Hr Hv
                  (Hroom H2))
        as (q & w0 & Hat & _ & Hins & Hwf0 & Hr0 & Hlive0 & Hvecs0).
      rewrite Z2Nat.id in Hat by done.
      assert (begin_ this w0 = Ok first w0) as Hfirst0.
      { revert Hfirst. unfold begin_. rewrite !bind_get_vec, Hvecs0.
        destruct (vecs w !! this); [|done]. by intros [= ->]. }
      destruct (insert_refines w0 this _ cap p (RvalueRef (Ext v)) v first
                  Hwf0 Hr0)
        as (w' & cap' & Hrun & Hr' & Hwf' & Hlive'); [| |done|done|].
      { rewrite length_alter. by apply Hroom. }
      { rewrite length_alter. lia. }
      exists w', cap'. split; [|split; [done|split; [done|]]].
      * rewrite bind_assoc, (bind_Ok _ _ _ _ _ Hat), bind_ret.
        unfold Insert_rvalue. by rewrite (bind_run _ _ _ _ _ (Hins _)).
      * rewrite !length_app, !length_take in *. cbn [length] in *.
        rewrite !length_drop, !length_alter in *. lia.
  - (* Emplace *)
    destruct (Z.leb_spec (Z.max 1 (Z.of_nat (length xs) * 2)) (max_size T))
      as [H2|]; [|done].
    destruct (Z.leb_spec 0 p); [|done].
    destruct (Z.leb_spec p (Z.of_nat (length xs))); [|done].
    cbn [andb] in Hm. injection Hm as <-.
    rewrite (bind_Ok _ _ _ _ _ Hfirst).
    exact (insert_refines w this xs cap p (InPlace v) v first Hwf Hr
             (Hroom H2) ltac:(lia) eq_refl Hfirst).
  - (* Erase *)
    destruct (Z.leb_spec 0 p); [|done].
    destruct (Z.ltb_spec p (Z.of_nat (length xs))); [|done].
    cbn [andb] in Hm. injection Hm as <-.
    destruct (lookup_lt_is_Some_2 xs (Z.to_nat p)) as [z Hz]; [lia|].
    rewrite <- (take_drop_middle xs (Z.to_nat p) z Hz) in Hr.
    destruct (Erase_spec T NT w this _ z _ cap Hr)
      as (first0 & w' & Hb & Hrun & Hr' & _ & Hlive & _ & Hwf').
    rewrite length_take, Nat.min_l, Z2Nat.id in Hrun by lia.
    exists w', cap. split; [|split; [done|split; [by apply Hwf'|]]].
    + rewrite (bind_Ok _ _ _ _ _ Hb). by rewrite (bind_Ok _ _ _ _ _ Hrun).
    + rewrite length_app, length_take, length_drop. lia.
  - (* Reserve *)
    destruct (Z.leb_spec 0 n); [|done].
    destruct (Z.leb_spec n (max_size T)) as [Hn|]; [|done].
    cbn [andb] in Hm. injection Hm as <-.
    destruct (Reserve_repr T NT w this xs cap n Hwf Hr Hn)
      as (w' & Hrun & Hr' & Hwf' & Hlive & _).
    exists w'. eexists. split; [done|]. split; [exact Hr'|].
    split; [done|lia].
  - (* Resize *)
    destruct (Z.leb_spec 0 n); [|done].
    destruct (Z.leb_spec n (max_size T)) as [Hn|]; [|done].
    cbn [andb] in Hm. injection Hm as <-.
    destruct (Resize_spec T NT w this xs cap (Z.to_nat n) Hwf Hr
                ltac:(lia))
      as (w' & Hrun & Hr' & Hwf' & Hlive).
    rewrite Z2Nat.id in Hrun by lia.
    exists w'. eexists. split; [done|]. split; [exact Hr'|].
    split; [done|].
    rewrite length_app, length_take, length_replicate. lia.
  - (* a[i] = v *)
    destruct (Z.leb_spec 0 i); [|done].
    destruct (Z.ltb_spec i (Z.of_nat (length xs))); [|done].
    cbn [andb] in Hm. injection Hm as <-.
    assert (∃ k : nat, i = Z.of_nat k) as [k ->]
        by (exists (Z.to_nat i); lia).
    rewrite Nat2Z.id.
    destruct (lookup_lt_is_Some_2 xs k) as [z Hz]; [lia|].
    destruct (Vector_at_in_range _ _ _ _ _ _ Hr Hz) as (b & Hat & Hb).
    destruct Hr as (buf & Hv & Hst & Hlen).
    eexists _, cap. split; [|split; [|split]].
    + rewrite (bind_Ok _ _ _ _ _ Hat).
      erewrite bind_Ok;
        [|eapply load_block; [exact Hb|by apply cells_lookup_live]].
      rewrite (bind_Ok _ _ _ _ _ (tick_ok T NT _ _)).
      eapply put_block; [wsimpl; exact Hb|].
      rewrite length_cells by lia. lia.
    + assert (buf = Ptr (Some b) 0) as ->.
      { destruct (storage_block _ _ _ Hst) as (b' & -> & Hb');
          [unfold cells; by destruct xs|].
        revert Hat. unfold Vector_at.
        rewrite (bind_Ok _ _ _ _ _ (get_vec_Some _ _ _ Hv)).
        cbn [size_ data_]. unfold bind at 1, assert.
        destruct (Z.ltb_spec (Z.of_nat k) (Z.of_nat (length xs))); [|lia].
        rewrite RawMemory_at_ok by (cbn [capacity_]; lia).
        cbn [buffer_ ptr_add]. by intros [= ->]. }
      eapply repr_intro; [wsimpl; exact Hv|by rewrite length_insert| |
                          rewrite length_insert; lia].
      cbn [storage]. wsimpl. rewrite lookup_insert_eq. f_equal.
      apply cells_insert_live. lia.
    + eapply (heap_wf_update w _ b); [done|by eexists|done|done].
    + wsimpl. rewrite length_insert. lia.
Qed.

Lemma mutate_all_refines ms : ∀ w this xs xs' (cap : Z),
  heap_wf w → repr T w this xs cap →
  list_mutate_all T xs ms = Some xs' →
  ∃ w' cap',
    mutate_all T this ms w = Ok tt w'
    ∧ repr T w' this xs' cap'
    ∧ heap_wf w'
    ∧ live w' - Z.of_nat (length xs') = live w - Z.of_nat (length xs).
Proof.
  induction ms as [|m ms IH]; intros w this xs xs' cap Hwf Hr Hms.
  - cbn [list_mutate_all] in Hms. injection Hms as <-.
    exists w, cap. by repeat split.
  - cbn [list_mutate_all mutate_all] in *.
    destruct (list_mutate T xs m) as [xs1|] eqn:Hm; [|done].
    destruct (mutate_refines w this xs xs1 cap m Hwf Hr Hm)
      as (w1 & cap1 & Hrun1 & Hr1 & Hwf1 & Hlive1).
    destruct (IH w1 this xs1 xs' cap1 Hwf1 Hr1 Hms)
      as (w' & cap' & Hrun & Hr' & Hwf' & Hlive).
    exists w', cap'. split; [|split; [done|split; [done|lia]]].
    by rewrite (bind_Ok _ _ _ _ _ (try_catch_Ok _ _ _ _ _ Hrun1)).
Qed.

End Refinement.

(** * Further properties of the code *)

Lemma no_vectors_wf : heap_wf no_vectors.
Proof. intros b [cs Hb]. by simpl in Hb. Qed.

Section Construction.

Context {A : Type} (T : ElemType A).

Implicit Types (w : World (A:=A)) (xs ys : list A).

(** X1: [Vector(size_t size)] for a type whose default constructor does
    not throw, a size of at most [PTRDIFF_MAX / sizeof(T)], and an
    [operator new] that has the memory: the vector holds [size]
    value-initialised elements, its capacity is exactly [size], and the
    default constructor ran [size] times. *)
Theorem Vector_sized_value_initialises w this (size : Z) :
  (∀ c, throws T ValueInit c = false) →
  (∀ c, throws T New c = false) →
  heap_wf w → 0 ≤ size ≤ max_size T →
  ∃ w', Vector_sized T this size w = Ok tt w'
        ∧ repr T w' this (replicate (Z.to_nat size) (value_init T)) size
        ∧ live w' = live w + size
        ∧ calls w' = bumps ValueInit (Z.to_nat size) (calls w).
Proof.
  intros Hno Hmem Hwf Hsize.
  destruct (outcome_returns _ _ _ _ (Vector_sized_outcome T w this size
                                       Hwf Hsize))
    as ([] & w' & Hrun & Hr & _ & Hlive & Hcalls & _).
  { intros w' (_ & _ & _ & k & c & Hc & [->| ->]).
    - by rewrite Hno in Hc.
    - by rewrite Hmem in Hc. }
  by exists w'.
Qed.

(** X2: [Vector(size_t size)] at a fresh address, for any element type
    and any size whose byte count [size * sizeof(T)] fits into [size_t]:
    the call returns with the vector built, or it throws, because
    [operator new] had no memory for the request ([std::bad_alloc]) or
    because a default constructor threw, and then the elements built so
    far are destroyed and the block is released: the blocks, the vectors
    and the number of live instances are as before the call.  The call
    has no other outcome. *)
Theorem Vector_sized_all_or_nothing w this (size : Z) :
  heap_wf w → 0 ≤ size → size * Z.pos (sizeof T) < size_max →
  vecs w !! this = None →
  outcome (Vector_sized T this size) w
    (λ _ w', repr T w' this (replicate (Z.to_nat size) (value_init T)) size)
    (λ w', rolled_back w w').
Proof.
  intros Hwf Hsize Hbytes Hthis.
  destruct (Z.le_gt_cases size (max_size T)) as [Hfit|Hbig].
  - eapply outcome_weaken; [by apply Vector_sized_outcome| |].
    + by intros _ w' (Hr & _).
    + intros w' (Hh & [Hv|Hv] & Hl & _); (split; [done|]);
        (split; [|done]); [done|].
      rewrite Hv. by apply delete_id.
  - unfold outcome.
    by rewrite (Vector_sized_refused T w this size Hbig Hbytes).
Qed.

(** X3: [Vector(const Vector&)] at a fresh address, for any element
    type: the call returns with the copy built and the source as it was,
    or it throws, because [operator new] had no memory or because a copy
    constructor threw, and then the copies built so far are destroyed
    and the block is released: the blocks, the vectors and the number of
    live instances are as before the call. *)
Theorem Vector_copy_all_or_nothing w a b ys (cap : Z) :
  heap_wf w → repr T w a ys cap → vecs w !! b = None →
  outcome (Vector_copy T b a) w
    (λ _ w', repr T w' b ys (Z.of_nat (length ys)) ∧ repr T w' a ys cap)
    (λ w', rolled_back w w').
Proof.
  intros Hwf Hr Hb.
  assert (a ≠ b) as Hne.
  { destruct Hr as (buf & Hv & _). intros ->. congruence. }
  eapply outcome_weaken; [by eapply Vector_copy_outcome| |].
  - by intros _ w' (Hrb & Hra & _).
  - intros w' (Hh & [Hv|Hv] & Hl & _); (split; [done|]);
      (split; [|done]); [done|].
    rewrite Hv. by apply delete_id.
Qed.

(** X4: the destructor of a vector that holds [xs]: every element is
    destroyed (the number of live instances drops by the length), the
    block is released, the object is gone, and nothing else changes. *)
Theorem Vector_dtor_destroys_and_releases w this v xs (cap : Z) :
  vecs w !! this = Some v → repr T w this xs cap →
  Vector_dtor this w
  = Ok tt {| heap := released (buffer_ (data_ v)) (heap w);
             next_block := next_block w;
             vecs := delete this (vecs w);
             calls := calls w;
             live := live w - Z.of_nat (length xs) |}.
Proof. apply Vector_dtor_spec. Qed.

(** X5: a copy that is built and destroyed again leaves no trace,
    whether the copy constructor returns or throws: the blocks, the
    vectors and the number of live instances are as before. *)
Theorem copy_then_destroy_leaves_no_trace w a b ys (cap : Z) :
  heap_wf w → repr T w a ys cap → vecs w !! b = None →
  outcome (bind (Vector_copy T b a) (λ _, Vector_dtor b)) w
    (λ _ w', rolled_back w w')
    (λ w', rolled_back w w').
Proof.
  intros Hwf Hr Hb.
  assert (a ≠ b) as Hne.
  { destruct Hr as (buf & Hv & _). intros ->. congruence. }
  eapply outcome_bind; [by eapply Vector_copy_outcome| |].
  - intros _ w' (Hrb & _ & _ & Hlive & _ & Hvecs & _ & Hheap).
    pose proof Hrb as (buf & Hvb & _).
    eapply outcome_Ok; [by eapply Vector_dtor_spec|].
    split; [|split]; wsimpl.
    + by apply (Hheap _ Hvb).
    + apply map_eq. intros k. destruct (decide (k = b)) as [->|].
      * by rewrite lookup_delete_eq.
      * rewrite lookup_delete_ne by done. by apply Hvecs.
    + lia.
  - intros w' (Hh & [Hv|Hv] & Hl & _); (split; [done|]);
      (split; [|done]); [done|].
    rewrite Hv. by apply delete_id.
Qed.

End Construction.

Lemma Vector_sized_value_initialises_witness :
  ∃ w', Vector_sized plain 1 3 no_vectors = Ok tt w'
        ∧ repr plain w' 1 [0; 0; 0] 3
        ∧ live w' = 3
        ∧ calls w' = bumps ValueInit 3 (calls no_vectors).
Proof.
  apply (Vector_sized_value_initialises plain no_vectors 1%positive 3).
  - reflexivity.
  - reflexivity.
  - apply no_vectors_wf.
  - vm_compute. split; congruence.
Defined.

Lemma Vector_sized_all_or_nothing_witness :
  (∃ w', Vector_sized (throwing_value_init 2) 1 3 no_vectors = Throw w'
         ∧ rolled_back no_vectors w')
  ∧ (∃ w', Vector_sized plain 1 (2 ^ 61) no_vectors = Throw w'
           ∧ rolled_back no_vectors w').
Proof.
  split.
  - pose proof (Vector_sized_all_or_nothing (throwing_value_init 2)
                  no_vectors 1%positive 3 no_vectors_wf ltac:(lia)
                  eq_refl eq_refl) as H.
    unfold outcome in H.
    destruct (Vector_sized (throwing_value_init 2) 1 3 no_vectors)
      as [r w'|w'| |] eqn:E; [|by exists w'|done|done].
    vm_compute in E. discriminate E.
  - pose proof (Vector_sized_all_or_nothing plain no_vectors 1%positive
                  (2 ^ 61) no_vectors_wf ltac:(lia) eq_refl eq_refl) as H.
    unfold outcome in H.
    destruct (Vector_sized plain 1 (2 ^ 61) no_vectors)
      as [r w'|w'| |] eqn:E; [|by exists w'|done|done].
    vm_compute in E. discriminate E.
Defined.

Lemma Vector_copy_all_or_nothing_witness :
  let w := one_vector [Some 1; Some 2; None] 2 3 in
  (∃ w', Vector_copy (throwing_copy 1) 2 1 w = Throw w' ∧ rolled_back w w')
  ∧ (∃ w', Vector_copy out_of_memory 2 1 w = Throw w' ∧ rolled_back w w').
Proof.
  split.
  - pose proof (Vector_copy_all_or_nothing (throwing_copy 1)
                  (one_vector (cells [1; 2] 3) 2 3) 1%positive 2%positive
                  [1; 2] 3 (one_vector_wf _ _ _)
                  (one_vector_repr (T:=(throwing_copy 1)) [1; 2] 3
                     ltac:(vm_compute; split; congruence))
                  eq_refl) as H.
    unfold outcome in H.
    destruct (Vector_copy (throwing_copy 1) 2 1
                (one_vector (cells [1; 2] 3) 2 3))
      as [r w'|w'| |] eqn:E; [|by exists w'|done|done].
    vm_compute in E. discriminate E.
  - pose proof (Vector_copy_all_or_nothing out_of_memory
                  (one_vector (cells [1; 2] 3) 2 3) 1%positive 2%positive
                  [1; 2] 3 (one_vector_wf _ _ _)
                  (one_vector_repr (T:=out_of_memory) [1; 2] 3
                     ltac:(vm_compute; split; congruence))
                  eq_refl) as H.
    unfold outcome in H.
    destruct (Vector_copy out_of_memory 2 1
                (one_vector (cells [1; 2] 3) 2 3))
      as [r w'|w'| |] eqn:E; [|by exists w'|done|done].
    vm_compute in E. discriminate E.
Defined.

Lemma Vector_dtor_destroys_and_releases_witness :
  ∃ w', Vector_dtor 1 (one_vector [Some 1; Some 2; None] 2 3) = Ok tt w'
        ∧ heap w' = ∅ ∧ vecs w' = ∅ ∧ live w' = 0.
Proof.
  eexists. split.
  - apply (Vector_dtor_destroys_and_releases plain
             (one_vector (cells [1; 2] 3) 2 3) 1%positive
             {| data_ := {| buffer_ := Ptr (Some 1%positive) 0;
                            capacity_ := 3 |};
                size_ := 2 |} [1; 2] 3).
    + reflexivity.
    + apply (one_vector_repr [1; 2] 3). vm_compute. split; congruence.
  - conj_compute.
Defined.

Lemma copy_then_destroy_leaves_no_trace_witness :
  ∃ w', bind (Vector_copy plain 2 1) (λ _, Vector_dtor 2)
          (one_vector [Some 1; Some 2; None] 2 3) = Ok tt w'
        ∧ rolled_back (one_vector [Some 1; Some 2; None] 2 3) w'.
Proof.
  pose proof (copy_then_destroy_leaves_no_trace plain
                (one_vector (cells [1; 2] 3) 2 3) 1%positive 2%positive
                [1; 2] 3 (one_vector_wf _ _ _)
                (one_vector_repr (T:=plain) [1; 2] 3
                   ltac:(vm_compute; split; congruence))
                eq_refl) as H.
  unfold outcome in H.
  destruct (bind (Vector_copy plain 2 1) (λ _, Vector_dtor 2)
              (one_vector (cells [1; 2] 3) 2 3))
    as [[] w'|w'| |] eqn:E; [by exists w'| |done|done].
  vm_compute in E. discriminate E.
Defined.

(** ** Capacity and length *)

Section Sizes.

Context {A : Type} (T : ElemType A).

Implicit Types (w : World (A:=A)) (xs ys : list A).

(** X6: [Reserve], for a capacity the allocator provides storage for (at
    most [PTRDIFF_MAX / sizeof(T)]), never loses or changes an element
    and never shrinks: afterwards the vector holds the same elements, its
    capacity is the larger of the old capacity and the capacity asked
    for, and no instance was leaked; a request that the capacity already
    covers changes nothing at all. *)
Theorem Reserve_keeps_elements w this xs (cap new_capacity : Z) :
  never_throws T → heap_wf w → repr T w this xs cap →
  new_capacity ≤ max_size T →
  ∃ w', Reserve T this new_capacity w = Ok tt w'
        ∧ repr T w' this xs (Z.max cap new_capacity)
        ∧ live w' = live w
        ∧ (new_capacity ≤ cap → w' = w).
Proof.
  intros NT Hwf Hr Hn.
  destruct (Reserve_repr T NT w this xs cap new_capacity Hwf Hr Hn)
    as (w' & Hrun & Hr' & _ & Hlive & Hsame & _).
  by exists w'.
Qed.

(** X7: [Resize(n)], for a length the allocator provides storage for (at
    most [PTRDIFF_MAX / sizeof(T)]): the vector then holds its first [n]
    elements when [n] is smaller than the length, and its elements
    followed by value-initialised ones up to length [n] otherwise; the
    capacity is the larger of the old capacity and [n]; the number of
    live instances changes by the difference of the lengths. *)
Theorem Resize_truncates_or_pads w this xs (cap : Z) (n : nat) :
  never_throws T → heap_wf w → repr T w this xs cap →
  Z.of_nat n ≤ max_size T →
  ∃ w', Resize T this (Z.of_nat n) w = Ok tt w'
        ∧ repr T w' this
            (take n xs ++ replicate (n - length xs) (value_init T))
            (Z.max cap (Z.of_nat n))
        ∧ length_of w' this = Some (Z.of_nat n)
        ∧ live w' = live w + Z.of_nat n - Z.of_nat (length xs).
Proof.
  intros NT Hwf Hr Hn.
  destruct (Resize_spec T NT w this xs cap n Hwf Hr Hn)
    as (w' & Hrun & Hr' & _ & Hlive).
  exists w'. split; [done|]. split; [done|]. split; [|done].
  rewrite (length_of_repr T _ _ _ _ Hr'). f_equal.
  rewrite length_app, length_take, length_replicate. lia.
Qed.

End Sizes.

Lemma Reserve_keeps_elements_witness :
  let w := one_vector [Some 1; Some 2; None] 2 3 in
  (∃ w', Reserve plain 1 5 w = Ok tt w'
         ∧ repr plain w' 1 [1; 2] 5
         ∧ live w' = 2
         ∧ (5 ≤ 3 → w' = w))
  ∧ (∃ w', Reserve plain 1 2 w = Ok tt w'
           ∧ repr plain w' 1 [1; 2] 3
           ∧ live w' = 2
           ∧ (2 ≤ 3 → w' = w)).
Proof.
  split.
  - apply (Reserve_keeps_elements plain (one_vector (cells [1; 2] 3) 2 3)
             1%positive [1; 2] 3 5).
    + exact plain_never_throws.
    + apply one_vector_wf.
    + apply (one_vector_repr [1; 2] 3). vm_compute. split; congruence.
    + vm_compute. congruence.
  - apply (Reserve_keeps_elements plain (one_vector (cells [1; 2] 3) 2 3)
             1%positive [1; 2] 3 2).
    + exact plain_never_throws.
    + apply one_vector_wf.
    + apply (one_vector_repr [1; 2] 3). vm_compute. split; congruence.
    + vm_compute. congruence.
Defined.

Lemma Resize_truncates_or_pads_witness :
  ∃ w', Resize plain 1 4 (one_vector [Some 1; Some 2; None] 2 3) = Ok tt w'
        ∧ repr plain w' 1 [1; 2; 0; 0] 4
        ∧ length_of w' 1 = Some 4
        ∧ live w' = 4.
Proof.
  apply (Resize_truncates_or_pads plain (one_vector (cells [1; 2] 3) 2 3)
           1%positive [1; 2] 3 4).
  - exact plain_never_throws.
  - apply one_vector_wf.
  - apply (one_vector_repr [1; 2] 3). vm_compute. split; congruence.
  - vm_compute. congruence.
Defined.

(** ** Appending, reading and erasing *)

Section Elements.

Context {A : Type} (T : ElemType A).

Implicit Types (w : World (A:=A)) (xs ys : list A).

Lemma PushBack_EmplaceBack w this arg pos w' :
  EmplaceBack T this arg w = Ok pos w' → PushBack T this arg w = Ok tt w'.
Proof. intros H. unfold PushBack. by rewrite (bind_Ok _ _ _ _ _ H). Qed.

(** X8: [EmplaceBack] and [PushBack] of a value from outside the vector
    append it: the vector then holds the old elements followed by the new
    one.  The capacity is unchanged when there was room and is
    [max(1, 2 * length)] otherwise, which is storage the allocator
    provides (at most [PTRDIFF_MAX / sizeof(T)] objects).  [EmplaceBack]
    returns a reference to the new element, which is at
    [begin() + old length]. *)
Theorem EmplaceBack_appends w this xs (cap : Z) arg x :
  never_throws T → heap_wf w → repr T w this xs cap →
  (Z.of_nat (length xs) = cap → Z.max 1 (2 * cap) ≤ max_size T) →
  arg = InPlace x ∨ arg = ConstRef (Ext x) ∨ arg = RvalueRef (Ext x) →
  ∃ pos w',
    EmplaceBack T this arg w = Ok pos w'
    ∧ PushBack T this arg w = Ok tt w'
    ∧ repr T w' this (xs ++ [x])
        (if Z.of_nat (length xs) <? cap then cap
         else grown (Z.of_nat (length xs)))
    ∧ load pos w' = Ok x w'
    ∧ (∃ first, begin_ this w' = Ok first w'
                ∧ pos = first +ₚ Z.of_nat (length xs))
    ∧ live w' = live w + 1.
Proof.
  intros NT Hwf Hr H2 Harg.
  assert (arg_value w arg = Some x) as Hx
      by (by destruct Harg as [->|[->| ->]]).
  destruct (EmplaceBack_repr T NT w this xs cap arg x Hwf Hr H2 Hx)
    as (pos & w' & Hrun & Hr' & _ & Hload & Hlive & Hfirst).
  exists pos, w'. repeat split; try done.
  by eapply PushBack_EmplaceBack.
Qed.

(** X9: [PushBack(a[i])], the argument being a reference to an element
    of the vector itself: the value appended is the one [a[i]] had before
    the call, also when the vector is full and reallocates (the new
    element is built in the new block before the old elements are
    transferred and destroyed).  A full vector asks for storage the
    allocator provides: [max(1, 2 * capacity)] objects are at most
    [PTRDIFF_MAX / sizeof(T)]. *)
Theorem PushBack_own_element w this xs (cap : Z) (i : nat) x :
  never_throws T → heap_wf w → repr T w this xs cap →
  xs !! i = Some x →
  (Z.of_nat (length xs) = cap → Z.max 1 (2 * cap) ≤ max_size T) →
  ∃ first w',
    begin_ this w = Ok first w
    ∧ PushBack T this (ConstRef (Cell (first +ₚ Z.of_nat i))) w = Ok tt w'
    ∧ repr T w' this (xs ++ [x])
        (if Z.of_nat (length xs) <? cap then cap
         else grown (Z.of_nat (length xs))).
Proof.
  intros NT Hwf Hr Hi H2.
  assert (∃ b, begin_ this w = Ok (Ptr (Some b) 0) w
               ∧ heap w !! b = Some (cells xs cap)) as (b & Hb & Hcs).
  { destruct Hr as (buf & Hv & Hst & Hlen).
    destruct (storage_block _ _ _ Hst) as (b & -> & Hb).
    { unfold cells. by destruct xs. }
    exists b. split; [exact (begin_Some _ _ _ Hv)|done]. }
  assert (arg_value w (ConstRef (Cell (Ptr (Some b) 0 +ₚ Z.of_nat i)))
          = Some x) as Hx.
  { cbn [arg_value ptr_add]. rewrite Z.add_0_l.
    rewrite (cell_at_block _ _ _ _ Hcs).
    by rewrite (cells_lookup_live _ _ _ _ Hi). }
  destruct (EmplaceBack_repr T NT w this xs cap _ x Hwf Hr H2 Hx)
    as (pos & w' & Hrun & Hr' & _).
  exists (Ptr (Some b) 0), w'. split; [done|]. split; [|done].
  by eapply PushBack_EmplaceBack.
Qed.

(** X10: [EmplaceBack] into a vector with spare capacity does not
    reallocate: nothing is allocated, [begin()] and the capacity are the
    same, no element is moved or copied, and every element that was in
    the vector is still at its address. *)
Theorem EmplaceBack_within_capacity_keeps_addresses w this xs (cap : Z)
    arg x :
  never_throws T → repr T w this xs cap →
  Z.of_nat (length xs) < cap →
  arg = InPlace x ∨ arg = ConstRef (Ext x) ∨ arg = RvalueRef (Ext x) →
  ∃ first pos w',
    begin_ this w = Ok first w
    ∧ EmplaceBack T this arg w = Ok pos w'
    ∧ begin_ this w' = Ok first w'
    ∧ repr T w' this (xs ++ [x]) cap
    ∧ next_block w' = next_block w
    ∧ calls w' = bump (arg_kind arg) (calls w)
    ∧ (∀ (i : nat) y, xs !! i = Some y →
         load (first +ₚ Z.of_nat i) w = Ok y w
         ∧ load (first +ₚ Z.of_nat i) w' = Ok y w').
Proof.
  intros NT (buf & Hv & Hst & Hlen) Hlt Harg.
  assert (arg_value w arg = Some x) as Hx
      by (by destruct Harg as [->|[->| ->]]).
  destruct (storage_block _ _ _ Hst) as (b & -> & Hb).
  { intros Hnil. apply (f_equal length) in Hnil.
    rewrite length_cells in Hnil by lia. simpl in Hnil. lia. }
  exists (Ptr (Some b) 0). eexists _, _.
  split; [exact (begin_Some _ _ _ Hv)|].
  split; [eapply (EmplaceBack_spare T NT); [exact Hv|exact Hb|size_lia|exact Hx]|].
  split; [|split; [|split; [done|split; [done|]]]].
  - unfold begin_.
    erewrite bind_Ok;
      [|apply get_vec_Some; wsimpl; by rewrite lookup_insert_eq].
    done.
  - eapply repr_intro; [wsimpl; by rewrite lookup_insert_eq
                       |rewrite length_app; simpl; lia|
                       |rewrite length_app; simpl; lia].
    cbn [storage]. wsimpl. by rewrite lookup_insert_eq.
  - intros i y Hi. cbn [ptr_add]. rewrite Z.add_0_l. split.
    + eapply load_block; [exact Hb|by apply cells_lookup_live].
    + eapply load_block; [wsimpl; by rewrite lookup_insert_eq|].
      apply cells_lookup_live. by apply lookup_app_l_Some.
Qed.

(** X11: [operator[]] is checked against the length: for an index
    below the length it returns the address of that element and changes
    nothing; for any other index the assertion fails, also when the
    index is below the capacity. *)
Theorem Vector_at_checked w this xs (cap : Z) (index : nat) :
  repr T w this xs cap →
  (∀ x, xs !! index = Some x →
     ∃ p, Vector_at this (Z.of_nat index) w = Ok p w ∧ load p w = Ok x w)
  ∧ ((length xs ≤ index)%nat →
     Vector_at this (Z.of_nat index) w = AssertFail).
Proof.
  intros (buf & Hv & Hst & Hlen). split.
  - intros x Hx.
    pose proof (lookup_lt_Some _ _ _ Hx) as Hlt.
    destruct (storage_block _ _ _ Hst) as (b & -> & Hb).
    { unfold cells. by destruct xs. }
    exists (Ptr (Some b) (Z.of_nat index)). split.
    + unfold Vector_at.
      rewrite (bind_Ok _ _ _ _ _ (get_vec_Some _ _ _ Hv)).
      cbn [size_ data_]. unfold bind at 1, assert.
      destruct (Z.ltb_spec (Z.of_nat index) (Z.of_nat (length xs))); [|lia].
      rewrite RawMemory_at_ok by (cbn [capacity_]; lia).
      by cbn [buffer_ ptr_add Z.add].
    + eapply load_block; [exact Hb|by apply cells_lookup_live].
  - intros Hge. eapply Vector_at_out_of_range; [exact Hv|].
    cbn [size_]. lia.
Qed.

(** X12: the range [[begin(), end())] of a vector that holds [xs]:
    [end()] is [begin() + Size()], the distance between the two is the
    length, the element [i] is at [begin() + i], and [end()] itself
    designates no live object. *)
Theorem begin_end_range w this xs (cap : Z) :
  repr T w this xs cap →
  ∃ first,
    begin_ this w = Ok first w
    ∧ end_ this w = Ok (first +ₚ Z.of_nat (length xs)) w
    ∧ distance first (first +ₚ Z.of_nat (length xs)) w = Ok (length xs) w
    ∧ (∀ (i : nat) x, xs !! i = Some x →
         load (first +ₚ Z.of_nat i) w = Ok x w)
    ∧ load (first +ₚ Z.of_nat (length xs)) w = Undef.
Proof.
  intros (buf & Hv & Hst & Hlen). exists buf.
  split; [exact (begin_Some _ _ _ Hv)|].
  split; [exact (end_Some _ _ _ Hv)|].
  split; [by rewrite distance_add|].
  destruct (storage_cases _ _ _ Hst) as [[-> Hnil]|(b & -> & Hb)].
  - split; [|done].
    intros i x Hi. assert (xs = []) as -> by (by destruct xs). done.
  - cbn [ptr_add]. split.
    + intros i x Hi. rewrite Z.add_0_l.
      eapply load_block; [exact Hb|by apply cells_lookup_live].
    + rewrite Z.add_0_l. unfold load.
      rewrite (cell_at_block _ _ _ _ Hb).
      destruct (decide (Z.of_nat (length xs) < cap)) as [Hlt|Hge].
      * by rewrite cells_lookup_raw by lia.
      * rewrite (lookup_ge_None_2 (cells xs cap)); [done|].
        rewrite length_cells by lia. lia.
Qed.

(** X13: [Erase] at a position that holds an element removes that
    element: the elements before it stay, the elements after it move one
    position down (by move assignment, one per element), the length is
    one less, one instance less is live, and the capacity and [begin()]
    are unchanged; the position returned is the one passed, which now
    designates the element that followed the erased one. *)
Theorem Erase_removes_element w this pre z suf (cap : Z) :
  never_throws T → repr T w this (pre ++ z :: suf) cap →
  ∃ first w',
    begin_ this w = Ok first w
    ∧ Erase T this (first +ₚ Z.of_nat (length pre)) w
      = Ok (first +ₚ Z.of_nat (length pre)) w'
    ∧ repr T w' this (pre ++ suf) cap
    ∧ begin_ this w' = Ok first w'
    ∧ live w' = live w - 1
    ∧ calls w' = bumps MoveAssign (length suf) (calls w).
Proof.
  intros NT Hr.
  destruct (Erase_spec T NT w this pre z suf cap Hr)
    as (first & w' & Hb & Hrun & Hr' & Hb' & Hlive & Hcalls & _).
  by exists first, w'.
Qed.

End Elements.

Lemma EmplaceBack_appends_witness :
  ∃ pos w',
    EmplaceBack plain 1 (ConstRef (Ext 9))
      (one_vector [Some 1; Some 2] 2 2) = Ok pos w'
    ∧ PushBack plain 1 (ConstRef (Ext 9))
        (one_vector [Some 1; Some 2] 2 2) = Ok tt w'
    ∧ repr plain w' 1 [1; 2; 9] 4
    ∧ load pos w' = Ok 9 w'
    ∧ (∃ first, begin_ 1 w' = Ok first w' ∧ pos = first +ₚ 2)
    ∧ live w' = 3.
Proof.
  apply (EmplaceBack_appends plain (one_vector (cells [1; 2] 2) 2 2)
           1%positive [1; 2] 2 (ConstRef (Ext 9)) 9).
  - exact plain_never_throws.
  - apply one_vector_wf.
  - apply (one_vector_repr [1; 2] 2). vm_compute. split; congruence.
  - intros _. vm_compute. congruence.
  - right. left. reflexivity.
Defined.

Lemma PushBack_own_element_witness :
  let w := one_vector [Some 1; Some 2] 2 2 in
  ∃ first w',
    begin_ 1 w = Ok first w
    ∧ PushBack plain 1 (ConstRef (Cell (first +ₚ 0))) w = Ok tt w'
    ∧ repr plain w' 1 [1; 2; 1] 4.
Proof.
  apply (PushBack_own_element plain (one_vector (cells [1; 2] 2) 2 2)
           1%positive [1; 2] 2 0 1).
  - exact plain_never_throws.
  - apply one_vector_wf.
  - apply (one_vector_repr [1; 2] 2). vm_compute. split; congruence.
  - reflexivity.
  - intros _. vm_compute. congruence.
Defined.

Lemma EmplaceBack_within_capacity_keeps_addresses_witness :
  let w := one_vector [Some 1; Some 2; None] 2 3 in
  ∃ first pos w',
    begin_ 1 w = Ok first w
    ∧ EmplaceBack plain 1 (InPlace 9) w = Ok pos w'
    ∧ begin_ 1 w' = Ok first w'
    ∧ repr plain w' 1 [1; 2; 9] 3
    ∧ next_block w' = next_block w
    ∧ calls w' = bump CtorArgs (calls w)
    ∧ (∀ (i : nat) y, [1; 2] !! i = Some y →
         load (first +ₚ Z.of_nat i) w = Ok y w
         ∧ load (first +ₚ Z.of_nat i) w' = Ok y w').
Proof.
  apply (EmplaceBack_within_capacity_keeps_addresses plain
           (one_vector (cells [1; 2] 3) 2 3) 1%positive [1; 2] 3
           (InPlace 9) 9).
  - exact plain_never_throws.
  - apply (one_vector_repr [1; 2] 3). vm_compute. split; congruence.
  - reflexivity.
  - left. reflexivity.
Defined.

Lemma Vector_at_checked_witness :
  let w := one_vector [Some 1; Some 2; None] 2 3 in
  ((∀ x, [1; 2] !! 1%nat = Some x →
      ∃ p, Vector_at 1 1 w = Ok p w ∧ load p w = Ok x w)
   ∧ ((2 ≤ 1)%nat → Vector_at 1 1 w = AssertFail))
  ∧ ((∀ x, [1; 2] !! 2%nat = Some x →
        ∃ p, Vector_at 1 2 w = Ok p w ∧ load p w = Ok x w)
     ∧ ((2 ≤ 2)%nat → Vector_at 1 2 w = AssertFail)).
Proof.
  split.
  - apply (Vector_at_checked plain (one_vector (cells [1; 2] 3) 2 3)
             1%positive [1; 2] 3 1).
    apply (one_vector_repr [1; 2] 3). vm_compute. split; congruence.
  - apply (Vector_at_checked plain (one_vector (cells [1; 2] 3) 2 3)
             1%positive [1; 2] 3 2).
    apply (one_vector_repr [1; 2] 3). vm_compute. split; congruence.
Defined.

Lemma begin_end_range_witness :
  let w := one_vector [Some 1; Some 2; None] 2 3 in
  ∃ first,
    begin_ 1 w = Ok first w
    ∧ end_ 1 w = Ok (first +ₚ 2) w
    ∧ distance first (first +ₚ 2) w = Ok 2%nat w
    ∧ (∀ (i : nat) x, [1; 2] !! i = Some x →
         load (first +ₚ Z.of_nat i) w = Ok x w)
    ∧ load (first +ₚ 2) w = Undef.
Proof.
  apply (begin_end_range plain (one_vector (cells [1; 2] 3) 2 3) 1%positive
           [1; 2] 3).
  apply (one_vector_repr [1; 2] 3). vm_compute. split; congruence.
Defined.

Lemma Erase_removes_element_witness :
  let w := one_vector [Some 1; Some 2; Some 3; None] 3 4 in
  ∃ first w',
    begin_ 1 w = Ok first w
    ∧ Erase plain 1 (first +ₚ 1) w = Ok (first +ₚ 1) w'
    ∧ repr plain w' 1 [1; 3] 4
    ∧ begin_ 1 w' = Ok first w'
    ∧ live w' = live w - 1
    ∧ calls w' = bumps MoveAssign 1 (calls w).
Proof.
  apply (Erase_removes_element plain (one_vector (cells [1; 2; 3] 4) 3 4)
           1%positive [1] 2 [3] 4).
  - exact plain_never_throws.
  - apply (one_vector_repr [1; 2; 3] 4). vm_compute. split; congruence.
Defined.

(** ** Swapping and assigning *)

Lemma two_vectors_wf : heap_wf two_vectors.
Proof.
  intros b [cs Hb]. simpl in *.
  apply lookup_insert_Some in Hb as [[<- _]|[_ Hb]]; [lia|].
  apply lookup_singleton_Some in Hb as [<- _]. lia.
Qed.

Lemma two_vectors_repr_1 : repr plain two_vectors 1 [1; 2] 2.
Proof.
  exists (Ptr (Some 1%positive) 0).
  split; [reflexivity|split; [reflexivity|]].
  vm_compute. split; congruence.
Qed.

Lemma two_vectors_repr_2 : repr plain two_vectors 2 [7] 1.
Proof.
  exists (Ptr (Some 2%positive) 0).
  split; [reflexivity|split; [reflexivity|]].
  vm_compute. split; congruence.
Qed.

Lemma two_vectors_independent (a b : positive) :
  (a = 1%positive ∧ b = 2%positive) ∨ (a = 2%positive ∧ b = 1%positive) →
  independent a b two_vectors.
Proof.
  intros [[-> ->]|[-> ->]].
  - split; [done|]. split; [|split].
    + intros v [= <-] blk [= <-]. reflexivity.
    + intros v [= <-] blk [= <-]. reflexivity.
    + intros blk [= <-]. done.
  - split; [done|]. split; [|split].
    + intros v [= <-] blk [= <-]. reflexivity.
    + intros v [= <-] blk [= <-]. reflexivity.
    + intros blk [= <-]. done.
Qed.

Section Exchange.

Context {A : Type} (T : ElemType A).

Implicit Types (w : World (A:=A)) (xs ys : list A).

Lemma repr_with_vecs w w' o this v xs (cap : Z) :
  repr T w o xs cap → vecs w !! o = Some v →
  heap w' = heap w → vecs w' !! this = Some v →
  repr T w' this xs cap.
Proof.
  intros (buf & Hv & Hst & Hlen) Hv1 Hh Hv'.
  rewrite Hv in Hv1. injection Hv1 as <-.
  exists buf. split; [done|]. split; [|done].
  destruct (storage_cases _ _ _ Hst) as [[-> ->]|(b & -> & Hb)]; [done|].
  cbn [storage]. by rewrite Hh.
Qed.

(** X14: [Swap] of two vectors exchanges their contents and touches no
    element: afterwards each vector holds the elements and has the
    capacity the other had, while the blocks, the number of live
    instances and the counts of constructor and assignment invocations
    are the same, and nothing was allocated. *)
Theorem Swap_exchanges w a b xs ys (ca cb : Z) :
  a ≠ b → repr T w a xs ca → repr T w b ys cb →
  ∃ w', Swap a b w = Ok tt w'
        ∧ repr T w' a ys cb ∧ repr T w' b xs ca
        ∧ heap w' = heap w ∧ next_block w' = next_block w
        ∧ calls w' = calls w ∧ live w' = live w.
Proof.
  intros Hne Hra Hrb.
  pose proof Hra as (bufa & Hva & _). pose proof Hrb as (bufb & Hvb & _).
  eexists. split; [by apply Swap_distinct|].
  split; [|split; [|done]].
  - eapply (repr_with_vecs w _ b a); [done|done|done|].
    wsimpl. rewrite lookup_insert_ne by done. by rewrite lookup_insert_eq.
  - eapply (repr_with_vecs w _ a b); [done|done|done|].
    wsimpl. by rewrite lookup_insert_eq.
Qed.

(** X15: [Swap] is its own inverse, and swapping a vector with itself
    changes nothing: in both cases the world afterwards is the world
    before. *)
Theorem Swap_twice_restores w a b va vb :
  vecs w !! a = Some va → vecs w !! b = Some vb →
  bind (Swap a b) (λ _, Swap a b) w = Ok tt w
  ∧ Swap a a w = Ok tt w.
Proof.
  intros Ha Hb.
  assert (Swap a a w = Ok tt w) as Hself.
  { destruct va as [[bufa capa] sa].
    unfold Swap, swap_data, RawMemory_move_assign, RawMemory_move_ctor,
      RawMemory_Swap.
    munfold. rewrite decide_True by done.
    repeat first [ rewrite lookup_insert_eq
                 | rewrite Ha
                 | progress cbn [Deallocate nullptr Z.eqb]
                 | progress munfold
                 | progress wsimpl ].
    apply Ok_World_eq; wsimpl; try done.
    rewrite !insert_insert_eq. by apply insert_id. }
  split; [|done].
  destruct (decide (a = b)) as [->|Hne].
  - by rewrite (bind_Ok _ _ _ _ _ Hself).
  - rewrite (bind_Ok _ _ _ _ _ (Swap_distinct _ _ _ _ _ Hne Ha Hb)).
    rewrite (Swap_distinct _ a b vb va); [|done|..].
    + apply Ok_World_eq; wsimpl; try done.
      apply map_eq. intros k.
      destruct (decide (k = b)) as [->|];
        [|destruct (decide (k = a)) as [->|]];
        repeat first [ rewrite lookup_insert_eq
                     | rewrite lookup_insert_ne by congruence ]; done.
    + wsimpl. rewrite lookup_insert_ne by done. by rewrite lookup_insert_eq.
    + wsimpl. by rewrite lookup_insert_eq.
Qed.

End Exchange.

Section Assignment.

Context {A : Type} (T : ElemType A).

Implicit Types (w : World (A:=A)) (xs ys : list A).

(** X16: copy assignment between two vectors with separate storage:
    afterwards the target holds the elements of the right-hand side,
    which is unchanged.  The capacity of the target is unchanged when the
    right-hand side fits into it, and is exactly the length of the
    right-hand side otherwise.  The number of live instances changes by
    the difference of the two lengths: the old elements of the target
    are all destroyed or assigned over, none is leaked. *)
Theorem copy_assign_vec_copies w this rhs xs ys (ca cb : Z) :
  never_throws T → heap_wf w →
  repr T w this xs ca → repr T w rhs ys cb → independent this rhs w →
  ∃ w', copy_assign_vec T this rhs w = Ok tt w'
        ∧ repr T w' this ys
            (if ca <? Z.of_nat (length ys) then Z.of_nat (length ys) else ca)
        ∧ repr T w' rhs ys cb
        ∧ live w' = live w - Z.of_nat (length xs) + Z.of_nat (length ys).
Proof.
  intros NT Hwf Hra Hrr Hind.
  destruct (Z.ltb_spec ca (Z.of_nat (length ys))) as [Hlt|Hge].
  - destruct (copy_assign_vec_grow T NT w this rhs xs ys ca cb
                Hwf Hra Hrr Hind Hlt)
      as (w' & Hrun & Hr1 & Hr2 & _ & Hlive & _).
    by exists w'.
  - destruct (copy_assign_vec_reuse T NT w this rhs xs ys ca cb
                Hwf Hra Hrr Hind Hge)
      as (w' & Hrun & Hr1 & Hr2 & _ & Hlive & _).
    by exists w'.
Qed.

(** X17: copy assignment reuses the storage of the target when the
    right-hand side fits into its capacity: nothing is allocated and the
    buffer and the capacity of the target are the same, so [begin()] is
    unchanged.  Assigning a vector to itself changes nothing at all. *)
Theorem copy_assign_vec_reuses_storage w this rhs xs ys (ca cb : Z) :
  never_throws T → heap_wf w →
  repr T w this xs ca → repr T w rhs ys cb → independent this rhs w →
  Z.of_nat (length ys) ≤ ca →
  (∃ w', copy_assign_vec T this rhs w = Ok tt w'
         ∧ repr T w' this ys ca
         ∧ next_block w' = next_block w
         ∧ (∀ v v', vecs w !! this = Some v → vecs w' !! this = Some v' →
              data_ v' = data_ v))
  ∧ copy_assign_vec T this this w = Ok tt w.
Proof.
  intros NT Hwf Hra Hrr Hind Hge. split.
  - destruct (copy_assign_vec_reuse T NT w this rhs xs ys ca cb
                Hwf Hra Hrr Hind Hge)
      as (w' & Hrun & Hr1 & _ & _ & _ & _ & Hnext & Hdata).
    by exists w'.
  - unfold copy_assign_vec. by rewrite decide_False by (by intros []).
Qed.

(** X18: [RawMemory]'s move assignment hands the target the buffer and
    the capacity of the source, and the source the pointer the target
    held, with capacity 0.  When the target held no block the source is
    left empty and nothing changes in the heap.  When the target owned a
    block, that block is released first, so the source is left with a
    pointer to released storage, and the destructor of the source
    releases it a second time, which is undefined. *)
Theorem RawMemory_move_assign_hands_over w (this rhs : RawMemory) :
  (buffer_ this = nullptr →
     RawMemory_move_assign this rhs w
     = Ok (rhs, {| buffer_ := nullptr; capacity_ := 0 |}) w)
  ∧ (∀ blk cs, buffer_ this = Ptr (Some blk) 0 → heap w !! blk = Some cs →
       ∃ w', RawMemory_move_assign this rhs w
             = Ok (rhs, {| buffer_ := Ptr (Some blk) 0; capacity_ := 0 |}) w'
             ∧ heap w' = delete blk (heap w)
             ∧ RawMemory_dtor {| buffer_ := Ptr (Some blk) 0;
                                 capacity_ := 0 |} w' = Undef).
Proof.
  destruct this as [buf cap], rhs as [bufr capr]. cbn [buffer_]. split.
  - intros ->. unfold RawMemory_move_assign, RawMemory_Swap. by destruct w.
  - intros blk cs -> Hblk. eexists. split; [|split].
    + unfold RawMemory_move_assign, RawMemory_Swap. cbn [buffer_ capacity_].
      by rewrite (bind_Ok _ _ _ _ _ (Deallocate_block _ _ _ Hblk)).
    + done.
    + unfold RawMemory_dtor, Deallocate. cbn [buffer_ heap with_heap].
      by rewrite lookup_delete_eq.
Qed.

End Assignment.

Section RoundTrips.

Context {A : Type} (T : ElemType A).

Implicit Types (w : World (A:=A)) (xs ys : list A).



End RoundTrips.

Lemma Swap_exchanges_witness :
  ∃ w', Swap 1 2 two_vectors = Ok tt w'
        ∧ repr plain w' 1 [7] 1 ∧ repr plain w' 2 [1; 2] 2
        ∧ heap w' = heap two_vectors
        ∧ next_block w' = next_block two_vectors
        ∧ calls w' = calls two_vectors ∧ live w' = live two_vectors.
Proof.
  apply (Swap_exchanges plain two_vectors 1%positive 2%positive [1; 2] [7] 2 1).
  - discriminate.
  - exact two_vectors_repr_1.
  - exact two_vectors_repr_2.
Defined.

Lemma Swap_twice_restores_witness :
  bind (Swap 1 2) (λ _, Swap 1 2) two_vectors = Ok tt two_vectors
  ∧ Swap 1 1 two_vectors = Ok tt two_vectors.
Proof.
  apply (Swap_twice_restores two_vectors 1%positive 2%positive
           {| data_ := {| buffer_ := Ptr (Some 1%positive) 0;
                          capacity_ := 2 |};
              size_ := 2 |}
           {| data_ := {| buffer_ := Ptr (Some 2%positive) 0;
                          capacity_ := 1 |};
              size_ := 1 |}).
  - reflexivity.
  - reflexivity.
Defined.

Lemma copy_assign_vec_copies_witness :
  ∃ w', copy_assign_vec plain 2 1 two_vectors = Ok tt w'
        ∧ repr plain w' 2 [1; 2] 2
        ∧ repr plain w' 1 [1; 2] 2
        ∧ live w' = 4.
Proof.
  apply (copy_assign_vec_copies plain two_vectors 2%positive 1%positive
           [7] [1; 2] 1 2).
  - exact plain_never_throws.
  - exact two_vectors_wf.
  - exact two_vectors_repr_2.
  - exact two_vectors_repr_1.
  - apply two_vectors_independent. by right.
Defined.

Lemma copy_assign_vec_reuses_storage_witness :
  (∃ w', copy_assign_vec plain 1 2 two_vectors = Ok tt w'
         ∧ repr plain w' 1 [7] 2
         ∧ next_block w' = next_block two_vectors
         ∧ (∀ v v', vecs two_vectors !! 1%positive = Some v →
              vecs w' !! 1%positive = Some v' → data_ v' = data_ v))
  ∧ copy_assign_vec plain 1 1 two_vectors = Ok tt two_vectors.
Proof.
  apply (copy_assign_vec_reuses_storage plain two_vectors 1%positive
           2%positive [1; 2] [7] 2 1).
  - exact plain_never_throws.
  - exact two_vectors_wf.
  - exact two_vectors_repr_1.
  - exact two_vectors_repr_2.
  - apply two_vectors_independent. by left.
  - vm_compute. discriminate.
Defined.



Lemma RawMemory_move_assign_hands_over_witness :
  ∃ w', RawMemory_move_assign
          {| buffer_ := Ptr (Some 1%positive) 0; capacity_ := 3 |}
          {| buffer_ := nullptr; capacity_ := 0 |}
          (one_vector [Some 1; Some 2; None] 2 3)
        = Ok ({| buffer_ := nullptr; capacity_ := 0 |},
              {| buffer_ := Ptr (Some 1%positive) 0; capacity_ := 0 |}) w'
        ∧ heap w' = delete 1%positive
                      (heap (one_vector [Some 1; Some 2; None] 2 3))
        ∧ RawMemory_dtor {| buffer_ := Ptr (Some 1%positive) 0;
                            capacity_ := 0 |} w' = Undef.
Proof.
  apply (proj2 (RawMemory_move_assign_hands_over
                  (one_vector [Some 1; Some 2; None] 2 3)
                  {| buffer_ := Ptr (Some 1%positive) 0; capacity_ := 3 |}
                  {| buffer_ := nullptr; capacity_ := 0 |})
           1%positive [Some 1; Some 2; None]).
  - reflexivity.
  - reflexivity.
Defined.

(** ** The strong exception guarantee *)

Section StrongGuarantee.

Context {A : Type} (T : ElemType A).

Implicit Types (w : World (A:=A)) (xs ys : list A).

Lemma repr_rolled_back w w' this xs (cap : Z) :
  repr T w this xs cap → rolled_back w w' → repr T w' this xs cap.
Proof.
  intros (buf & Hv & Hst & Hlen) (Hh & Hv' & _).
  exists buf. split; [by rewrite Hv'|]. split; [|done].
  destruct (storage_cases _ _ _ Hst) as [[-> ->]|(b & -> & Hb)]; [done|].
  cbn [storage]. by rewrite Hh.
Qed.


(** X22: [Reserve] gives the strong exception guarantee for every
    element type whose elements are copied on reallocation, or moved by
    a move constructor that does not throw, and for every capacity whose
    byte count [new_capacity * sizeof(T)] fits into [size_t]: either the
    elements are in storage of the larger of the old capacity and the
    capacity asked for, or the call throws, because the allocator refused
    the request ([std::bad_alloc]) or because a copy constructor threw,
    and then the vector holds its old elements in its old storage, the
    new block is released, and no instance is leaked.  The call has no
    other outcome. *)
Theorem Reserve_strong_guarantee w this xs (cap new_capacity : Z) :
  (use_move T = true → ∀ c, throws T MoveCtor c = false) →
  heap_wf w → repr T w this xs cap →
  new_capacity * Z.pos (sizeof T) < size_max →
  outcome (Reserve T this new_capacity) w
    (λ _ w', repr T w' this xs (Z.max cap new_capacity) ∧ live w' = live w)
    (λ w', rolled_back w w' ∧ repr T w' this xs cap).
Proof.
  intros HM Hwf Hr Hn.
  destruct (Z.le_gt_cases new_capacity cap) as [Hle|Hgt].
  - destruct Hr as (buf & Hv & Hst & Hlen).
    eapply outcome_Ok; [by eapply Reserve_noop; [exact Hv|]|].
    rewrite Z.max_l by lia. split; [by exists buf|done].
  - eapply outcome_weaken;
      [apply (Reserve_outcome T HM w this xs cap new_capacity);
       [done|done|lia|done]| |].
    + intros _ w' (Hr' & Hlive & _). by rewrite Z.max_r by lia.
    + intros w' Hrb. split; [done|]. by eapply repr_rolled_back.
Qed.

End StrongGuarantee.


Lemma Reserve_strong_guarantee_witness :
  let w := one_vector [Some 1; Some 2] 2 2 in
  (∃ w', Reserve (throwing_copy 1) 1 8 w = Throw w'
         ∧ rolled_back w w' ∧ repr (throwing_copy 1) w' 1 [1; 2] 2)
  ∧ (∃ w', Reserve (throwing_copy 1) 1 (2 ^ 61) w = Throw w'
           ∧ rolled_back w w' ∧ repr (throwing_copy 1) w' 1 [1; 2] 2).
Proof.
  split.
  - pose proof (Reserve_strong_guarantee (throwing_copy 1)
                  (one_vector (cells [1; 2] 2) 2 2) 1%positive [1; 2] 2 8
                  ltac:(discriminate) (one_vector_wf _ _ _)
                  (one_vector_repr (T:=(throwing_copy 1)) [1; 2] 2
                     ltac:(vm_compute; split; congruence))
                  eq_refl) as H.
    unfold outcome in H.
    destruct (Reserve (throwing_copy 1) 1 8
                (one_vector (cells [1; 2] 2) 2 2))
      as [r w'|w'| |] eqn:E; [|by exists w'|done|done].
    vm_compute in E. discriminate E.
  - pose proof (Reserve_strong_guarantee (throwing_copy 1)
                  (one_vector (cells [1; 2] 2) 2 2) 1%positive [1; 2] 2
                  (2 ^ 61)
                  ltac:(discriminate) (one_vector_wf _ _ _)
                  (one_vector_repr (T:=(throwing_copy 1)) [1; 2] 2
                     ltac:(vm_compute; split; congruence))
                  eq_refl) as H.
    unfold outcome in H.
    destruct (Reserve (throwing_copy 1) 1 (2 ^ 61)
                (one_vector (cells [1; 2] 2) 2 2))
      as [r w'|w'| |] eqn:E; [|by exists w'|done|done].
    vm_compute in E. discriminate E.
Defined.

(** ** The vector as a sequence *)

Section Sequence.

Context {A : Type} (T : ElemType A).

Implicit Types (w : World (A:=A)) (xs ys : list A).

(** X23: the vector implements the sequence: for an element type whose
    operations do not throw, any series of [PushBack], [EmplaceBack],
    [PopBack], [Insert], [Emplace], [Erase], [Reserve], [Resize] calls
    and element assignments returns and leaves the vector holding
    exactly the sequence that the operations give on lists, as long as
    each call is inside its contract (positions and indices in range,
    [PopBack] on a non-empty vector) and asks for storage the allocator
    provides (at most [PTRDIFF_MAX / sizeof(T)] objects).  The value
    passed to [PushBack] and [Insert] is a value of the caller's or an
    element of the vector itself, by [const T&] or by [T&&]; an element
    passed by [T&&] is left moved-from.  The invariant of the data model
    holds afterwards, and the number of live instances has changed by
    exactly the change of the length, so that nothing was leaked or
    destroyed twice. *)
Theorem Vector_refines_sequence w this xs xs' (cap : Z) ms :
  never_throws T → heap_wf w → repr T w this xs cap →
  list_mutate_all T xs ms = Some xs' →
  ∃ w' cap',
    mutate_all T this ms w = Ok tt w'
    ∧ repr T w' this xs' cap'
    ∧ live w' - Z.of_nat (length xs') = live w - Z.of_nat (length xs).
Proof.
  intros NT Hwf Hr Hms.
  destruct (mutate_all_refines T NT ms w this xs xs' cap Hwf Hr Hms)
    as (w' & cap' & Hrun & Hr' & _ & Hlive).
  by exists w', cap'.
Qed.

(** X24: [Emplace] before an element of a vector with spare capacity
    works in place: nothing is allocated and [begin()] and the capacity
    are unchanged, so the position returned is the position passed.  The
    new value is built once, the last element is move-constructed one
    cell up, and the elements from the position on are shifted by one
    move assignment each, the last of them assigning the new value. *)
Theorem Emplace_within_capacity_shifts_in_place w this xs (cap : Z)
    (p : nat) arg x :
  never_throws T → repr T w this xs cap →
  (p < length xs)%nat → Z.of_nat (length xs) < cap →
  arg = InPlace x ∨ arg = ConstRef (Ext x) ∨ arg = RvalueRef (Ext x) →
  ∃ first w',
    begin_ this w = Ok first w
    ∧ Emplace T this (first +ₚ Z.of_nat p) arg w
      = Ok (first +ₚ Z.of_nat p) w'
    ∧ begin_ this w' = Ok first w'
    ∧ repr T w' this (take p xs ++ x :: drop p xs) cap
    ∧ next_block w' = next_block w
    ∧ calls w' = bumps MoveAssign (length xs - p)
                   (bump MoveCtor (bump (arg_kind arg) (calls w))).
Proof.
  intros NT (buf & Hv & Hst & Hlen) Hp Hcap Harg.
  assert (arg_value w arg = Some x) as Hx
      by (by destruct Harg as [->|[->| ->]]).
  destruct (storage_block _ _ _ Hst) as (b & -> & Hb).
  { unfold cells. destruct xs; [simpl in Hp; lia|done]. }
  assert (∃ ys xl, drop p xs = ys ++ [xl]) as (ys & xl & Hsuf).
  { destruct (drop p xs) as [|y l] eqn:Hd using rev_ind.
    - apply (f_equal length) in Hd. rewrite length_drop in Hd.
      simpl in Hd. lia.
    - by eexists _, _. }
  assert (length (take p xs) = p) as Hpre by (rewrite length_take; lia).
  assert (xs = take p xs ++ ys ++ [xl]) as Hxs
      by (by rewrite <- Hsuf, take_drop).
  assert (length xs = (p + length ys + 1)%nat) as Hlenxs.
  { rewrite Hxs at 1. rewrite !length_app, Hpre. simpl. lia. }
  rewrite Hsuf.
  revert Hpre Hxs. generalize (take p xs). intros pre Hpre Hxs.
  subst xs. subst p.
  rewrite !length_app in *. cbn [length] in *.
  rewrite Nat.add_assoc in *.
  exists (Ptr (Some b) 0). eexists.
  split; [exact (begin_Some _ _ _ Hv)|].
  cbn [ptr_add]. rewrite Z.add_0_l.
  split; [eapply (Emplace_spare T NT); [exact Hv|exact Hb|size_lia|exact Hx]|].
  split; [|split; [|split; [done|]]].
  - unfold begin_.
    erewrite bind_Ok;
      [|apply get_vec_Some; wsimpl; by rewrite lookup_insert_eq].
    done.
  - eapply repr_intro; [wsimpl; by rewrite lookup_insert_eq| | |].
    + rewrite !length_app. cbn [length]. rewrite length_app. simpl. lia.
    + cbn [storage]. wsimpl. by rewrite lookup_insert_eq.
    + rewrite !length_app. cbn [length]. rewrite length_app. simpl. lia.
  - wsimpl.
    replace (length pre + length ys + 1 - length pre)%nat
      with (S (length ys)) by lia.
    reflexivity.
Qed.

(** X25: a call on one vector never changes another vector whose
    storage is separate, for any element type and however the call ends:
    whether [PushBack], [PopBack], [Insert], [Emplace], [Erase],
    [Reserve], [Resize] or an element assignment returns or throws, the
    length, the capacity and every element of the other vector are as
    before, and the two vectors still have separate storage. *)
Theorem mutation_leaves_other_vectors_alone w a b m :
  independent a b w →
  match mutate T a m w with
  | Ok _ w' | Throw w' => same_view w w' b ∧ independent a b w'
  | AssertFail | Undef => True
  end.
Proof.
  intros Hind. pose proof (mutate_frame T a b w m Hind) as Hm.
  destruct (mutate T a m w); try done; by destruct Hm.
Qed.

End Sequence.

(** ** Sizes the allocator cannot provide *)

Section UncheckedSizes.

Context {A : Type} (T : ElemType A).

Implicit Types (w : World (A:=A)) (xs ys : list A).

(** X26: [Vector(size_t size)] does not check the size.  For a size
    whose byte count [size * sizeof(T)] does not fit into [size_t] the
    count wraps around and [operator new] is asked for less; when it
    returns a block, the block has room for fewer than [size] objects
    and the constructor builds elements past its end, which is
    undefined. *)
Theorem Vector_sized_byte_count_wraps w this (size : Z) :
  (∀ c, throws T ValueInit c = false) →
  throws T New (Pos.to_nat (next_block w)) = false →
  0 ≤ size < size_max →
  size_max ≤ size * Z.pos (sizeof T) →
  wrap (size * Z.pos (sizeof T)) ≤ ptrdiff_max →
  Vector_sized T this size w = Undef.
Proof.
  intros Hq Hmem Hsize Hbig Hsmall.
  destruct (Allocate_wrapped T size w) as (k & Hk & Halloc);
    [pose proof (sizeof_size_t T); unfold size_max in *; nia|done|done|done|].
  unfold Vector_sized, RawMemory_ctor.
  rewrite !bind_assoc, (bind_Ok _ _ _ _ _ Halloc), bind_ret.
  rewrite (bind_Ok _ _ _ _ _ (set_vec_eq _ _ _)).
  unfold try_catch. cbn [GetAddress buffer_].
  by erewrite (uninitialized_value_construct_n_overrun T _ _ _ 0);
    [|done|wsimpl; apply lookup_insert_eq|rewrite length_replicate; lia].
Qed.

(** X27: [Reserve] does not check the capacity either.  For a capacity
    whose byte count does not fit into [size_t], the block that
    [operator new] returns for the wrapped count may have room for fewer
    objects than the vector holds; the elements are then transferred
    past the end of the block, which is undefined. *)
Theorem Reserve_byte_count_wraps w this xs (cap new_capacity : Z) :
  never_throws T → heap_wf w → repr T w this xs cap →
  cap < new_capacity < size_max →
  size_max ≤ new_capacity * Z.pos (sizeof T) →
  wrap (new_capacity * Z.pos (sizeof T)) ≤ ptrdiff_max →
  wrap (new_capacity * Z.pos (sizeof T)) / Z.pos (sizeof T)
  < Z.of_nat (length xs) →
  Reserve T this new_capacity w = Undef.
Proof.
  intros NT Hwf (buf & Hv & Hst & Hlen) Hc Hbig Hsmall Hshort.
  assert (0 ≤ wrap (new_capacity * Z.pos (sizeof T)) / Z.pos (sizeof T))
    as Hk0.
  { apply Z.div_pos; [|lia]. apply Z.mod_pos_bound. by unfold size_max. }
  destruct (storage_block _ _ _ Hst) as (b & -> & Hb).
  { unfold cells. destruct xs; [simpl in Hshort; lia|done]. }
  assert (b ≠ next_block w) as Hne.
  { intros ->. specialize (Hwf _ (mk_is_Some _ _ Hb)). lia. }
  unfold Reserve.
  rewrite (bind_Ok _ _ _ _ _ (get_vec_Some _ _ _ Hv)).
  cbn [RawMemory_Capacity data_ capacity_ size_ GetAddress buffer_].
  destruct (Z.leb_spec new_capacity cap); [lia|].
  unfold with_new_data, RawMemory_ctor, Allocate, operator_new.
  destruct (Z.eqb_spec new_capacity 0); [lia|]. cbn [negb].
  rewrite !bind_assoc. unfold bind at 1.
  destruct (Z.ltb_spec ptrdiff_max (wrap (new_capacity * Z.pos (sizeof T))));
    [lia|].
  rewrite (NT New).
  rewrite bind_ret. unfold bind at 1, try_catch. unfold bind at 1.
  cbn [buffer_]. rewrite Nat2Z.id.
  set (w1 := {| heap := _ |}).
  assert (heap w1 !! next_block w
          = Some (replicate
                    (Z.to_nat (wrap (new_capacity * Z.pos (sizeof T))
                               / Z.pos (sizeof T))) None)) as Hnb
      by (unfold w1; wsimpl; apply lookup_insert_eq).
  assert (heap w1 !! b = Some (cells xs cap)) as Hb1
      by (unfold w1; wsimpl; by rewrite lookup_insert_ne).
  destruct (use_move T).
  - by erewrite (uninitialized_move_n_overrun T xs _ b (next_block w) 0 0);
      [|intros c; apply NT|done|exact Hb1|exact Hnb|apply cells_take_drop
       |rewrite length_replicate; lia].
  - by erewrite (uninitialized_copy_n_overrun T xs _ b (next_block w) 0 0);
      [|intros c; apply NT|done|exact Hb1|exact Hnb|apply cells_take_drop
       |rewrite length_replicate; lia].
Qed.

End UncheckedSizes.

Lemma Vector_sized_byte_count_wraps_witness :
  Vector_sized plain 1 (2 ^ 62) no_vectors = Undef.
Proof.
  apply (Vector_sized_byte_count_wraps plain no_vectors 1%positive (2 ^ 62)).
  - reflexivity.
  - reflexivity.
  - vm_compute. split; congruence.
  - vm_compute. congruence.
  - vm_compute. congruence.
Defined.

Lemma Reserve_byte_count_wraps_witness :
  Reserve plain 1 (2 ^ 62) (one_vector [Some 1] 1 1) = Undef.
Proof.
  apply (Reserve_byte_count_wraps plain (one_vector (cells [1] 1) 1 1)
           1%positive [1] 1 (2 ^ 62)).
  - exact plain_never_throws.
  - apply one_vector_wf.
  - apply (one_vector_repr [1] 1). vm_compute. split; congruence.
  - vm_compute. split; reflexivity.
  - vm_compute. congruence.
  - vm_compute. congruence.
  - vm_compute. reflexivity.
Defined.

Lemma Vector_refines_sequence_witness :
  ∃ w' cap',
    mutate_all string_like 1
      [MPushBackMove (Element 0); MInsertMove 1 (Element 2);
       MPushBack (Value 3); MInsert 0 (Element 4); MErase 1;
       MResize 6; MAssign 5 7; MPopBack; MReserve 20; MEmplace 2 9]
      (one_vector [Some 1; Some 2] 2 2) = Ok tt w'
    ∧ repr string_like w' 1 [3; 1; 9; 2; 0; 3] cap'
    ∧ live w' - 6 = live (one_vector [Some 1; Some 2] 2 2) - 2.
Proof.
  apply (Vector_refines_sequence string_like
           (one_vector (cells [1; 2] 2) 2 2)
           1%positive [1; 2] [3; 1; 9; 2; 0; 3] 2).
  - exact string_like_never_throws.
  - apply one_vector_wf.
  - apply (one_vector_repr [1; 2] 2). vm_compute. split; congruence.
  - vm_compute. reflexivity.
Defined.

Lemma Emplace_within_capacity_shifts_in_place_witness :
  let w := one_vector [Some 1; Some 2; Some 3; None] 3 4 in
  ∃ first w',
    begin_ 1 w = Ok first w
    ∧ Emplace plain 1 (first +ₚ 1) (InPlace 9) w = Ok (first +ₚ 1) w'
    ∧ begin_ 1 w' = Ok first w'
    ∧ repr plain w' 1 [1; 9; 2; 3] 4
    ∧ next_block w' = next_block w
    ∧ calls w' = bumps MoveAssign 2
                   (bump MoveCtor (bump CtorArgs (calls w))).
Proof.
  apply (Emplace_within_capacity_shifts_in_place plain
           (one_vector (cells [1; 2; 3] 4) 3 4) 1%positive [1; 2; 3] 4 1
           (InPlace 9) 9).
  - exact plain_never_throws.
  - apply (one_vector_repr [1; 2; 3] 4). vm_compute. split; congruence.
  - simpl. lia.
  - reflexivity.
  - left. reflexivity.
Defined.

Lemma mutation_leaves_other_vectors_alone_witness :
  match mutate (throwing_copy 1) 1 (MPushBack (Value 5)) two_vectors with
  | Ok _ w' | Throw w' =>
      same_view two_vectors w' 2 ∧ independent 1 2 w'
  | AssertFail | Undef => True
  end.
Proof.
  apply (mutation_leaves_other_vectors_alone (throwing_copy 1) two_vectors
           1%positive 2%positive (MPushBack (Value 5))).
  apply two_vectors_independent. by left.
Defined.

